(** * Tiny: bytecode compiler, stack machine and mark-and-sweep collector

    A shallow embedding of [tiny.c].  The interpreter keeps its whole
    state in C globals; here they are the fields of one record,
    [machine], threaded through a state-and-failure monad.  Every
    function below carries the name of the C function it follows. *)

From Stdlib Require Import ZArith Ascii Floats.SpecFloat.
From stdpp Require Import gmap list strings.

Open Scope Z_scope.

(** ** Limits ([#define]s at the top of the file) *)

Definition MAX_PROG_LEN : Z := 2048.
Definition MAX_CONST_AMT : Z := 256.
Definition MAX_STACK : Z := 1024.
Definition MAX_INDIR : Z := 1024.
Definition MAX_VARS : Z := 128.
Definition MAX_FUNCS : Z := 128.
Definition MAX_ARGS : Z := 32.
Definition MAX_MEMBERS : Z := 32.
Definition MAX_READ_WRITE : Z := 128.

Definition INT_MIN : Z := -2147483648.
Definition INT_MAX : Z := 2147483647.

(** ** Numbers

    [double] is the IEEE 754 binary64 value set of the Standard Library
    ([spec_float], precision 53, exponent bound 1024); all NaNs are one
    value.  The C operators are the library's operations. *)

Definition double : Type := spec_float.

Definition dzero : double := S754_zero false.
Definition double_of_int (z : Z) : double := binary_normalize 53 1024 z 0 false.
Definition done_ : double := Eval vm_compute in double_of_int 1.

Definition dadd : double -> double -> double := SFadd 53 1024.
Definition dsub : double -> double -> double := SFsub 53 1024.
Definition dmul : double -> double -> double := SFmul 53 1024.
Definition ddiv : double -> double -> double := SFdiv 53 1024.

(** [==] on doubles: IEEE equality, so a NaN differs from itself and the
    two zeros are equal. *)
Definition deq (x y : double) : bool := SFeqb x y.
Definition dlt (x y : double) : bool := SFltb x y.
Definition dle (x y : double) : bool := SFleb x y.

(** The value of a C comparison, stored into a [double]. *)
Definition double_of_bool (b : bool) : double := if b then done_ else dzero.

(** [(int)d]: the value truncated toward zero; there is no result (the
    conversion is undefined in C) for NaN, infinities and values
    outside [int]. *)
Definition int_of_double (d : double) : option Z :=
  match d with
  | S754_zero _ => Some 0
  | S754_finite s m e =>
      let mag := Z.shiftl (Zpos m) e in
      let z := if s then - mag else mag in
      if (INT_MIN <=? z) && (z <=? INT_MAX) then Some z else None
  | _ => None
  end.

(** ** Heap objects *)

Definition addr : Type := positive.

(** An [Object*]: [None] is the null pointer. *)
Definition ptr : Type := option addr.

Inductive ObjectType := OBJ_NUM | OBJ_STRING | OBJ_ARRAY | OBJ_NATIVE.

(** The tag together with the member of the union it selects.  An array
    has [length = capacity = length values].  A native object holds the
    host pointer, whether a [ptrFree] hook is present, and its [ptrMark]
    hook: the hook is host code, represented by the objects it hands to
    [Mark] ([None]: no hook). *)
Inductive Value :=
| Num (number : double)
| Str (text : string)
| Arr (values : list ptr)
| Native (host : Z) (ptrFree : bool) (ptrMark : option (list ptr)).

Record Object := mkObject { marked : bool; val : Value }.

Definition type (o : Object) : ObjectType :=
  match val o with
  | Num _ => OBJ_NUM
  | Str _ => OBJ_STRING
  | Arr _ => OBJ_ARRAY
  | Native _ _ _ => OBJ_NATIVE
  end.

(** What [NewObject] leaves in the union before the caller fills it in;
    no code path reads it. *)
Definition blank (t : ObjectType) : Value :=
  match t with
  | OBJ_NUM => Num dzero
  | OBJ_STRING => Str ""
  | OBJ_ARRAY => Arr []
  | OBJ_NATIVE => Native 0 false None
  end.

(** ** Tables *)

Inductive ConstInfo := CST_NUM (number : double) | CST_STR (text : string).

Record VarInfo := mkVar {
  name : string;
  initialized : bool;
  object : ptr;
  members : list string
}.

Definition no_var : VarInfo := mkVar "" false None [].

Record LocalDecl := mkLocal { local_name : string; index : Z; scope : Z }.

(** One token as [GetToken] delivers it: the [int] it returns, and what
    it leaves in [TokenBuffer] and [TokenNumber] when it writes them. *)
Record lexeme := mkLexeme {
  tok : Z;
  tok_text : option string;
  tok_number : option double
}.

(** What the program writes to standard output. *)
Inductive out_event :=
| PrintNum (d : double)      (* printf("%g\n", d) *)
| PrintStr (s : string).     (* printf("%s\n", s) *)

(** ** The machine: every global of [tiny.c]

    Fixed C arrays are lists of their declared length; [Constants]
    holds entries [0 .. ConstantAmount-1].  The heap maps the address
    of each live object to its contents; [GCHead] is the chain of
    objects linked by their [next] field, newest first; [next_addr]
    is the address the next [malloc] of an object returns (addresses
    are never reused, so that a pointer to a freed object stays
    recognisable). *)

Record machine := Machine {
  Program : list Z;
  ProgramLength : Z;
  ProgramCounter : Z;
  FramePointer : Z;
  heap : gmap addr Object;
  next_addr : addr;
  GCHead : list addr;
  NumObjects : Z;
  MaxNumObjects : Z;
  Stack : list ptr;
  StackSize : Z;
  IndirStack : list Z;
  IndirStackSize : Z;
  Variables : list VarInfo;
  VariableAmount : Z;
  RuntimeVariableAmount : Z;
  FunctionNames : list string;
  FunctionPcs : list Z;
  FunctionAmount : Z;
  ForeignFunctionNames : list string;
  ForeignAmount : Z;
  CurrScope : Z;
  CurrNumLocals : Z;
  NumArgsDeclared : Z;
  LocalDeclarations : list LocalDecl;
  Constants : list ConstInfo;
  CurTok : Z;
  TokenBuffer : string;
  TokenNumber : double;
  input : list lexeme;
  stdin : list string;
  stdout : list out_event
}.

Definition set_Program v (m : machine) : machine :=
  Machine v (ProgramLength m) (ProgramCounter m) (FramePointer m) (heap m)
    (next_addr m) (GCHead m) (NumObjects m) (MaxNumObjects m) (Stack m)
    (StackSize m) (IndirStack m) (IndirStackSize m) (Variables m)
    (VariableAmount m) (RuntimeVariableAmount m) (FunctionNames m)
    (FunctionPcs m) (FunctionAmount m) (ForeignFunctionNames m)
    (ForeignAmount m) (CurrScope m) (CurrNumLocals m) (NumArgsDeclared m)
    (LocalDeclarations m) (Constants m) (CurTok m) (TokenBuffer m)
    (TokenNumber m) (input m) (stdin m) (stdout m).

Definition set_ProgramLength v (m : machine) : machine :=
  Machine (Program m) v (ProgramCounter m) (FramePointer m) (heap m)
    (next_addr m) (GCHead m) (NumObjects m) (MaxNumObjects m) (Stack m)
    (StackSize m) (IndirStack m) (IndirStackSize m) (Variables m)
    (VariableAmount m) (RuntimeVariableAmount m) (FunctionNames m)
    (FunctionPcs m) (FunctionAmount m) (ForeignFunctionNames m)
    (ForeignAmount m) (CurrScope m) (CurrNumLocals m) (NumArgsDeclared m)
    (LocalDeclarations m) (Constants m) (CurTok m) (TokenBuffer m)
    (TokenNumber m) (input m) (stdin m) (stdout m).

Definition set_ProgramCounter v (m : machine) : machine :=
  Machine (Program m) (ProgramLength m) v (FramePointer m) (heap m)
    (next_addr m) (GCHead m) (NumObjects m) (MaxNumObjects m) (Stack m)
    (StackSize m) (IndirStack m) (IndirStackSize m) (Variables m)
    (VariableAmount m) (RuntimeVariableAmount m) (FunctionNames m)
    (FunctionPcs m) (FunctionAmount m) (ForeignFunctionNames m)
    (ForeignAmount m) (CurrScope m) (CurrNumLocals m) (NumArgsDeclared m)
    (LocalDeclarations m) (Constants m) (CurTok m) (TokenBuffer m)
    (TokenNumber m) (input m) (stdin m) (stdout m).

Definition set_FramePointer v (m : machine) : machine :=
  Machine (Program m) (ProgramLength m) (ProgramCounter m) v (heap m)
    (next_addr m) (GCHead m) (NumObjects m) (MaxNumObjects m) (Stack m)
    (StackSize m) (IndirStack m) (IndirStackSize m) (Variables m)
    (VariableAmount m) (RuntimeVariableAmount m) (FunctionNames m)
    (FunctionPcs m) (FunctionAmount m) (ForeignFunctionNames m)
    (ForeignAmount m) (CurrScope m) (CurrNumLocals m) (NumArgsDeclared m)
    (LocalDeclarations m) (Constants m) (CurTok m) (TokenBuffer m)
    (TokenNumber m) (input m) (stdin m) (stdout m).

Definition set_heap v (m : machine) : machine :=
  Machine (Program m) (ProgramLength m) (ProgramCounter m) (FramePointer m) v
    (next_addr m) (GCHead m) (NumObjects m) (MaxNumObjects m) (Stack m)
    (StackSize m) (IndirStack m) (IndirStackSize m) (Variables m)
    (VariableAmount m) (RuntimeVariableAmount m) (FunctionNames m)
    (FunctionPcs m) (FunctionAmount m) (ForeignFunctionNames m)
    (ForeignAmount m) (CurrScope m) (CurrNumLocals m) (NumArgsDeclared m)
    (LocalDeclarations m) (Constants m) (CurTok m) (TokenBuffer m)
    (TokenNumber m) (input m) (stdin m) (stdout m).

Definition set_next_addr v (m : machine) : machine :=
  Machine (Program m) (ProgramLength m) (ProgramCounter m) (FramePointer m)
    (heap m) v (GCHead m) (NumObjects m) (MaxNumObjects m) (Stack m)
    (StackSize m) (IndirStack m) (IndirStackSize m) (Variables m)
    (VariableAmount m) (RuntimeVariableAmount m) (FunctionNames m)
    (FunctionPcs m) (FunctionAmount m) (ForeignFunctionNames m)
    (ForeignAmount m) (CurrScope m) (CurrNumLocals m) (NumArgsDeclared m)
    (LocalDeclarations m) (Constants m) (CurTok m) (TokenBuffer m)
    (TokenNumber m) (input m) (stdin m) (stdout m).

Definition set_GCHead v (m : machine) : machine :=
  Machine (Program m) (ProgramLength m) (ProgramCounter m) (FramePointer m)
    (heap m) (next_addr m) v (NumObjects m) (MaxNumObjects m) (Stack m)
    (StackSize m) (IndirStack m) (IndirStackSize m) (Variables m)
    (VariableAmount m) (RuntimeVariableAmount m) (FunctionNames m)
    (FunctionPcs m) (FunctionAmount m) (ForeignFunctionNames m)
    (ForeignAmount m) (CurrScope m) (CurrNumLocals m) (NumArgsDeclared m)
    (LocalDeclarations m) (Constants m) (CurTok m) (TokenBuffer m)
    (TokenNumber m) (input m) (stdin m) (stdout m).

Definition set_NumObjects v (m : machine) : machine :=
  Machine (Program m) (ProgramLength m) (ProgramCounter m) (FramePointer m)
    (heap m) (next_addr m) (GCHead m) v (MaxNumObjects m) (Stack m)
    (StackSize m) (IndirStack m) (IndirStackSize m) (Variables m)
    (VariableAmount m) (RuntimeVariableAmount m) (FunctionNames m)
    (FunctionPcs m) (FunctionAmount m) (ForeignFunctionNames m)
    (ForeignAmount m) (CurrScope m) (CurrNumLocals m) (NumArgsDeclared m)
    (LocalDeclarations m) (Constants m) (CurTok m) (TokenBuffer m)
    (TokenNumber m) (input m) (stdin m) (stdout m).

Definition set_MaxNumObjects v (m : machine) : machine :=
  Machine (Program m) (ProgramLength m) (ProgramCounter m) (FramePointer m)
    (heap m) (next_addr m) (GCHead m) (NumObjects m) v (Stack m)
    (StackSize m) (IndirStack m) (IndirStackSize m) (Variables m)
    (VariableAmount m) (RuntimeVariableAmount m) (FunctionNames m)
    (FunctionPcs m) (FunctionAmount m) (ForeignFunctionNames m)
    (ForeignAmount m) (CurrScope m) (CurrNumLocals m) (NumArgsDeclared m)
    (LocalDeclarations m) (Constants m) (CurTok m) (TokenBuffer m)
    (TokenNumber m) (input m) (stdin m) (stdout m).

Definition set_Stack v (m : machine) : machine :=
  Machine (Program m) (ProgramLength m) (ProgramCounter m) (FramePointer m)
    (heap m) (next_addr m) (GCHead m) (NumObjects m) (MaxNumObjects m) v
    (StackSize m) (IndirStack m) (IndirStackSize m) (Variables m)
    (VariableAmount m) (RuntimeVariableAmount m) (FunctionNames m)
    (FunctionPcs m) (FunctionAmount m) (ForeignFunctionNames m)
    (ForeignAmount m) (CurrScope m) (CurrNumLocals m) (NumArgsDeclared m)
    (LocalDeclarations m) (Constants m) (CurTok m) (TokenBuffer m)
    (TokenNumber m) (input m) (stdin m) (stdout m).

Definition set_StackSize v (m : machine) : machine :=
  Machine (Program m) (ProgramLength m) (ProgramCounter m) (FramePointer m)
    (heap m) (next_addr m) (GCHead m) (NumObjects m) (MaxNumObjects m)
    (Stack m) v (IndirStack m) (IndirStackSize m) (Variables m)
    (VariableAmount m) (RuntimeVariableAmount m) (FunctionNames m)
    (FunctionPcs m) (FunctionAmount m) (ForeignFunctionNames m)
    (ForeignAmount m) (CurrScope m) (CurrNumLocals m) (NumArgsDeclared m)
    (LocalDeclarations m) (Constants m) (CurTok m) (TokenBuffer m)
    (TokenNumber m) (input m) (stdin m) (stdout m).

Definition set_IndirStack v (m : machine) : machine :=
  Machine (Program m) (ProgramLength m) (ProgramCounter m) (FramePointer m)
    (heap m) (next_addr m) (GCHead m) (NumObjects m) (MaxNumObjects m)
    (Stack m) (StackSize m) v (IndirStackSize m) (Variables m)
    (VariableAmount m) (RuntimeVariableAmount m) (FunctionNames m)
    (FunctionPcs m) (FunctionAmount m) (ForeignFunctionNames m)
    (ForeignAmount m) (CurrScope m) (CurrNumLocals m) (NumArgsDeclared m)
    (LocalDeclarations m) (Constants m) (CurTok m) (TokenBuffer m)
    (TokenNumber m) (input m) (stdin m) (stdout m).

Definition set_IndirStackSize v (m : machine) : machine :=
  Machine (Program m) (ProgramLength m) (ProgramCounter m) (FramePointer m)
    (heap m) (next_addr m) (GCHead m) (NumObjects m) (MaxNumObjects m)
    (Stack m) (StackSize m) (IndirStack m) v (Variables m) (VariableAmount m)
    (RuntimeVariableAmount m) (FunctionNames m) (FunctionPcs m)
    (FunctionAmount m) (ForeignFunctionNames m) (ForeignAmount m)
    (CurrScope m) (CurrNumLocals m) (NumArgsDeclared m) (LocalDeclarations m)
    (Constants m) (CurTok m) (TokenBuffer m) (TokenNumber m) (input m)
    (stdin m) (stdout m).

Definition set_Variables v (m : machine) : machine :=
  Machine (Program m) (ProgramLength m) (ProgramCounter m) (FramePointer m)
    (heap m) (next_addr m) (GCHead m) (NumObjects m) (MaxNumObjects m)
    (Stack m) (StackSize m) (IndirStack m) (IndirStackSize m) v
    (VariableAmount m) (RuntimeVariableAmount m) (FunctionNames m)
    (FunctionPcs m) (FunctionAmount m) (ForeignFunctionNames m)
    (ForeignAmount m) (CurrScope m) (CurrNumLocals m) (NumArgsDeclared m)
    (LocalDeclarations m) (Constants m) (CurTok m) (TokenBuffer m)
    (TokenNumber m) (input m) (stdin m) (stdout m).

Definition set_VariableAmount v (m : machine) : machine :=
  Machine (Program m) (ProgramLength m) (ProgramCounter m) (FramePointer m)
    (heap m) (next_addr m) (GCHead m) (NumObjects m) (MaxNumObjects m)
    (Stack m) (StackSize m) (IndirStack m) (IndirStackSize m) (Variables m) v
    (RuntimeVariableAmount m) (FunctionNames m) (FunctionPcs m)
    (FunctionAmount m) (ForeignFunctionNames m) (ForeignAmount m)
    (CurrScope m) (CurrNumLocals m) (NumArgsDeclared m) (LocalDeclarations m)
    (Constants m) (CurTok m) (TokenBuffer m) (TokenNumber m) (input m)
    (stdin m) (stdout m).

Definition set_RuntimeVariableAmount v (m : machine) : machine :=
  Machine (Program m) (ProgramLength m) (ProgramCounter m) (FramePointer m)
    (heap m) (next_addr m) (GCHead m) (NumObjects m) (MaxNumObjects m)
    (Stack m) (StackSize m) (IndirStack m) (IndirStackSize m) (Variables m)
    (VariableAmount m) v (FunctionNames m) (FunctionPcs m) (FunctionAmount m)
    (ForeignFunctionNames m) (ForeignAmount m) (CurrScope m)
    (CurrNumLocals m) (NumArgsDeclared m) (LocalDeclarations m) (Constants m)
    (CurTok m) (TokenBuffer m) (TokenNumber m) (input m) (stdin m)
    (stdout m).

Definition set_FunctionNames v (m : machine) : machine :=
  Machine (Program m) (ProgramLength m) (ProgramCounter m) (FramePointer m)
    (heap m) (next_addr m) (GCHead m) (NumObjects m) (MaxNumObjects m)
    (Stack m) (StackSize m) (IndirStack m) (IndirStackSize m) (Variables m)
    (VariableAmount m) (RuntimeVariableAmount m) v (FunctionPcs m)
    (FunctionAmount m) (ForeignFunctionNames m) (ForeignAmount m)
    (CurrScope m) (CurrNumLocals m) (NumArgsDeclared m) (LocalDeclarations m)
    (Constants m) (CurTok m) (TokenBuffer m) (TokenNumber m) (input m)
    (stdin m) (stdout m).

Definition set_FunctionPcs v (m : machine) : machine :=
  Machine (Program m) (ProgramLength m) (ProgramCounter m) (FramePointer m)
    (heap m) (next_addr m) (GCHead m) (NumObjects m) (MaxNumObjects m)
    (Stack m) (StackSize m) (IndirStack m) (IndirStackSize m) (Variables m)
    (VariableAmount m) (RuntimeVariableAmount m) (FunctionNames m) v
    (FunctionAmount m) (ForeignFunctionNames m) (ForeignAmount m)
    (CurrScope m) (CurrNumLocals m) (NumArgsDeclared m) (LocalDeclarations m)
    (Constants m) (CurTok m) (TokenBuffer m) (TokenNumber m) (input m)
    (stdin m) (stdout m).

Definition set_FunctionAmount v (m : machine) : machine :=
  Machine (Program m) (ProgramLength m) (ProgramCounter m) (FramePointer m)
    (heap m) (next_addr m) (GCHead m) (NumObjects m) (MaxNumObjects m)
    (Stack m) (StackSize m) (IndirStack m) (IndirStackSize m) (Variables m)
    (VariableAmount m) (RuntimeVariableAmount m) (FunctionNames m)
    (FunctionPcs m) v (ForeignFunctionNames m) (ForeignAmount m)
    (CurrScope m) (CurrNumLocals m) (NumArgsDeclared m) (LocalDeclarations m)
    (Constants m) (CurTok m) (TokenBuffer m) (TokenNumber m) (input m)
    (stdin m) (stdout m).

Definition set_ForeignFunctionNames v (m : machine) : machine :=
  Machine (Program m) (ProgramLength m) (ProgramCounter m) (FramePointer m)
    (heap m) (next_addr m) (GCHead m) (NumObjects m) (MaxNumObjects m)
    (Stack m) (StackSize m) (IndirStack m) (IndirStackSize m) (Variables m)
    (VariableAmount m) (RuntimeVariableAmount m) (FunctionNames m)
    (FunctionPcs m) (FunctionAmount m) v (ForeignAmount m) (CurrScope m)
    (CurrNumLocals m) (NumArgsDeclared m) (LocalDeclarations m) (Constants m)
    (CurTok m) (TokenBuffer m) (TokenNumber m) (input m) (stdin m)
    (stdout m).

Definition set_ForeignAmount v (m : machine) : machine :=
  Machine (Program m) (ProgramLength m) (ProgramCounter m) (FramePointer m)
    (heap m) (next_addr m) (GCHead m) (NumObjects m) (MaxNumObjects m)
    (Stack m) (StackSize m) (IndirStack m) (IndirStackSize m) (Variables m)
    (VariableAmount m) (RuntimeVariableAmount m) (FunctionNames m)
    (FunctionPcs m) (FunctionAmount m) (ForeignFunctionNames m) v
    (CurrScope m) (CurrNumLocals m) (NumArgsDeclared m) (LocalDeclarations m)
    (Constants m) (CurTok m) (TokenBuffer m) (TokenNumber m) (input m)
    (stdin m) (stdout m).

Definition set_CurrScope v (m : machine) : machine :=
  Machine (Program m) (ProgramLength m) (ProgramCounter m) (FramePointer m)
    (heap m) (next_addr m) (GCHead m) (NumObjects m) (MaxNumObjects m)
    (Stack m) (StackSize m) (IndirStack m) (IndirStackSize m) (Variables m)
    (VariableAmount m) (RuntimeVariableAmount m) (FunctionNames m)
    (FunctionPcs m) (FunctionAmount m) (ForeignFunctionNames m)
    (ForeignAmount m) v (CurrNumLocals m) (NumArgsDeclared m)
    (LocalDeclarations m) (Constants m) (CurTok m) (TokenBuffer m)
    (TokenNumber m) (input m) (stdin m) (stdout m).

Definition set_CurrNumLocals v (m : machine) : machine :=
  Machine (Program m) (ProgramLength m) (ProgramCounter m) (FramePointer m)
    (heap m) (next_addr m) (GCHead m) (NumObjects m) (MaxNumObjects m)
    (Stack m) (StackSize m) (IndirStack m) (IndirStackSize m) (Variables m)
    (VariableAmount m) (RuntimeVariableAmount m) (FunctionNames m)
    (FunctionPcs m) (FunctionAmount m) (ForeignFunctionNames m)
    (ForeignAmount m) (CurrScope m) v (NumArgsDeclared m)
    (LocalDeclarations m) (Constants m) (CurTok m) (TokenBuffer m)
    (TokenNumber m) (input m) (stdin m) (stdout m).

Definition set_NumArgsDeclared v (m : machine) : machine :=
  Machine (Program m) (ProgramLength m) (ProgramCounter m) (FramePointer m)
    (heap m) (next_addr m) (GCHead m) (NumObjects m) (MaxNumObjects m)
    (Stack m) (StackSize m) (IndirStack m) (IndirStackSize m) (Variables m)
    (VariableAmount m) (RuntimeVariableAmount m) (FunctionNames m)
    (FunctionPcs m) (FunctionAmount m) (ForeignFunctionNames m)
    (ForeignAmount m) (CurrScope m) (CurrNumLocals m) v (LocalDeclarations m)
    (Constants m) (CurTok m) (TokenBuffer m) (TokenNumber m) (input m)
    (stdin m) (stdout m).

Definition set_LocalDeclarations v (m : machine) : machine :=
  Machine (Program m) (ProgramLength m) (ProgramCounter m) (FramePointer m)
    (heap m) (next_addr m) (GCHead m) (NumObjects m) (MaxNumObjects m)
    (Stack m) (StackSize m) (IndirStack m) (IndirStackSize m) (Variables m)
    (VariableAmount m) (RuntimeVariableAmount m) (FunctionNames m)
    (FunctionPcs m) (FunctionAmount m) (ForeignFunctionNames m)
    (ForeignAmount m) (CurrScope m) (CurrNumLocals m) (NumArgsDeclared m) v
    (Constants m) (CurTok m) (TokenBuffer m) (TokenNumber m) (input m)
    (stdin m) (stdout m).

Definition set_Constants v (m : machine) : machine :=
  Machine (Program m) (ProgramLength m) (ProgramCounter m) (FramePointer m)
    (heap m) (next_addr m) (GCHead m) (NumObjects m) (MaxNumObjects m)
    (Stack m) (StackSize m) (IndirStack m) (IndirStackSize m) (Variables m)
    (VariableAmount m) (RuntimeVariableAmount m) (FunctionNames m)
    (FunctionPcs m) (FunctionAmount m) (ForeignFunctionNames m)
    (ForeignAmount m) (CurrScope m) (CurrNumLocals m) (NumArgsDeclared m)
    (LocalDeclarations m) v (CurTok m) (TokenBuffer m) (TokenNumber m)
    (input m) (stdin m) (stdout m).

Definition set_CurTok v (m : machine) : machine :=
  Machine (Program m) (ProgramLength m) (ProgramCounter m) (FramePointer m)
    (heap m) (next_addr m) (GCHead m) (NumObjects m) (MaxNumObjects m)
    (Stack m) (StackSize m) (IndirStack m) (IndirStackSize m) (Variables m)
    (VariableAmount m) (RuntimeVariableAmount m) (FunctionNames m)
    (FunctionPcs m) (FunctionAmount m) (ForeignFunctionNames m)
    (ForeignAmount m) (CurrScope m) (CurrNumLocals m) (NumArgsDeclared m)
    (LocalDeclarations m) (Constants m) v (TokenBuffer m) (TokenNumber m)
    (input m) (stdin m) (stdout m).

Definition set_TokenBuffer v (m : machine) : machine :=
  Machine (Program m) (ProgramLength m) (ProgramCounter m) (FramePointer m)
    (heap m) (next_addr m) (GCHead m) (NumObjects m) (MaxNumObjects m)
    (Stack m) (StackSize m) (IndirStack m) (IndirStackSize m) (Variables m)
    (VariableAmount m) (RuntimeVariableAmount m) (FunctionNames m)
    (FunctionPcs m) (FunctionAmount m) (ForeignFunctionNames m)
    (ForeignAmount m) (CurrScope m) (CurrNumLocals m) (NumArgsDeclared m)
    (LocalDeclarations m) (Constants m) (CurTok m) v (TokenNumber m)
    (input m) (stdin m) (stdout m).

Definition set_TokenNumber v (m : machine) : machine :=
  Machine (Program m) (ProgramLength m) (ProgramCounter m) (FramePointer m)
    (heap m) (next_addr m) (GCHead m) (NumObjects m) (MaxNumObjects m)
    (Stack m) (StackSize m) (IndirStack m) (IndirStackSize m) (Variables m)
    (VariableAmount m) (RuntimeVariableAmount m) (FunctionNames m)
    (FunctionPcs m) (FunctionAmount m) (ForeignFunctionNames m)
    (ForeignAmount m) (CurrScope m) (CurrNumLocals m) (NumArgsDeclared m)
    (LocalDeclarations m) (Constants m) (CurTok m) (TokenBuffer m) v
    (input m) (stdin m) (stdout m).

Definition set_input v (m : machine) : machine :=
  Machine (Program m) (ProgramLength m) (ProgramCounter m) (FramePointer m)
    (heap m) (next_addr m) (GCHead m) (NumObjects m) (MaxNumObjects m)
    (Stack m) (StackSize m) (IndirStack m) (IndirStackSize m) (Variables m)
    (VariableAmount m) (RuntimeVariableAmount m) (FunctionNames m)
    (FunctionPcs m) (FunctionAmount m) (ForeignFunctionNames m)
    (ForeignAmount m) (CurrScope m) (CurrNumLocals m) (NumArgsDeclared m)
    (LocalDeclarations m) (Constants m) (CurTok m) (TokenBuffer m)
    (TokenNumber m) v (stdin m) (stdout m).

Definition set_stdin v (m : machine) : machine :=
  Machine (Program m) (ProgramLength m) (ProgramCounter m) (FramePointer m)
    (heap m) (next_addr m) (GCHead m) (NumObjects m) (MaxNumObjects m)
    (Stack m) (StackSize m) (IndirStack m) (IndirStackSize m) (Variables m)
    (VariableAmount m) (RuntimeVariableAmount m) (FunctionNames m)
    (FunctionPcs m) (FunctionAmount m) (ForeignFunctionNames m)
    (ForeignAmount m) (CurrScope m) (CurrNumLocals m) (NumArgsDeclared m)
    (LocalDeclarations m) (Constants m) (CurTok m) (TokenBuffer m)
    (TokenNumber m) (input m) v (stdout m).

Definition set_stdout v (m : machine) : machine :=
  Machine (Program m) (ProgramLength m) (ProgramCounter m) (FramePointer m)
    (heap m) (next_addr m) (GCHead m) (NumObjects m) (MaxNumObjects m)
    (Stack m) (StackSize m) (IndirStack m) (IndirStackSize m) (Variables m)
    (VariableAmount m) (RuntimeVariableAmount m) (FunctionNames m)
    (FunctionPcs m) (FunctionAmount m) (ForeignFunctionNames m)
    (ForeignAmount m) (CurrScope m) (CurrNumLocals m) (NumArgsDeclared m)
    (LocalDeclarations m) (Constants m) (CurTok m) (TokenBuffer m)
    (TokenNumber m) (input m) (stdin m) v.


(** ** Results and the monad *)

Inductive failure :=
| Fatal (diagnostic : string)   (* fprintf(stderr, ...); exit(1) *)
| AssertFail (what : string)    (* a failed assert(...) *)
| Undefined (why : string)      (* behaviour undefined in C *)
| OutOfFuel (who : string).     (* the bound the model gives to [who] ran out *)

Inductive result (A : Type) :=
| Ok (a : A)
| Fail (f : failure).
Arguments Ok {A} a.
Arguments Fail {A} f.

Definition M (A : Type) : Type := machine -> result (A * machine).

Definition ret {A} (a : A) : M A := fun m => Ok (a, m).

Definition bind {A B} (c : M A) (k : A -> M B) : M B :=
  fun m => match c m with
           | Ok (a, m1) => k a m1
           | Fail f => Fail f
           end.

Definition fail {A} (f : failure) : M A := fun _ => Fail f.
Definition gets {A} (field : machine -> A) : M A := fun m => Ok (field m, m).
Definition modify (change : machine -> machine) : M unit := fun m => Ok (tt, change m).

Notation "'let*' x ':=' c 'in' k" := (bind c (fun x => k))
  (at level 10, x name, c at level 100, k at level 200,
   format "'[v' 'let*'  x  ':='  c  'in' '/' k ']'").
Notation "c ;; k" := (bind c (fun _ => k))
  (at level 100, k at level 200, right associativity).

Definition for_each {A} (l : list A) (body : A -> M unit) : M unit :=
  (fix go (l : list A) : M unit :=
     match l with
     | [] => ret tt
     | x :: rest => body x ;; go rest
     end) l.

(** [while (test) acc = body(acc)]; [fuel] bounds the iterations. *)
Fixpoint while_do {A} (fuel : nat) (who : string) (test : M bool)
    (body : A -> M A) (acc : A) : M A :=
  let* go := test in
  if go : bool then
    match fuel with
    | O => fail (OutOfFuel who)
    | S fuel' =>
        let* acc' := body acc in
        while_do fuel' who test body acc'
    end
  else ret acc.

(** ** C arrays and [int] arithmetic *)

Definition idx {A} (l : list A) (i : Z) : option A :=
  if 0 <=? i then l !! Z.to_nat i else None.

Definition upd {A} (l : list A) (i : Z) (v : A) : option (list A) :=
  if (0 <=? i) && (i <? Z.of_nat (length l))
  then Some (<[Z.to_nat i := v]> l) else None.

(** An access outside the array is undefined behaviour. *)
Definition load {A} (what : string) (l : list A) (i : Z) : M A :=
  match idx l i with
  | Some v => ret v
  | None => fail (Undefined what)
  end.

Definition store {A} (what : string) (l : list A) (i : Z) (v : A) : M (list A) :=
  match upd l i v with
  | Some l' => ret l'
  | None => fail (Undefined what)
  end.

(** The result of a signed [int] operation. *)
Definition int_result (z : Z) : M Z :=
  if (INT_MIN <=? z) && (z <=? INT_MAX) then ret z
  else fail (Undefined "signed integer overflow").

Definition print (e : out_event) : M unit :=
  modify (fun m => set_stdout (stdout m ++ [e]) m).

(** ** Objects through pointers *)

Definition deref (p : ptr) : M Object :=
  match p with
  | None => fail (Undefined "null pointer dereferenced")
  | Some a =>
      let* h := gets heap in
      match h !! a with
      | Some o => ret o
      | None => fail (Undefined "pointer to a freed object dereferenced")
      end
  end.

(** [obj->number] *)
Definition number_of (p : ptr) : M double :=
  let* o := deref p in
  match val o with
  | Num d => ret d
  | _ => fail (Undefined "number read from an object of another type")
  end.

(** [obj->array] *)
Definition array_of (p : ptr) : M (list ptr) :=
  let* o := deref p in
  match val o with
  | Arr vs => ret vs
  | _ => fail (Undefined "array read from an object of another type")
  end.

(** [(int)obj->number] *)
Definition int_of (p : ptr) : M Z :=
  let* d := number_of p in
  match int_of_double d with
  | Some z => ret z
  | None => fail (Undefined "double does not fit an int")
  end.

Definition set_marked (a : addr) (b : bool) : M unit :=
  modify (fun m => set_heap (alter (fun o => mkObject b (val o)) a (heap m)) m).

(** Assigning the member of the union after [NewObject]. *)
Definition set_val (a : addr) (v : Value) : M unit :=
  modify (fun m => set_heap (alter (fun o => mkObject (marked o) v) a (heap m)) m).

(** ** The collector *)

(** [DeleteObject]: the storage of the object is released.  A [ptrFree]
    hook runs host code and leaves the machine alone. *)
Definition DeleteObject (a : addr) : M unit :=
  modify (fun m => set_heap (delete a (heap m)) m).

(** [Mark].  [fuel] bounds the depth of the recursion. *)
Fixpoint Mark (fuel : nat) (obj : ptr) : M unit :=
  match fuel with
  | O => fail (OutOfFuel "Mark")
  | S fuel' =>
      match obj with
      | None => print (PrintStr "attempted to mark null object")
      | Some a =>
          let* o := deref obj in
          if marked o then ret tt
          else
            match val o with
            | Native _ _ (Some children) => for_each children (Mark fuel')
            | _ => ret tt
            end ;;
            match val o with
            | Arr values =>
                for_each values
                  (fun v => match v with
                            | Some _ => Mark fuel' v
                            | None => ret tt
                            end)
            | _ => ret tt
            end ;;
            set_marked a true
      end
  end.

Definition MarkAll (fuel : nat) : M unit :=
  let* n := gets StackSize in
  for_each (seqZ 0 n)
    (fun i => let* st := gets Stack in
              let* p := load "Stack index out of bounds" st i in
              Mark fuel p) ;;
  let* k := gets RuntimeVariableAmount in
  for_each (seqZ 0 k)
    (fun i => let* vars := gets Variables in
              let* v := load "Variables index out of bounds" vars i in
              Mark fuel (object v)).

(** The loop of [Sweep] from one link of the chain on; the result is
    the chain that remains from that link. *)
Fixpoint Sweep_chain (chain : list addr) : M (list addr) :=
  match chain with
  | [] => ret []
  | a :: rest =>
      let* o := deref (Some a) in
      if negb (marked o) then
        let* n := gets NumObjects in
        let* n' := int_result (n - 1) in
        modify (set_NumObjects n') ;;
        DeleteObject a ;;
        Sweep_chain rest
      else
        set_marked a false ;;
        let* rest' := Sweep_chain rest in
        ret (a :: rest')
  end.

Definition Sweep : M unit :=
  let* chain := gets GCHead in
  let* chain' := Sweep_chain chain in
  modify (set_GCHead chain').

Definition GarbageCollect (fuel : nat) : M unit :=
  MarkAll fuel ;;
  Sweep ;;
  let* n := gets NumObjects in
  let* n2 := int_result (n * 2) in
  modify (set_MaxNumObjects n2).

(** The part of [NewObject] after the collection check: [emalloc], the
    tag, the link into the chain, the count. *)
Definition allocate (t : ObjectType) : M addr :=
  let* a := gets next_addr in
  modify (fun m => set_heap (<[a := mkObject false (blank t)]> (heap m)) m) ;;
  modify (set_next_addr (Pos.succ a)) ;;
  modify (fun m => set_GCHead (a :: GCHead m) m) ;;
  let* n := gets NumObjects in
  let* n' := int_result (n + 1) in
  modify (set_NumObjects n') ;;
  ret a.

Definition NewObject (fuel : nat) (t : ObjectType) : M addr :=
  let* n := gets NumObjects in
  let* mx := gets MaxNumObjects in
  (if mx <=? n then GarbageCollect fuel else ret tt) ;;
  allocate t.

Definition NewNative (fuel : nat) (host : Z) (ptrFree : bool) (ptrMark : option (list ptr)) : M addr :=
  let* a := NewObject fuel OBJ_NATIVE in
  set_val a (Native host ptrFree ptrMark) ;;
  ret a.

Definition NewNumber (fuel : nat) (value : double) : M addr :=
  let* a := NewObject fuel OBJ_NUM in
  set_val a (Num value) ;;
  ret a.

Definition NewString (fuel : nat) (s : string) : M addr :=
  let* a := NewObject fuel OBJ_STRING in
  set_val a (Str s) ;;
  ret a.

(** [emalloc(sizeof(Object* ) * length)] with a negative [length] asks
    for more than the address space and trips the assertion. *)
Definition NewArray (fuel : nat) (length : Z) : M addr :=
  let* a := NewObject fuel OBJ_ARRAY in
  if length <? 0 then fail (AssertFail "Out of memory!")
  else
    set_val a (Arr (replicate (Z.to_nat length) None)) ;;
    ret a.

(** ** The stack machine *)

Inductive opcode :=
| OP_PUSH | OP_POP
| OP_ADD | OP_SUB | OP_MUL | OP_DIV | OP_MOD | OP_OR | OP_AND
| OP_LT | OP_LTE | OP_GT | OP_GTE | OP_EQU | OP_NEQU
| OP_PRINT
| OP_SET | OP_GET
| OP_READ
| OP_GOTO | OP_GOTOZ | OP_GOTONZ
| OP_CALL | OP_RETURN | OP_RETURN_VALUE
| OP_CALLF
| OP_GETLOCAL | OP_SETLOCAL
| OP_MAKE_ARRAY | OP_SETINDEX | OP_GETINDEX
| OP_HALT.

(** The enumerators in the order of the [enum], which numbers them
    from 0. *)
Definition opcodes : list opcode :=
  [ OP_PUSH; OP_POP;
    OP_ADD; OP_SUB; OP_MUL; OP_DIV; OP_MOD; OP_OR; OP_AND;
    OP_LT; OP_LTE; OP_GT; OP_GTE; OP_EQU; OP_NEQU;
    OP_PRINT;
    OP_SET; OP_GET;
    OP_READ;
    OP_GOTO; OP_GOTOZ; OP_GOTONZ;
    OP_CALL; OP_RETURN; OP_RETURN_VALUE;
    OP_CALLF;
    OP_GETLOCAL; OP_SETLOCAL;
    OP_MAKE_ARRAY; OP_SETINDEX; OP_GETINDEX;
    OP_HALT ].

Definition decode (w : Z) : option opcode := idx opcodes w.

Definition opcode_eqb (a b : opcode) : bool :=
  match a, b with
  | OP_PUSH, OP_PUSH | OP_POP, OP_POP
  | OP_ADD, OP_ADD | OP_SUB, OP_SUB | OP_MUL, OP_MUL | OP_DIV, OP_DIV
  | OP_MOD, OP_MOD | OP_OR, OP_OR | OP_AND, OP_AND
  | OP_LT, OP_LT | OP_LTE, OP_LTE | OP_GT, OP_GT | OP_GTE, OP_GTE
  | OP_EQU, OP_EQU | OP_NEQU, OP_NEQU
  | OP_PRINT, OP_PRINT | OP_SET, OP_SET | OP_GET, OP_GET | OP_READ, OP_READ
  | OP_GOTO, OP_GOTO | OP_GOTOZ, OP_GOTOZ | OP_GOTONZ, OP_GOTONZ
  | OP_CALL, OP_CALL | OP_RETURN, OP_RETURN | OP_RETURN_VALUE, OP_RETURN_VALUE
  | OP_CALLF, OP_CALLF | OP_GETLOCAL, OP_GETLOCAL | OP_SETLOCAL, OP_SETLOCAL
  | OP_MAKE_ARRAY, OP_MAKE_ARRAY | OP_SETINDEX, OP_SETINDEX
  | OP_GETINDEX, OP_GETINDEX | OP_HALT, OP_HALT => true
  | _, _ => false
  end.

Fixpoint position (op : opcode) (l : list opcode) : Z :=
  match l with
  | [] => 0
  | x :: rest => if opcode_eqb op x then 0 else 1 + position op rest
  end.

(** The byte the compiler writes for an instruction. *)
Definition encode (op : opcode) : Z := position op opcodes.

(** A 4-byte immediate, written and read in host byte order
    (little-endian here), as a two's complement [int]. *)
Definition int_of_bytes (b0 b1 b2 b3 : Z) : Z :=
  let u := b0 + 256 * b1 + 65536 * b2 + 16777216 * b3 in
  if u <? 2147483648 then u else u - 4294967296.

Definition bytes_of_int (value : Z) : list Z :=
  [ Z.land value 255;
    Z.land (Z.shiftr value 8) 255;
    Z.land (Z.shiftr value 16) 255;
    Z.land (Z.shiftr value 24) 255 ].

(** [Program[ProgramCounter++]] *)
Definition fetch : M Z :=
  let* pc := gets ProgramCounter in
  let* prog := gets Program in
  let* w := load "Program index out of bounds" prog pc in
  modify (set_ProgramCounter (pc + 1)) ;;
  ret w.

Definition ReadInteger : M Z :=
  let* b0 := fetch in
  let* b1 := fetch in
  let* b2 := fetch in
  let* b3 := fetch in
  ret (int_of_bytes b0 b1 b2 b3).

(** [++ProgramCounter] *)
Definition next_pc : M unit :=
  modify (fun m => set_ProgramCounter (ProgramCounter m + 1) m).

Definition DoPush (value : ptr) : M unit :=
  let* n := gets StackSize in
  if MAX_STACK <=? n then fail (Fatal "Stack Overflow")
  else
    let* st := gets Stack in
    let* st' := store "Stack index out of bounds" st n value in
    modify (set_Stack st') ;;
    modify (set_StackSize (n + 1)).

(** [DoPop].  The message of the underflow prints
    [Program[ProgramCounter]], which is read before [exit(1)]. *)
Definition DoPop : M ptr :=
  let* n := gets StackSize in
  if n <=? 0 then
    let* pc := gets ProgramCounter in
    let* prog := gets Program in
    load "Program index out of bounds" prog pc ;;
    fail (Fatal "Stack Underflow")
  else
    modify (set_StackSize (n - 1)) ;;
    let* st := gets Stack in
    load "Stack index out of bounds" st (n - 1).

(** [DoRead].  Standard input is the list of its lines.
    [bufferLength] stays 0, so the buffer is grown once, from one byte
    to two, and [buffer[i]] is written without a test: a line of two or
    more characters runs past the end of the buffer.  At the end of the
    input [getc] never returns the newline the loop waits for, and the
    loop writes on past the buffer as well. *)
Definition DoRead (fuel : nat) : M unit :=
  let* lines := gets stdin in
  match lines with
  | [] => fail (Undefined "buffer index out of bounds")
  | line :: rest =>
      if 2 <=? Z.of_nat (String.length line)
      then fail (Undefined "buffer index out of bounds")
      else
        modify (set_stdin rest) ;;
        let* a := NewObject fuel OBJ_STRING in
        set_val a (Str line) ;;
        DoPush (Some a)
  end.

(** [IndirStack[IndirStackSize++] = v]: the array is written without a
    bounds check. *)
Definition push_indir (v : Z) : M unit :=
  let* n := gets IndirStackSize in
  let* st := gets IndirStack in
  let* st' := store "IndirStack index out of bounds" st n v in
  modify (set_IndirStack st') ;;
  modify (set_IndirStackSize (n + 1)).

(** [IndirStack[--IndirStackSize]] *)
Definition pop_indir : M Z :=
  let* n := gets IndirStackSize in
  modify (set_IndirStackSize (n - 1)) ;;
  let* st := gets IndirStack in
  load "IndirStack index out of bounds" st (n - 1).

Definition DoPushIndir (nargs : Z) : M unit :=
  push_indir nargs ;;
  let* fp := gets FramePointer in
  push_indir fp ;;
  let* pc := gets ProgramCounter in
  push_indir pc ;;
  let* n := gets StackSize in
  modify (set_FramePointer n).

Definition DoPopIndir : M unit :=
  let* fp := gets FramePointer in
  modify (set_StackSize fp) ;;
  let* prevPc := pop_indir in
  let* prevFp := pop_indir in
  let* nargs := pop_indir in
  let* n := gets StackSize in
  let* n' := int_result (n - nargs) in
  modify (set_StackSize n') ;;
  modify (set_FramePointer prevFp) ;;
  modify (set_ProgramCounter prevPc).

(** The macro [BIN_OP]: both operands are popped, the result object is
    allocated, and only then are the operands read. *)
Definition BIN_OP (fuel : nat) (operator : double -> double -> double) : M unit :=
  let* val2 := DoPop in
  let* val1 := DoPop in
  let* result := NewObject fuel OBJ_NUM in
  let* n1 := number_of val1 in
  let* n2 := number_of val2 in
  set_val result (Num (operator n1 n2)) ;;
  DoPush (Some result) ;;
  next_pc.

(** The macro [BIN_OP_INT]: the same with both operands cast to [int]. *)
Definition BIN_OP_INT (fuel : nat) (operator : Z -> Z -> M Z) : M unit :=
  let* val2 := DoPop in
  let* val1 := DoPop in
  let* result := NewObject fuel OBJ_NUM in
  let* i1 := int_of val1 in
  let* i2 := int_of val2 in
  let* r := operator i1 i2 in
  set_val result (Num (double_of_int r)) ;;
  DoPush (Some result) ;;
  next_pc.

(** [%] on [int]: truncating remainder, undefined for a zero divisor
    and for [INT_MIN % -1]. *)
Definition int_mod (a b : Z) : M Z :=
  if b =? 0 then fail (Undefined "remainder by zero")
  else if (a =? INT_MIN) && (b =? -1) then fail (Undefined "signed integer overflow")
  else ret (Z.rem a b).

Definition int_or (a b : Z) : M Z := ret (Z.lor a b).
Definition int_and (a b : Z) : M Z := ret (Z.land a b).

Definition out_of_bounds {A} : M A :=
  fail (Fatal "Array index out of bounds error").

Section VM.

(** The host callbacks bound with [BindForeignFunction], in the order
    of their slots. *)
Variable ForeignFunctions : list (M unit).

(** The [switch] of [ExecuteCycle]; a byte that is no opcode selects
    no case. *)
Definition execute (fuel : nat) (op : option opcode) : M unit :=
  match op with
  | Some OP_PUSH =>
      next_pc ;;
      let* cidx := ReadInteger in
      let* consts := gets Constants in
      let* cip := load "Constants index out of bounds" consts cidx in
      let* obj :=
        match cip with
        | CST_NUM d =>
            let* a := NewObject fuel OBJ_NUM in
            set_val a (Num d) ;; ret a
        | CST_STR s =>
            let* a := NewObject fuel OBJ_STRING in
            set_val a (Str s) ;; ret a
        end in
      DoPush (Some obj)
  | Some OP_POP => DoPop ;; next_pc
  | Some OP_ADD => BIN_OP fuel dadd
  | Some OP_SUB => BIN_OP fuel dsub
  | Some OP_MUL => BIN_OP fuel dmul
  | Some OP_DIV => BIN_OP fuel ddiv
  | Some OP_MOD => BIN_OP_INT fuel int_mod
  | Some OP_OR => BIN_OP_INT fuel int_or
  | Some OP_AND => BIN_OP_INT fuel int_and
  | Some OP_LT => BIN_OP fuel (fun a b => double_of_bool (dlt a b))
  | Some OP_LTE => BIN_OP fuel (fun a b => double_of_bool (dle a b))
  | Some OP_GT => BIN_OP fuel (fun a b => double_of_bool (dlt b a))
  | Some OP_GTE => BIN_OP fuel (fun a b => double_of_bool (dle b a))
  | Some OP_EQU => BIN_OP fuel (fun a b => double_of_bool (deq a b))
  | Some OP_NEQU => BIN_OP fuel (fun a b => double_of_bool (negb (deq a b)))
  | Some OP_PRINT =>
      let* obj := DoPop in
      let* o := deref obj in
      match val o with
      | Num d => print (PrintNum d)
      | _ => ret tt
      end ;;
      match val o with
      | Str s => print (PrintStr s)
      | _ => ret tt
      end ;;
      next_pc
  | Some OP_SET =>
      next_pc ;;
      let* varIdx := ReadInteger in
      let* rva := gets RuntimeVariableAmount in
      let* top := int_result (varIdx + 1) in
      (if rva <? top then modify (set_RuntimeVariableAmount top) else ret tt) ;;
      let* v := DoPop in
      let* vars := gets Variables in
      let* old := load "Variables index out of bounds" vars varIdx in
      let* vars' := store "Variables index out of bounds" vars varIdx
                      (mkVar (name old) (initialized old) v (members old)) in
      modify (set_Variables vars')
  | Some OP_GET =>
      next_pc ;;
      let* varIdx := ReadInteger in
      let* vars := gets Variables in
      let* v := load "Variables index out of bounds" vars varIdx in
      DoPush (object v)
  | Some OP_READ => DoRead fuel ;; next_pc
  | Some OP_GOTO =>
      next_pc ;;
      let* newPc := ReadInteger in
      modify (set_ProgramCounter newPc)
  | Some OP_GOTOZ =>
      next_pc ;;
      let* newPc := ReadInteger in
      let* p := DoPop in
      let* d := number_of p in
      if deq d dzero then modify (set_ProgramCounter newPc) else ret tt
  | Some OP_GOTONZ =>
      next_pc ;;
      let* newPc := ReadInteger in
      let* p := DoPop in
      let* d := number_of p in
      if negb (deq d dzero) then modify (set_ProgramCounter newPc) else ret tt
  | Some OP_CALL =>
      next_pc ;;
      let* nargs := ReadInteger in
      let* pcIdx := ReadInteger in
      DoPushIndir nargs ;;
      let* pcs := gets FunctionPcs in
      let* entry := load "FunctionPcs index out of bounds" pcs pcIdx in
      modify (set_ProgramCounter entry)
  | Some OP_RETURN => DoPopIndir
  | Some OP_RETURN_VALUE =>
      let* retVal := DoPop in
      DoPopIndir ;;
      DoPush retVal
  | Some OP_CALLF =>
      next_pc ;;
      let* fIdx := ReadInteger in
      let* callback := load "ForeignFunctions index out of bounds" ForeignFunctions fIdx in
      callback
  | Some OP_GETLOCAL =>
      next_pc ;;
      let* localIdx := ReadInteger in
      let* fp := gets FramePointer in
      let* i := int_result (fp + localIdx) in
      let* st := gets Stack in
      let* v := load "Stack index out of bounds" st i in
      DoPush v
  | Some OP_SETLOCAL =>
      next_pc ;;
      let* localIdx := ReadInteger in
      let* v := DoPop in
      let* fp := gets FramePointer in
      let* i := int_result (fp + localIdx) in
      let* st := gets Stack in
      let* st' := store "Stack index out of bounds" st i v in
      modify (set_Stack st')
  | Some OP_MAKE_ARRAY =>
      next_pc ;;
      let* p := DoPop in
      let* length := int_of p in
      let* array := NewArray fuel length in
      DoPush (Some array)
  | Some OP_SETINDEX =>
      next_pc ;;
      let* value := DoPop in
      let* ip := DoPop in
      let* index := int_of ip in
      let* obj := DoPop in
      if index <? 0 then out_of_bounds
      else
        let* values := array_of obj in
        if index <? Z.of_nat (length values) then
          match obj with
          | Some a => set_val a (Arr (<[Z.to_nat index := value]> values))
          | None => ret tt
          end
        else out_of_bounds
  | Some OP_GETINDEX =>
      next_pc ;;
      let* ip := DoPop in
      let* index := int_of ip in
      let* obj := DoPop in
      if index <? 0 then out_of_bounds
      else
        let* values := array_of obj in
        match values !! Z.to_nat index with
        | Some (Some a) => DoPush (Some a)
        | Some None =>
            let* zero := NewNumber fuel dzero in
            DoPush (Some zero)
        | None => out_of_bounds
        end
  | Some OP_HALT => modify (set_ProgramCounter (-1))
  | None => ret tt
  end.

Definition ExecuteCycle (fuel : nat) : M unit :=
  let* pc := gets ProgramCounter in
  let* prog := gets Program in
  let* w := load "Program index out of bounds" prog pc in
  execute fuel (decode w).

(** The loop of [RunMachine] and [CallProc]; [steps] bounds the number
    of cycles. *)
Fixpoint cycles (steps : nat) (fuel : nat) : M unit :=
  let* pc := gets ProgramCounter in
  let* len := gets ProgramLength in
  if (pc <? len) && (0 <=? pc) then
    match steps with
    | O => fail (OutOfFuel "RunMachine")
    | S steps' => ExecuteCycle fuel ;; cycles steps' fuel
    end
  else ret tt.

Definition RunMachine (steps fuel : nat) : M unit :=
  modify (set_ProgramCounter 0) ;;
  cycles steps fuel.

Definition CallProc (steps fuel : nat) (id nargs : Z) : M unit :=
  if id <? 0 then ret tt
  else
    DoPushIndir nargs ;;
    let* pcs := gets FunctionPcs in
    let* entry := load "FunctionPcs index out of bounds" pcs id in
    modify (set_ProgramCounter entry) ;;
    cycles steps fuel.

End VM.

(** ** Start-up *)

Definition ResetMachine : M unit :=
  modify (set_ProgramLength 0) ;;
  modify (set_ProgramCounter (-1)) ;;
  modify (set_Constants []) ;;
  modify (set_StackSize 0) ;;
  modify (set_FramePointer 0) ;;
  modify (set_VariableAmount 0) ;;
  modify (set_FunctionAmount 0) ;;
  modify (set_IndirStackSize 0) ;;
  modify (set_GCHead []) ;;
  modify (set_NumObjects 0) ;;
  modify (set_ForeignAmount 0) ;;
  modify (set_RuntimeVariableAmount 0) ;;
  modify (set_CurrScope 0) ;;
  modify (set_LocalDeclarations []) ;;
  modify (set_NumArgsDeclared 0) ;;
  modify (set_Variables (replicate (Z.to_nat MAX_VARS) no_var)).

Definition InitInterpreter : M unit :=
  ResetMachine ;;
  modify (set_NumObjects 0) ;;
  modify (set_MaxNumObjects 2).

(** The globals as the C runtime hands them over: zero everywhere,
    apart from the initialisers in the source. *)
Definition static_machine : machine :=
  {| Program := replicate (Z.to_nat MAX_PROG_LEN) 0;
     ProgramLength := 0;
     ProgramCounter := 0;
     FramePointer := 0;
     heap := ∅;
     next_addr := 1%positive;
     GCHead := [];
     NumObjects := 0;
     MaxNumObjects := 0;
     Stack := replicate (Z.to_nat MAX_STACK) None;
     StackSize := 0;
     IndirStack := replicate (Z.to_nat MAX_INDIR) 0;
     IndirStackSize := 0;
     Variables := replicate (Z.to_nat MAX_VARS) no_var;
     VariableAmount := 0;
     RuntimeVariableAmount := 0;
     FunctionNames := replicate (Z.to_nat MAX_FUNCS) "";
     FunctionPcs := replicate (Z.to_nat MAX_FUNCS) 0;
     FunctionAmount := 0;
     ForeignFunctionNames := replicate (Z.to_nat MAX_FUNCS) "";
     ForeignAmount := 0;
     CurrScope := 0;
     CurrNumLocals := 0;
     NumArgsDeclared := 0;
     LocalDeclarations := [];
     Constants := [];
     CurTok := 0;
     TokenBuffer := "";
     TokenNumber := dzero;
     input := [];
     stdin := [];
     stdout := [] |}.

(** ** Tokens

    The parser takes its tokens from [input], the sequence of tokens
    the lexer delivers.  [GetToken] itself, on the characters of the
    file, comes after the compiler. *)

Definition TOK_BEGIN : Z := -1.
Definition TOK_END : Z := -2.
Definition TOK_IDENT : Z := -3.
Definition TOK_READ : Z := -5.
Definition TOK_WRITE : Z := -6.
Definition TOK_NUMBER : Z := -7.
Definition TOK_STRING : Z := -8.
Definition TOK_LOCAL : Z := -9.
Definition TOK_PROC : Z := -10.
Definition TOK_IF : Z := -11.
Definition TOK_EQUALS : Z := -12.
Definition TOK_NOTEQUALS : Z := -13.
Definition TOK_LTE : Z := -14.
Definition TOK_GTE : Z := -15.
Definition TOK_RETURN : Z := -16.
Definition TOK_WHILE : Z := -17.
Definition TOK_THEN : Z := -18.
Definition TOK_EOF : Z := -19.
Definition TOK_LOCALREF : Z := -20.

(** A single-character token is the code of its character. *)
Definition chr (c : Ascii.ascii) : Z := Z.of_N (Ascii.N_of_ascii c).
Arguments chr c%_char.

Definition GetNextToken : M Z :=
  let* rest := gets input in
  match rest with
  | [] => modify (set_CurTok TOK_EOF) ;; ret TOK_EOF
  | l :: rest' =>
      modify (set_input rest') ;;
      match tok_text l with
      | Some s => modify (set_TokenBuffer s)
      | None => ret tt
      end ;;
      match tok_number l with
      | Some d => modify (set_TokenNumber d)
      | None => ret tt
      end ;;
      modify (set_CurTok (tok l)) ;;
      ret (tok l)
  end.

(** ** Registration of names and constants *)

Fixpoint find_first {A} (p : A -> bool) (l : list A) (i : Z) : option Z :=
  match l with
  | [] => None
  | x :: rest => if p x then Some i else find_first p rest (i + 1)
  end.

Definition RegisterNumber (value : double) : M Z :=
  let* cs := gets Constants in
  match find_first (fun c => match c with
                             | CST_NUM d => deq d value
                             | CST_STR _ => false
                             end) cs 0 with
  | Some i => ret i
  | None =>
      let n := Z.of_nat (length cs) in
      if n <? MAX_CONST_AMT then
        modify (set_Constants (cs ++ [CST_NUM value])) ;;
        ret n
      else fail (AssertFail "Constant Overflow!")
  end.

Definition RegisterString (s : string) : M Z :=
  let* cs := gets Constants in
  match find_first (fun c => match c with
                             | CST_STR t => String.eqb t s
                             | CST_NUM _ => false
                             end) cs 0 with
  | Some i => ret i
  | None =>
      let n := Z.of_nat (length cs) in
      if n <? MAX_CONST_AMT then
        modify (set_Constants (cs ++ [CST_STR s])) ;;
        ret n
      else fail (AssertFail "Constant Overflow!")
  end.

Definition RegisterVariableName (nm : string) : M Z :=
  let* vars := gets Variables in
  let* n := gets VariableAmount in
  match find_first (fun v => String.eqb (name v) nm) (take (Z.to_nat n) vars) 0 with
  | Some i => ret i
  | None =>
      let* old := load "Variables index out of bounds" vars n in
      let* vars' := store "Variables index out of bounds" vars n
                      (mkVar nm false (object old) (members old)) in
      modify (set_Variables vars') ;;
      modify (set_VariableAmount (n + 1)) ;;
      ret n
  end.

Definition RegisterFunction (nm : string) : M Z :=
  let* fnames := gets ForeignFunctionNames in
  let* fn := gets ForeignAmount in
  match find_first (String.eqb nm) (take (Z.to_nat fn) fnames) 0 with
  | Some i => ret (- i - 1)
  | None =>
      let* names := gets FunctionNames in
      let* n := gets FunctionAmount in
      match find_first (String.eqb nm) (take (Z.to_nat n) names) 0 with
      | Some i => ret i
      | None =>
          let* names' := store "FunctionNames index out of bounds" names n nm in
          modify (set_FunctionNames names') ;;
          modify (set_FunctionAmount (n + 1)) ;;
          ret n
      end
  end.

Definition DeclareLocal (nm : string) : M Z :=
  let* k := gets CurrNumLocals in
  let* sc := gets CurrScope in
  modify (fun m => set_LocalDeclarations (mkLocal nm k sc :: LocalDeclarations m) m) ;;
  modify (set_CurrNumLocals (k + 1)) ;;
  ret k.

Definition DeclareArgument (nm : string) (nargs : Z) : M Z :=
  let* d := gets NumArgsDeclared in
  modify (set_NumArgsDeclared (d + 1)) ;;
  let* sc := gets CurrScope in
  let i := - nargs + (d + 1 - 1) in
  modify (fun m => set_LocalDeclarations (mkLocal nm i sc :: LocalDeclarations m) m) ;;
  ret i.

Definition ReferenceLocal (nm : string) : M Z :=
  let* decls := gets LocalDeclarations in
  let* sc := gets CurrScope in
  match List.find (fun d => String.eqb (local_name d) nm && (scope d <=? sc)) decls with
  | Some d => ret (index d)
  | None => fail (Fatal "Attempted to reference non-existent local variable")
  end.

Definition ClearLocals : M unit :=
  modify (set_LocalDeclarations []) ;;
  modify (set_CurrNumLocals 0).

(** ** The syntax tree

    A statement sequence, chained through [next] in C, is a list. *)

#[warnings="-register-all"]
Inductive Expr :=
| EXP_READ (ids : list (Z * bool))           (* ids[i], isLocal[i] *)
| EXP_WRITE (exprs : list Expr)
| EXP_ID (ident : Z)
| EXP_CALL (callee : Z) (args : list Expr)
| EXP_NUM (number : Z)
| EXP_STRING (str : Z)
| EXP_BINARY (lhs rhs : Expr) (op : Z)
| EXP_PAREN (paren : Expr)
| EXP_PROC (pname : Z) (exprHead : list Expr) (numLocals : Z)
| EXP_IF (cond : Expr) (exprHead : list Expr)
| EXP_UNARY (op : Z) (exp : Expr)
| EXP_RETURN (retExpr : option Expr)
| EXP_WHILE (cond : Expr) (exprHead : list Expr)
| EXP_LOCAL (index : Z)
| EXP_LOCALREF (localRefIdx : Z)
| EXP_MAKE_ARRAY (arrayLengthExpr : Expr)
| EXP_ARRAY_INDEX (isGlobalArray : bool) (arrayVariableIndex : Z) (indexExpr : Expr)
| EXP_GET_ARRAY_LENGTH
| EXP_NAMED_MEMBER_ARRAY (members : list string).

(** ** The parser *)

Definition tok_in (t : Z) (cs : list Z) : bool := existsb (Z.eqb t) cs.

Definition GetTokenPrec : M Z :=
  let* t := gets CurTok in
  ret (if tok_in t [chr "*"; chr "/"; chr "%"; chr "&"; chr "|"] then 5
       else if tok_in t [chr "+"; chr "-"] then 4
       else if tok_in t [TOK_LTE; TOK_GTE; TOK_EQUALS; TOK_NOTEQUALS; chr "<"; chr ">"] then 3
       else if tok_in t [chr "="] then 1
       else -1).

Definition CurTok_is (t : Z) : M bool :=
  let* c := gets CurTok in ret (c =? t).

Definition CurTok_isnt (t : Z) : M bool :=
  let* c := gets CurTok in ret (negb (c =? t)).

Definition assert (what : string) (test : M bool) : M unit :=
  let* ok := test in
  if ok : bool then ret tt else fail (AssertFail what).

(** [a[n++] = x] on an array of [cap] elements held as a list. *)
Definition append {A} (cap : Z) (what : string) (acc : list A) (x : A) : M (list A) :=
  if Z.of_nat (length acc) <? cap then ret (acc ++ [x])
  else fail (Undefined what).

Definition change_scope (d : Z) : M unit :=
  modify (fun m => set_CurrScope (CurrScope m + d) m).

(** The statements up to [end], as the three copies of that loop in
    [ParseFactor] collect them. *)
Definition block (fuel : nat) (ParseExpr : M Expr) : M (list Expr) :=
  let* more := CurTok_isnt TOK_END in
  if more : bool then
    let* first := ParseExpr in
    while_do fuel "Parse" (CurTok_isnt TOK_END)
      (fun acc => let* e := ParseExpr in ret (acc ++ [e])) [first]
  else ret [].

Fixpoint ParseFactor (fuel : nat) : M Expr :=
  match fuel with
  | O => fail (OutOfFuel "Parse")
  | S fuel' =>
    let ParseExpr : M Expr :=
      let* factor := ParseFactor fuel' in
      ParseBinRhs fuel' 0 factor in
    let* t := gets CurTok in
    if t =? TOK_IDENT then
      let* ident := gets TokenBuffer in
      GetNextToken ;;
      let* call := CurTok_is (chr "(") in
      if call : bool then
        GetNextToken ;;
        let* args :=
          while_do fuel' "Parse" (CurTok_isnt (chr ")"))
            (fun acc =>
               let* e := ParseExpr in
               let* acc' := append MAX_ARGS "call.args index out of bounds" acc e in
               let* c := gets CurTok in
               (if c =? chr "," then GetNextToken ;; ret tt
                else if negb (c =? chr ")")
                     then fail (Fatal "Expected ')' after attempted call to proc")
                     else ret tt) ;;
               ret acc') [] in
        let* callee := RegisterFunction ident in
        GetNextToken ;;
        ret (EXP_CALL callee args)
      else
        let* indexing := CurTok_is (chr "[") in
        if indexing : bool then
          GetNextToken ;;
          let* v := RegisterVariableName ident in
          let* e := ParseExpr in
          GetNextToken ;;
          ret (EXP_ARRAY_INDEX true v e)
        else
          let* v := RegisterVariableName ident in
          ret (EXP_ID v)
    else if t =? chr "{" then
      GetNextToken ;;
      let* ms :=
        while_do fuel' "Parse" (CurTok_isnt (chr "}"))
          (fun acc =>
             let* s := gets TokenBuffer in
             let* acc' := append MAX_MEMBERS "namedMemArray.members index out of bounds" acc s in
             let* c := gets CurTok in
             (if c =? chr "," then GetNextToken ;; ret tt
              else if negb (c =? chr "}")
                   then fail (Fatal "Expected '}' after named member array declaration")
                   else ret tt) ;;
             ret acc') [] in
      GetNextToken ;;
      ret (EXP_NAMED_MEMBER_ARRAY ms)
    else if t =? chr "[" then
      GetNextToken ;;
      let* e := ParseExpr in
      GetNextToken ;;
      ret (EXP_MAKE_ARRAY e)
    else if (t =? chr "-") || (t =? chr "+") then
      GetNextToken ;;
      let* e := ParseFactor fuel' in
      ret (EXP_UNARY t e)
    else if t =? TOK_NUMBER then
      let* d := gets TokenNumber in
      let* i := RegisterNumber d in
      GetNextToken ;;
      ret (EXP_NUM i)
    else if t =? TOK_STRING then
      let* s := gets TokenBuffer in
      let* i := RegisterString s in
      GetNextToken ;;
      ret (EXP_STRING i)
    else if t =? TOK_LOCAL then
      let* sc := gets CurrScope in
      if sc =? 0 then fail (Fatal "Cannot declare or reference locals in the global scope!")
      else
        GetNextToken ;;
        assert "Local name must be identifier!" (CurTok_is TOK_IDENT) ;;
        let* s := gets TokenBuffer in
        let* i := DeclareLocal s in
        GetNextToken ;;
        ret (EXP_LOCAL i)
    else if t =? TOK_LOCALREF then
      let* s := gets TokenBuffer in
      let* i := ReferenceLocal s in
      GetNextToken ;;
      let* plain := CurTok_isnt (chr "[") in
      if plain : bool then ret (EXP_LOCALREF i)
      else
        GetNextToken ;;
        let* e := ParseExpr in
        GetNextToken ;;
        ret (EXP_ARRAY_INDEX false i e)
    else if t =? TOK_PROC then
      let* sc := gets CurrScope in
      if negb (sc =? 0) then fail (Fatal "Procedure defintion in a local scope is not allowed")
      else
        GetNextToken ;;
        assert "Proc name must be identifier!" (CurTok_is TOK_IDENT) ;;
        let* s := gets TokenBuffer in
        let* nm := RegisterFunction s in
        GetNextToken ;;
        change_scope 1 ;;
        assert "CurTok == '('" (CurTok_is (chr "(")) ;;
        GetNextToken ;;
        let* params :=
          while_do fuel' "Parse" (CurTok_isnt (chr ")"))
            (fun acc =>
               assert "CurTok == TOK_IDENT" (CurTok_is TOK_IDENT) ;;
               let* p := gets TokenBuffer in
               let* acc' := append MAX_ARGS "args index out of bounds" acc p in
               GetNextToken ;;
               let* c := gets CurTok in
               assert "CurTok == ')' || CurTok == ','"
                 (ret ((c =? chr ")") || (c =? chr ","))) ;;
               (if c =? chr "," then GetNextToken ;; ret tt else ret tt) ;;
               ret acc') [] in
        for_each params
          (fun p => DeclareArgument p (Z.of_nat (length params)) ;; ret tt) ;;
        modify (set_NumArgsDeclared 0) ;;
        GetNextToken ;;
        let* body := block fuel' ParseExpr in
        let* k := gets CurrNumLocals in
        change_scope (-1) ;;
        ClearLocals ;;
        GetNextToken ;;
        ret (EXP_PROC nm body k)
    else if t =? TOK_IF then
      GetNextToken ;;
      let* c := ParseExpr in
      assert "Expected 'then' after if condition" (CurTok_is TOK_THEN) ;;
      GetNextToken ;;
      change_scope 1 ;;
      let* body := block fuel' ParseExpr in
      change_scope (-1) ;;
      GetNextToken ;;
      ret (EXP_IF c body)
    else if t =? TOK_WHILE then
      GetNextToken ;;
      let* c := ParseExpr in
      change_scope 1 ;;
      let* body := block fuel' ParseExpr in
      change_scope (-1) ;;
      GetNextToken ;;
      ret (EXP_WHILE c body)
    else if t =? TOK_RETURN then
      GetNextToken ;;
      let* bare := CurTok_is (chr ";") in
      if bare : bool then GetNextToken ;; ret (EXP_RETURN None)
      else
        let* e := ParseExpr in
        ret (EXP_RETURN (Some e))
    else if t =? TOK_READ then
      GetNextToken ;;
      let* ids :=
        while_do fuel' "Parse" (CurTok_isnt TOK_END)
          (fun acc =>
             let* c := gets CurTok in
             assert "Expected some sort of variable in list for read expression!"
               (ret ((c =? TOK_IDENT) || (c =? TOK_LOCALREF))) ;;
             let* s := gets TokenBuffer in
             let* entry :=
               (if c =? TOK_IDENT
                then let* i := RegisterVariableName s in ret (i, false)
                else let* i := ReferenceLocal s in ret (i, true)) in
             let* acc' := append MAX_READ_WRITE "read.ids index out of bounds" acc entry in
             GetNextToken ;;
             ret acc') [] in
      GetNextToken ;;
      ret (EXP_READ ids)
    else if t =? TOK_WRITE then
      GetNextToken ;;
      let* es :=
        while_do fuel' "Parse" (CurTok_isnt TOK_END)
          (fun acc =>
             let* e := ParseExpr in
             append MAX_READ_WRITE "write.exprs index out of bounds" acc e) [] in
      GetNextToken ;;
      ret (EXP_WRITE es)
    else if t =? chr "(" then
      GetNextToken ;;
      let* inner := ParseExpr in
      assert "Expected matching ')' after previous '('" (CurTok_is (chr ")")) ;;
      GetNextToken ;;
      ret (EXP_PAREN inner)
    else fail (Fatal "Unexpected token")
  end

with ParseBinRhs (fuel : nat) (exprPrec : Z) (lhs : Expr) : M Expr :=
  match fuel with
  | O => fail (OutOfFuel "Parse")
  | S fuel' =>
    let* prec := GetTokenPrec in
    if prec <? exprPrec then ret lhs
    else
      let* binOp := gets CurTok in
      GetNextToken ;;
      let* rhs := ParseFactor fuel' in
      let* nextPrec := GetTokenPrec in
      let* rhs' := (if prec <? nextPrec
                    then ParseBinRhs fuel' (prec + 1) rhs
                    else ret rhs) in
      ParseBinRhs fuel' exprPrec (EXP_BINARY lhs rhs' binOp)
  end.

Definition ParseExpr (fuel : nat) : M Expr :=
  let* factor := ParseFactor fuel in
  ParseBinRhs fuel 0 factor.

Definition ParseProgram (fuel : nat) : M (list Expr) :=
  GetNextToken ;;
  let* more := CurTok_isnt TOK_EOF in
  if more : bool then
    let* head := ParseExpr fuel in
    while_do fuel "Parse" (CurTok_isnt TOK_EOF)
      (fun acc => let* stmt := ParseExpr fuel in ret (acc ++ [stmt])) [head]
  else ret [].

(** ** The compiler *)

Definition GenerateCode (inst : Z) : M unit :=
  let* n := gets ProgramLength in
  if n <? MAX_PROG_LEN then
    let* prog := gets Program in
    let* prog' := store "Program index out of bounds" prog n inst in
    modify (set_Program prog') ;;
    modify (set_ProgramLength (n + 1))
  else fail (AssertFail "Program Overflow!").

Definition GenerateInt (value : Z) : M unit :=
  for_each (bytes_of_int value) GenerateCode.

Definition GenerateIntAt (value : Z) (pc : Z) : M unit :=
  for_each (zip (seqZ 0 4) (bytes_of_int value))
    (fun '(i, b) =>
       let* prog := gets Program in
       let* prog' := store "Program index out of bounds" prog (pc + i) b in
       modify (set_Program prog')).

Definition emit (op : opcode) : M unit := GenerateCode (encode op).

Definition set_initialized (i : Z) : M unit :=
  let* vars := gets Variables in
  let* old := load "Variables index out of bounds" vars i in
  let* vars' := store "Variables index out of bounds" vars i
                  (mkVar (name old) true (object old) (members old)) in
  modify (set_Variables vars').

Definition set_members (i : Z) (ms : list string) : M unit :=
  let* vars := gets Variables in
  let* old := load "Variables index out of bounds" vars i in
  let* vars' := store "Variables index out of bounds" vars i
                  (mkVar (name old) (initialized old) (object old) ms) in
  modify (set_Variables vars').

(** The operator of a binary node that is lowered to one instruction. *)
Definition binary_opcode (op : Z) : option opcode :=
  if op =? chr "+" then Some OP_ADD
  else if op =? chr "*" then Some OP_MUL
  else if op =? chr "/" then Some OP_DIV
  else if op =? chr "%" then Some OP_MOD
  else if op =? chr "|" then Some OP_OR
  else if op =? chr "&" then Some OP_AND
  else if op =? chr "-" then Some OP_SUB
  else if op =? chr "<" then Some OP_LT
  else if op =? chr ">" then Some OP_GT
  else if op =? TOK_EQUALS then Some OP_EQU
  else if op =? TOK_NOTEQUALS then Some OP_NEQU
  else if op =? TOK_LTE then Some OP_LTE
  else if op =? TOK_GTE then Some OP_GTE
  else None.

(** [GET] or [GETLOCAL] of the array operand of an index expression. *)
Definition push_array (isGlobalArray : bool) (arrayVariableIndex : Z) : M unit :=
  (if isGlobalArray then emit OP_GET else emit OP_GETLOCAL) ;;
  GenerateInt arrayVariableIndex.

Fixpoint CompileExpr (exp : Expr) : M unit :=
  match exp with
  | EXP_ID ident =>
      let* vars := gets Variables in
      let* v := load "Variables index out of bounds" vars ident in
      if negb (initialized v) then fail (Fatal "Attempted to use uninitialized variable")
      else
        emit OP_GET ;;
        GenerateInt ident
  | EXP_CALL callee args =>
      for_each args CompileExpr ;;
      if callee <? 0 then
        emit OP_CALLF ;;
        GenerateInt (- (callee + 1))
      else
        emit OP_CALL ;;
        GenerateInt (Z.of_nat (length args)) ;;
        GenerateInt callee
  | EXP_NUM number =>
      emit OP_PUSH ;;
      GenerateInt number
  | EXP_STRING str =>
      emit OP_PUSH ;;
      GenerateInt str
  | EXP_LOCAL _ => ret tt
  | EXP_LOCALREF localRefIdx =>
      emit OP_GETLOCAL ;;
      GenerateInt localRefIdx
  | EXP_READ ids =>
      for_each ids
        (fun '(id, isLocal) =>
           emit OP_READ ;;
           (if negb isLocal then emit OP_SET else emit OP_SETLOCAL) ;;
           GenerateInt id)
  | EXP_WRITE exprs =>
      for_each exprs (fun e => CompileExpr e ;; emit OP_PRINT)
  | EXP_BINARY lhs rhs op =>
      if op =? chr "=" then
        match lhs with
        | EXP_ID ident =>
            match rhs with
            | EXP_NAMED_MEMBER_ARRAY ms => set_members ident ms
            | _ =>
                CompileExpr rhs ;;
                emit OP_SET ;;
                GenerateInt ident ;;
                set_initialized ident
            end
        | EXP_LOCAL index =>
            CompileExpr rhs ;;
            emit OP_SETLOCAL ;;
            GenerateInt index
        | EXP_LOCALREF localRefIdx =>
            CompileExpr rhs ;;
            emit OP_SETLOCAL ;;
            GenerateInt localRefIdx
        | EXP_ARRAY_INDEX isGlobalArray arrayVariableIndex indexExpr =>
            push_array isGlobalArray arrayVariableIndex ;;
            CompileExpr indexExpr ;;
            CompileExpr rhs ;;
            emit OP_SETINDEX
        | _ => fail (Fatal "LHS of assignment operation must be a local or a global variable")
        end
      else if op =? chr "." then
        match lhs with
        | EXP_ID _ => ret tt
        | _ => fail (Fatal "Named member array value access can only be done on global variables!")
        end
      else
        match binary_opcode op with
        | Some o =>
            CompileExpr lhs ;;
            CompileExpr rhs ;;
            emit o
        | None => ret tt
        end
  | EXP_PAREN paren => CompileExpr paren
  | EXP_UNARY op e =>
      CompileExpr e ;;
      if op =? chr "-" then
        emit OP_PUSH ;;
        let* c := RegisterNumber (double_of_int (-1)) in
        GenerateInt c ;;
        emit OP_MUL
      else ret tt
  | EXP_PROC pname exprHead numLocals =>
      emit OP_GOTO ;;
      let* skipGotoPc := gets ProgramLength in
      GenerateInt 0 ;;
      let* entry := gets ProgramLength in
      let* pcs := gets FunctionPcs in
      let* pcs' := store "FunctionPcs index out of bounds" pcs pname entry in
      modify (set_FunctionPcs pcs') ;;
      for_each (seqZ 0 numLocals)
        (fun _ =>
           emit OP_PUSH ;;
           let* c := RegisterNumber dzero in
           GenerateInt c) ;;
      for_each exprHead CompileExpr ;;
      emit OP_RETURN ;;
      let* here := gets ProgramLength in
      GenerateIntAt here skipGotoPc
  | EXP_IF cond exprHead =>
      CompileExpr cond ;;
      emit OP_GOTOZ ;;
      let* skipGotoPc := gets ProgramLength in
      GenerateInt 0 ;;
      for_each exprHead CompileExpr ;;
      let* here := gets ProgramLength in
      GenerateIntAt here skipGotoPc
  | EXP_WHILE cond exprHead =>
      let* condPc := gets ProgramLength in
      CompileExpr cond ;;
      emit OP_GOTOZ ;;
      let* skipGotoPc := gets ProgramLength in
      GenerateInt 0 ;;
      for_each exprHead CompileExpr ;;
      emit OP_GOTO ;;
      GenerateInt condPc ;;
      let* here := gets ProgramLength in
      GenerateIntAt here skipGotoPc
  | EXP_MAKE_ARRAY arrayLengthExpr =>
      CompileExpr arrayLengthExpr ;;
      emit OP_MAKE_ARRAY
  | EXP_ARRAY_INDEX isGlobalArray arrayVariableIndex indexExpr =>
      push_array isGlobalArray arrayVariableIndex ;;
      CompileExpr indexExpr ;;
      emit OP_GETINDEX
  | EXP_RETURN retExpr =>
      match retExpr with
      | Some e =>
          CompileExpr e ;;
          emit OP_RETURN_VALUE
      | None => emit OP_RETURN
      end
  | EXP_GET_ARRAY_LENGTH => ret tt
  | EXP_NAMED_MEMBER_ARRAY _ => ret tt
  end.

Definition CompileProgram (program : list Expr) : M unit :=
  for_each program CompileExpr.

Definition CompileFile (fuel : nat) : M unit :=
  modify (set_CurTok 0) ;;
  let* prog := ParseProgram fuel in
  CompileProgram prog ;;
  emit OP_HALT.

(** [InterpretFile] on the tokens [source], from a freshly initialised
    interpreter with no foreign function bound. *)
Definition InterpretFile (parse_fuel steps fuel : nat) : M unit :=
  CompileFile parse_fuel ;;
  RunMachine [] steps fuel.

Definition fresh_machine (source : list lexeme) (lines : list string) : machine :=
  match InitInterpreter static_machine with
  | Ok (_, m) => set_stdin lines (set_input source m)
  | Fail _ => static_machine
  end.

(** Tokens, for writing programs down. *)
Definition T (c : Ascii.ascii) : lexeme := mkLexeme (chr c) None None.
Arguments T c%_char.
Definition K (t : Z) (s : string) : lexeme := mkLexeme t (Some s) None.
Definition Id (s : string) : lexeme := mkLexeme TOK_IDENT (Some s) None.
Definition Nb (s : string) (z : Z) : lexeme :=
  mkLexeme TOK_NUMBER (Some s) (Some (double_of_int z)).

(** ** Notions used by the statements below *)

(** The instruction under the program counter. *)
Definition instruction_at (m : machine) : option opcode :=
  match idx (Program m) (ProgramCounter m) with
  | Some w => decode w
  | None => None
  end.

(** The 4-byte immediate stored at [pc]. *)
Definition immediate_at (m : machine) (pc : Z) : option Z :=
  match idx (Program m) pc, idx (Program m) (pc + 1),
        idx (Program m) (pc + 2), idx (Program m) (pc + 3) with
  | Some b0, Some b1, Some b2, Some b3 => Some (int_of_bytes b0 b1 b2 b3)
  | _, _, _, _ => None
  end.

(** What a call saves and a return restores. *)
Definition frames (m : machine) : Z * list Z * Z :=
  (FramePointer m, IndirStack m, IndirStackSize m).

(** The execution of a callee: cycles during which the indirection
    stack never drops below [base], its size right after the call. *)
Inductive callee_run (ForeignFunctions : list (M unit)) (fuel : nat) (base : Z)
  : machine → machine → Prop :=
| callee_here m :
    base ≤ IndirStackSize m →
    callee_run ForeignFunctions fuel base m m
| callee_cycle m m1 m2 :
    base ≤ IndirStackSize m →
    ExecuteCycle ForeignFunctions fuel m = Ok (tt, m1) →
    callee_run ForeignFunctions fuel base m1 m2 →
    callee_run ForeignFunctions fuel base m m2.

(** Registrations of constants, in sequence. *)
Inductive registration :=
| RegNumber (value : double)
| RegString (s : string).

Definition register (r : registration) : M Z :=
  match r with
  | RegNumber value => RegisterNumber value
  | RegString s => RegisterString s
  end.

Fixpoint register_all (rs : list registration) : M (list Z) :=
  match rs with
  | [] => ret []
  | r :: rest =>
      let* i := register r in
      let* js := register_all rest in
      ret (i :: js)
  end.

(** The state of a run after [n] turns of the loop of [RunMachine]. *)
Fixpoint after_cycles (ForeignFunctions : list (M unit)) (n fuel : nat) : M unit :=
  match n with
  | O => ret tt
  | S n' => ExecuteCycle ForeignFunctions fuel ;; after_cycles ForeignFunctions n' fuel
  end.

(** ** The host interface to procedures *)

Definition GetProcId (nm : string) : M Z :=
  let* names := gets FunctionNames in
  let* n := gets FunctionAmount in
  match find_first (String.eqb nm) (take (Z.to_nat n) names) 0 with
  | Some i => ret i
  | None => ret (-1)
  end.

(** [BindForeignFunction]: the name goes into the machine, the
    function pointer into the array of callbacks, both at slot
    [ForeignAmount], neither under a bounds check. *)
Definition BindForeignFunction (ForeignFunctions : list (M unit))
    (callback : M unit) (nm : string) : M (list (M unit)) :=
  let* n := gets ForeignAmount in
  let* names := gets ForeignFunctionNames in
  let* names' := store "ForeignFunctionNames index out of bounds" names n nm in
  modify (set_ForeignFunctionNames names') ;;
  let* callbacks := store "ForeignFunctions index out of bounds" ForeignFunctions n callback in
  modify (set_ForeignAmount (n + 1)) ;;
  ret callbacks.

(** ** The lexer

    [GetToken] reads the file one character ahead: [last], a [static]
    variable that starts as a space, is the character read but not yet
    consumed.  A character is an [int], [EOF] or the value of an
    [unsigned char]; the classes of [<ctype.h>] are those of the "C"
    locale, the one a program runs in that never calls [setlocale]. *)

Definition EOF : Z := -1.
Definition MAX_TOK_LEN : Z := 256.

Record stream := mkStream {
  last : Z;              (* [static int last] *)
  ahead : list Z         (* the characters of [in] not read yet *)
}.

(** [last = getc(in)] *)
Definition getc (s : stream) : stream :=
  match ahead s with
  | [] => mkStream EOF []
  | c :: rest => mkStream c rest
  end.

(** [Peek]: [getc] followed by [ungetc]. *)
Definition Peek (s : stream) : Z :=
  match ahead s with
  | [] => EOF
  | c :: _ => c
  end.

Definition isspace (c : Z) : bool := tok_in c [32; 9; 10; 11; 12; 13].
Definition isalpha (c : Z) : bool :=
  ((65 <=? c) && (c <=? 90)) || ((97 <=? c) && (c <=? 122)).
Definition isdigit (c : Z) : bool := (48 <=? c) && (c <=? 57).
Definition isalnum (c : Z) : bool := isalpha c || isdigit c.

(** The string a [char] array holds: the characters up to the first
    NUL. *)
Fixpoint c_string (buf : list Z) : string :=
  match buf with
  | [] => EmptyString
  | c :: rest =>
      if c =? 0 then EmptyString
      else String (Ascii.ascii_of_N (Z.to_N (c mod 256))) (c_string rest)
  end.

(** [while (isspace(last)) last = getc(in);], and the loop that skips
    a comment.  Either ends at the end of the file at the latest, so
    that the length of the file bounds its turns. *)
Fixpoint skip_while (fuel : nat) (test : Z → bool) (s : stream) : stream :=
  if test (last s) then
    match fuel with
    | O => s
    | S fuel' => skip_while fuel' test (getc s)
    end
  else s.

Definition skip_space (s : stream) : stream :=
  skip_while (S (length (ahead s))) isspace s.

Definition skip_comment (s : stream) : stream :=
  skip_while (S (length (ahead s)))
    (λ c, negb (c =? chr "010") && negb (c =? EOF)) s.

(** The loops that fill [TokenBuffer]:
    [while (test(last)) { guard; TokenBuffer[i++] = last; last = getc(in); }]
    where the guard is the assertion [i < MAX_TOK_LEN - 1] or, where
    the source has none, the end of the array.  No loop takes more
    than [MAX_TOK_LEN] turns. *)
Fixpoint fill (fuel : nat) (test : Z → bool) (guard : Z → M unit)
    (buf : list Z) (s : stream) : M (list Z * stream) :=
  if test (last s) then
    match fuel with
    | O => fail (OutOfFuel "GetToken")
    | S fuel' =>
        guard (Z.of_nat (length buf)) ;;
        fill fuel' test guard (buf ++ [last s]) (getc s)
    end
  else ret (buf, s).

Definition asserted (what : string) (i : Z) : M unit :=
  if i <? MAX_TOK_LEN - 1 then ret tt else fail (AssertFail what).

Definition unguarded (i : Z) : M unit :=
  if i <? MAX_TOK_LEN then ret tt
  else fail (Undefined "TokenBuffer index out of bounds").

(** [TokenBuffer[i] = '\0'] after such a loop. *)
Definition terminate (buf : list Z) : M unit :=
  if Z.of_nat (length buf) <? MAX_TOK_LEN
  then modify (set_TokenBuffer (c_string buf))
  else fail (Undefined "TokenBuffer index out of bounds").

Definition word_char (c : Z) : bool := isalnum c || (c =? chr "_").

(** The chain of [strcmp] after an identifier. *)
Definition keyword (buf : string) : M Z :=
  if String.eqb buf "begin" then ret TOK_BEGIN
  else if String.eqb buf "end" then ret TOK_END
  else if String.eqb buf "read" then ret TOK_READ
  else if String.eqb buf "write" then ret TOK_WRITE
  else if String.eqb buf "proc" then ret TOK_PROC
  else if String.eqb buf "if" then ret TOK_IF
  else if String.eqb buf "return" then ret TOK_RETURN
  else if String.eqb buf "while" then ret TOK_WHILE
  else if String.eqb buf "then" then ret TOK_THEN
  else if String.eqb buf "local" then ret TOK_LOCAL
  else if String.eqb buf "true" then
    modify (set_TokenNumber (double_of_int 1)) ;; ret TOK_NUMBER
  else if String.eqb buf "false" then
    modify (set_TokenNumber (double_of_int 0)) ;; ret TOK_NUMBER
  else ret TOK_IDENT.

Section Lexer.

(** [strtod] of the C library, on what the number loop collects:
    digits and dots. *)
Variable strtod : string → double.

(** One of the four tests for a two-character operator. *)
Definition two_chars (first : ascii) (tok : Z) (s : stream)
    (otherwise : M (Z * stream)) : M (Z * stream) :=
  if (last s =? chr first) && (Peek s =? chr "=")
  then ret (tok, getc (getc s))
  else otherwise.

(** [fuel] bounds the calls of [GetToken] to itself, one per comment. *)
Fixpoint GetToken (fuel : nat) (s : stream) : M (Z * stream) :=
  let s := skip_space s in
  if isalpha (last s) then
    let* r := fill 256 word_char (asserted "Token was too long!") [] s in
    terminate r.1 ;;
    let* tok := keyword (c_string r.1) in
    ret (tok, r.2)
  else if isdigit (last s) then
    let* r :=
      fill 256 (λ c, isdigit c || (c =? chr "."))
        (asserted "Number was too long!") [] s in
    terminate r.1 ;;
    modify (set_TokenNumber (strtod (c_string r.1))) ;;
    ret (TOK_NUMBER, r.2)
  else if last s =? chr "#" then
    match fuel with
    | O => fail (OutOfFuel "GetToken")
    | S fuel' => GetToken fuel' (skip_comment s)
    end
  else if last s =? chr "$" then
    let* r :=
      fill 256 word_char (asserted "Token was too long!") [] (getc s) in
    terminate r.1 ;;
    ret (TOK_LOCALREF, r.2)
  else if last s =? chr "034" then
    let* r := fill 257 (λ c, negb (c =? chr "034")) unguarded [] (getc s) in
    terminate r.1 ;;
    ret (TOK_STRING, getc r.2)
  else if last s =? EOF then ret (TOK_EOF, s)
  else
    two_chars "=" TOK_EQUALS s
      (two_chars "!" TOK_NOTEQUALS s
         (two_chars "<" TOK_LTE s
            (two_chars ">" TOK_GTE s
               (ret (last s, getc s))))).

End Lexer.

(** The lexer's state when it has read the first character of [text],
    and the one [GetToken] starts from on a file [text]. *)
Definition reading (text : list Z) : stream := getc (mkStream (chr " ") text).
Definition opened (text : list Z) : stream := mkStream (chr " ") text.

(** The characters of a string, as [getc] delivers them. *)
Fixpoint chars (text : string) : list Z :=
  match text with
  | EmptyString => []
  | String c rest => chr c :: chars rest
  end.

(** A character that starts neither a word, a number, a comment, a
    local reference nor a string, and is not white space. *)
Definition punctuation (c : Z) : bool :=
  negb (isspace c || isalpha c || isdigit c
        || tok_in c [chr "#"; chr "$"; chr "034"; EOF]).

(** [GetNextToken] as the source has it, on the file.  The parser
    above uses the [GetNextToken] that takes the tokens from [input];
    the two are related below. *)
Module File.
Definition GetNextToken (strtod : string → double) (fuel : nat) (s : stream)
    : M (Z * stream) :=
  let* r := GetToken strtod fuel s in
  modify (set_CurTok r.1) ;;
  ret r.
End File.

(** What a token leaves in the globals of the lexer. *)
Definition delivered (l : lexeme) (m : machine) : machine :=
  let m1 := match tok_text l with Some s => set_TokenBuffer s m | None => m end in
  match tok_number l with Some d => set_TokenNumber d m1 | None => m1 end.

(** * Notions the properties are stated with *)

(** ** Views of the machine *)

(** A computation that, when it returns, leaves [view] of the machine
    as it found it. *)
Definition keeps {A B} (view : machine → B) (c : M A) : Prop :=
  ∀ m x m', c m = Ok (x, m') → view m' = view m.

(** A view that the heap and the output do not enter. *)
Definition heap_blind {B} (view : machine → B) : Prop :=
  (∀ h m, view (set_heap h m) = view m) ∧
  (∀ o m, view (set_stdout o m) = view m).

(** A view that nothing a collection writes enters. *)
Definition gc_blind {B} (view : machine → B) : Prop :=
  heap_blind view ∧
  (∀ n m, view (set_NumObjects n m) = view m) ∧
  (∀ n m, view (set_MaxNumObjects n m) = view m) ∧
  (∀ c m, view (set_GCHead c m) = view m).

(** A view that nothing an allocation writes enters. *)
Definition alloc_blind {B} (view : machine → B) : Prop :=
  gc_blind view ∧ (∀ a m, view (set_next_addr a m) = view m).

(** Host callbacks that leave the frame pointer and the indirection
    stack alone. *)
Definition frame_safe (ForeignFunctions : list (M unit)) : Prop :=
  Forall (keeps frames) ForeignFunctions.

(** The instructions that move the frame pointer or the indirection
    stack. *)
Definition is_call_or_return (op : opcode) : bool :=
  match op with
  | OP_CALL | OP_RETURN | OP_RETURN_VALUE => true
  | _ => false
  end.

(** The frame a call saved at depth [d] of the indirection stack:
    [nargs], the caller's frame pointer [fp0] and the return address
    [ra]; [S] is the operand stack size at the call, which is the
    callee's frame pointer. *)
Definition frame_inv (d S nargs fp0 ra : Z) (m : machine) : Prop :=
  (∃ k, 0 ≤ k ∧ IndirStackSize m = d + 3 + 3 * k) ∧
  idx (IndirStack m) d = Some nargs ∧
  idx (IndirStack m) (d + 1) = Some fp0 ∧
  idx (IndirStack m) (d + 2) = Some ra ∧
  (IndirStackSize m = d + 3 → FramePointer m = S) ∧
  (d + 3 < IndirStackSize m → idx (IndirStack m) (d + 4) = Some S).

(** ** The constant pool *)

(** The test of the search loops of [RegisterNumber] and
    [RegisterString]. *)
Definition matches (r : registration) (c : ConstInfo) : bool :=
  match r, c with
  | RegNumber value, CST_NUM d => deq d value
  | RegString s, CST_STR t => String.eqb t s
  | _, _ => false
  end.

(** The entry a registration appends when the search finds nothing. *)
Definition entry (r : registration) : ConstInfo :=
  match r with
  | RegNumber value => CST_NUM value
  | RegString s => CST_STR s
  end.

(** Two registrations ask for the same constant: two numbers that
    [==] holds between, or two strings that [strcmp] finds equal. *)
Definition same_constant (r1 r2 : registration) : bool :=
  match r1, r2 with
  | RegNumber d1, RegNumber d2 => deq d1 d2
  | RegString s1, RegString s2 => String.eqb s1 s2
  | _, _ => false
  end.

(** +0, NaN, ["x"], -0, NaN and ["x"] again, registered in this
    order. *)
Definition pool_source : list registration :=
  [RegNumber (S754_zero false); RegNumber S754_nan; RegString "x";
   RegNumber (S754_zero true); RegNumber S754_nan; RegString "x"].

(** ** The parser *)

(** The right operand of an operator of precedence [prec], as
    [ParseBinRhs] reads it: a factor, extended while the operator
    that follows binds tighter. *)
Definition operand (fuel : nat) (prec : Z) : M Expr :=
  let* rhs := ParseFactor fuel in
  let* nextPrec := GetTokenPrec in
  if prec <? nextPrec then ParseBinRhs fuel (prec + 1) rhs else ret rhs.

(** What the parser has read of [a = b = ...] when it reaches the
    second [=]: both names are registered. *)
Definition read_a_eq_b (a b : string) : M (Z * Z) :=
  GetNextToken ;;
  let* ia := RegisterVariableName a in
  GetNextToken ;;
  GetNextToken ;;
  let* ib := RegisterVariableName b in
  ret (ia, ib).

(** The precedence of the current token. *)
Definition precedence (m : machine) : Z :=
  match GetTokenPrec m with
  | Ok (p, _) => p
  | Fail _ => -1
  end.

(** The parser's view of the input. *)
Definition lexer_view (m : machine) : Z * string * list lexeme :=
  (CurTok m, TokenBuffer m, input m).

(** ** Programs and the states they reach *)

(** [a = b = 1] *)
Definition chain_source : list lexeme :=
  [Id "a"; T "="; Id "b"; T "="; Nb "1" 1].

(** The machine after compiling [source] and running [n] cycles. *)
Definition compiled_then (n : nat) (source : list lexeme) : result (unit * machine) :=
  (CompileFile 20 ;;
   modify (set_ProgramCounter 0) ;;
   after_cycles [] n 20) (fresh_machine source []).

(** [write a[0] end] *)
Definition unset_index_source : list lexeme :=
  [K TOK_WRITE "write"; Id "a"; T "["; Nb "0" 0; T "]"; K TOK_END "end"].

(** [write a end] *)
Definition unset_read_source : list lexeme :=
  [K TOK_WRITE "write"; Id "a"; K TOK_END "end"].

(** [proc f() f() end  f()] *)
Definition recursion_source : list lexeme :=
  [K TOK_PROC "proc"; Id "f"; T "("; T ")"; Id "f"; T "("; T ")"; K TOK_END "end";
   Id "f"; T "("; T ")"].

(** [write 1 + 2 end] *)
Definition sum_source : list lexeme :=
  [K TOK_WRITE "write"; Nb "1" 1; T "+"; Nb "2" 2; K TOK_END "end"].

(** [a = [1]  a[0] = a  x = 1] *)
Definition cycle_source : list lexeme :=
  [Id "a"; T "="; T "["; Nb "1" 1; T "]";
   Id "a"; T "["; Nb "0" 0; T "]"; T "="; Id "a";
   Id "x"; T "="; Nb "1" 1].

(** [a = [2]  b = 7  a[0] = a  write a[1] end] *)
Definition self_slot_source : list lexeme :=
  [Id "a"; T "="; T "["; Nb "2" 2; T "]";
   Id "b"; T "="; Nb "7" 7;
   Id "a"; T "["; Nb "0" 0; T "]"; T "="; Id "a";
   K TOK_WRITE "write"; Id "a"; T "["; Nb "1" 1; T "]"; K TOK_END "end"].

(** ** Heaps on which a collection runs to its end *)

(** The pointers [Mark] follows from an object. *)
Definition children (o : Object) : list ptr :=
  match val o with
  | Arr values => values
  | Native _ _ (Some kids) => kids
  | _ => []
  end.

(** Every pointer held by an object leads to a live object of lower
    rank: the heap is closed and has no cycle. *)
Definition well_ranked (rank : addr → nat) (h : gmap addr Object) : Prop :=
  ∀ a o c, h !! a = Some o → Some c ∈ children o →
           is_Some (h !! c) ∧ (rank c < rank a)%nat.

(** The same objects with the same contents; mark bits may differ. *)
Definition same_shape (h h' : gmap addr Object) : Prop :=
  ∀ a, val <$> (h' !! a) = val <$> (h !! a).

(** A pointer [Mark] can be called on with recursion bound [fuel]. *)
Definition markable (rank : addr → nat) (fuel : nat) (h : gmap addr Object) (p : ptr) : Prop :=
  match p with
  | None => (1 ≤ fuel)%nat
  | Some a => is_Some (h !! a) ∧ (rank a + 2 ≤ fuel)%nat
  end.

(** What must hold of a machine for a collection to run to its end
    within recursion bound [fuel]: the heap is closed and without
    cycles, every root is null or live, the chain lists live objects
    once each, and the counters are in range. *)
Record collectable (rank : addr → nat) (fuel : nat) (m : machine) : Prop := {
  coll_ranked : well_ranked rank (heap m);
  coll_stack_size : StackSize m ≤ Z.of_nat (length (Stack m));
  coll_vars_size : RuntimeVariableAmount m ≤ Z.of_nat (length (Variables m));
  coll_stack : ∀ i p, 0 ≤ i < StackSize m → idx (Stack m) i = Some p →
                      markable rank fuel (heap m) p;
  coll_vars : ∀ i v, 0 ≤ i < RuntimeVariableAmount m → idx (Variables m) i = Some v →
                     markable rank fuel (heap m) (object v);
  coll_chain_nodup : NoDup (GCHead m);
  coll_chain_live : ∀ a, a ∈ GCHead m → is_Some (heap m !! a);
  coll_count : NumObjects m = Z.of_nat (length (GCHead m));
  coll_count_small : NumObjects m < 2 ^ 30;
  coll_fresh : ∀ a, (next_addr m ≤ a)%positive → heap m !! a = None
}.

(** The two operands of an index instruction, on top of the stack: the
    index, a number whose [int] value is [i], above the array. *)
Definition index_operands (m : machine) (top : Z) (i : Z) (values : list ptr) : Prop :=
  ∃ index_ptr index_obj d array_ptr array_obj,
    idx (Stack m) (top - 1) = Some (Some index_ptr) ∧
    heap m !! index_ptr = Some index_obj ∧
    val index_obj = Num d ∧
    int_of_double d = Some i ∧
    idx (Stack m) (top - 2) = Some (Some array_ptr) ∧
    heap m !! array_ptr = Some array_obj ∧
    val array_obj = Arr values.

(** [collectable], as a test that can be run on a machine. *)
Definition markableb (rank : addr → nat) (fuel : nat) (h : gmap addr Object) (p : ptr) : bool :=
  match p with
  | None => (1 <=? fuel)%nat
  | Some a =>
      match h !! a with
      | Some _ => (rank a + 2 <=? fuel)%nat
      | None => false
      end
  end.

Definition child_okb (rank : addr → nat) (h : gmap addr Object) (a : addr) (c : ptr) : bool :=
  match c with
  | None => true
  | Some c' =>
      match h !! c' with
      | Some _ => (rank c' <? rank a)%nat
      | None => false
      end
  end.

Fixpoint nodupb (l : list addr) : bool :=
  match l with
  | [] => true
  | x :: rest => negb (existsb (Pos.eqb x) rest) && nodupb rest
  end.

Definition liveb (h : gmap addr Object) (a : addr) : bool :=
  match h !! a with
  | Some _ => true
  | None => false
  end.

Definition collectableb (rank : addr → nat) (fuel : nat) (m : machine) : bool :=
  forallb (λ entry, (fst entry <? next_addr m)%positive &&
                    forallb (child_okb rank (heap m) (fst entry)) (children (snd entry)))
          (map_to_list (heap m)) &&
  (StackSize m <=? Z.of_nat (length (Stack m))) &&
  (RuntimeVariableAmount m <=? Z.of_nat (length (Variables m))) &&
  forallb (markableb rank fuel (heap m)) (take (Z.to_nat (StackSize m)) (Stack m)) &&
  forallb (λ v, markableb rank fuel (heap m) (object v))
          (take (Z.to_nat (RuntimeVariableAmount m)) (Variables m)) &&
  nodupb (GCHead m) &&
  forallb (liveb (heap m)) (GCHead m) &&
  (NumObjects m =? Z.of_nat (length (GCHead m))) &&
  (NumObjects m <? 2 ^ 30).

(** ** States of compiled programs *)

(** The machine a computation returned. *)
Definition machine_of {A} (r : result (A * machine)) : machine :=
  match r with
  | Ok (_, m) => m
  | Fail _ => static_machine
  end.

(** [proc f(x) return $x end  f(5)] *)
Definition call_source : list lexeme :=
  [K TOK_PROC "proc"; Id "f"; T "("; Id "x"; T ")";
   K TOK_RETURN "return"; K TOK_LOCALREF "x"; K TOK_END "end";
   Id "f"; T "("; Nb "5" 5; T ")"].

(** The states around the call [f(5)]: at the [CALL], inside [f], at
    its [RETURN_VALUE], and after it. *)
Definition at_call : machine := machine_of (compiled_then 2 call_source).
Definition in_callee : machine := machine_of (compiled_then 3 call_source).
Definition at_return : machine := machine_of (compiled_then 4 call_source).
Definition after_return : machine := machine_of (compiled_then 5 call_source).

(** [at_call] after the [CALL] has read its immediates, when it
    pushes the frame. *)
Definition frame_push : machine :=
  set_ProgramCounter (ProgramCounter at_call + 9) at_call.

(** [a = [3]  write a[1] end] *)
Definition unwritten_source : list lexeme :=
  [Id "a"; T "="; T "["; Nb "3" 3; T "]";
   K TOK_WRITE "write"; Id "a"; T "["; Nb "1" 1; T "]"; K TOK_END "end"].

(** [a = [3]  write a[3] end] *)
Definition beyond_source : list lexeme :=
  [Id "a"; T "="; T "["; Nb "3" 3; T "]";
   K TOK_WRITE "write"; Id "a"; T "["; Nb "3" 3; T "]"; K TOK_END "end"].

(** [a = [3]  a[3] = 7] *)
Definition store_beyond_source : list lexeme :=
  [Id "a"; T "="; T "["; Nb "3" 3; T "]";
   Id "a"; T "["; Nb "3" 3; T "]"; T "="; Nb "7" 7].

(** The states at the index instruction of each. *)
Definition at_getindex : machine := machine_of (compiled_then 5 unwritten_source).
Definition at_getindex_beyond : machine := machine_of (compiled_then 5 beyond_source).
Definition at_setindex_beyond : machine := machine_of (compiled_then 6 store_beyond_source).

(** [a = b = 1 + 2 end] *)
Definition chain_sum_source : list lexeme :=
  [Id "a"; T "="; Id "b"; T "="; Nb "1" 1; T "+"; Nb "2" 2; K TOK_END "end"].

(** The parser on its first token. *)
Definition at_chain : machine :=
  machine_of (GetNextToken (fresh_machine chain_sum_source [])).


(** [a = [3]  write a end] *)
Definition print_array_source : list lexeme :=
  [Id "a"; T "="; T "["; Nb "3" 3; T "]"; K TOK_WRITE "write"; Id "a"; K TOK_END "end"].

(** The state at the [PRINT] of the array. *)
Definition at_print : machine := machine_of (compiled_then 4 print_array_source).

(** ** The instances of the macros [BIN_OP] and [BIN_OP_INT] *)

Definition float_operator (op : opcode) : option (double → double → double) :=
  match op with
  | OP_ADD => Some dadd
  | OP_SUB => Some dsub
  | OP_MUL => Some dmul
  | OP_DIV => Some ddiv
  | OP_LT => Some (λ a b, double_of_bool (dlt a b))
  | OP_LTE => Some (λ a b, double_of_bool (dle a b))
  | OP_GT => Some (λ a b, double_of_bool (dlt b a))
  | OP_GTE => Some (λ a b, double_of_bool (dle b a))
  | OP_EQU => Some (λ a b, double_of_bool (deq a b))
  | OP_NEQU => Some (λ a b, double_of_bool (negb (deq a b)))
  | _ => None
  end.

Definition int_operator (op : opcode) : option (Z → Z → M Z) :=
  match op with
  | OP_MOD => Some int_mod
  | OP_OR => Some int_or
  | OP_AND => Some int_and
  | _ => None
  end.

(** ** Operands and allocation *)

(** The two operands of a binary instruction on top of the stack, the
    second above the first, both live. *)
Definition two_operands (m : machine) (a1 a2 : addr) (o1 o2 : Object) : Prop :=
  1 < StackSize m ∧
  idx (Stack m) (StackSize m - 2) = Some (Some a1) ∧
  idx (Stack m) (StackSize m - 1) = Some (Some a2) ∧
  heap m !! a1 = Some o1 ∧
  heap m !! a2 = Some o2.

(** No collection is due at the next allocation, which returns an
    address not in use. *)
Definition allocates_directly (m : machine) : Prop :=
  0 ≤ NumObjects m < MaxNumObjects m ∧
  MaxNumObjects m ≤ INT_MAX ∧
  heap m !! next_addr m = None.

(** ** Arrays and constants on the stack *)

(** An array and an index on the stack, the index on top at [top - 1]:
    the array is the live object [arr] with elements [values], the
    index a live number whose [int] value is [i]. *)
Definition array_and_index (m : machine) (top : Z) (arr : addr)
    (values : list ptr) (i : Z) : Prop :=
  ∃ ip io d ao,
    idx (Stack m) (top - 1) = Some (Some ip) ∧
    heap m !! ip = Some io ∧ val io = Num d ∧ int_of_double d = Some i ∧
    idx (Stack m) (top - 2) = Some (Some arr) ∧
    heap m !! arr = Some ao ∧ val ao = Arr values.

(** The run-time value of a constant, and what [PRINT] writes for it. *)
Definition constant_value (c : ConstInfo) : Value :=
  match c with
  | CST_NUM d => Num d
  | CST_STR s => Str s
  end.

Definition constant_output (c : ConstInfo) : out_event :=
  match c with
  | CST_NUM d => PrintNum d
  | CST_STR s => PrintStr s
  end.

(** ** What a collection keeps *)

(** [reaches h a b]: from the object at [a], following the pointers
    that [Mark] follows, one arrives at [b]. *)
Inductive reaches (h : gmap addr Object) : addr → addr → Prop :=
| reaches_here a : reaches h a a
| reaches_child a o c b :
    h !! a = Some o → Some c ∈ children o → reaches h c b → reaches h a b.

(** The roots of [MarkAll]: the operand stack below its top, and the
    globals below [RuntimeVariableAmount]. *)
Definition root (m : machine) (a : addr) : Prop :=
  (∃ i, 0 ≤ i < StackSize m ∧ idx (Stack m) i = Some (Some a)) ∨
  (∃ i v, 0 ≤ i < RuntimeVariableAmount m ∧
          idx (Variables m) i = Some v ∧ object v = Some a).

Definition reachable (m : machine) (b : addr) : Prop :=
  ∃ a, root m a ∧ reaches (heap m) a b.

Definition is_marked (h : gmap addr Object) (a : addr) : Prop :=
  ∃ o, h !! a = Some o ∧ marked o = true.

(** The marks are closed under the pointers of [h0]. *)
Definition marks_closed (h0 h : gmap addr Object) : Prop :=
  ∀ a o c, is_marked h a → h0 !! a = Some o → Some c ∈ children o → is_marked h c.

(** Between collections: no object is marked, and every object is on
    the chain. *)
Definition at_rest (m : machine) : Prop :=
  ∀ a o, heap m !! a = Some o → marked o = false ∧ a ∈ GCHead m.

(** What [Sweep] leaves of an object on the chain. *)
Definition swept (o : Object) : option Object :=
  if marked o then Some (mkObject false (val o)) else None.

(** ** The chain of the collector *)

(** A computation that, when it returns, leaves a property of the
    machine standing. *)
Definition preserves {A} (P : machine → Prop) (c : M A) : Prop :=
  ∀ m x m', P m → c m = Ok (x, m') → P m'.

(** The chain lists the objects of the heap, once each; their number
    is [NumObjects]; none is marked; no address from [next_addr] on is
    in use. *)
Definition heap_consistent (m : machine) : Prop :=
  NoDup (GCHead m) ∧
  (∀ a, a ∈ GCHead m ↔ is_Some (heap m !! a)) ∧
  NumObjects m = Z.of_nat (length (GCHead m)) ∧
  (∀ a o, heap m !! a = Some o → marked o = false) ∧
  (∀ a, (next_addr m ≤ a)%positive → heap m !! a = None).

(** Host callbacks that leave the chain consistent. *)
Definition heap_safe (ForeignFunctions : list (M unit)) : Prop :=
  Forall (preserves heap_consistent) ForeignFunctions.

(** ** Invariants of the compiler *)

(** For an index expression: the property, of the code of its index. *)
Definition of_index (P : machine → Prop) (e : Expr) : Prop :=
  match e with
  | EXP_ARRAY_INDEX _ _ indexExpr => preserves P (CompileExpr indexExpr)
  | _ => True
  end.

(** The code below [len] is the code [prog] had there. *)
Definition code_kept (len : Z) (prog : list Z) (m : machine) : Prop :=
  len ≤ ProgramLength m ∧ ∀ i, i < len → idx (Program m) i = idx prog i.

(** The variable of slot [i] has been assigned. *)
Definition is_initialized (m : machine) (i : Z) : Prop :=
  ∃ v, idx (Variables m) i = Some v ∧ initialized v = true.

(** ** Compile time and run time *)

(** What the machine works on when it runs: the objects, the two
    stacks, the registers, the values of the globals, input and
    output. *)
Definition run_time (m : machine) :=
  (heap m, next_addr m, GCHead m, NumObjects m, MaxNumObjects m,
   Stack m, StackSize m, IndirStack m, IndirStackSize m,
   FramePointer m, ProgramCounter m,
   object <$> Variables m, RuntimeVariableAmount m,
   stdin m, stdout m).

(** ** More states of compiled programs *)

(** The interpreter after [InitInterpreter], with no program. *)
Definition initial : machine := fresh_machine [] [].

(** [x = 1  write x end] *)
Definition assign_source : list lexeme :=
  [Id "x"; T "="; Nb "1" 1; K TOK_WRITE "write"; Id "x"; K TOK_END "end"].

(** [x = 1  y = 2  z = 3  w = x + y] *)
Definition four_source : list lexeme :=
  [Id "x"; T "="; Nb "1" 1; Id "y"; T "="; Nb "2" 2; Id "z"; T "="; Nb "3" 3;
   Id "w"; T "="; Id "x"; T "+"; Id "y"].

(** [a = [3]  a[1] = 7  write a[1] end] *)
Definition element_source : list lexeme :=
  [Id "a"; T "="; T "["; Nb "3" 3; T "]";
   Id "a"; T "["; Nb "1" 1; T "]"; T "="; Nb "7" 7;
   K TOK_WRITE "write"; Id "a"; T "["; Nb "1" 1; T "]"; K TOK_END "end"].

(** [if 0 then write 1 end end] *)
Definition branch_source : list lexeme :=
  [K TOK_IF "if"; Nb "0" 0; K TOK_THEN "then";
   K TOK_WRITE "write"; Nb "1" 1; K TOK_END "end"; K TOK_END "end"].

(** [write 5 end] *)
Definition five_source : list lexeme :=
  [K TOK_WRITE "write"; Nb "5" 5; K TOK_END "end"].

(** [a + b * c] *)
Definition product_source : list lexeme :=
  [Id "a"; T "+"; Id "b"; T "*"; Id "c"].

(** [{ a }] *)
Definition braces_source : list lexeme :=
  [T "{"; Id "a"; T "}"].

(** [return ;] *)
Definition return_source : list lexeme := [K TOK_RETURN "return"; T ";"].

Definition at_halt : machine := machine_of (compiled_then 0 []).
Definition at_set : machine := machine_of (compiled_then 1 assign_source).
Definition at_get : machine := machine_of (compiled_then 2 assign_source).
Definition at_add : machine := machine_of (compiled_then 8 four_source).
Definition at_setindex : machine := machine_of (compiled_then 6 element_source).
Definition at_getindex_set : machine := machine_of (compiled_then 9 element_source).
Definition at_gotoz : machine := machine_of (compiled_then 1 branch_source).
Definition at_push : machine := machine_of (compiled_then 0 five_source).
Definition at_bare_return : machine := machine_of (compiled_then 0 return_source).

(** The parser in [a + b * c]: at [+], at [b], at [*], at [c], and at
    the end. *)
Definition at_plus : machine :=
  machine_of ((GetNextToken ;; ParseFactor 3) (fresh_machine product_source [])).
Definition at_b : machine := machine_of (GetNextToken at_plus).
Definition at_times : machine := machine_of (ParseFactor 3 at_b).
Definition at_c : machine := machine_of (GetNextToken at_times).
Definition at_end : machine := machine_of (ParseFactor 2 at_c).

(** The parser at [{] and after it. *)
Definition at_brace : machine :=
  machine_of (GetNextToken (fresh_machine braces_source [])).
Definition in_braces : machine := machine_of (GetNextToken at_brace).

(** Every object unmarked and on the chain, as a test. *)
Definition at_restb (m : machine) : bool :=
  forallb (λ '(a, o), negb (marked o) && bool_decide (a ∈ GCHead m))
    (map_to_list (heap m)).

(** A [strtod] for digits without a dot. *)
Fixpoint digits_value (acc : Z) (s : string) : Z :=
  match s with
  | EmptyString => acc
  | String c rest => digits_value (10 * acc + (chr c - chr "0")) rest
  end.
Definition strtod_digits (s : string) : double := double_of_int (digits_value 0 s).

(** The array of [element_source] ranks above its elements. *)
Definition array_first (a : addr) : nat := if (a =? 2)%positive then 1%nat else 0%nat.

(** [write 0 end], [if 0 then write 0 end end] and [f(0)] as the
    parser hands them to the compiler. *)
Definition write_tree : Expr := EXP_WRITE [EXP_NUM 0].
Definition if_tree : Expr := EXP_IF (EXP_NUM 0) [write_tree].
Definition call_tree : Expr := EXP_CALL 0 [EXP_NUM 0].

(** The machine after the run of [call_source]. *)
Definition after_run : machine := machine_of (compiled_then 6 call_source).

(** * Reasoning about computations *)

Arguments bind : simpl never.
Arguments ret : simpl never.
Arguments fail : simpl never.
Arguments gets : simpl never.
Arguments modify : simpl never.
Arguments Z.of_nat : simpl never.

Lemma bind_Ok {A B} (c : M A) (k : A → M B) m r :
  bind c k m = Ok r ↔ ∃ a m1, c m = Ok (a, m1) ∧ k a m1 = Ok r.
Proof.
  unfold bind. split.
  - destruct (c m) as [[a m1]|f]; [eauto | discriminate].
  - intros (a & m1 & -> & H). exact H.
Qed.

Lemma bind_inv {A B} (c : M A) (k : A → M B) m r :
  bind c k m = Ok r → ∃ a m1, c m = Ok (a, m1) ∧ k a m1 = Ok r.
Proof. apply bind_Ok. Qed.

Lemma bind_Fail {A B} (c : M A) (k : A → M B) m f :
  c m = Fail f → bind c k m = Fail f.
Proof. unfold bind. intros ->. reflexivity. Qed.

Lemma bind_step {A B} (c : M A) (k : A → M B) m a m1 :
  c m = Ok (a, m1) → bind c k m = k a m1.
Proof. unfold bind. intros ->. reflexivity. Qed.

Lemma int_result_Ok z m x m' :
  int_result z m = Ok (x, m') → x = z ∧ m' = m ∧ INT_MIN ≤ z ≤ INT_MAX.
Proof.
  unfold int_result. destruct (_ && _) eqn:E; intros H; [|discriminate H].
  injection H as <- <-. split; [reflexivity | split; [reflexivity | lia]].
Qed.

Lemma load_Ok {A} what (l : list A) i m x m' :
  load what l i m = Ok (x, m') → idx l i = Some x ∧ m' = m.
Proof.
  unfold load. destruct (idx l i); intros H; [|discriminate H].
  injection H as <- <-. split; reflexivity.
Qed.

Lemma store_Ok {A} what (l : list A) i v m l' m' :
  store what l i v m = Ok (l', m') → upd l i v = Some l' ∧ m' = m.
Proof.
  unfold store. destruct (upd l i v); intros H; [|discriminate H].
  injection H as <- <-. split; reflexivity.
Qed.

Lemma ret_Ok {A} (a : A) m x m' : ret a m = Ok (x, m') → x = a ∧ m' = m.
Proof. intros [= <- <-]. split; reflexivity. Qed.

Lemma gets_Ok {A} (field : machine → A) m x m' :
  gets field m = Ok (x, m') → x = field m ∧ m' = m.
Proof. intros [= <- <-]. split; reflexivity. Qed.

Lemma modify_Ok change m x m' : modify change m = Ok (x, m') → m' = change m.
Proof. unfold modify. intros H. inversion H. reflexivity. Qed.

(** Taking apart a successful computation.  The values and states the
    computation went through are replaced by what they are in terms of
    the state it started from. *)
Ltac subst_left E :=
  lazymatch type of E with
  | ?x = _ => first [ subst x | clear E ]
  end.

Ltac inv_ok H :=
  lazymatch type of H with
  | bind _ _ _ = Ok _ =>
      let a := fresh "a" in
      let m1 := fresh "m" in
      let H1 := fresh "H" in
      apply bind_inv in H; destruct H as (a & m1 & H1 & H);
      inv_ok H1; inv_ok H
  | ret _ _ = Ok _ =>
      let E1 := fresh in let E2 := fresh in
      apply ret_Ok in H as [E1 E2]; subst_left E1; subst_left E2
  | gets _ _ = Ok _ =>
      let E1 := fresh in let E2 := fresh in
      apply gets_Ok in H as [E1 E2]; subst_left E1; subst_left E2
  | modify _ _ = Ok _ => apply modify_Ok in H; subst_left H
  | fail _ _ = Ok _ => discriminate H
  | int_result _ _ = Ok _ =>
      let E1 := fresh in let E2 := fresh in
      let E := fresh "Hrange" in
      apply int_result_Ok in H as (E1 & E2 & E); subst_left E1; subst_left E2
  | load _ _ _ _ = Ok _ =>
      let E := fresh "Hload" in
      let E2 := fresh in
      apply load_Ok in H as (E & E2); subst_left E2
  | store _ _ _ _ _ = Ok _ =>
      let E := fresh "Hstore" in
      let E2 := fresh in
      apply store_Ok in H as (E & E2); subst_left E2
  | Fail _ = Ok _ => discriminate H
  | _ => idtac
  end.

(** Two machines with the same globals are the same machine. *)
Lemma machine_ext m m' :
  Program m = Program m' →
  ProgramLength m = ProgramLength m' →
  ProgramCounter m = ProgramCounter m' →
  FramePointer m = FramePointer m' →
  heap m = heap m' →
  next_addr m = next_addr m' →
  GCHead m = GCHead m' →
  NumObjects m = NumObjects m' →
  MaxNumObjects m = MaxNumObjects m' →
  Stack m = Stack m' →
  StackSize m = StackSize m' →
  IndirStack m = IndirStack m' →
  IndirStackSize m = IndirStackSize m' →
  Variables m = Variables m' →
  VariableAmount m = VariableAmount m' →
  RuntimeVariableAmount m = RuntimeVariableAmount m' →
  FunctionNames m = FunctionNames m' →
  FunctionPcs m = FunctionPcs m' →
  FunctionAmount m = FunctionAmount m' →
  ForeignFunctionNames m = ForeignFunctionNames m' →
  ForeignAmount m = ForeignAmount m' →
  CurrScope m = CurrScope m' →
  CurrNumLocals m = CurrNumLocals m' →
  NumArgsDeclared m = NumArgsDeclared m' →
  LocalDeclarations m = LocalDeclarations m' →
  Constants m = Constants m' →
  CurTok m = CurTok m' →
  TokenBuffer m = TokenBuffer m' →
  TokenNumber m = TokenNumber m' →
  input m = input m' →
  stdin m = stdin m' →
  stdout m = stdout m' →
  m = m'.
Proof.
  destruct m, m'; simpl; intros; subst; reflexivity.
Qed.

Ltac machine_eq :=
  apply machine_ext; simpl; try reflexivity; try lia.

(** ** Computations that keep a view of the machine *)

Section Keeps.
Context {B : Type} (view : machine → B).

Lemma keeps_ret {A} (a : A) : keeps view (ret a).
Proof. intros m x m' H. inv_ok H. reflexivity. Qed.

Lemma keeps_fail {A} f : keeps view (@fail A f).
Proof. intros m x m' H. discriminate H. Qed.

Lemma keeps_gets {A} (field : machine → A) : keeps view (gets field).
Proof. intros m x m' H. inv_ok H. reflexivity. Qed.

Lemma keeps_modify change :
  (∀ m, view (change m) = view m) → keeps view (modify change).
Proof. intros Hc m x m' H. inv_ok H. apply Hc. Qed.

Lemma keeps_bind {A C} (c : M A) (k : A → M C) :
  keeps view c → (∀ a, keeps view (k a)) → keeps view (bind c k).
Proof.
  intros Hc Hk m x m' H. apply bind_inv in H as (a & m1 & H1 & H2).
  rewrite (Hk _ _ _ _ H2). eapply Hc, H1.
Qed.

Lemma keeps_for_each {A} (l : list A) body :
  (∀ x, keeps view (body x)) → keeps view (for_each l body).
Proof.
  intros Hb. induction l as [|x l IH].
  - apply keeps_ret.
  - apply keeps_bind; [apply Hb | intros _; exact IH].
Qed.

Lemma keeps_while_do {A} fuel who test body (acc : A) :
  keeps view test → (∀ a, keeps view (body a)) →
  keeps view (while_do fuel who test body acc).
Proof.
  intros Ht Hb. revert acc. induction fuel as [|fuel IH]; intros acc; simpl.
  - apply keeps_bind; [exact Ht|]. intros [|]; [apply keeps_fail | apply keeps_ret].
  - apply keeps_bind; [exact Ht|]. intros [|]; [|apply keeps_ret].
    apply keeps_bind; [apply Hb | intros a; apply IH].
Qed.

End Keeps.

Ltac keeps_step :=
  lazymatch goal with
  | |- keeps _ (bind _ _) => apply keeps_bind; [ | intros ? ]
  | |- keeps _ (ret _) => apply keeps_ret
  | |- keeps _ (fail _) => apply keeps_fail
  | |- keeps _ (gets _) => apply keeps_gets
  | |- keeps _ (modify _) => apply keeps_modify; intros; reflexivity
  | |- keeps _ (for_each _ _) => apply keeps_for_each; intros ?
  | |- keeps _ (match ?x with _ => _ end) => destruct x
  | |- keeps _ (let '(_, _) := ?x in _) => destruct x
  | |- keeps _ _ => solve [eauto with keeps]
  end.
Ltac keeps_tac := repeat keeps_step.

Create HintDb keeps.

Section KeepsHeap.
Context {B : Type} (view : machine → B) (Hview : heap_blind view).

Lemma keeps_load {A} what (l : list A) i : keeps view (load what l i).
Proof. unfold load. keeps_tac. Qed.

Lemma keeps_store {A} what (l : list A) i v : keeps view (store what l i v).
Proof. unfold store. keeps_tac. Qed.

Lemma keeps_int_result z : keeps view (int_result z).
Proof. unfold int_result. keeps_tac. Qed.

Lemma keeps_print e : keeps view (print e).
Proof. unfold print. apply keeps_modify. intros m. apply Hview. Qed.

Lemma keeps_deref p : keeps view (deref p).
Proof. unfold deref. keeps_tac. Qed.

Hint Resolve keeps_load keeps_store keeps_int_result keeps_print keeps_deref : keeps.

Lemma keeps_number_of p : keeps view (number_of p).
Proof. unfold number_of. keeps_tac. Qed.

Lemma keeps_array_of p : keeps view (array_of p).
Proof. unfold array_of. keeps_tac. Qed.

Lemma keeps_int_of p : keeps view (int_of p).
Proof. unfold int_of. keeps_tac. apply keeps_number_of. Qed.

Lemma keeps_set_marked a b : keeps view (set_marked a b).
Proof. unfold set_marked. apply keeps_modify. intros m. apply Hview. Qed.

Lemma keeps_set_val a v : keeps view (set_val a v).
Proof. unfold set_val. apply keeps_modify. intros m. apply Hview. Qed.

Lemma keeps_DeleteObject a : keeps view (DeleteObject a).
Proof. unfold DeleteObject. apply keeps_modify. intros m. apply Hview. Qed.

Hint Resolve keeps_number_of keeps_array_of keeps_int_of keeps_set_marked
  keeps_set_val keeps_DeleteObject : keeps.

Lemma keeps_Mark fuel p : keeps view (Mark fuel p).
Proof.
  revert p. induction fuel as [|fuel IH]; intros p; simpl.
  - apply keeps_fail.
  - keeps_tac.
Qed.

Hint Resolve keeps_Mark : keeps.

Lemma keeps_MarkAll fuel : keeps view (MarkAll fuel).
Proof. unfold MarkAll. keeps_tac. Qed.

End KeepsHeap.

#[global] Hint Resolve keeps_load keeps_store keeps_int_result keeps_print
  keeps_deref keeps_number_of keeps_array_of keeps_int_of keeps_set_marked
  keeps_set_val keeps_DeleteObject keeps_Mark keeps_MarkAll : keeps.

Section KeepsGC.
Context {B : Type} (view : machine → B) (Hview : gc_blind view).

Lemma keeps_Sweep_chain chain : keeps view (Sweep_chain chain).
Proof.
  pose proof (proj1 Hview) as Hheap.
  induction chain as [|a chain IH]; cbn [Sweep_chain].
  - apply keeps_ret.
  - apply keeps_bind; [eauto with keeps|]. intros o.
    destruct (negb (marked o)).
    + apply keeps_bind; [apply keeps_gets|]. intros n.
      apply keeps_bind; [eauto with keeps|]. intros n'.
      apply keeps_bind; [apply keeps_modify; apply Hview|]. intros _.
      apply keeps_bind; [eauto with keeps|]. intros _. exact IH.
    + apply keeps_bind; [eauto with keeps|]. intros _.
      apply keeps_bind; [exact IH|]. intros r. apply keeps_ret.
Qed.

Lemma keeps_Sweep : keeps view Sweep.
Proof.
  pose proof (proj1 Hview) as Hheap.
  unfold Sweep. apply keeps_bind; [apply keeps_gets|]. intros c.
  apply keeps_bind; [apply keeps_Sweep_chain|]. intros c'.
  apply keeps_modify. apply Hview.
Qed.

Lemma keeps_GarbageCollect fuel : keeps view (GarbageCollect fuel).
Proof.
  pose proof (proj1 Hview) as Hheap.
  unfold GarbageCollect.
  apply keeps_bind; [eauto with keeps|]. intros _.
  apply keeps_bind; [apply keeps_Sweep|]. intros _.
  apply keeps_bind; [apply keeps_gets|]. intros n.
  apply keeps_bind; [eauto with keeps|]. intros n2.
  apply keeps_modify. apply Hview.
Qed.

End KeepsGC.

Section KeepsAlloc.
Context {B : Type} (view : machine → B) (Hview : alloc_blind view).

Lemma keeps_allocate t : keeps view (allocate t).
Proof.
  pose proof (proj1 Hview) as Hgc. pose proof (proj1 Hgc) as Hheap.
  unfold allocate.
  apply keeps_bind; [apply keeps_gets|]. intros a.
  apply keeps_bind; [apply keeps_modify; intros; apply Hheap|]. intros _.
  apply keeps_bind; [apply keeps_modify; apply Hview|]. intros _.
  apply keeps_bind; [apply keeps_modify; intros; apply Hgc|]. intros _.
  apply keeps_bind; [apply keeps_gets|]. intros n.
  apply keeps_bind; [eauto with keeps|]. intros n'.
  apply keeps_bind; [apply keeps_modify; apply Hgc|]. intros _.
  apply keeps_ret.
Qed.

Lemma keeps_NewObject fuel t : keeps view (NewObject fuel t).
Proof.
  pose proof (proj1 Hview) as Hgc. pose proof (proj1 Hgc) as Hheap.
  unfold NewObject.
  apply keeps_bind; [apply keeps_gets|]. intros n.
  apply keeps_bind; [apply keeps_gets|]. intros mx.
  apply keeps_bind; [|intros _; apply keeps_allocate].
  destruct (mx <=? n); [apply keeps_GarbageCollect, Hgc | apply keeps_ret].
Qed.

Hint Resolve keeps_NewObject : keeps.

Lemma keeps_NewNumber fuel d : keeps view (NewNumber fuel d).
Proof. pose proof (proj1 Hview) as Hgc. pose proof (proj1 Hgc) as Hheap. unfold NewNumber. keeps_tac. Qed.

Lemma keeps_NewString fuel s : keeps view (NewString fuel s).
Proof. pose proof (proj1 Hview) as Hgc. pose proof (proj1 Hgc) as Hheap. unfold NewString. keeps_tac. Qed.

Lemma keeps_NewArray fuel n : keeps view (NewArray fuel n).
Proof. pose proof (proj1 Hview) as Hgc. pose proof (proj1 Hgc) as Hheap. unfold NewArray. keeps_tac. Qed.

Lemma keeps_NewNative fuel h f k : keeps view (NewNative fuel h f k).
Proof. pose proof (proj1 Hview) as Hgc. pose proof (proj1 Hgc) as Hheap. unfold NewNative. keeps_tac. Qed.

End KeepsAlloc.

#[global] Hint Resolve keeps_Sweep keeps_GarbageCollect keeps_allocate
  keeps_NewObject keeps_NewNumber keeps_NewString keeps_NewArray
  keeps_NewNative : keeps.

Lemma frames_gc_blind : gc_blind frames.
Proof. repeat split. Qed.

Lemma frames_alloc_blind : alloc_blind frames.
Proof. repeat split. Qed.

Lemma frames_heap_blind : heap_blind frames.
Proof. repeat split. Qed.

#[global] Hint Resolve frames_gc_blind frames_alloc_blind frames_heap_blind : keeps.

(** * The trigger of the collector *)

(** What [Sweep] removes from the chain it takes off the count. *)
Lemma Sweep_chain_count chain m chain' m' :
  Sweep_chain chain m = Ok (chain', m') →
  NumObjects m' - Z.of_nat (length chain') = NumObjects m - Z.of_nat (length chain).
Proof.
  revert m chain' m'. induction chain as [|a chain IH]; intros m chain' m' H;
    cbn [Sweep_chain] in H.
  - inv_ok H. reflexivity.
  - apply bind_inv in H as (o & m1 & Hd & H).
    assert (NumObjects m1 = NumObjects m) as E1.
    { eapply (keeps_deref NumObjects), Hd. }
    destruct (negb (marked o)).
    + unfold DeleteObject in H. inv_ok H.
      apply IH in H. simpl in *. lia.
    + unfold set_marked in H. inv_ok H.
      apply IH in H0. simpl in *. lia.
Qed.

Lemma GarbageCollect_threshold fuel m m' :
  GarbageCollect fuel m = Ok (tt, m') →
  MaxNumObjects m' = 2 * NumObjects m' ∧
  (NumObjects m = Z.of_nat (length (GCHead m)) →
   NumObjects m' = Z.of_nat (length (GCHead m'))).
Proof.
  unfold GarbageCollect, Sweep. intros H.
  apply bind_inv in H as (? & m1 & Hmark & H).
  apply bind_inv in H as (? & m2 & Hsweep & H).
  apply bind_inv in Hsweep as (c & m3 & Hc & Hsweep). inv_ok Hc.
  apply bind_inv in Hsweep as (c' & m4 & Hchain & Hsweep). inv_ok Hsweep.
  inv_ok H.
  apply Sweep_chain_count in Hchain.
  assert (NumObjects m1 = NumObjects m) as E1.
  { eapply (keeps_MarkAll NumObjects); [split; reflexivity | exact Hmark]. }
  assert (GCHead m1 = GCHead m) as E2.
  { eapply (keeps_MarkAll GCHead); [split; reflexivity | exact Hmark]. }
  simpl. split; [lia|]. intros Hn. rewrite E1, E2 in Hchain. lia.
Qed.



(** * C arrays *)

Lemma upd_Some {A} (l : list A) i v l' :
  upd l i v = Some l' →
  0 ≤ i < Z.of_nat (length l) ∧ l' = <[Z.to_nat i := v]> l.
Proof.
  unfold upd. destruct (_ && _) eqn:E; [|discriminate].
  intros [= <-]. split; [lia | reflexivity].
Qed.

Lemma idx_upd_eq {A} (l : list A) i v l' :
  upd l i v = Some l' → idx l' i = Some v.
Proof.
  intros H. apply upd_Some in H as [Hi ->]. unfold idx.
  destruct (0 <=? i) eqn:E; [|lia].
  apply list_lookup_insert_eq. lia.
Qed.

Lemma idx_upd_ne {A} (l : list A) i j v l' :
  upd l i v = Some l' → j ≠ i → idx l' j = idx l j.
Proof.
  intros H Hne. apply upd_Some in H as [Hi ->]. unfold idx.
  destruct (0 <=? j) eqn:E; [|reflexivity].
  apply list_lookup_insert_ne. lia.
Qed.

Lemma idx_Some {A} (l : list A) i x :
  idx l i = Some x → 0 ≤ i < Z.of_nat (length l).
Proof.
  unfold idx. destruct (0 <=? i) eqn:E; [|discriminate].
  intros H. apply lookup_lt_Some in H. lia.
Qed.

(** * The stack machine keeps the frames outside calls and returns *)

Lemma keeps_fetch : keeps frames fetch.
Proof. unfold fetch. keeps_tac. Qed.
#[global] Hint Resolve keeps_fetch : keeps.

Lemma keeps_ReadInteger : keeps frames ReadInteger.
Proof. unfold ReadInteger. keeps_tac. Qed.

Lemma keeps_next_pc : keeps frames next_pc.
Proof. unfold next_pc. keeps_tac. Qed.

Lemma keeps_DoPush v : keeps frames (DoPush v).
Proof. unfold DoPush. keeps_tac. Qed.

Lemma keeps_DoPop : keeps frames DoPop.
Proof. unfold DoPop. keeps_tac. Qed.

#[global] Hint Resolve keeps_ReadInteger keeps_next_pc keeps_DoPush keeps_DoPop : keeps.

Lemma keeps_DoRead fuel : keeps frames (DoRead fuel).
Proof. unfold DoRead. keeps_tac. Qed.

Lemma keeps_BIN_OP fuel f : keeps frames (BIN_OP fuel f).
Proof. unfold BIN_OP. keeps_tac. Qed.

Lemma keeps_int_mod a b : keeps frames (int_mod a b).
Proof. unfold int_mod. keeps_tac. Qed.

Lemma keeps_int_or a b : keeps frames (int_or a b).
Proof. unfold int_or. keeps_tac. Qed.

Lemma keeps_int_and a b : keeps frames (int_and a b).
Proof. unfold int_and. keeps_tac. Qed.

Lemma keeps_BIN_OP_INT fuel f :
  (∀ a b, keeps frames (f a b)) → keeps frames (BIN_OP_INT fuel f).
Proof. intros Hf. unfold BIN_OP_INT. keeps_tac. Qed.

#[global] Hint Resolve keeps_DoRead keeps_BIN_OP keeps_int_mod keeps_int_or
  keeps_int_and keeps_BIN_OP_INT : keeps.

Lemma keeps_callback ff i :
  frame_safe ff →
  keeps frames (let* callback := load "ForeignFunctions index out of bounds" ff i in callback).
Proof.
  intros Hff m x m' H. apply bind_inv in H as (cb & m1 & Hl & H).
  inv_ok Hl. unfold idx in Hload. destruct (0 <=? i); [|discriminate].
  apply list_elem_of_lookup_2 in Hload.
  unfold frame_safe in Hff. rewrite Forall_forall in Hff.
  eapply Hff; eassumption.
Qed.

Lemma keeps_execute ff fuel op :
  frame_safe ff →
  is_call_or_return op = false →
  keeps frames (execute ff fuel (Some op)).
Proof.
  intros Hff Hop.
  destruct op; try discriminate Hop; unfold execute, out_of_bounds;
    try (keeps_tac; fail).
  apply keeps_bind; [eauto with keeps|]. intros _.
  apply keeps_bind; [eauto with keeps|]. intros i.
  apply keeps_callback, Hff.
Qed.

(** * Calls and returns *)

Lemma fetch_Ok m w m' :
  fetch m = Ok (w, m') →
  idx (Program m) (ProgramCounter m) = Some w ∧
  m' = set_ProgramCounter (ProgramCounter m + 1) m.
Proof.
  unfold fetch. intros H. inv_ok H. split; [assumption | reflexivity].
Qed.

Lemma ReadInteger_Ok m z m' :
  ReadInteger m = Ok (z, m') →
  immediate_at m (ProgramCounter m) = Some z ∧
  m' = set_ProgramCounter (ProgramCounter m + 4) m.
Proof.
  unfold ReadInteger. intros H.
  apply bind_inv in H as (b0 & m1 & H0 & H). apply fetch_Ok in H0 as [E0 ->].
  apply bind_inv in H as (b1 & m2 & H1 & H). apply fetch_Ok in H1 as [E1 ->].
  apply bind_inv in H as (b2 & m3 & H2 & H). apply fetch_Ok in H2 as [E2 ->].
  apply bind_inv in H as (b3 & m4 & H3 & H). apply fetch_Ok in H3 as [E3 ->].
  inv_ok H. simpl in E1, E2, E3.
  replace (ProgramCounter m + 1 + 1) with (ProgramCounter m + 2) in * by lia.
  replace (ProgramCounter m + 2 + 1) with (ProgramCounter m + 3) in * by lia.
  unfold immediate_at. rewrite E0, E1, E2, E3. split; [reflexivity|].
  machine_eq.
Qed.

Lemma push_indir_Ok v m m' :
  push_indir v m = Ok (tt, m') →
  ∃ l', upd (IndirStack m) (IndirStackSize m) v = Some l' ∧
        m' = set_IndirStackSize (IndirStackSize m + 1) (set_IndirStack l' m).
Proof.
  unfold push_indir. intros H. inv_ok H. eexists. split; [eassumption | reflexivity].
Qed.

Lemma pop_indir_Ok m v m' :
  pop_indir m = Ok (v, m') →
  idx (IndirStack m) (IndirStackSize m - 1) = Some v ∧
  m' = set_IndirStackSize (IndirStackSize m - 1) m.
Proof.
  unfold pop_indir. intros H. inv_ok H. split; [assumption | reflexivity].
Qed.

Lemma DoPushIndir_Ok nargs m m' :
  DoPushIndir nargs m = Ok (tt, m') →
  ∃ l1 l2 l3,
    upd (IndirStack m) (IndirStackSize m) nargs = Some l1 ∧
    upd l1 (IndirStackSize m + 1) (FramePointer m) = Some l2 ∧
    upd l2 (IndirStackSize m + 2) (ProgramCounter m) = Some l3 ∧
    m' = set_FramePointer (StackSize m)
           (set_IndirStackSize (IndirStackSize m + 3) (set_IndirStack l3 m)).
Proof.
  unfold DoPushIndir. intros H.
  apply bind_inv in H as ([] & m1 & H1 & H). apply push_indir_Ok in H1 as (l1 & U1 & ->).
  apply bind_inv in H as (fp & m2 & Hg & H). inv_ok Hg.
  apply bind_inv in H as ([] & m2 & H2 & H). apply push_indir_Ok in H2 as (l2 & U2 & ->).
  apply bind_inv in H as (pc & m3 & Hg & H). inv_ok Hg.
  apply bind_inv in H as ([] & m3 & H3 & H). apply push_indir_Ok in H3 as (l3 & U3 & ->).
  inv_ok H. simpl in U2, U3.
  replace (IndirStackSize m + 1 + 1) with (IndirStackSize m + 2) in * by lia.
  exists l1, l2, l3. split; [assumption|]. split; [assumption|].
  split; [assumption|]. machine_eq.
Qed.

Lemma DoPopIndir_Ok m m' :
  DoPopIndir m = Ok (tt, m') →
  ∃ prevPc prevFp nargs,
    idx (IndirStack m) (IndirStackSize m - 1) = Some prevPc ∧
    idx (IndirStack m) (IndirStackSize m - 2) = Some prevFp ∧
    idx (IndirStack m) (IndirStackSize m - 3) = Some nargs ∧
    INT_MIN ≤ FramePointer m - nargs ≤ INT_MAX ∧
    m' = set_ProgramCounter prevPc
           (set_FramePointer prevFp
              (set_StackSize (FramePointer m - nargs)
                 (set_IndirStackSize (IndirStackSize m - 3) m))).
Proof.
  unfold DoPopIndir. intros H.
  apply bind_inv in H as (fp & m1 & Hg & H). inv_ok Hg.
  apply bind_inv in H as ([] & m1 & Hg & H). inv_ok Hg.
  apply bind_inv in H as (prevPc & m1 & H1 & H). apply pop_indir_Ok in H1 as [E1 ->].
  apply bind_inv in H as (prevFp & m2 & H2 & H). apply pop_indir_Ok in H2 as [E2 ->].
  apply bind_inv in H as (nargs & m3 & H3 & H). apply pop_indir_Ok in H3 as [E3 ->].
  inv_ok H. simpl in E1, E2, E3, Hrange.
  replace (IndirStackSize m - 1 - 1) with (IndirStackSize m - 2) in * by lia.
  replace (IndirStackSize m - 2 - 1) with (IndirStackSize m - 3) in * by lia.
  exists prevPc, prevFp, nargs.
  split; [assumption|]. split; [assumption|]. split; [assumption|].
  split; [lia|]. machine_eq.
Qed.

Lemma next_pc_Ok m x m' :
  next_pc m = Ok (x, m') → m' = set_ProgramCounter (ProgramCounter m + 1) m.
Proof. unfold next_pc. intros H. inv_ok H. reflexivity. Qed.

(** What [CALL] does when it succeeds. *)
Lemma call_Ok ff fuel m m' :
  execute ff fuel (Some OP_CALL) m = Ok (tt, m') →
  ∃ nargs l1 l2 l3,
    immediate_at m (ProgramCounter m + 1) = Some nargs ∧
    upd (IndirStack m) (IndirStackSize m) nargs = Some l1 ∧
    upd l1 (IndirStackSize m + 1) (FramePointer m) = Some l2 ∧
    upd l2 (IndirStackSize m + 2) (ProgramCounter m + 9) = Some l3 ∧
    IndirStack m' = l3 ∧
    IndirStackSize m' = IndirStackSize m + 3 ∧
    FramePointer m' = StackSize m ∧
    StackSize m' = StackSize m.
Proof.
  unfold execute. intros H.
  apply bind_inv in H as (? & m1 & H1 & H). apply next_pc_Ok in H1 as ->.
  apply bind_inv in H as (nargs & m2 & H2 & H). apply ReadInteger_Ok in H2 as [E2 ->].
  apply bind_inv in H as (pcIdx & m3 & H3 & H). apply ReadInteger_Ok in H3 as [E3 ->].
  apply bind_inv in H as ([] & m4 & H4 & H).
  apply DoPushIndir_Ok in H4 as (l1 & l2 & l3 & U1 & U2 & U3 & ->).
  inv_ok H. simpl in E2, E3, U1, U2, U3.
  replace (ProgramCounter m + 1 + 4 + 4) with (ProgramCounter m + 9) in U3 by lia.
  exists nargs, l1, l2, l3. simpl. repeat split; assumption.
Qed.

Lemma DoPop_Ok m v m' :
  DoPop m = Ok (v, m') →
  0 < StackSize m ∧
  idx (Stack m) (StackSize m - 1) = Some v ∧
  m' = set_StackSize (StackSize m - 1) m.
Proof.
  unfold DoPop. intros H. apply bind_inv in H as (n & m1 & Hg & H). inv_ok Hg.
  destruct (StackSize m <=? 0) eqn:E; [exfalso; inv_ok H|].
  inv_ok H. repeat split; [lia | assumption].
Qed.

Lemma DoPush_Ok v m m' :
  DoPush v m = Ok (tt, m') →
  StackSize m < MAX_STACK ∧
  ∃ st', upd (Stack m) (StackSize m) v = Some st' ∧
         m' = set_StackSize (StackSize m + 1) (set_Stack st' m).
Proof.
  unfold DoPush. intros H. apply bind_inv in H as (n & m1 & Hg & H). inv_ok Hg.
  destruct (MAX_STACK <=? StackSize m) eqn:E; [discriminate H|].
  inv_ok H. split; [lia|]. eexists. split; [eassumption | reflexivity].
Qed.

(** What [RETURN] and [RETURN_VALUE] do when they succeed; [extra] is
    the slot of the value handed back. *)
Lemma return_Ok ff fuel op extra m m' :
  (op = OP_RETURN ∧ extra = 0) ∨ (op = OP_RETURN_VALUE ∧ extra = 1) →
  execute ff fuel (Some op) m = Ok (tt, m') →
  ∃ prevPc prevFp nargs,
    idx (IndirStack m) (IndirStackSize m - 1) = Some prevPc ∧
    idx (IndirStack m) (IndirStackSize m - 2) = Some prevFp ∧
    idx (IndirStack m) (IndirStackSize m - 3) = Some nargs ∧
    IndirStack m' = IndirStack m ∧
    IndirStackSize m' = IndirStackSize m - 3 ∧
    ProgramCounter m' = prevPc ∧
    FramePointer m' = prevFp ∧
    StackSize m' = FramePointer m - nargs + extra.
Proof.
  intros [[-> ->]|[-> ->]] H; unfold execute in H.
  - apply DoPopIndir_Ok in H as (prevPc & prevFp & nargs & E1 & E2 & E3 & _ & ->).
    exists prevPc, prevFp, nargs. simpl. repeat split; try assumption. lia.
  - apply bind_inv in H as (retVal & m1 & H1 & H). apply DoPop_Ok in H1 as (_ & _ & ->).
    apply bind_inv in H as ([] & m2 & H2 & H).
    apply DoPopIndir_Ok in H2 as (prevPc & prevFp & nargs & E1 & E2 & E3 & _ & ->).
    apply DoPush_Ok in H as (_ & st' & _ & ->). simpl in E1, E2, E3.
    exists prevPc, prevFp, nargs. simpl. repeat split; assumption.
Qed.

Lemma ExecuteCycle_Ok ff fuel m m' :
  ExecuteCycle ff fuel m = Ok (tt, m') →
  ∃ w, idx (Program m) (ProgramCounter m) = Some w ∧
       instruction_at m = decode w ∧
       execute ff fuel (decode w) m = Ok (tt, m').
Proof.
  unfold ExecuteCycle. intros H.
  apply bind_inv in H as (pc & m1 & Hg & H). inv_ok Hg.
  apply bind_inv in H as (prog & m1 & Hg & H). inv_ok Hg.
  apply bind_inv in H as (w & m2 & Hl & H). inv_ok Hl.
  exists w. unfold instruction_at. rewrite Hload. repeat split; assumption.
Qed.

Section StackBalance.

Variable ff : list (M unit).
Variable fuel : nat.
Hypothesis Hff : frame_safe ff.

(** The frame saved at [d]: [nargs], the caller's frame pointer [fp0]
    and the return address [ra]; [S] is the stack size at the call. *)
Variables d S nargs fp0 ra : Z.

Lemma frame_inv_frames m m' :
  frames m' = frames m → frame_inv d S nargs fp0 ra m → frame_inv d S nargs fp0 ra m'.
Proof.
  unfold frames, frame_inv. intros [= -> -> ->]. exact id.
Qed.

Lemma frame_inv_cycle m m' :
  frame_inv d S nargs fp0 ra m →
  ExecuteCycle ff fuel m = Ok (tt, m') →
  d + 3 ≤ IndirStackSize m' →
  frame_inv d S nargs fp0 ra m'.
Proof.
  intros Hinv H Hdepth.
  apply ExecuteCycle_Ok in H as (w & _ & _ & H).
  destruct (decode w) as [op|] eqn:Hop.
  2:{ unfold execute in H. inv_ok H. exact Hinv. }
  destruct (is_call_or_return op) eqn:Hcr.
  2:{ eapply frame_inv_frames; [|exact Hinv].
      eapply keeps_execute; eassumption. }
  destruct Hinv as ((k & Hk & Hsize) & I0 & I1 & I2 & Itop & Iabove).
  destruct op; try discriminate Hcr.
  - (* CALL *)
    apply call_Ok in H
      as (n' & l1 & l2 & l3 & _ & U1 & U2 & U3 & El & Es & Efp & _).
    unfold frame_inv. rewrite El, Es, Efp.
    assert (∀ j, j < IndirStackSize m → idx l3 j = idx (IndirStack m) j) as Hlow.
    { intros j Hj.
      rewrite (idx_upd_ne _ _ _ _ _ U3) by lia.
      rewrite (idx_upd_ne _ _ _ _ _ U2) by lia.
      apply (idx_upd_ne _ _ _ _ _ U1). lia. }
    split; [exists (k + 1); lia|].
    rewrite !Hlow by lia. repeat split; try assumption; [lia|].
    intros _. destruct (decide (k = 0)) as [->|Hk0].
    + replace (d + 4) with (IndirStackSize m + 1) by lia.
      rewrite (idx_upd_ne _ _ _ _ _ U3) by lia.
      rewrite (idx_upd_eq _ _ _ _ U2). f_equal. apply Itop. lia.
    + rewrite Hlow by lia. apply Iabove. lia.
  - (* RETURN *)
    eapply (return_Ok _ _ _ 0) in H; [|left; split; reflexivity].
    destruct H as (prevPc & prevFp & n' & E1 & E2 & E3 & El & Es & Epc & Efp & _).
    unfold frame_inv. rewrite El, Es, Efp. rewrite Es in Hdepth.
    split; [exists (k - 1); lia|]. repeat split; try assumption.
    + intros Hd. replace (IndirStackSize m - 2) with (d + 4) in E2 by lia.
      rewrite Iabove in E2 by lia. congruence.
    + intros Hd. apply Iabove. lia.
  - (* RETURN_VALUE *)
    eapply (return_Ok _ _ _ 1) in H; [|right; split; reflexivity].
    destruct H as (prevPc & prevFp & n' & E1 & E2 & E3 & El & Es & Epc & Efp & _).
    unfold frame_inv. rewrite El, Es, Efp. rewrite Es in Hdepth.
    split; [exists (k - 1); lia|]. repeat split; try assumption.
    + intros Hd. replace (IndirStackSize m - 2) with (d + 4) in E2 by lia.
      rewrite Iabove in E2 by lia. congruence.
    + intros Hd. apply Iabove. lia.
Qed.

Lemma frame_inv_run m m' :
  callee_run ff fuel (d + 3) m m' → frame_inv d S nargs fp0 ra m → frame_inv d S nargs fp0 ra m'.
Proof.
  induction 1 as [m Hd | m m1 m2 Hd Hstep Hrun IH]; intros Hinv.
  - exact Hinv.
  - apply IH. eapply frame_inv_cycle; [exact Hinv | exact Hstep |].
    inversion Hrun; assumption.
Qed.

End StackBalance.

(** A call and its matching return, from the push of the frame on:
    [DoPushIndir] saves [nargs], the frame pointer and the program
    counter of [m]; the callee runs from [entry] to [m2] without the
    indirection stack dropping below that frame; at [m2], back at that
    depth, the cycle executes [RETURN] or [RETURN_VALUE]. *)
Lemma frame_push_balance ff fuel m ma entry m2 m3 nargs ret extra :
  frame_safe ff →
  DoPushIndir nargs m = Ok (tt, ma) →
  callee_run ff fuel (IndirStackSize m + 3) (set_ProgramCounter entry ma) m2 →
  IndirStackSize m2 = IndirStackSize m + 3 →
  instruction_at m2 = Some ret →
  (ret = OP_RETURN ∧ extra = 0) ∨ (ret = OP_RETURN_VALUE ∧ extra = 1) →
  ExecuteCycle ff fuel m2 = Ok (tt, m3) →
  StackSize m3 = StackSize m - nargs + extra ∧
  FramePointer m3 = FramePointer m ∧
  ProgramCounter m3 = ProgramCounter m.
Proof.
  intros Hff Hpush Hrun Hdepth Hret Hkind H23.
  apply DoPushIndir_Ok in Hpush as (l1 & l2 & l3 & U1 & U2 & U3 & ->).
  set (d := IndirStackSize m) in *.
  match type of Hrun with callee_run _ _ _ ?m1 _ =>
    assert (frame_inv d (StackSize m) nargs (FramePointer m) (ProgramCounter m) m1)
      as Hinv1
  end.
  { unfold frame_inv. simpl.
    split; [exists 0; lia|]. repeat split.
    - rewrite (idx_upd_ne _ _ _ _ _ U3) by lia.
      rewrite (idx_upd_ne _ _ _ _ _ U2) by lia.
      apply (idx_upd_eq _ _ _ _ U1).
    - rewrite (idx_upd_ne _ _ _ _ _ U3) by lia.
      apply (idx_upd_eq _ _ _ _ U2).
    - apply (idx_upd_eq _ _ _ _ U3).
    - lia. }
  apply (frame_inv_run ff fuel Hff _ _ _ _ _ _ _ Hrun) in Hinv1.
  destruct Hinv1 as (_ & I0 & I1 & I2 & Itop & _).
  apply ExecuteCycle_Ok in H23 as (w2 & _ & Hw2 & H23).
  rewrite Hret in Hw2. rewrite <- Hw2 in H23.
  eapply return_Ok in H23; [|exact Hkind].
  destruct H23 as (prevPc & prevFp & n' & E1 & E2 & E3 & _ & _ & Epc & Efp' & Esz).
  rewrite Hdepth in E1, E2, E3.
  replace (d + 3 - 1) with (d + 2) in E1 by lia.
  replace (d + 3 - 2) with (d + 1) in E2 by lia.
  replace (d + 3 - 3) with d in E3 by lia.
  rewrite I2 in E1. rewrite I1 in E2. rewrite I0 in E3.
  injection E1 as <-. injection E2 as <-. injection E3 as <-.
  rewrite Itop in Esz by exact Hdepth.
  repeat split; assumption.
Qed.

(** The same for the instruction [CALL]: the cycle at [m0] executes it,
    and the program counter it saves is the address after the opcode
    and its two immediates. *)
Lemma call_instruction_balance ff fuel m0 m1 m2 m3 nargs ret extra :
  frame_safe ff →
  instruction_at m0 = Some OP_CALL →
  immediate_at m0 (ProgramCounter m0 + 1) = Some nargs →
  ExecuteCycle ff fuel m0 = Ok (tt, m1) →
  callee_run ff fuel (IndirStackSize m0 + 3) m1 m2 →
  IndirStackSize m2 = IndirStackSize m0 + 3 →
  instruction_at m2 = Some ret →
  (ret = OP_RETURN ∧ extra = 0) ∨ (ret = OP_RETURN_VALUE ∧ extra = 1) →
  ExecuteCycle ff fuel m2 = Ok (tt, m3) →
  StackSize m3 = StackSize m0 - nargs + extra ∧
  FramePointer m3 = FramePointer m0 ∧
  ProgramCounter m3 = ProgramCounter m0 + 9.
Proof.
  intros Hff Hcall Himm H01 Hrun Hdepth Hret Hkind H23.
  apply ExecuteCycle_Ok in H01 as (w & _ & Hw & H01).
  rewrite Hcall in Hw. rewrite <- Hw in H01.
  apply call_Ok in H01
    as (n' & l1 & l2 & l3 & Himm' & U1 & U2 & U3 & El & Es & Efp & Ess).
  rewrite Himm in Himm'. injection Himm' as <-.
  set (d := IndirStackSize m0) in *.
  assert (frame_inv d (StackSize m0) nargs (FramePointer m0) (ProgramCounter m0 + 9) m1)
    as Hinv1.
  { unfold frame_inv. rewrite El, Es, Efp.
    split; [exists 0; lia|]. repeat split.
    - rewrite (idx_upd_ne _ _ _ _ _ U3) by lia.
      rewrite (idx_upd_ne _ _ _ _ _ U2) by lia.
      apply (idx_upd_eq _ _ _ _ U1).
    - rewrite (idx_upd_ne _ _ _ _ _ U3) by lia.
      apply (idx_upd_eq _ _ _ _ U2).
    - apply (idx_upd_eq _ _ _ _ U3).
    - lia. }
  apply (frame_inv_run ff fuel Hff _ _ _ _ _ _ _ Hrun) in Hinv1.
  destruct Hinv1 as (_ & I0 & I1 & I2 & Itop & _).
  apply ExecuteCycle_Ok in H23 as (w2 & _ & Hw2 & H23).
  rewrite Hret in Hw2. rewrite <- Hw2 in H23.
  eapply return_Ok in H23; [|exact Hkind].
  destruct H23 as (prevPc & prevFp & n' & E1 & E2 & E3 & _ & _ & Epc & Efp' & Esz).
  rewrite Hdepth in E1, E2, E3.
  replace (d + 3 - 1) with (d + 2) in E1 by lia.
  replace (d + 3 - 2) with (d + 1) in E2 by lia.
  replace (d + 3 - 3) with d in E3 by lia.
  rewrite I2 in E1. rewrite I1 in E2. rewrite I0 in E3.
  injection E1 as <-. injection E2 as <-. injection E3 as <-.
  rewrite Itop in Esz by exact Hdepth.
  repeat split; assumption.
Qed.

(** C1.  A user-procedure call and its matching return.  A call pushes
    its frame with [DoPushIndir] on a machine [m] (the instruction
    [CALL] does, after reading its immediates, and so does [CallProc])
    and transfers control to the callee; the callee runs to [m2]
    without the indirection stack dropping below that frame; at [m2],
    back at that depth, the cycle executes [RETURN] or [RETURN_VALUE]
    and ends in [m3].  Then the operand stack holds [nargs] entries
    fewer than at the call (plus the returned value for
    [RETURN_VALUE]), and the frame pointer and the program counter are
    those of [m] again.  For the instruction [CALL] executed by the
    cycle at [m0], that program counter is the address after the
    [CALL] and its two immediates.  Host callbacks are assumed to
    leave the frame pointer and the indirection stack alone. *)
Theorem call_return_stack_balance ff fuel :
  frame_safe ff →
  (∀ m ma entry m2 m3 nargs ret extra,
     DoPushIndir nargs m = Ok (tt, ma) →
     callee_run ff fuel (IndirStackSize m + 3) (set_ProgramCounter entry ma) m2 →
     IndirStackSize m2 = IndirStackSize m + 3 →
     instruction_at m2 = Some ret →
     (ret = OP_RETURN ∧ extra = 0) ∨ (ret = OP_RETURN_VALUE ∧ extra = 1) →
     ExecuteCycle ff fuel m2 = Ok (tt, m3) →
     StackSize m3 = StackSize m - nargs + extra ∧
     FramePointer m3 = FramePointer m ∧
     ProgramCounter m3 = ProgramCounter m) ∧
  (∀ m0 m1 m2 m3 nargs ret extra,
     instruction_at m0 = Some OP_CALL →
     immediate_at m0 (ProgramCounter m0 + 1) = Some nargs →
     ExecuteCycle ff fuel m0 = Ok (tt, m1) →
     callee_run ff fuel (IndirStackSize m0 + 3) m1 m2 →
     IndirStackSize m2 = IndirStackSize m0 + 3 →
     instruction_at m2 = Some ret →
     (ret = OP_RETURN ∧ extra = 0) ∨ (ret = OP_RETURN_VALUE ∧ extra = 1) →
     ExecuteCycle ff fuel m2 = Ok (tt, m3) →
     StackSize m3 = StackSize m0 - nargs + extra ∧
     FramePointer m3 = FramePointer m0 ∧
     ProgramCounter m3 = ProgramCounter m0 + 9).
Proof.
  intros Hff. split.
  - intros. eapply frame_push_balance; eassumption.
  - intros. eapply call_instruction_balance; eassumption.
Qed.

(** * Single instructions *)

Lemma instruction_at_Some m op :
  instruction_at m = Some op →
  ∃ w, idx (Program m) (ProgramCounter m) = Some w ∧ decode w = Some op.
Proof.
  unfold instruction_at. destruct (idx _ _) as [w|]; [|discriminate].
  intros H. exists w. split; [reflexivity | exact H].
Qed.

Lemma ExecuteCycle_at ff fuel m op :
  instruction_at m = Some op →
  ExecuteCycle ff fuel m = execute ff fuel (Some op) m.
Proof.
  intros H. apply instruction_at_Some in H as (w & Hw & Hop).
  unfold ExecuteCycle.
  rewrite (bind_step _ _ m (ProgramCounter m) m) by reflexivity.
  rewrite (bind_step _ _ m (Program m) m) by reflexivity.
  rewrite (bind_step _ _ m w m) by (unfold load; rewrite Hw; reflexivity).
  rewrite Hop. reflexivity.
Qed.

Lemma DoPop_step m v :
  0 < StackSize m →
  idx (Stack m) (StackSize m - 1) = Some v →
  DoPop m = Ok (v, set_StackSize (StackSize m - 1) m).
Proof.
  intros Hn Hv. unfold DoPop.
  rewrite (bind_step _ _ m (StackSize m) m) by reflexivity.
  destruct (StackSize m <=? 0) eqn:E; [lia|].
  rewrite (bind_step _ _ m tt (set_StackSize (StackSize m - 1) m)) by reflexivity.
  rewrite (bind_step _ _ _ (Stack m) (set_StackSize (StackSize m - 1) m)) by reflexivity.
  unfold load. rewrite Hv. reflexivity.
Qed.

Lemma deref_step m a o :
  heap m !! a = Some o → deref (Some a) m = Ok (o, m).
Proof.
  intros H. unfold deref.
  rewrite (bind_step _ _ m (heap m) m) by reflexivity.
  rewrite H. reflexivity.
Qed.

(** C10.  [PRINT] on an array or a native value: the value is popped,
    nothing is written, nothing fails, and the program counter moves
    to the next instruction; no other global changes. *)
Theorem print_consumes_other_values ff fuel m a o :
  instruction_at m = Some OP_PRINT →
  0 < StackSize m →
  idx (Stack m) (StackSize m - 1) = Some (Some a) →
  heap m !! a = Some o →
  type o = OBJ_ARRAY ∨ type o = OBJ_NATIVE →
  let m' := set_ProgramCounter (ProgramCounter m + 1)
              (set_StackSize (StackSize m - 1) m) in
  ExecuteCycle ff fuel m = Ok (tt, m') ∧
  StackSize m' = StackSize m - 1 ∧
  stdout m' = stdout m ∧
  ProgramCounter m' = ProgramCounter m + 1.
Proof.
  intros Hop Hn Htop Ho Hty m'. split; [|repeat split].
  rewrite (ExecuteCycle_at _ _ _ _ Hop). unfold execute.
  rewrite (bind_step _ _ _ _ _ (DoPop_step m _ Hn Htop)).
  rewrite (bind_step _ _ _ o (set_StackSize (StackSize m - 1) m))
    by (apply deref_step; exact Ho).
  assert (∃ vs h f k, val o = Arr vs ∨ val o = Native h f k) as (vs & h & f & k & Hv).
  { unfold type in Hty. destruct (val o) as [d|s|vs|h f k];
      destruct Hty as [Hty|Hty]; try discriminate Hty.
    - exists vs, 0, false, None. left. reflexivity.
    - exists [], h, f, k. right. reflexivity. }
  destruct Hv as [-> | ->]; reflexivity.
Qed.

(** * The constant pool *)

Lemma deq_refl d : d ≠ S754_nan → deq d d = true.
Proof.
  intros Hd. unfold deq, SFeqb, SFcompare.
  destruct d as [s|s| |s mant e]; try reflexivity.
  - destruct s; reflexivity.
  - congruence.
  - rewrite Z.compare_refl. change (Pos.compare_cont Eq mant mant) with (Pos.compare mant mant).
    rewrite Pos.compare_refl. destruct s; reflexivity.
Qed.

Lemma matches_entry r : r ≠ RegNumber S754_nan → matches r (entry r) = true.
Proof.
  destruct r as [d|s]; simpl; intros Hr.
  - apply deq_refl. congruence.
  - apply String.eqb_refl.
Qed.

(** [==] holds between a value other than NaN and itself, and between
    the two zeros. *)
Lemma deq_true d1 d2 :
  deq d1 d2 = true →
  (d1 = d2 ∧ d1 ≠ S754_nan) ∨ (∃ s1 s2, d1 = S754_zero s1 ∧ d2 = S754_zero s2).
Proof.
  unfold deq, SFeqb, SFcompare.
  destruct d1 as [s1|s1| |s1 m1 e1], d2 as [s2|s2| |s2 m2 e2];
    try discriminate; try (destruct s1; discriminate); try (destruct s2; discriminate).
  - intros _. right. eauto.
  - destruct s1, s2; try discriminate; intros _; left; split; congruence.
  - destruct s1, s2; try discriminate;
      destruct (Z.compare_spec e1 e2) as [->| |]; try discriminate;
      change (Pos.compare_cont Eq m1 m2) with (Pos.compare m1 m2);
      destruct (Pos.compare_spec m1 m2) as [->| |]; try discriminate;
      intros _; left; split; congruence.
Qed.

Lemma deq_nan_right d : deq d S754_nan = false.
Proof. destruct d as [s|s| |s m e]; reflexivity. Qed.

Lemma deq_zero_right d s1 s2 : deq d (S754_zero s1) = deq d (S754_zero s2).
Proof. destruct d as [s|s| |s m e]; reflexivity. Qed.

(** The search cannot tell two registrations of the same constant
    apart. *)
Lemma matches_same r1 r2 c :
  same_constant r1 r2 = true → matches r1 c = matches r2 c.
Proof.
  destruct r1 as [d1|s1], r2 as [d2|s2]; simpl; try discriminate.
  - intros H. destruct c as [d|t]; [|reflexivity].
    apply deq_true in H as [[-> _]|(z1 & z2 & -> & ->)];
      [reflexivity | apply deq_zero_right].
  - intros H. apply String.eqb_eq in H as ->. reflexivity.
Qed.

Lemma same_constant_not_nan r1 r2 :
  same_constant r1 r2 = true → r1 ≠ RegNumber S754_nan.
Proof. intros H ->. destruct r2; discriminate H. Qed.

Lemma find_first_ext {A} (p q : A → bool) l i :
  (∀ x, p x = q x) → find_first p l i = find_first q l i.
Proof.
  intros E. revert i. induction l as [|x l IH]; intros i; simpl; [reflexivity|].
  rewrite E, IH. reflexivity.
Qed.

Lemma find_first_app {A} (p : A → bool) l l' i k :
  find_first p l i = Some k → find_first p (l ++ l') i = Some k.
Proof.
  revert i. induction l as [|x l IH]; intros i; simpl; [discriminate|].
  destruct (p x); [exact id | apply IH].
Qed.

Lemma find_first_snoc {A} (p : A → bool) l x i :
  find_first p l i = None → p x = true →
  find_first p (l ++ [x]) i = Some (i + Z.of_nat (length l)).
Proof.
  revert i. induction l as [|y l IH]; intros i; simpl; intros Hn Hx.
  - rewrite Hx. f_equal. lia.
  - destruct (p y); [discriminate|]. rewrite IH by assumption. f_equal. lia.
Qed.

Lemma find_first_range {A} (p : A → bool) l i k :
  find_first p l i = Some k → i ≤ k < i + Z.of_nat (length l).
Proof.
  revert i. induction l as [|x l IH]; intros i; simpl; [discriminate|].
  destruct (p x).
  - intros [= <-]. cbn [length]. lia.
  - intros H. apply IH in H. cbn [length]. lia.
Qed.

Lemma find_first_Some {A} (p : A → bool) l i k :
  find_first p l i = Some k →
  ∃ x, l !! Z.to_nat (k - i) = Some x ∧ p x = true.
Proof.
  revert i. induction l as [|x l IH]; intros i; simpl; [discriminate|].
  destruct (p x) eqn:Hx.
  - intros [= <-]. exists x. rewrite Z.sub_diag. split; [reflexivity | exact Hx].
  - intros H. pose proof (find_first_range _ _ _ _ H) as Hr.
    apply IH in H as (y & Hy & Hpy). exists y. split; [|exact Hpy].
    replace (Z.to_nat (k - i)) with (S (Z.to_nat (k - (i + 1)))) by lia. exact Hy.
Qed.

Lemma register_unfold r m :
  register r m =
    match find_first (matches r) (Constants m) 0 with
    | Some i => Ok (i, m)
    | None =>
        if Z.of_nat (length (Constants m)) <? MAX_CONST_AMT
        then Ok (Z.of_nat (length (Constants m)),
                 set_Constants (Constants m ++ [entry r]) m)
        else Fail (AssertFail "Constant Overflow!")
    end.
Proof.
  destruct r as [d|s]; unfold register, RegisterNumber, RegisterString;
    rewrite (bind_step _ _ m (Constants m) m) by reflexivity;
    unfold matches;
    match goal with
    | |- context [find_first ?p ?l ?i] => destruct (find_first p l i)
    end; try reflexivity;
    destruct (_ <? _); reflexivity.
Qed.

(** A registration only appends to the pool, and what it returns is
    where the search finds the constant from then on. *)
Lemma register_Ok r m k m' :
  register r m = Ok (k, m') →
  (∃ ext, Constants m' = Constants m ++ ext) ∧
  (r ≠ RegNumber S754_nan → find_first (matches r) (Constants m') 0 = Some k).
Proof.
  rewrite register_unfold.
  destruct (find_first (matches r) (Constants m) 0) as [i|] eqn:Hf.
  - intros [= <- <-]. split; [exists []; symmetry; apply app_nil_r | intros _; exact Hf].
  - destruct (_ <? _); [|discriminate]. intros [= <- <-]. simpl. split.
    + eexists. reflexivity.
    + intros Hr. rewrite (find_first_snoc _ _ _ _ Hf (matches_entry r Hr)). f_equal.
Qed.

Lemma register_found r m k :
  find_first (matches r) (Constants m) 0 = Some k → register r m = Ok (k, m).
Proof. intros H. rewrite register_unfold, H. reflexivity. Qed.

(** Once the search finds a constant, every later registration of it
    returns that index. *)
Lemma register_all_found r k rs m idxs m' :
  find_first (matches r) (Constants m) 0 = Some k →
  register_all rs m = Ok (idxs, m') →
  ∀ j : nat, rs !! j = Some r → idxs !! j = Some k.
Proof.
  revert m idxs. induction rs as [|r0 rs IH]; intros m idxs Hf H j Hj.
  - discriminate Hj.
  - cbn [register_all] in H.
    apply bind_inv in H as (i0 & m1 & H0 & H).
    apply bind_inv in H as (js & m2 & Hrest & H). inv_ok H.
    destruct j as [|j]; simpl in Hj |- *.
    + injection Hj as ->. rewrite (register_found _ _ _ Hf) in H0.
      injection H0 as <- _. reflexivity.
    + apply register_Ok in H0 as [[ext Hext] _].
      eapply IH; [|exact Hrest|exact Hj].
      rewrite Hext. apply find_first_app, Hf.
Qed.

Lemma register_all_shared r1 r2 rs m idxs m' (i j : nat) :
  same_constant r1 r2 = true →
  register_all rs m = Ok (idxs, m') →
  (i ≤ j)%nat →
  rs !! i = Some r1 → rs !! j = Some r2 →
  ∃ k, idxs !! i = Some k ∧ idxs !! j = Some k.
Proof.
  intros Hs. revert m idxs i j.
  induction rs as [|r0 rs IH]; intros m idxs i j H Hij Hi Hj; [discriminate Hi|].
  cbn [register_all] in H.
  apply bind_inv in H as (i0 & m1 & H0 & H).
  apply bind_inv in H as (js & m2 & Hrest & H). inv_ok H.
  destruct i as [|i].
  - simpl in Hi. injection Hi as ->. exists i0. split; [reflexivity|].
    destruct j as [|j]; [reflexivity|]. simpl in Hj |- *.
    apply register_Ok in H0 as [_ Hf].
    eapply register_all_found; [|exact Hrest|exact Hj].
    rewrite <- (find_first_ext _ _ _ _ (λ c, matches_same r1 r2 c Hs)).
    apply Hf. eapply same_constant_not_nan, Hs.
  - destruct j as [|j]; [lia|]. simpl in Hi, Hj |- *.
    eapply IH; [exact Hrest | lia | exact Hi | exact Hj].
Qed.

Lemma same_constant_sym r1 r2 :
  same_constant r1 r2 = true → same_constant r2 r1 = true.
Proof.
  destruct r1 as [d1|s1], r2 as [d2|s2]; simpl; try discriminate.
  - intros H. apply deq_true in H as [[<- Hn]|(z1 & z2 & -> & ->)];
      [apply deq_refl, Hn | reflexivity].
  - rewrite !String.eqb_eq. congruence.
Qed.

(** The search never stops at a NaN, so a NaN is appended. *)
Lemma matches_nan_entry r : matches r (CST_NUM S754_nan) = false.
Proof. destruct r; reflexivity. Qed.

Lemma find_first_nan l i : find_first (matches (RegNumber S754_nan)) l i = None.
Proof.
  revert i. induction l as [|c l IH]; intros i; simpl; [reflexivity|].
  destruct c as [d|t]; [rewrite deq_nan_right|]; apply IH.
Qed.

Lemma register_nan m k m' :
  register (RegNumber S754_nan) m = Ok (k, m') →
  k = Z.of_nat (length (Constants m)) ∧
  Constants m' = Constants m ++ [CST_NUM S754_nan].
Proof.
  rewrite register_unfold, find_first_nan.
  destruct (_ <? _); [|discriminate]. intros [= <- <-]. split; reflexivity.
Qed.

(** What a registration returns: the index of an entry that passes
    the test of the search, or the index of the entry it appends. *)
Lemma register_index r m k m' :
  register r m = Ok (k, m') →
  (∃ c, idx (Constants m) k = Some c ∧ matches r c = true ∧ m' = m) ∨
  (k = Z.of_nat (length (Constants m)) ∧ Constants m' = Constants m ++ [entry r]).
Proof.
  rewrite register_unfold.
  destruct (find_first (matches r) (Constants m) 0) as [i|] eqn:Hf.
  - intros [= <- <-]. left.
    pose proof (find_first_range _ _ _ _ Hf) as Hr.
    apply find_first_Some in Hf as (c & Hc & Hp).
    exists c. split; [|split; [exact Hp | reflexivity]].
    unfold idx. replace (0 <=? i) with true by lia.
    rewrite Z.sub_0_r in Hc. exact Hc.
  - destruct (_ <? _); [|discriminate]. intros [= <- <-]. right.
    split; reflexivity.
Qed.

Lemma register_all_length rs m idxs m' :
  register_all rs m = Ok (idxs, m') → length idxs = length rs.
Proof.
  revert m idxs. induction rs as [|r rs IH]; intros m idxs H; cbn [register_all] in H.
  - inv_ok H. reflexivity.
  - apply bind_inv in H as (i0 & m1 & H0 & H).
    apply bind_inv in H as (js & m2 & Hrest & H). inv_ok H.
    simpl. f_equal. eapply IH, Hrest.
Qed.

Lemma register_all_appends rs m idxs m' :
  register_all rs m = Ok (idxs, m') → ∃ ext, Constants m' = Constants m ++ ext.
Proof.
  revert m idxs. induction rs as [|r rs IH]; intros m idxs H; cbn [register_all] in H.
  - inv_ok H. exists []. symmetry. apply app_nil_r.
  - apply bind_inv in H as (i0 & m1 & H0 & H).
    apply bind_inv in H as (js & m2 & Hrest & H). inv_ok H.
    apply register_Ok in H0 as [[e1 H1] _].
    apply IH in Hrest as [e2 H2]. exists (e1 ++ e2). rewrite H2, H1, app_assoc.
    reflexivity.
Qed.

(** Every index returned is an index of the pool of that time. *)
Lemma register_below r m k m' :
  register r m = Ok (k, m') → 0 ≤ k < Z.of_nat (length (Constants m')).
Proof.
  intros H. apply register_index in H as [(c & Hc & _ & ->)|[-> ->]].
  - apply idx_Some in Hc. exact Hc.
  - rewrite length_app. simpl. lia.
Qed.

(** A NaN in the pool is returned by no registration. *)
Lemma register_all_avoids_nan rs m idxs m' k :
  register_all rs m = Ok (idxs, m') →
  idx (Constants m) k = Some (CST_NUM S754_nan) →
  ∀ j : nat, idxs !! j ≠ Some k.
Proof.
  revert m idxs. induction rs as [|r rs IH]; intros m idxs H Hk j;
    cbn [register_all] in H.
  - inv_ok H. rewrite lookup_nil. discriminate.
  - apply bind_inv in H as (i0 & m1 & H0 & H).
    apply bind_inv in H as (js & m2 & Hrest & H). inv_ok H.
    destruct j as [|j]; simpl.
    + intros [= ->].
      apply register_index in H0 as [(c & Hc & Hm & _)|[-> _]].
      * rewrite Hk in Hc. injection Hc as <-. rewrite matches_nan_entry in Hm.
        discriminate Hm.
      * apply idx_Some in Hk. lia.
    + eapply IH; [exact Hrest|].
      apply register_Ok in H0 as [[ext ->] _].
      pose proof (idx_Some _ _ _ Hk) as Hr.
      unfold idx in Hk |- *. destruct (0 <=? k); [|discriminate].
      apply lookup_app_l_Some, Hk.
Qed.

(** A NaN registered in a sequence gets an index past the pool the
    sequence started from. *)
Lemma register_all_nan_new rs m idxs m' (i : nat) k :
  register_all rs m = Ok (idxs, m') →
  rs !! i = Some (RegNumber S754_nan) →
  idxs !! i = Some k →
  Z.of_nat (length (Constants m)) ≤ k ∧
  idx (Constants m') k = Some (CST_NUM S754_nan).
Proof.
  revert m idxs i. induction rs as [|r rs IH]; intros m idxs i H Hi Hk;
    [discriminate Hi|].
  cbn [register_all] in H.
  apply bind_inv in H as (i0 & m1 & H0 & H).
  apply bind_inv in H as (js & m2 & Hrest & H). inv_ok H.
  destruct i as [|i]; simpl in Hi, Hk.
  - injection Hi as ->. injection Hk as ->.
    apply register_nan in H0 as [-> H1]. split; [lia|].
    apply register_all_appends in Hrest as [ext ->]. rewrite H1.
    unfold idx.
    assert ((0 <=? Z.of_nat (length (Constants m))) = true) as -> by (apply Z.leb_le; lia).
    rewrite Nat2Z.id, <- app_assoc. apply list_lookup_middle. reflexivity.
  - destruct (IH _ _ _ Hrest Hi Hk) as [Hge Hin]. split; [|exact Hin].
    apply register_Ok in H0 as [[ext Hext] _]. rewrite Hext, length_app in Hge. lia.
Qed.

Lemma register_all_below rs m idxs m' (j : nat) k :
  register_all rs m = Ok (idxs, m') →
  idxs !! j = Some k → 0 ≤ k < Z.of_nat (length (Constants m')).
Proof.
  revert m idxs j. induction rs as [|r rs IH]; intros m idxs j H Hk;
    cbn [register_all] in H.
  - inv_ok H. discriminate Hk.
  - apply bind_inv in H as (i0 & m1 & H0 & H).
    apply bind_inv in H as (js & m2 & Hrest & H). inv_ok H.
    destruct j as [|j]; simpl in Hk.
    + injection Hk as ->. apply register_below in H0.
      apply register_all_appends in Hrest as [ext ->]. rewrite length_app. lia.
    + eapply IH; eassumption.
Qed.

Lemma register_all_nan_alone rs m idxs m' (i j : nat) k :
  register_all rs m = Ok (idxs, m') →
  rs !! i = Some (RegNumber S754_nan) →
  idxs !! i = Some k →
  j ≠ i → idxs !! j ≠ Some k.
Proof.
  revert m idxs i j. induction rs as [|r rs IH]; intros m idxs i j H Hi Hk Hij;
    [discriminate Hi|].
  cbn [register_all] in H.
  apply bind_inv in H as (i0 & m1 & H0 & H).
  apply bind_inv in H as (js & m2 & Hrest & H). inv_ok H.
  destruct i as [|i], j as [|j]; simpl in Hi, Hk |- *; try congruence.
  - injection Hi as ->. injection Hk as ->.
    apply register_nan in H0 as [-> H1].
    eapply register_all_avoids_nan; [exact Hrest|].
    rewrite H1. unfold idx.
    assert ((0 <=? Z.of_nat (length (Constants m))) = true) as -> by (apply Z.leb_le; lia).
    rewrite Nat2Z.id. apply list_lookup_middle. reflexivity.
  - intros [= ->].
    apply register_below in H0.
    destruct (register_all_nan_new _ _ _ _ _ _ Hrest Hi Hk) as [Hge _]. lia.
  - eapply IH; [exact Hrest | exact Hi | exact Hk | congruence].
Qed.

(** C7, as the code has it.  In any sequence of registrations that
    succeed:
    - two registrations of the same constant, two strings equal as
      [strcmp] has it or two numbers equal under [==], return the same
      index, whichever comes first;
    - so do a registration of +0 and one of -0, which [==] holds
      between although their bits differ;
    - a registration of NaN, which [==] holds between and nothing,
      returns the index of an entry of its own: an entry past the pool
      the sequence started from, which holds NaN in the end and which
      no other registration of the sequence returns. *)
Theorem registration_deduplicates rs m idxs m' :
  register_all rs m = Ok (idxs, m') →
  (∀ (i j : nat) r1 r2,
     rs !! i = Some r1 → rs !! j = Some r2 →
     same_constant r1 r2 = true →
     ∃ k, idxs !! i = Some k ∧ idxs !! j = Some k) ∧
  (∀ i j : nat,
     rs !! i = Some (RegNumber (S754_zero false)) →
     rs !! j = Some (RegNumber (S754_zero true)) →
     ∃ k, idxs !! i = Some k ∧ idxs !! j = Some k) ∧
  (∀ i : nat,
     rs !! i = Some (RegNumber S754_nan) →
     ∃ k, idxs !! i = Some k ∧
          Z.of_nat (length (Constants m)) ≤ k ∧
          idx (Constants m') k = Some (CST_NUM S754_nan) ∧
          ∀ j : nat, j ≠ i → idxs !! j ≠ Some k).
Proof.
  intros H.
  assert (∀ (i j : nat) r1 r2,
            rs !! i = Some r1 → rs !! j = Some r2 →
            same_constant r1 r2 = true →
            ∃ k, idxs !! i = Some k ∧ idxs !! j = Some k) as Hshared.
  { intros i j r1 r2 Hi Hj Hs.
    destruct (Nat.le_ge_cases i j) as [Hij|Hij].
    - eapply register_all_shared; eassumption.
    - destruct (register_all_shared r2 r1 rs m idxs m' j i
                  (same_constant_sym _ _ Hs) H Hij Hj Hi) as (k & Hk1 & Hk2).
      exists k. split; assumption. }
  split; [exact Hshared|]. split.
  - intros i j Hi Hj. eapply Hshared; [exact Hi | exact Hj | reflexivity].
  - intros i Hi.
    destruct (idxs !! i) as [k|] eqn:Hk.
    + exists k. split; [reflexivity|].
      destruct (register_all_nan_new _ _ _ _ _ _ H Hi Hk) as [Hge Hin].
      split; [exact Hge|]. split; [exact Hin|].
      intros j Hj. eapply register_all_nan_alone; eassumption.
    + apply lookup_ge_None in Hk. apply lookup_lt_Some in Hi.
      rewrite (register_all_length _ _ _ _ H) in Hk. lia.
Qed.

(** C7 as stated fails for NaN: registered twice in an empty pool it
    gets two entries. *)
Lemma nan_registered_twice :
  ∃ m', register_all [RegNumber S754_nan; RegNumber S754_nan] (fresh_machine [] [])
        = Ok ([0; 1], m').
Proof. eexists. vm_compute. reflexivity. Qed.

(** * The parser: binary operators *)

Lemma GetTokenPrec_step m : GetTokenPrec m = Ok (precedence m, m).
Proof. reflexivity. Qed.

Lemma bind_assoc {A B C} (c : M A) (k : A → M B) (h : B → M C) m :
  bind (bind c k) h m = bind c (λ x, bind (k x) h) m.
Proof. unfold bind. destruct (c m) as [[a m1]|f]; reflexivity. Qed.

Lemma keeps_RegisterVariableName nm : keeps lexer_view (RegisterVariableName nm).
Proof.
  assert (heap_blind lexer_view) by (split; reflexivity).
  unfold RegisterVariableName. keeps_tac.
Qed.

Lemma GetNextToken_Ok m x m' l rest :
  input m = l :: rest →
  GetNextToken m = Ok (x, m') →
  CurTok m' = tok l ∧ input m' = rest ∧
  TokenBuffer m' = default (TokenBuffer m) (tok_text l).
Proof.
  intros Hin H. unfold GetNextToken in H.
  apply bind_inv in H as (inp & m1 & Hg & H). inv_ok Hg. rewrite Hin in H.
  apply bind_inv in H as ([] & m1 & Hg & H). inv_ok Hg.
  apply bind_inv in H as ([] & m1 & H1 & H).
  apply bind_inv in H as ([] & m2 & H2 & H).
  inv_ok H.
  destruct (tok_text l), (tok_number l); inv_ok H1; inv_ok H2; repeat split.
Qed.

Lemma bind_ext {A B} (c : M A) (k k' : A → M B) m :
  (∀ a m1, k a m1 = k' a m1) → bind c k m = bind c k' m.
Proof. intros H. unfold bind. destruct (c m) as [[a m1]|f]; [apply H | reflexivity]. Qed.

Lemma ParseBinRhs_unfold fuel exprPrec lhs m :
  ParseBinRhs (S fuel) exprPrec lhs m =
    if precedence m <? exprPrec then Ok (lhs, m)
    else (GetNextToken ;;
          let* rhs := operand fuel (precedence m) in
          ParseBinRhs fuel exprPrec (EXP_BINARY lhs rhs (CurTok m))) m.
Proof.
  cbn [ParseBinRhs].
  rewrite (bind_step _ _ _ _ _ (GetTokenPrec_step m)).
  destruct (precedence m <? exprPrec); [reflexivity|].
  rewrite (bind_step _ _ m (CurTok m) m) by reflexivity.
  apply bind_ext. intros _ m1.
  unfold operand. rewrite bind_assoc.
  apply bind_ext. intros rhs m2.
  rewrite bind_assoc. reflexivity.
Qed.

(** An identifier that neither a call nor an index follows. *)
Lemma ParseFactor_ident fuel m x mA i mB :
  CurTok m = TOK_IDENT →
  GetNextToken m = Ok (x, mA) →
  CurTok mA ≠ chr "(" → CurTok mA ≠ chr "[" →
  RegisterVariableName (TokenBuffer m) mA = Ok (i, mB) →
  ParseFactor (S fuel) m = Ok (EXP_ID i, mB).
Proof.
  intros Ht Hnext Hcall Hidx Hreg. cbn [ParseFactor].
  rewrite (bind_step _ _ m (CurTok m) m) by reflexivity.
  rewrite Ht. change (TOK_IDENT =? TOK_IDENT) with true. cbv iota.
  rewrite (bind_step _ _ m (TokenBuffer m) m) by reflexivity.
  rewrite (bind_step _ _ _ _ _ Hnext).
  rewrite (bind_step _ _ mA false mA).
  2:{ unfold CurTok_is. rewrite (bind_step _ _ mA (CurTok mA) mA) by reflexivity.
      unfold ret. do 2 f_equal. apply Z.eqb_neq, Hcall. }
  rewrite (bind_step _ _ mA false mA).
  2:{ unfold CurTok_is. rewrite (bind_step _ _ mA (CurTok mA) mA) by reflexivity.
      unfold ret. do 2 f_equal. apply Z.eqb_neq, Hidx. }
  rewrite (bind_step _ _ _ _ _ Hreg). reflexivity.
Qed.

(** C8, as the code has it.  [=] groups to the left like every other
    binary operator.  On an input [a = b = e], where [a] and [b] are
    names, [e] is an operand of [=] and the token after [e] is no
    binary operator, [ParseExpr] produces the tree [(a = b) = e]. *)
Theorem assignment_groups_left fuel a b rest m ia ib m1 e m3 :
  CurTok m = TOK_IDENT →
  TokenBuffer m = a →
  input m = T "=" :: Id b :: T "=" :: rest →
  read_a_eq_b a b m = Ok ((ia, ib), m1) →
  (GetNextToken ;; operand (S fuel) 1) m1 = Ok (e, m3) →
  precedence m3 = -1 →
  ParseExpr (S (S (S fuel))) m =
    Ok (EXP_BINARY (EXP_BINARY (EXP_ID ia) (EXP_ID ib) (chr "=")) e (chr "="), m3).
Proof.
  intros Ht Hbuf Hin Hread He Hend.
  unfold read_a_eq_b in Hread.
  apply bind_inv in Hread as (x1 & mA & H1 & Hread).
  apply bind_inv in Hread as (ia' & mB & H2 & Hread).
  apply bind_inv in Hread as (x3 & mC & H3 & Hread).
  apply bind_inv in Hread as (x4 & mD & H4 & Hread).
  apply bind_inv in Hread as (ib' & mE & H5 & Hread).
  apply ret_Ok in Hread as [[= <- <-] <-].
  destruct (GetNextToken_Ok _ _ _ _ _ Hin H1) as (TA & IA & BA).
  pose proof (keeps_RegisterVariableName _ _ _ _ H2) as VB.
  unfold lexer_view in VB. injection VB as TB BB IB.
  rewrite TA in TB. rewrite IA in IB.
  destruct (GetNextToken_Ok _ _ _ _ _ IB H3) as (TC & IC & BC).
  destruct (GetNextToken_Ok _ _ _ _ _ IC H4) as (TD & ID & BD).
  pose proof (keeps_RegisterVariableName _ _ _ _ H5) as VE.
  unfold lexer_view in VE. injection VE as TE BE IE.
  rewrite TD in TE. simpl in BA, BC, TA, TB, TC, TD, TE.
  (* the factor [a] *)
  assert (ParseFactor (S (S (S fuel))) m = Ok (EXP_ID ia, mB)) as Fa.
  { eapply ParseFactor_ident; [exact Ht | exact H1 | | | rewrite Hbuf; exact H2];
      rewrite TA; discriminate. }
  (* the factor [b] *)
  assert (ParseFactor (S (S fuel)) mC = Ok (EXP_ID ib, m1)) as Fb.
  { eapply ParseFactor_ident; [exact TC | exact H4 | | | rewrite BC; exact H5];
      rewrite TD; discriminate. }
  assert (precedence mB = 1) as PB.
  { unfold precedence, GetTokenPrec, bind, gets, ret. rewrite TB. reflexivity. }
  assert (precedence m1 = 1) as P1.
  { unfold precedence, GetTokenPrec, bind, gets, ret. rewrite TE. reflexivity. }
  unfold ParseExpr. rewrite (bind_step _ _ _ _ _ Fa).
  (* the first [=]: its operand is [b] alone, since the second [=] does
     not bind tighter *)
  rewrite ParseBinRhs_unfold, PB. change (1 <? 0) with false. cbv iota.
  rewrite (bind_step _ _ _ _ _ H3).
  rewrite (bind_step _ _ mC (EXP_ID ib) m1).
  2:{ unfold operand. rewrite (bind_step _ _ _ _ _ Fb).
      rewrite (bind_step _ _ _ _ _ (GetTokenPrec_step m1)).
      rewrite P1. reflexivity. }
  (* the second [=]: the tree built so far is its left operand *)
  rewrite TB. rewrite ParseBinRhs_unfold, P1. change (1 <? 0) with false. cbv iota.
  rewrite <- bind_assoc. rewrite (bind_step _ _ _ _ _ He).
  rewrite ParseBinRhs_unfold, Hend. rewrite TE. reflexivity.
Qed.

(** C8 as stated fails: the tree of [a = b = 1] is [(a = b) = 1], not
    [a = (b = 1)]. *)
Lemma assignment_not_right_associative :
  ∃ tree m',
    ParseProgram 10 (fresh_machine chain_source []) = Ok ([tree], m') ∧
    tree = EXP_BINARY (EXP_BINARY (EXP_ID 0) (EXP_ID 1) (chr "=")) (EXP_NUM 0) (chr "=") ∧
    tree ≠ EXP_BINARY (EXP_ID 0) (EXP_BINARY (EXP_ID 1) (EXP_NUM 0) (chr "=")) (chr "=").
Proof.
  eexists _, _. split; [vm_compute; reflexivity|]. split; [reflexivity | discriminate].
Qed.

(** * Running compiled programs *)

(** ** The array operand of an index expression *)

(** C4 fails on the code.  [a] is never assigned.  The plain read is
    rejected; the read of [a] as the array of [a[0]] compiles to a
    [GET] of slot 0, whose flag is still false, and the program then
    dereferences the null pointer in that slot. *)
Theorem array_operand_read_unchecked :
  CompileFile 20 (fresh_machine unset_read_source [])
    = Fail (Fatal "Attempted to use uninitialized variable") ∧
  ∃ m,
    CompileFile 20 (fresh_machine unset_index_source []) = Ok (tt, m) ∧
    take 13 (Program m) =
      [encode OP_GET; 0; 0; 0; 0; encode OP_PUSH; 0; 0; 0; 0;
       encode OP_GETINDEX; encode OP_PRINT; encode OP_HALT] ∧
    initialized <$> idx (Variables m) 0 = Some false ∧
    RunMachine [] 20 20 m = Fail (Undefined "null pointer dereferenced").
Proof.
  split; [vm_compute; reflexivity|].
  eexists. split; [vm_compute; reflexivity|].
  repeat split; vm_compute; reflexivity.
Qed.

(** ** Nested calls *)

Lemma push_indir_inside v m :
  0 ≤ IndirStackSize m < Z.of_nat (length (IndirStack m)) →
  push_indir v m =
    Ok (tt, set_IndirStackSize (IndirStackSize m + 1)
              (set_IndirStack (<[Z.to_nat (IndirStackSize m) := v]> (IndirStack m)) m)).
Proof.
  intros Hn. unfold push_indir.
  rewrite (bind_step _ _ m (IndirStackSize m) m) by reflexivity.
  rewrite (bind_step _ _ m (IndirStack m) m) by reflexivity.
  unfold store, upd.
  destruct ((0 <=? IndirStackSize m) && _) eqn:E; [reflexivity | lia].
Qed.

Lemma push_indir_outside v m :
  ¬ (0 ≤ IndirStackSize m < Z.of_nat (length (IndirStack m))) →
  push_indir v m = Fail (Undefined "IndirStack index out of bounds").
Proof.
  intros Hn. unfold push_indir.
  rewrite (bind_step _ _ m (IndirStackSize m) m) by reflexivity.
  rewrite (bind_step _ _ m (IndirStack m) m) by reflexivity.
  unfold store, upd.
  destruct ((0 <=? IndirStackSize m) && _) eqn:E; [lia | reflexivity].
Qed.

(** [DoPushIndir] has no test of the size: where the frame does not
    fit, the array is written out of bounds. *)
Lemma DoPushIndir_unchecked nargs m :
  Z.of_nat (length (IndirStack m)) = MAX_INDIR →
  0 ≤ IndirStackSize m →
  MAX_INDIR - 3 < IndirStackSize m →
  DoPushIndir nargs m = Fail (Undefined "IndirStack index out of bounds").
Proof.
  intros Hlen Hlo Hhi. unfold DoPushIndir.
  destruct (decide (IndirStackSize m < MAX_INDIR)) as [H1|H1].
  2:{ apply bind_Fail, push_indir_outside. lia. }
  rewrite (bind_step _ _ _ _ _ (push_indir_inside nargs m ltac:(lia))).
  set (m1 := set_IndirStackSize _ _).
  rewrite (bind_step _ _ m1 (FramePointer m1) m1) by reflexivity.
  assert (Z.of_nat (length (IndirStack m1)) = MAX_INDIR) as Hlen1.
  { subst m1. simpl. rewrite length_insert. exact Hlen. }
  assert (IndirStackSize m1 = IndirStackSize m + 1) as Hs1 by reflexivity.
  destruct (decide (IndirStackSize m1 < MAX_INDIR)) as [H2|H2].
  2:{ apply bind_Fail, push_indir_outside. lia. }
  rewrite (bind_step _ _ _ _ _ (push_indir_inside _ m1 ltac:(lia))).
  set (m2 := set_IndirStackSize _ _).
  rewrite (bind_step _ _ m2 (ProgramCounter m2) m2) by reflexivity.
  assert (Z.of_nat (length (IndirStack m2)) = MAX_INDIR) as Hlen2.
  { subst m2. simpl. rewrite length_insert. exact Hlen1. }
  assert (IndirStackSize m2 = IndirStackSize m1 + 1) as Hs2 by reflexivity.
  apply bind_Fail, push_indir_outside. lia.
Qed.

(** C5 fails on the code.  After 341 nested calls the indirection
    stack holds 1023 of its 1024 entries; the next [CALL] is not
    refused with a diagnostic: it writes past the end of the array. *)
Theorem indirection_overflow_unchecked :
  ∃ m,
    compiled_then 342 recursion_source = Ok (tt, m) ∧
    IndirStackSize m = 3 * 341 ∧
    instruction_at m = Some OP_CALL ∧
    ∀ fuel, ExecuteCycle [] fuel m = Fail (Undefined "IndirStack index out of bounds").
Proof.
  eexists. split; [vm_compute; reflexivity|].
  split; [vm_compute; reflexivity|].
  split; [vm_compute; reflexivity|].
  intros fuel. vm_compute. reflexivity.
Qed.

(** ** Operands of a binary instruction *)

(** C2 fails on the code.  Before [ADD] the operands 1 and 2 are live
    and on the stack.  [ADD] pops both and then allocates its result;
    the allocation collects, nothing reaches the operands any more,
    and they are freed before [ADD] reads them. *)
Theorem binary_operands_freed_before_use :
  ∃ m,
    compiled_then 2 sum_source = Ok (tt, m) ∧
    instruction_at m = Some OP_ADD ∧
    StackSize m = 2 ∧
    idx (Stack m) 0 = Some (Some 1%positive) ∧
    idx (Stack m) 1 = Some (Some 2%positive) ∧
    heap m !! 1%positive = Some (mkObject false (Num (double_of_int 1))) ∧
    heap m !! 2%positive = Some (mkObject false (Num (double_of_int 2))) ∧
    (∀ fuel, ∃ result m',
       (DoPop ;; DoPop ;; NewObject fuel OBJ_NUM) m = Ok (result, m') ∧
       heap m' !! 1%positive = None ∧ heap m' !! 2%positive = None) ∧
    (∀ fuel, ExecuteCycle [] fuel m
             = Fail (Undefined "pointer to a freed object dereferenced")).
Proof.
  eexists. split; [vm_compute; reflexivity|].
  do 6 (split; [vm_compute; reflexivity|]). split.
  - intros fuel. eexists _, _. split; [vm_compute; reflexivity|].
    split; vm_compute; reflexivity.
  - intros fuel. vm_compute. reflexivity.
Qed.

(** * The mark phase on a cyclic array *)

(** [Mark] sets the mark bit after it has visited the elements, so an
    array that holds itself is entered again before it is marked:
    whatever the bound, the recursion exceeds it. *)
Lemma Mark_self_cycle fuel m a vs :
  heap m !! a = Some (mkObject false (Arr (Some a :: vs))) →
  Mark fuel (Some a) m = Fail (OutOfFuel "Mark").
Proof.
  intros Ha. induction fuel as [|fuel IH]; [reflexivity|].
  cbn [Mark].
  rewrite (bind_step _ _ _ _ _ (deref_step m a _ Ha)). cbn [marked val].
  rewrite (bind_step _ _ m tt m) by reflexivity.
  apply bind_Fail. unfold for_each. apply bind_Fail. exact IH.
Qed.

Lemma fetch_step m w :
  idx (Program m) (ProgramCounter m) = Some w →
  fetch m = Ok (w, set_ProgramCounter (ProgramCounter m + 1) m).
Proof.
  intros Hw. unfold fetch.
  rewrite (bind_step _ _ m (ProgramCounter m) m) by reflexivity.
  rewrite (bind_step _ _ m (Program m) m) by reflexivity.
  rewrite (bind_step _ _ m w m) by (unfold load; rewrite Hw; reflexivity).
  reflexivity.
Qed.

Lemma ReadInteger_step m z :
  immediate_at m (ProgramCounter m) = Some z →
  ReadInteger m = Ok (z, set_ProgramCounter (ProgramCounter m + 4) m).
Proof.
  unfold immediate_at.
  destruct (idx (Program m) (ProgramCounter m)) as [b0|] eqn:E0; [|discriminate].
  destruct (idx (Program m) (ProgramCounter m + 1)) as [b1|] eqn:E1; [|discriminate].
  destruct (idx (Program m) (ProgramCounter m + 2)) as [b2|] eqn:E2; [|discriminate].
  destruct (idx (Program m) (ProgramCounter m + 3)) as [b3|] eqn:E3; [|discriminate].
  intros [= <-]. unfold ReadInteger.
  rewrite (bind_step _ _ _ _ _ (fetch_step m b0 E0)).
  set (m1 := set_ProgramCounter _ m).
  rewrite (bind_step _ _ _ _ _ (fetch_step m1 b1 E1)).
  set (m2 := set_ProgramCounter _ m1).
  assert (idx (Program m2) (ProgramCounter m2) = Some b2) as E2'.
  { subst m2 m1. simpl. rewrite <- E2. f_equal. lia. }
  rewrite (bind_step _ _ _ _ _ (fetch_step m2 b2 E2')).
  set (m3 := set_ProgramCounter _ m2).
  assert (idx (Program m3) (ProgramCounter m3) = Some b3) as E3'.
  { subst m3 m2 m1. simpl. rewrite <- E3. f_equal. lia. }
  rewrite (bind_step _ _ _ _ _ (fetch_step m3 b3 E3')).
  unfold ret. do 2 f_equal. subst m3 m2 m1. machine_eq.
Qed.

Lemma MarkAll_self_cycle fuel m v a vs :
  StackSize m = 0 →
  RuntimeVariableAmount m = 1 →
  idx (Variables m) 0 = Some v →
  object v = Some a →
  heap m !! a = Some (mkObject false (Arr (Some a :: vs))) →
  MarkAll fuel m = Fail (OutOfFuel "Mark").
Proof.
  intros Hs Hr Hv Ho Ha. unfold MarkAll.
  rewrite (bind_step _ _ m (StackSize m) m) by reflexivity. rewrite Hs.
  rewrite (bind_step _ _ m tt m) by reflexivity.
  rewrite (bind_step _ _ m (RuntimeVariableAmount m) m) by reflexivity. rewrite Hr.
  change (seqZ 0 1) with [0]. unfold for_each. apply bind_Fail.
  rewrite (bind_step _ _ m (Variables m) m) by reflexivity.
  rewrite (bind_step _ _ m v m) by (unfold load; rewrite Hv; reflexivity).
  rewrite Ho. eapply Mark_self_cycle, Ha.
Qed.

Lemma NewObject_collection_fails fuel t m f :
  MaxNumObjects m ≤ NumObjects m →
  MarkAll fuel m = Fail f →
  NewObject fuel t m = Fail f.
Proof.
  intros Hn Hm. unfold NewObject.
  rewrite (bind_step _ _ m (NumObjects m) m) by reflexivity.
  rewrite (bind_step _ _ m (MaxNumObjects m) m) by reflexivity.
  apply bind_Fail.
  destruct (MaxNumObjects m <=? NumObjects m) eqn:E; [|lia].
  unfold GarbageCollect. apply bind_Fail, Hm.
Qed.

(** [PUSH] of a number when the collector is due and the only root is
    an array that holds itself. *)
Lemma PUSH_on_self_cycle ff fuel m cidx d v a vs :
  instruction_at m = Some OP_PUSH →
  immediate_at m (ProgramCounter m + 1) = Some cidx →
  idx (Constants m) cidx = Some (CST_NUM d) →
  MaxNumObjects m ≤ NumObjects m →
  StackSize m = 0 →
  RuntimeVariableAmount m = 1 →
  idx (Variables m) 0 = Some v →
  object v = Some a →
  heap m !! a = Some (mkObject false (Arr (Some a :: vs))) →
  ExecuteCycle ff fuel m = Fail (OutOfFuel "Mark").
Proof.
  intros Hop Himm Hc Hn Hs Hr Hv Ho Ha.
  rewrite (ExecuteCycle_at _ _ _ _ Hop). unfold execute.
  rewrite (bind_step _ _ m tt (set_ProgramCounter (ProgramCounter m + 1) m)) by reflexivity.
  set (m1 := set_ProgramCounter _ m).
  rewrite (bind_step _ _ _ _ _ (ReadInteger_step m1 cidx Himm)).
  set (m2 := set_ProgramCounter _ m1).
  rewrite (bind_step _ _ m2 (Constants m2) m2) by reflexivity.
  rewrite (bind_step _ _ m2 (CST_NUM d) m2) by (unfold load; simpl; rewrite Hc; reflexivity).
  apply bind_Fail, bind_Fail.
  apply NewObject_collection_fails; [exact Hn|].
  eapply MarkAll_self_cycle; eassumption.
Qed.

(** C3 fails on the code.  The program stores the array [a] in its
    own slot 0.  When the next allocation collects, the mark phase
    does not return: it fails to finish within any bound. *)
Theorem mark_diverges_on_cyclic_array :
  ∃ m a,
    compiled_then 7 cycle_source = Ok (tt, m) ∧
    object <$> idx (Variables m) 0 = Some (Some a) ∧
    heap m !! a = Some (mkObject false (Arr [Some a])) ∧
    (∀ fuel, Mark fuel (Some a) m = Fail (OutOfFuel "Mark")) ∧
    (∀ fuel, ExecuteCycle [] fuel m = Fail (OutOfFuel "Mark")).
Proof.
  eexists _, 2%positive. split; [vm_compute; reflexivity|].
  split; [vm_compute; reflexivity|].
  split; [vm_compute; reflexivity|].
  split; intros fuel.
  - apply Mark_self_cycle with (vs := []). vm_compute. reflexivity.
  - eapply (PUSH_on_self_cycle _ _ _ _ _ _ 2%positive []);
      try (vm_compute; reflexivity).
    vm_compute. discriminate.
Qed.

(** * The collector terminates on heaps without cycles *)

Lemma same_shape_refl h : same_shape h h.
Proof. intros a. reflexivity. Qed.

Lemma same_shape_alter h h' a f :
  same_shape h h' → (∀ o, val (f o) = val o) → same_shape h (alter f a h').
Proof.
  intros Hs Hf b. rewrite <- Hs. rewrite lookup_alter.
  case_decide as E; [subst b|reflexivity].
  destruct (h' !! a) as [o|]; simpl; [f_equal; apply Hf | reflexivity].
Qed.

Lemma same_shape_lookup h h' a o :
  same_shape h h' → h !! a = Some o →
  ∃ o', h' !! a = Some o' ∧ val o' = val o.
Proof.
  intros Hs Ho. specialize (Hs a). rewrite Ho in Hs.
  destruct (h' !! a) as [o'|]; [|discriminate].
  exists o'. split; [reflexivity|]. simpl in Hs. congruence.
Qed.

Lemma for_each_total {A} (inv : machine → Prop) (l : list A) (body : A → M unit) :
  (∀ x m, x ∈ l → inv m → ∃ m', body x m = Ok (tt, m') ∧ inv m') →
  ∀ m, inv m → ∃ m', for_each l body m = Ok (tt, m') ∧ inv m'.
Proof.
  induction l as [|x l IH]; intros Hbody m Hm.
  - exists m. split; [reflexivity | exact Hm].
  - destruct (Hbody x m) as (m1 & H1 & Hm1); [left | exact Hm |].
    destruct (IH (λ y m0 Hy, Hbody y m0 (list_elem_of_further _ _ _ Hy)) m1 Hm1)
      as (m2 & H2 & Hm2).
    exists m2. split; [|exact Hm2].
    change (for_each (x :: l) body) with (body x ;; for_each l body).
    rewrite (bind_step _ _ _ _ _ H1). exact H2.
Qed.

Section MarkTotal.

Variable rank : addr → nat.
Variable h0 : gmap addr Object.
Hypothesis Hranked : well_ranked rank h0.

Lemma Mark_total fuel p m :
  same_shape h0 (heap m) →
  markable rank fuel h0 p →
  ∃ m', Mark fuel p m = Ok (tt, m') ∧ same_shape h0 (heap m').
Proof.
  revert p m. induction fuel as [|fuel IH]; intros p m Hs Hp.
  { destruct p as [a|]; simpl in Hp; [destruct Hp|]; lia. }
  destruct p as [a|]; cbn [Mark].
  2:{ eexists. split; [reflexivity|]. exact Hs. }
  destruct Hp as [[o0 Ho0] Hfuel].
  destruct (same_shape_lookup _ _ _ _ Hs Ho0) as (o & Ho & Hval).
  rewrite (bind_step _ _ _ _ _ (deref_step m a o Ho)).
  destruct (marked o).
  { exists m. split; [reflexivity | exact Hs]. }
  assert (∀ c, c ∈ children o0 → markable rank fuel h0 c) as Hkids.
  { intros [c|] Hc; simpl.
    - destruct (Hranked a o0 c Ho0 Hc) as [Hin Hlt]. split; [exact Hin | lia].
    - lia. }
  assert (∀ l m1, (∀ c, c ∈ l → markable rank fuel h0 c) →
            same_shape h0 (heap m1) →
            ∃ m2, for_each l (Mark fuel) m1 = Ok (tt, m2) ∧ same_shape h0 (heap m2))
    as Hloop.
  { intros l m1 Hl Hs1.
    apply (for_each_total (λ m, same_shape h0 (heap m))); [|exact Hs1].
    intros c m2 Hc Hs2. apply IH; [exact Hs2 | apply Hl, Hc]. }
  assert (∀ l m1, (∀ c, c ∈ l → markable rank fuel h0 c) →
            same_shape h0 (heap m1) →
            ∃ m2, for_each l (λ v, match v with
                                   | Some _ => Mark fuel v
                                   | None => ret tt
                                   end) m1 = Ok (tt, m2) ∧
                  same_shape h0 (heap m2))
    as Hloop'.
  { intros l m1 Hl Hs1.
    apply (for_each_total (λ m, same_shape h0 (heap m))); [|exact Hs1].
    intros [c|] m2 Hc Hs2.
    - apply IH; [exact Hs2 | apply Hl, Hc].
    - exists m2. split; [reflexivity | exact Hs2]. }
  unfold children in Hkids. rewrite <- Hval in Hkids.
  assert (∃ m1, match val o with
                | Native _ _ (Some kids) => for_each kids (Mark fuel)
                | _ => ret tt
                end m = Ok (tt, m1) ∧ same_shape h0 (heap m1)) as (m1 & H1 & Hs1).
  { destruct (val o) as [d|s|vs|h f [kids|]];
      try (exists m; split; [reflexivity | exact Hs]).
    apply Hloop; [exact Hkids | exact Hs]. }
  rewrite (bind_step _ _ _ _ _ H1).
  assert (∃ m2, match val o with
                | Arr values =>
                    for_each values (λ v, match v with
                                          | Some _ => Mark fuel v
                                          | None => ret tt
                                          end)
                | _ => ret tt
                end m1 = Ok (tt, m2) ∧ same_shape h0 (heap m2)) as (m2 & H2 & Hs2).
  { destruct (val o) as [d|s|vs|h f k];
      try (exists m1; split; [reflexivity | exact Hs1]).
    apply Hloop'; [exact Hkids | exact Hs1]. }
  rewrite (bind_step _ _ _ _ _ H2).
  eexists. split; [reflexivity|]. simpl.
  apply same_shape_alter; [exact Hs2 | reflexivity].
Qed.

End MarkTotal.

Lemma idx_inside {A} (l : list A) i :
  0 ≤ i < Z.of_nat (length l) → ∃ x, idx l i = Some x.
Proof.
  intros Hi. unfold idx. destruct (0 <=? i) eqn:E; [|lia].
  apply lookup_lt_is_Some. lia.
Qed.

Lemma elem_of_seqZ_0 i n : i ∈ seqZ 0 n → 0 ≤ i < n.
Proof. rewrite elem_of_seqZ. lia. Qed.

Section CollectTotal.

Variable rank : addr → nat.
Variable fuel : nat.

Lemma MarkAll_total m :
  collectable rank fuel m →
  ∃ m', MarkAll fuel m = Ok (tt, m') ∧ same_shape (heap m) (heap m').
Proof.
  intros C. unfold MarkAll.
  set (inv := λ m1, same_shape (heap m) (heap m1) ∧
                    Stack m1 = Stack m ∧ Variables m1 = Variables m).
  assert (inv m) as Hinv by (repeat split; apply same_shape_refl).
  rewrite (bind_step _ _ m (StackSize m) m) by reflexivity.
  set (body1 := λ i, let* st := gets Stack in
                     let* p := load "Stack index out of bounds" st i in
                     Mark fuel p).
  assert (∀ i m1, i ∈ seqZ 0 (StackSize m) → inv m1 →
                  ∃ m2, body1 i m1 = Ok (tt, m2) ∧ inv m2) as Hbody1.
  { intros i m1 Hi (Hs & Hst & Hv). apply elem_of_seqZ_0 in Hi. unfold body1.
    destruct (idx_inside (Stack m) i) as [p Hp]; [pose proof (coll_stack_size _ _ _ C); lia|].
    rewrite (bind_step _ _ m1 (Stack m1) m1) by reflexivity. rewrite Hst.
    rewrite (bind_step _ _ m1 p m1) by (unfold load; rewrite Hp; reflexivity).
    destruct (Mark_total rank (heap m) (coll_ranked _ _ _ C) fuel p m1 Hs)
      as (m2 & H2 & Hs2); [eapply coll_stack; eassumption|].
    exists m2. split; [exact H2|]. split; [exact Hs2|]. split.
    - rewrite <- Hst. eapply (keeps_Mark Stack); [split; reflexivity | exact H2].
    - rewrite <- Hv. eapply (keeps_Mark Variables); [split; reflexivity | exact H2]. }
  destruct (for_each_total inv _ _ Hbody1 m Hinv) as (m1 & H1 & Hinv1).
  rewrite (bind_step _ _ _ _ _ H1).
  assert (RuntimeVariableAmount m1 = RuntimeVariableAmount m) as Hr.
  { eapply (keeps_for_each RuntimeVariableAmount); [|exact H1].
    intros i. assert (heap_blind RuntimeVariableAmount) by (split; reflexivity).
    unfold body1. keeps_tac. }
  rewrite (bind_step _ _ m1 (RuntimeVariableAmount m1) m1) by reflexivity. rewrite Hr.
  set (body2 := λ i, let* vars := gets Variables in
                     let* v := load "Variables index out of bounds" vars i in
                     Mark fuel (object v)).
  assert (∀ i m2, i ∈ seqZ 0 (RuntimeVariableAmount m) → inv m2 →
                  ∃ m3, body2 i m2 = Ok (tt, m3) ∧ inv m3) as Hbody2.
  { intros i m2 Hi (Hs & Hst & Hv). apply elem_of_seqZ_0 in Hi. unfold body2.
    destruct (idx_inside (Variables m) i) as [v Hp]; [pose proof (coll_vars_size _ _ _ C); lia|].
    rewrite (bind_step _ _ m2 (Variables m2) m2) by reflexivity. rewrite Hv.
    rewrite (bind_step _ _ m2 v m2) by (unfold load; rewrite Hp; reflexivity).
    destruct (Mark_total rank (heap m) (coll_ranked _ _ _ C) fuel (object v) m2 Hs)
      as (m3 & H3 & Hs3); [eapply coll_vars; eassumption|].
    exists m3. split; [exact H3|]. split; [exact Hs3|]. split.
    - rewrite <- Hst. eapply (keeps_Mark Stack); [split; reflexivity | exact H3].
    - rewrite <- Hv. eapply (keeps_Mark Variables); [split; reflexivity | exact H3]. }
  destruct (for_each_total inv _ _ Hbody2 m1 Hinv1) as (m2 & H2 & Hinv2).
  exists m2. split; [exact H2 | apply Hinv2].
Qed.

Lemma Sweep_chain_total chain m :
  NoDup chain →
  (∀ a, a ∈ chain → is_Some (heap m !! a)) →
  INT_MIN ≤ NumObjects m - Z.of_nat (length chain) →
  NumObjects m ≤ INT_MAX →
  ∃ chain' m',
    Sweep_chain chain m = Ok (chain', m') ∧
    NumObjects m - Z.of_nat (length chain) ≤ NumObjects m' ≤ NumObjects m.
Proof.
  revert m. induction chain as [|a chain IH]; intros m Hnd Hlive Hlo Hhi.
  - exists [], m. split; [reflexivity|]. simpl. lia.
  - cbn [Sweep_chain].
    apply NoDup_cons in Hnd as [Ha Hnd].
    destruct (Hlive a) as [o Ho]; [left|].
    rewrite (bind_step _ _ _ _ _ (deref_step m a o Ho)).
    cbn [length] in Hlo.
    destruct (negb (marked o)).
    + rewrite (bind_step _ _ m (NumObjects m) m) by reflexivity.
      rewrite (bind_step _ _ m (NumObjects m - 1) m).
      2:{ unfold int_result.
          destruct ((INT_MIN <=? NumObjects m - 1) && (NumObjects m - 1 <=? INT_MAX)) eqn:E;
            [reflexivity | lia]. }
      rewrite (bind_step _ _ m tt (set_NumObjects (NumObjects m - 1) m)) by reflexivity.
      set (m1 := set_NumObjects _ m).
      rewrite (bind_step _ _ m1 tt (set_heap (delete a (heap m1)) m1)) by reflexivity.
      set (m2 := set_heap _ m1).
      destruct (IH m2) as (chain' & m' & H & Hn); [exact Hnd | | | |].
      * intros b Hb. subst m2 m1. simpl. rewrite lookup_delete_ne.
        -- apply Hlive. right. exact Hb.
        -- intros ->. exact (Ha Hb).
      * subst m2 m1. simpl. lia.
      * subst m2 m1. simpl. lia.
      * exists chain', m'. split; [exact H|]. subst m2 m1. simpl in Hn.
        cbn [length]. lia.
    + rewrite (bind_step _ _ m tt
                 (set_heap (alter (λ o, mkObject false (val o)) a (heap m)) m))
        by reflexivity.
      set (m1 := set_heap _ m).
      destruct (IH m1) as (chain' & m' & H & Hn); [exact Hnd | | | |].
      * intros b Hb. subst m1. simpl. rewrite lookup_alter.
        case_decide; [subst b; rewrite Ho; eexists; reflexivity|].
        apply Hlive. right. exact Hb.
      * subst m1. simpl. lia.
      * subst m1. simpl. lia.
      * rewrite (bind_step _ _ _ _ _ H). exists (a :: chain'), m'.
        split; [reflexivity|]. subst m1. simpl in Hn. cbn [length]. lia.
Qed.

Lemma GarbageCollect_total m :
  collectable rank fuel m →
  ∃ m', GarbageCollect fuel m = Ok (tt, m') ∧ NumObjects m' ≤ NumObjects m.
Proof.
  intros C. unfold GarbageCollect.
  destruct (MarkAll_total m C) as (m1 & H1 & Hs).
  rewrite (bind_step _ _ _ _ _ H1).
  assert (GCHead m1 = GCHead m) as Hc.
  { eapply (keeps_MarkAll GCHead); [split; reflexivity | exact H1]. }
  assert (NumObjects m1 = NumObjects m) as Hn.
  { eapply (keeps_MarkAll NumObjects); [split; reflexivity | exact H1]. }
  pose proof (coll_count _ _ _ C) as Hcount.
  pose proof (coll_count_small _ _ _ C) as Hsmall.
  destruct (Sweep_chain_total (GCHead m1) m1) as (chain' & m2 & H2 & Hn2).
  { rewrite Hc. apply (coll_chain_nodup _ _ _ C). }
  { intros a Ha. rewrite Hc in Ha.
    destruct (coll_chain_live _ _ _ C a Ha) as [o Ho].
    destruct (same_shape_lookup _ _ _ _ Hs Ho) as (o' & Ho' & _). eexists. exact Ho'. }
  { rewrite Hn, Hc. unfold INT_MIN. lia. }
  { rewrite Hn. unfold INT_MAX. lia. }
  rewrite Hn, Hc in Hn2.
  unfold Sweep.
  rewrite (bind_step _ _ m1 tt (set_GCHead chain' m2)).
  2:{ rewrite (bind_step _ _ m1 (GCHead m1) m1) by reflexivity.
      rewrite (bind_step _ _ _ _ _ H2). reflexivity. }
  set (m3 := set_GCHead chain' m2).
  rewrite (bind_step _ _ m3 (NumObjects m3) m3) by reflexivity.
  assert (NumObjects m3 = NumObjects m2) as Hn3 by reflexivity.
  rewrite (bind_step _ _ m3 (NumObjects m3 * 2) m3).
  2:{ unfold int_result, INT_MIN, INT_MAX.
      destruct ((_ <=? NumObjects m3 * 2) && (NumObjects m3 * 2 <=? _)) eqn:E;
        [reflexivity | lia]. }
  eexists. split; [reflexivity|]. simpl. lia.
Qed.

(** An allocation on a collectable machine completes, whether or not
    it collects, and returns the next unused address. *)
Lemma NewObject_total t m :
  collectable rank fuel m →
  ∃ m', NewObject fuel t m = Ok (next_addr m, m') ∧
        heap m' !! next_addr m = Some (mkObject false (blank t)).
Proof.
  intros C. unfold NewObject.
  rewrite (bind_step _ _ m (NumObjects m) m) by reflexivity.
  rewrite (bind_step _ _ m (MaxNumObjects m) m) by reflexivity.
  pose proof (coll_count _ _ _ C) as Hcount.
  pose proof (coll_count_small _ _ _ C) as Hsmall.
  assert (∃ m1, (if MaxNumObjects m <=? NumObjects m
                 then GarbageCollect fuel else ret tt) m = Ok (tt, m1) ∧
                next_addr m1 = next_addr m ∧
                -1 ≤ NumObjects m1 ≤ NumObjects m) as (m1 & H1 & Hnext & Hn1).
  { destruct (MaxNumObjects m <=? NumObjects m).
    - destruct (GarbageCollect_total m C) as (m1 & H1 & Hn1).
      exists m1. split; [exact H1|]. split.
      + eapply (keeps_GarbageCollect next_addr); [|exact H1].
        repeat split.
      + split; [|exact Hn1].
        apply GarbageCollect_threshold in H1 as [_ H1]. specialize (H1 Hcount). lia.
    - exists m. split; [reflexivity|]. split; [reflexivity | lia]. }
  rewrite (bind_step _ _ _ _ _ H1).
  unfold allocate.
  rewrite (bind_step _ _ m1 (next_addr m1) m1) by reflexivity. rewrite Hnext.
  set (a := next_addr m).
  rewrite (bind_step _ _ m1 tt
             (set_heap (<[a := mkObject false (blank t)]> (heap m1)) m1)) by reflexivity.
  set (m2 := set_heap _ m1).
  rewrite (bind_step _ _ m2 tt (set_next_addr (Pos.succ a) m2)) by reflexivity.
  set (m3 := set_next_addr _ m2).
  rewrite (bind_step _ _ m3 tt (set_GCHead (a :: GCHead m3) m3)) by reflexivity.
  set (m4 := set_GCHead _ m3).
  rewrite (bind_step _ _ m4 (NumObjects m4) m4) by reflexivity.
  assert (NumObjects m4 = NumObjects m1) as Hn4 by reflexivity.
  rewrite (bind_step _ _ m4 (NumObjects m4 + 1) m4).
  2:{ unfold int_result, INT_MIN, INT_MAX.
      destruct ((_ <=? NumObjects m4 + 1) && (NumObjects m4 + 1 <=? _)) eqn:E;
        [reflexivity | lia]. }
  rewrite (bind_step _ _ m4 tt (set_NumObjects (NumObjects m4 + 1) m4)) by reflexivity.
  eexists. split; [reflexivity|]. simpl. apply lookup_insert_eq.
Qed.

End CollectTotal.

(** * Array indexing *)

Lemma number_of_step m a o d :
  heap m !! a = Some o → val o = Num d → number_of (Some a) m = Ok (d, m).
Proof.
  intros Ho Hv. unfold number_of.
  rewrite (bind_step _ _ _ _ _ (deref_step m a o Ho)). rewrite Hv. reflexivity.
Qed.

Lemma int_of_step m a o d i :
  heap m !! a = Some o → val o = Num d → int_of_double d = Some i →
  int_of (Some a) m = Ok (i, m).
Proof.
  intros Ho Hv Hi. unfold int_of.
  rewrite (bind_step _ _ _ _ _ (number_of_step m a o d Ho Hv)). rewrite Hi. reflexivity.
Qed.

Lemma array_of_step m a o values :
  heap m !! a = Some o → val o = Arr values → array_of (Some a) m = Ok (values, m).
Proof.
  intros Ho Hv. unfold array_of.
  rewrite (bind_step _ _ _ _ _ (deref_step m a o Ho)). rewrite Hv. reflexivity.
Qed.

Lemma DoPush_step m v :
  0 ≤ StackSize m < MAX_STACK →
  Z.of_nat (length (Stack m)) = MAX_STACK →
  DoPush v m =
    Ok (tt, set_StackSize (StackSize m + 1)
              (set_Stack (<[Z.to_nat (StackSize m) := v]> (Stack m)) m)).
Proof.
  intros Hn Hlen. unfold DoPush.
  rewrite (bind_step _ _ m (StackSize m) m) by reflexivity.
  destruct (MAX_STACK <=? StackSize m) eqn:E; [lia|].
  rewrite (bind_step _ _ m (Stack m) m) by reflexivity.
  unfold store, upd.
  destruct ((0 <=? StackSize m) && (StackSize m <? Z.of_nat (length (Stack m)))) eqn:E2;
    [reflexivity | lia].
Qed.

(** Popping the index and the array: what [GETINDEX] and [SETINDEX] do
    before they test the bounds. *)
Lemma pop_index_operands m top i values :
  index_operands m top i values →
  StackSize m = top → 1 < top →
  ∃ obj,
    (let* ip := DoPop in
     let* index := int_of ip in
     let* obj := DoPop in
     ret (index, obj)) m = Ok ((i, obj), set_StackSize (top - 2) m) ∧
    array_of obj (set_StackSize (top - 2) m) = Ok (values, set_StackSize (top - 2) m).
Proof.
  intros (ai & oi & d & aa & oa & Hi1 & Hi2 & Hi3 & Hi4 & Ha1 & Ha2 & Ha3) Hs Htop.
  exists (Some aa).
  rewrite <- Hs in Hi1, Ha1. split.
  - rewrite (bind_step _ _ _ _ _ (DoPop_step m _ ltac:(lia) Hi1)).
    set (m1 := set_StackSize _ m).
    rewrite (bind_step _ _ _ _ _ (int_of_step m1 ai oi d i Hi2 Hi3 Hi4)).
    assert (idx (Stack m1) (StackSize m1 - 1) = Some (Some aa)) as Ha1'.
    { subst m1. simpl. rewrite <- Ha1. f_equal. lia. }
    rewrite (bind_step _ _ _ _ _ (DoPop_step m1 _ ltac:(subst m1; simpl; lia) Ha1')).
    unfold ret. do 2 f_equal. subst m1. rewrite <- Hs. machine_eq.
  - apply (array_of_step _ aa oa); [exact Ha2 | exact Ha3].
Qed.

Lemma collectable_shrink rank fuel m m' :
  collectable rank fuel m →
  heap m' = heap m → Stack m' = Stack m → StackSize m' ≤ StackSize m →
  Variables m' = Variables m → RuntimeVariableAmount m' = RuntimeVariableAmount m →
  GCHead m' = GCHead m → NumObjects m' = NumObjects m → next_addr m' = next_addr m →
  collectable rank fuel m'.
Proof.
  intros C Hh Hst Hsz Hv Hr Hc Hn Ha.
  constructor; rewrite ?Hh, ?Hst, ?Hv, ?Hr, ?Hc, ?Hn, ?Ha; try apply C.
  - pose proof (coll_stack_size _ _ _ C). lia.
  - intros i p Hi. apply (coll_stack _ _ _ C). lia.
Qed.

Lemma NewNumber_total rank fuel d m :
  collectable rank fuel m →
  ∃ m', NewNumber fuel d m = Ok (next_addr m, m') ∧
        heap m' !! next_addr m = Some (mkObject false (Num d)) ∧
        Stack m' = Stack m ∧
        StackSize m' = StackSize m ∧
        ProgramCounter m' = ProgramCounter m.
Proof.
  intros C. destruct (NewObject_total rank fuel OBJ_NUM m C) as (m1 & H1 & Hh).
  unfold NewNumber. rewrite (bind_step _ _ _ _ _ H1).
  eexists. split; [reflexivity|]. simpl. split.
  - rewrite lookup_alter. case_decide; [|congruence]. rewrite Hh. reflexivity.
  - repeat split.
    + eapply (keeps_NewObject Stack); [repeat split | exact H1].
    + eapply (keeps_NewObject StackSize); [repeat split | exact H1].
    + eapply (keeps_NewObject ProgramCounter); [repeat split | exact H1].
Qed.

(** Indexing where the allocation returns (what the code keeps of
    C6).  For an array of length [length values] under an index whose
    [int] value is [i]:
    - [GETINDEX] with [0 <= i < length values] on a slot that still
      holds the null pointer [NewArray] put there pushes a number 0
      that this instruction allocates, on a machine on which a
      collection can run to its end;
    - [GETINDEX] with [i] outside these bounds stops with the fatal
      diagnostic, and so does [SETINDEX]. *)
Theorem array_index_semantics :
  (∀ ff rank fuel m i values,
     instruction_at m = Some OP_GETINDEX →
     collectable rank fuel m →
     Z.of_nat (length (Stack m)) = MAX_STACK →
     1 < StackSize m →
     index_operands m (StackSize m) i values →
     0 ≤ i < Z.of_nat (length values) →
     values !! Z.to_nat i = Some None →
     ∃ m', ExecuteCycle ff fuel m = Ok (tt, m') ∧
           StackSize m' = StackSize m - 1 ∧
           idx (Stack m') (StackSize m - 2) = Some (Some (next_addr m)) ∧
           heap m !! next_addr m = None ∧
           heap m' !! next_addr m = Some (mkObject false (Num dzero)) ∧
           ProgramCounter m' = ProgramCounter m + 1) ∧
  (∀ ff fuel m i values,
     instruction_at m = Some OP_GETINDEX →
     1 < StackSize m →
     index_operands m (StackSize m) i values →
     ¬ (0 ≤ i < Z.of_nat (length values)) →
     ExecuteCycle ff fuel m = Fail (Fatal "Array index out of bounds error")) ∧
  (∀ ff fuel m value i values,
     instruction_at m = Some OP_SETINDEX →
     2 < StackSize m →
     idx (Stack m) (StackSize m - 1) = Some value →
     index_operands m (StackSize m - 1) i values →
     ¬ (0 ≤ i < Z.of_nat (length values)) →
     ExecuteCycle ff fuel m = Fail (Fatal "Array index out of bounds error")).
Proof.
  split; [|split].
  - intros ff rank fuel m i values Hop C Hcap Hn Hops Hi Hslot.
    rewrite (ExecuteCycle_at _ _ _ _ Hop). unfold execute.
    rewrite (bind_step _ _ m tt (set_ProgramCounter (ProgramCounter m + 1) m)) by reflexivity.
    set (m1 := set_ProgramCounter _ m).
    assert (index_operands m1 (StackSize m) i values) as Hops1 by exact Hops.
    destruct (pop_index_operands m1 _ i values Hops1 eq_refl Hn) as (obj & Hpop & Harr).
    set (m2 := set_StackSize _ m1) in *.
    apply bind_inv in Hpop as (ip & ma & Hp1 & Hpop). rewrite (bind_step _ _ _ _ _ Hp1).
    apply bind_inv in Hpop as (index & mb & Hp2 & Hpop). rewrite (bind_step _ _ _ _ _ Hp2).
    apply bind_inv in Hpop as (obj' & mc & Hp3 & Hpop). rewrite (bind_step _ _ _ _ _ Hp3).
    apply ret_Ok in Hpop as [[= <- <-] <-].
    destruct (i <? 0) eqn:E; [lia|].
    rewrite (bind_step _ _ _ _ _ Harr). rewrite Hslot.
    assert (collectable rank fuel m2) as C2.
    { apply (collectable_shrink rank fuel m); try reflexivity; [exact C|].
      subst m2 m1. simpl. lia. }
    destruct (NewNumber_total rank fuel dzero m2 C2) as (m3 & H3 & Hh3 & Hst3 & Hsz3 & Hpc3).
    rewrite (bind_step _ _ _ _ _ H3).
    change (next_addr m2) with (next_addr m) in *.
    assert (StackSize m3 = StackSize m - 2) as Hsz3' by (rewrite Hsz3; reflexivity).
    assert (Stack m3 = Stack m) as Hst3' by (rewrite Hst3; reflexivity).
    rewrite DoPush_step; [| rewrite Hsz3'; pose proof (coll_stack_size _ _ _ C); lia
                          | rewrite Hst3'; exact Hcap].
    eexists. split; [reflexivity|]. simpl.
    split; [rewrite Hsz3'; lia|]. split.
    + rewrite Hsz3', Hst3'. unfold idx. destruct (0 <=? StackSize m - 2) eqn:E2; [|lia].
      apply list_lookup_insert_eq. pose proof (coll_stack_size _ _ _ C). lia.
    + split; [apply (coll_fresh _ _ _ C); reflexivity|]. split; [exact Hh3|].
      rewrite Hpc3. reflexivity.
  - intros ff fuel m i values Hop Hn Hops Hi.
    rewrite (ExecuteCycle_at _ _ _ _ Hop). unfold execute.
    rewrite (bind_step _ _ m tt (set_ProgramCounter (ProgramCounter m + 1) m)) by reflexivity.
    set (m1 := set_ProgramCounter _ m).
    assert (index_operands m1 (StackSize m) i values) as Hops1 by exact Hops.
    destruct (pop_index_operands m1 _ i values Hops1 eq_refl Hn) as (obj & Hpop & Harr).
    set (m2 := set_StackSize _ m1) in *.
    apply bind_inv in Hpop as (ip & ma & Hp1 & Hpop). rewrite (bind_step _ _ _ _ _ Hp1).
    apply bind_inv in Hpop as (index & mb & Hp2 & Hpop). rewrite (bind_step _ _ _ _ _ Hp2).
    apply bind_inv in Hpop as (obj' & mc & Hp3 & Hpop). rewrite (bind_step _ _ _ _ _ Hp3).
    apply ret_Ok in Hpop as [[= <- <-] <-].
    destruct (i <? 0) eqn:E; [reflexivity|].
    rewrite (bind_step _ _ _ _ _ Harr).
    match goal with
    | |- match ?slot with _ => _ end _ = _ => destruct slot as [[a|]|] eqn:Hslot
    end; [| |reflexivity]; apply lookup_lt_Some in Hslot; unfold ptr in *; lia.
  - intros ff fuel m value i values Hop Hn Hv Hops Hi.
    rewrite (ExecuteCycle_at _ _ _ _ Hop). unfold execute.
    rewrite (bind_step _ _ m tt (set_ProgramCounter (ProgramCounter m + 1) m)) by reflexivity.
    set (m1 := set_ProgramCounter _ m).
    assert (idx (Stack m1) (StackSize m1 - 1) = Some value) as Hv1 by exact Hv.
    rewrite (bind_step _ _ _ _ _ (DoPop_step m1 _ ltac:(subst m1; simpl; lia) Hv1)).
    set (m1' := set_StackSize _ m1).
    assert (index_operands m1' (StackSize m1') i values) as Hops1
      by exact Hops.
    destruct (pop_index_operands m1' _ i values Hops1 eq_refl ltac:(subst m1' m1; simpl; lia))
      as (obj & Hpop & Harr).
    set (m2 := set_StackSize _ m1') in *.
    apply bind_inv in Hpop as (ip & ma & Hp1 & Hpop). rewrite (bind_step _ _ _ _ _ Hp1).
    apply bind_inv in Hpop as (index & mb & Hp2 & Hpop). rewrite (bind_step _ _ _ _ _ Hp2).
    apply bind_inv in Hpop as (obj' & mc & Hp3 & Hpop). rewrite (bind_step _ _ _ _ _ Hp3).
    apply ret_Ok in Hpop as [[= <- <-] <-].
    destruct (i <? 0) eqn:E; [reflexivity|].
    rewrite (bind_step _ _ _ _ _ Harr).
    destruct (i <? Z.of_nat (length values)) eqn:E2; [lia | reflexivity].
Qed.

(** ** A slot read on an array that holds itself *)

(** The collection does not return when the first global is an array
    that holds itself and the stack is empty. *)
Lemma MarkAll_first_global_cycle fuel m v a vs :
  StackSize m = 0 →
  0 < RuntimeVariableAmount m →
  idx (Variables m) 0 = Some v →
  object v = Some a →
  heap m !! a = Some (mkObject false (Arr (Some a :: vs))) →
  MarkAll fuel m = Fail (OutOfFuel "Mark").
Proof.
  intros Hs Hr Hv Ho Ha. unfold MarkAll.
  rewrite (bind_step _ _ m (StackSize m) m) by reflexivity. rewrite Hs.
  rewrite (bind_step _ _ m tt m) by reflexivity.
  rewrite (bind_step _ _ m (RuntimeVariableAmount m) m) by reflexivity.
  rewrite seqZ_cons by exact Hr.
  unfold for_each. apply bind_Fail.
  rewrite (bind_step _ _ m (Variables m) m) by reflexivity.
  rewrite (bind_step _ _ m v m) by (unfold load; rewrite Hv; reflexivity).
  rewrite Ho. eapply Mark_self_cycle, Ha.
Qed.

(** [GETINDEX] of a slot that was never written, when the collector is
    due and the first global is an array that holds itself. *)
Lemma GETINDEX_on_self_cycle ff fuel m ip o d i v a vs :
  instruction_at m = Some OP_GETINDEX →
  StackSize m = 2 →
  idx (Stack m) 1 = Some (Some ip) →
  heap m !! ip = Some o → val o = Num d → int_of_double d = Some i →
  idx (Stack m) 0 = Some (Some a) →
  heap m !! a = Some (mkObject false (Arr (Some a :: vs))) →
  0 ≤ i →
  (Some a :: vs) !! Z.to_nat i = Some None →
  MaxNumObjects m ≤ NumObjects m →
  0 < RuntimeVariableAmount m →
  idx (Variables m) 0 = Some v →
  object v = Some a →
  ExecuteCycle ff fuel m = Fail (OutOfFuel "Mark").
Proof.
  intros Hop Hn Hip Ho Hd Hi Hobj Ha Hi0 Hslot Hdue Hr Hv Hva.
  rewrite (ExecuteCycle_at _ _ _ _ Hop). unfold execute.
  rewrite (bind_step _ _ m tt (set_ProgramCounter (ProgramCounter m + 1) m)) by reflexivity.
  set (m1 := set_ProgramCounter _ m).
  rewrite (bind_step _ _ _ _ _ (DoPop_step m1 (Some ip) ltac:(simpl; lia)
             ltac:(simpl; rewrite Hn; exact Hip))).
  set (m2 := set_StackSize _ m1).
  rewrite (bind_step _ _ _ _ _ (int_of_step m2 ip o d i Ho Hd Hi)).
  rewrite (bind_step _ _ _ _ _ (DoPop_step m2 (Some a) ltac:(simpl; lia)
             ltac:(simpl; rewrite Hn; exact Hobj))).
  set (m3 := set_StackSize _ m2).
  destruct (i <? 0) eqn:E; [lia|].
  rewrite (bind_step _ _ _ _ _ (array_of_step m3 a _ _ Ha eq_refl)).
  unfold ptr. rewrite Hslot.
  apply bind_Fail. unfold NewNumber. apply bind_Fail.
  apply NewObject_collection_fails; [exact Hdue|].
  eapply MarkAll_first_global_cycle; try eassumption.
  subst m3 m2 m1. simpl. lia.
Qed.

(** C6 fails on the code.  The program stores the array [a] in its
    own slot 0 and reads slot 1, which was never written, with index 1
    inside the bounds.  The number 0 that [GETINDEX] is to push is
    allocated when a collection is due, and the mark phase does not
    return from the array that holds itself: within no bound does the
    instruction push anything. *)
Theorem unwritten_slot_read_diverges :
  ∃ m a ip,
    compiled_then 11 self_slot_source = Ok (tt, m) ∧
    instruction_at m = Some OP_GETINDEX ∧
    StackSize m = 2 ∧
    idx (Stack m) 0 = Some (Some a) ∧
    idx (Stack m) 1 = Some (Some ip) ∧
    heap m !! a = Some (mkObject false (Arr [Some a; None])) ∧
    heap m !! ip = Some (mkObject false (Num (double_of_int 1))) ∧
    (∀ fuel, ExecuteCycle [] fuel m = Fail (OutOfFuel "Mark")).
Proof.
  eexists _, 2%positive, 5%positive. split; [vm_compute; reflexivity|].
  split; [vm_compute; reflexivity|].
  split; [vm_compute; reflexivity|].
  split; [vm_compute; reflexivity|].
  split; [vm_compute; reflexivity|].
  split; [vm_compute; reflexivity|].
  split; [vm_compute; reflexivity|].
  intros fuel.
  apply (GETINDEX_on_self_cycle _ _ _ 5%positive
           (mkObject false (Num (double_of_int 1))) (double_of_int 1) 1
           (mkVar "a" true (Some 2%positive) []) 2%positive [None]).
  - vm_compute. reflexivity.
  - vm_compute. reflexivity.
  - vm_compute. reflexivity.
  - vm_compute. reflexivity.
  - reflexivity.
  - vm_compute. reflexivity.
  - vm_compute. reflexivity.
  - vm_compute. reflexivity.
  - lia.
  - reflexivity.
  - vm_compute. discriminate.
  - vm_compute. reflexivity.
  - vm_compute. reflexivity.
  - reflexivity.
Qed.

(** * Deciding that a machine is collectable *)

Lemma forallb_elem_of {A} (f : A → bool) l x :
  forallb f l = true → x ∈ l → f x = true.
Proof.
  intros H Hx. rewrite forallb_forall in H. apply H, list_elem_of_In, Hx.
Qed.

Lemma markableb_sound rank fuel h p :
  markableb rank fuel h p = true → markable rank fuel h p.
Proof.
  destruct p as [a|]; unfold markableb, markable.
  - destruct (h !! a); [|discriminate]. intros H. split; [eexists; reflexivity|].
    apply Nat.leb_le, H.
  - apply Nat.leb_le.
Qed.

Lemma nodupb_sound l : nodupb l = true → NoDup l.
Proof.
  induction l as [|x l IH]; simpl; intros H; [constructor|].
  apply andb_true_iff in H as [Hx Hl]. constructor; [|apply IH, Hl].
  intros Hin. apply negb_true_iff in Hx.
  assert (existsb (Pos.eqb x) l = true) as Hex; [|congruence].
  apply existsb_exists. exists x. split; [apply list_elem_of_In, Hin | apply Pos.eqb_refl].
Qed.

Lemma idx_take {A} (l : list A) n i x :
  0 ≤ i < n → idx l i = Some x → x ∈ take (Z.to_nat n) l.
Proof.
  intros Hi Hx. unfold idx in Hx. destruct (0 <=? i); [|discriminate].
  apply elem_of_take. exists (Z.to_nat i). split; [exact Hx | lia].
Qed.

Lemma collectableb_sound rank fuel m :
  collectableb rank fuel m = true → collectable rank fuel m.
Proof.
  unfold collectableb. intros H.
  repeat (apply andb_true_iff in H as [H ?]).
  constructor.
  - intros a o c Ho Hc.
    assert ((a, o) ∈ map_to_list (heap m)) as Hin by (apply elem_of_map_to_list, Ho).
    apply (forallb_elem_of _ _ _ H) in Hin. simpl in Hin.
    apply andb_true_iff in Hin as [_ Hkids].
    apply (forallb_elem_of _ _ _ Hkids) in Hc. unfold child_okb in Hc.
    destruct (heap m !! c); [|discriminate]. split; [eexists; reflexivity|].
    apply Nat.ltb_lt, Hc.
  - lia.
  - lia.
  - intros i p Hi Hp. apply markableb_sound.
    eapply forallb_elem_of; [eassumption|]. eapply idx_take; eassumption.
  - intros i v Hi Hv.
    assert (v ∈ take (Z.to_nat (RuntimeVariableAmount m)) (Variables m)) as Hin
      by (eapply idx_take; eassumption).
    apply markableb_sound.
    match goal with
    | Hf : forallb (λ v, markableb _ _ _ (object v)) _ = true |- _ =>
        apply (forallb_elem_of _ _ _ Hf) in Hin
    end. exact Hin.
  - apply nodupb_sound. assumption.
  - intros a Ha.
    match goal with
    | Hf : forallb (liveb _) _ = true |- _ => apply (forallb_elem_of _ _ _ Hf) in Ha
    end. unfold liveb in Ha. destruct (heap m !! a); [eexists; reflexivity | discriminate].
  - lia.
  - lia.
  - intros a Ha. destruct (heap m !! a) as [o|] eqn:Ho; [|reflexivity].
    assert ((a, o) ∈ map_to_list (heap m)) as Hin by (apply elem_of_map_to_list, Ho).
    apply (forallb_elem_of _ _ _ H) in Hin. simpl in Hin.
    apply andb_true_iff in Hin as [Hlt _]. apply Pos.ltb_lt in Hlt. lia.
Qed.

(** * The theorems at work on compiled programs *)

Lemma call_return_stack_balance_witness :
  instruction_at at_call = Some OP_CALL ∧
  instruction_at at_return = Some OP_RETURN_VALUE ∧
  (StackSize after_return = StackSize frame_push - 1 + 1 ∧
   FramePointer after_return = FramePointer frame_push ∧
   ProgramCounter after_return = ProgramCounter frame_push) ∧
  (StackSize after_return = StackSize at_call - 1 + 1 ∧
   FramePointer after_return = FramePointer at_call ∧
   ProgramCounter after_return = ProgramCounter at_call + 9).
Proof.
  split; [vm_compute; reflexivity|]. split; [vm_compute; reflexivity|].
  assert (callee_run [] 20 (IndirStackSize at_call + 3) in_callee at_return) as Hrun.
  { eapply callee_cycle.
    - vm_compute; discriminate.
    - vm_compute; reflexivity.
    - apply callee_here. vm_compute; discriminate. }
  assert (callee_run [] 20 (IndirStackSize frame_push + 3)
            (set_ProgramCounter 5 (machine_of (DoPushIndir 1 frame_push))) at_return)
    as Hrun'.
  { eapply callee_cycle.
    - vm_compute; discriminate.
    - vm_compute; reflexivity.
    - apply callee_here. vm_compute; discriminate. }
  destruct (call_return_stack_balance [] 20) as [Hpush Hcall]; [constructor|].
  split.
  - apply (Hpush frame_push (machine_of (DoPushIndir 1 frame_push)) 5
             at_return after_return 1 OP_RETURN_VALUE 1).
    + vm_compute; reflexivity.
    + exact Hrun'.
    + vm_compute; reflexivity.
    + vm_compute; reflexivity.
    + right. split; reflexivity.
    + vm_compute; reflexivity.
  - apply (Hcall at_call in_callee at_return after_return 1 OP_RETURN_VALUE 1).
    + vm_compute; reflexivity.
    + vm_compute; reflexivity.
    + vm_compute; reflexivity.
    + exact Hrun.
    + vm_compute; reflexivity.
    + vm_compute; reflexivity.
    + right. split; reflexivity.
    + vm_compute; reflexivity.
Defined.

Lemma array_index_semantics_witness :
  (instruction_at at_getindex = Some OP_GETINDEX ∧
   collectable (λ _, 0%nat) 20 at_getindex ∧
   MaxNumObjects at_getindex ≤ NumObjects at_getindex ∧
   ∃ m', ExecuteCycle [] 20 at_getindex = Ok (tt, m') ∧
         StackSize m' = StackSize at_getindex - 1 ∧
         idx (Stack m') (StackSize at_getindex - 2) = Some (Some (next_addr at_getindex)) ∧
         heap at_getindex !! next_addr at_getindex = None ∧
         heap m' !! next_addr at_getindex = Some (mkObject false (Num dzero)) ∧
         ProgramCounter m' = ProgramCounter at_getindex + 1) ∧
  (instruction_at at_getindex_beyond = Some OP_GETINDEX ∧
   ExecuteCycle [] 20 at_getindex_beyond = Fail (Fatal "Array index out of bounds error")) ∧
  (instruction_at at_setindex_beyond = Some OP_SETINDEX ∧
   ExecuteCycle [] 20 at_setindex_beyond = Fail (Fatal "Array index out of bounds error")).
Proof.
  destruct array_index_semantics as (Hget & Hget_out & Hset_out).
  split; [|split].
  - split; [vm_compute; reflexivity|].
    assert (collectable (λ _, 0%nat) 20 at_getindex) as C
      by (apply collectableb_sound; vm_compute; reflexivity).
    split; [exact C|]. split; [vm_compute; discriminate|].
    apply (Hget [] (λ _, 0%nat) 20%nat at_getindex 1 [None; None; None]).
    + vm_compute; reflexivity.
    + exact C.
    + vm_compute; reflexivity.
    + vm_compute; reflexivity.
    + exists 3%positive, (mkObject false (Num (double_of_int 1))),
        (double_of_int 1), 2%positive, (mkObject false (Arr [None; None; None])).
      repeat split; vm_compute; reflexivity.
    + vm_compute. split; [discriminate | reflexivity].
    + reflexivity.
  - split; [vm_compute; reflexivity|].
    apply (Hget_out [] 20%nat at_getindex_beyond 3 [None; None; None]).
    + vm_compute; reflexivity.
    + vm_compute; reflexivity.
    + exists 3%positive, (mkObject false (Num (double_of_int 3))),
        (double_of_int 3), 2%positive, (mkObject false (Arr [None; None; None])).
      repeat split; vm_compute; reflexivity.
    + vm_compute. intros [_ H]. discriminate H.
  - split; [vm_compute; reflexivity|].
    apply (Hset_out [] 20%nat at_setindex_beyond (Some 4%positive) 3 [None; None; None]).
    + vm_compute; reflexivity.
    + vm_compute; reflexivity.
    + vm_compute; reflexivity.
    + exists 3%positive, (mkObject false (Num (double_of_int 3))),
        (double_of_int 3), 2%positive, (mkObject false (Arr [None; None; None])).
      repeat split; vm_compute; reflexivity.
    + vm_compute. intros [_ H]. discriminate H.
Defined.

Lemma registration_deduplicates_witness :
  (∃ k, [0; 1; 2; 0; 3; 2] !! 0%nat = Some k ∧ [0; 1; 2; 0; 3; 2] !! 3%nat = Some k) ∧
  (∃ k, [0; 1; 2; 0; 3; 2] !! 2%nat = Some k ∧ [0; 1; 2; 0; 3; 2] !! 5%nat = Some k) ∧
  (∃ k, [0; 1; 2; 0; 3; 2] !! 4%nat = Some k ∧
        Z.of_nat (length (Constants initial)) ≤ k ∧
        idx (Constants (machine_of (register_all pool_source initial))) k
          = Some (CST_NUM S754_nan) ∧
        ∀ j : nat, j ≠ 4%nat → [0; 1; 2; 0; 3; 2] !! j ≠ Some k).
Proof.
  destruct (registration_deduplicates pool_source initial [0; 1; 2; 0; 3; 2]
              (machine_of (register_all pool_source initial)))
    as (Hsame & Hzero & Hnan); [vm_compute; reflexivity|].
  split; [|split].
  - apply Hzero; reflexivity.
  - apply (Hsame 2%nat 5%nat (RegString "x") (RegString "x")); reflexivity.
  - apply Hnan. reflexivity.
Defined.

Lemma assignment_groups_left_witness :
  ∃ m',
    ParseExpr 5 at_chain =
      Ok (EXP_BINARY (EXP_BINARY (EXP_ID 0) (EXP_ID 1) (chr "="))
                     (EXP_BINARY (EXP_NUM 0) (EXP_NUM 1) (chr "+")) (chr "="), m').
Proof.
  eexists.
  eapply (assignment_groups_left 2 "a" "b"
            [Nb "1" 1; T "+"; Nb "2" 2; K TOK_END "end"] at_chain 0 1).
  - vm_compute; reflexivity.
  - vm_compute; reflexivity.
  - vm_compute; reflexivity.
  - vm_compute; reflexivity.
  - vm_compute; reflexivity.
  - vm_compute; reflexivity.
Defined.


Lemma print_consumes_other_values_witness :
  instruction_at at_print = Some OP_PRINT ∧
  heap at_print !! 2%positive = Some (mkObject false (Arr [None; None; None])) ∧
  ExecuteCycle [] 20 at_print
    = Ok (tt, set_ProgramCounter (ProgramCounter at_print + 1)
                (set_StackSize (StackSize at_print - 1) at_print)) ∧
  StackSize (set_ProgramCounter (ProgramCounter at_print + 1)
               (set_StackSize (StackSize at_print - 1) at_print))
    = StackSize at_print - 1 ∧
  stdout (set_ProgramCounter (ProgramCounter at_print + 1)
            (set_StackSize (StackSize at_print - 1) at_print))
    = stdout at_print ∧
  ProgramCounter (set_ProgramCounter (ProgramCounter at_print + 1)
                    (set_StackSize (StackSize at_print - 1) at_print))
    = ProgramCounter at_print + 1.
Proof.
  split; [vm_compute; reflexivity|]. split; [vm_compute; reflexivity|].
  apply (print_consumes_other_values [] 20 at_print 2%positive
           (mkObject false (Arr [None; None; None]))).
  - vm_compute; reflexivity.
  - vm_compute; reflexivity.
  - vm_compute; reflexivity.
  - vm_compute; reflexivity.
  - left. reflexivity.
Defined.

(** * Running a computation forward *)

Lemma bind_gets {A B} (field : machine → A) (k : A → M B) m :
  bind (gets field) k m = k (field m) m.
Proof. reflexivity. Qed.

Lemma bind_modify {B} change (k : unit → M B) m :
  bind (modify change) k m = k tt (change m).
Proof. reflexivity. Qed.

Lemma bind_ret {A B} (a : A) (k : A → M B) m : bind (ret a) k m = k a m.
Proof. reflexivity. Qed.

Lemma bind_fail {A B} f (k : A → M B) m : bind (fail f) k m = Fail f.
Proof. reflexivity. Qed.

Lemma load_step {A} what (l : list A) i x m :
  idx l i = Some x → load what l i m = Ok (x, m).
Proof. unfold load. intros ->. reflexivity. Qed.

Lemma store_step {A} what (l : list A) i v l' m :
  upd l i v = Some l' → store what l i v m = Ok (l', m).
Proof. unfold store. intros ->. reflexivity. Qed.

Lemma upd_inside {A} (l : list A) i v :
  0 ≤ i < Z.of_nat (length l) → upd l i v = Some (<[Z.to_nat i := v]> l).
Proof.
  intros H. unfold upd.
  replace ((0 <=? i) && (i <? Z.of_nat (length l))) with true by lia.
  reflexivity.
Qed.

Lemma upd_length {A} (l : list A) i v l' :
  upd l i v = Some l' → length l' = length l.
Proof. intros H. apply upd_Some in H as [_ ->]. apply length_insert. Qed.

Lemma idx_insert {A} (l : list A) (i j : Z) v :
  0 ≤ i < Z.of_nat (length l) →
  idx (<[Z.to_nat i := v]> l) j = if decide (j = i) then Some v else idx l j.
Proof.
  intros Hi. unfold idx. destruct (0 <=? j) eqn:E.
  - case_decide.
    + subst. apply list_lookup_insert_eq. lia.
    + apply list_lookup_insert_ne. lia.
  - case_decide; [lia | reflexivity].
Qed.

(** * Instructions and immediates, written and read back *)

Lemma decode_encode op : decode (encode op) = Some op.
Proof. destruct op; reflexivity. Qed.

Lemma encode_decode w op : decode w = Some op → encode op = w.
Proof.
  unfold decode. intros H. pose proof (idx_Some _ _ _ H) as Hw.
  cbn [length opcodes] in Hw.
  assert (∃ n : nat, w = Z.of_nat n ∧ (n < 32)%nat) as (n & -> & Hn).
  { exists (Z.to_nat w). lia. }
  do 32 (destruct n as [|n]; [vm_compute in H; injection H as <-; reflexivity|]).
  lia.
Qed.

Lemma int_of_bytes_of_int value :
  INT_MIN ≤ value ≤ INT_MAX →
  int_of_bytes (Z.land value 255) (Z.land (Z.shiftr value 8) 255)
               (Z.land (Z.shiftr value 16) 255) (Z.land (Z.shiftr value 24) 255)
  = value.
Proof.
  unfold INT_MIN, INT_MAX, int_of_bytes. intros H.
  change 255 with (Z.ones 8). rewrite !Z.land_ones by lia.
  rewrite !Z.shiftr_div_pow2 by lia.
  change (2 ^ 8) with 256. change (2 ^ 16) with 65536. change (2 ^ 24) with 16777216.
  cbv zeta.
  destruct (_ <? _) eqn:E; Z.div_mod_to_equations; lia.
Qed.

Lemma GenerateCode_step inst m :
  0 ≤ ProgramLength m < MAX_PROG_LEN →
  MAX_PROG_LEN ≤ Z.of_nat (length (Program m)) →
  GenerateCode inst m =
    Ok (tt, set_ProgramLength (ProgramLength m + 1)
              (set_Program (<[Z.to_nat (ProgramLength m) := inst]> (Program m)) m)).
Proof.
  intros Hn Hlen. unfold GenerateCode. rewrite bind_gets.
  replace (ProgramLength m <? MAX_PROG_LEN) with true by lia.
  rewrite bind_gets.
  assert (upd (Program m) (ProgramLength m) inst
          = Some (<[Z.to_nat (ProgramLength m) := inst]> (Program m))) as U
    by (apply upd_inside; lia).
  rewrite (bind_step _ _ _ _ _ (store_step _ _ _ _ _ _ U)).
  reflexivity.
Qed.

Lemma GenerateCode_full inst m :
  MAX_PROG_LEN ≤ ProgramLength m →
  GenerateCode inst m = Fail (AssertFail "Program Overflow!").
Proof.
  intros Hn. unfold GenerateCode. rewrite bind_gets.
  replace (ProgramLength m <? MAX_PROG_LEN) with false by lia.
  reflexivity.
Qed.

Lemma GenerateInt_step value m :
  0 ≤ ProgramLength m →
  ProgramLength m + 4 ≤ MAX_PROG_LEN →
  MAX_PROG_LEN ≤ Z.of_nat (length (Program m)) →
  ∃ prog,
    GenerateInt value m
      = Ok (tt, set_ProgramLength (ProgramLength m + 4) (set_Program prog m)) ∧
    length prog = length (Program m) ∧
    (∀ j, j < ProgramLength m → idx prog j = idx (Program m) j) ∧
    (∀ j, ProgramLength m + 4 ≤ j → idx prog j = idx (Program m) j) ∧
    idx prog (ProgramLength m) = Some (Z.land value 255) ∧
    idx prog (ProgramLength m + 1) = Some (Z.land (Z.shiftr value 8) 255) ∧
    idx prog (ProgramLength m + 2) = Some (Z.land (Z.shiftr value 16) 255) ∧
    idx prog (ProgramLength m + 3) = Some (Z.land (Z.shiftr value 24) 255).
Proof.
  intros H0 Hroom Hlen.
  unfold GenerateInt, bytes_of_int, for_each.
  set (n := ProgramLength m) in *. set (p0 := Program m) in *.
  set (p1 := <[Z.to_nat n := Z.land value 255]> p0).
  set (m1 := set_ProgramLength (n + 1) (set_Program p1 m)).
  set (p2 := <[Z.to_nat (n + 1) := Z.land (Z.shiftr value 8) 255]> p1).
  set (m2 := set_ProgramLength (n + 1 + 1) (set_Program p2 m1)).
  set (p3 := <[Z.to_nat (n + 1 + 1) := Z.land (Z.shiftr value 16) 255]> p2).
  set (m3 := set_ProgramLength (n + 1 + 1 + 1) (set_Program p3 m2)).
  set (p4 := <[Z.to_nat (n + 1 + 1 + 1) := Z.land (Z.shiftr value 24) 255]> p3).
  assert (length p1 = length p0) as L1 by apply length_insert.
  assert (length p2 = length p0) as L2 by (unfold p2; rewrite length_insert; exact L1).
  assert (length p3 = length p0) as L3 by (unfold p3; rewrite length_insert; exact L2).
  assert (GenerateCode (Z.land value 255) m = Ok (tt, m1)) as E1
    by (apply GenerateCode_step; [fold n; lia | exact Hlen]).
  assert (GenerateCode (Z.land (Z.shiftr value 8) 255) m1 = Ok (tt, m2)) as E2
    by (apply GenerateCode_step; cbn; lia).
  assert (GenerateCode (Z.land (Z.shiftr value 16) 255) m2 = Ok (tt, m3)) as E3
    by (apply GenerateCode_step; cbn; lia).
  assert (GenerateCode (Z.land (Z.shiftr value 24) 255) m3
          = Ok (tt, set_ProgramLength (n + 1 + 1 + 1 + 1) (set_Program p4 m3))) as E4
    by (apply GenerateCode_step; cbn; lia).
  rewrite (bind_step _ _ _ _ _ E1), (bind_step _ _ _ _ _ E2),
    (bind_step _ _ _ _ _ E3), (bind_step _ _ _ _ _ E4).
  exists p4. split.
  { unfold ret. do 2 f_equal. subst m3 m2 m1. machine_eq. }
  assert (length p4 = length p0) as L4 by (unfold p4; rewrite length_insert; exact L3).
  split; [exact L4|].
  assert (∀ j, idx p4 j =
            if decide (j = n + 1 + 1 + 1) then Some (Z.land (Z.shiftr value 24) 255)
            else if decide (j = n + 1 + 1) then Some (Z.land (Z.shiftr value 16) 255)
            else if decide (j = n + 1) then Some (Z.land (Z.shiftr value 8) 255)
            else if decide (j = n) then Some (Z.land value 255)
            else idx p0 j) as Hidx.
  { intros j. unfold p4. rewrite idx_insert by lia.
    unfold p3. rewrite idx_insert by lia.
    unfold p2. rewrite idx_insert by lia.
    unfold p1. rewrite idx_insert by lia. reflexivity. }
  repeat split; intros; rewrite Hidx; repeat case_decide; try lia; reflexivity.
Qed.

(** X1.  An instruction byte and its decoding are inverse to each
    other: the byte [emit] writes for an opcode is below 32 and
    decodes to that opcode, a byte that decodes to an opcode is the
    one written for it, and no byte from 32 on is an instruction.  On
    the machine: when the program has room, [emit] appends one byte,
    leaves the code before it alone, and the instruction under a
    program counter set there is the opcode emitted. *)
Theorem opcode_written_is_decoded :
  (∀ op, decode (encode op) = Some op ∧ 0 ≤ encode op < 32) ∧
  (∀ w op, decode w = Some op → encode op = w) ∧
  (∀ w, 32 ≤ w → decode w = None) ∧
  (∀ op m,
     0 ≤ ProgramLength m < MAX_PROG_LEN →
     MAX_PROG_LEN ≤ Z.of_nat (length (Program m)) →
     ∃ m1, emit op m = Ok (tt, m1) ∧
           ProgramLength m1 = ProgramLength m + 1 ∧
           (∀ j, j ≠ ProgramLength m → idx (Program m1) j = idx (Program m) j) ∧
           instruction_at (set_ProgramCounter (ProgramLength m) m1) = Some op).
Proof.
  split; [|split; [|split]].
  - intros op. split; [apply decode_encode|]. destruct op; vm_compute; split; congruence.
  - apply encode_decode.
  - intros w Hw. destruct (decode w) as [op|] eqn:E; [|reflexivity].
    apply idx_Some in E. cbn [length opcodes] in E. lia.
  - intros op m Hn Hlen. eexists. split; [apply GenerateCode_step; assumption|].
    cbn. split; [reflexivity|]. split.
    + intros j Hj. rewrite idx_insert by lia. case_decide; [lia | reflexivity].
    + unfold instruction_at. cbn. rewrite idx_insert by lia.
      case_decide; [|lia]. apply decode_encode.
Qed.

(** X2.  A 4-byte immediate is read back as written.  With room for
    four bytes [GenerateInt] appends them and leaves the code before
    them alone, and [ReadInteger], with the program counter on the
    first of them, returns the [int] that was written and steps over
    them.  With room for fewer than four bytes the assertion of
    [GenerateCode] fails. *)
Theorem immediate_written_is_read :
  (∀ value m,
     INT_MIN ≤ value ≤ INT_MAX →
     0 ≤ ProgramLength m →
     ProgramLength m + 4 ≤ MAX_PROG_LEN →
     MAX_PROG_LEN ≤ Z.of_nat (length (Program m)) →
     ∃ m1, GenerateInt value m = Ok (tt, m1) ∧
           ProgramLength m1 = ProgramLength m + 4 ∧
           (∀ j, j < ProgramLength m → idx (Program m1) j = idx (Program m) j) ∧
           ReadInteger (set_ProgramCounter (ProgramLength m) m1)
             = Ok (value, set_ProgramCounter (ProgramLength m + 4) m1)) ∧
  (∀ value m,
     0 ≤ ProgramLength m →
     MAX_PROG_LEN < ProgramLength m + 4 →
     MAX_PROG_LEN ≤ Z.of_nat (length (Program m)) →
     GenerateInt value m = Fail (AssertFail "Program Overflow!")).
Proof.
  split.
  - intros value m Hv H0 Hroom Hlen.
    destruct (GenerateInt_step value m H0 Hroom Hlen)
      as (prog & E & _ & Hlow & _ & B0 & B1 & B2 & B3).
    eexists. split; [exact E|]. cbn. split; [reflexivity|]. split; [exact Hlow|].
    match goal with |- ReadInteger ?s = _ => set (m1 := s) end.
    rewrite (ReadInteger_step m1 value).
    + unfold ret. do 2 f_equal.
    + unfold immediate_at. subst m1. cbn.
      rewrite B0, B1, B2, B3. f_equal. apply int_of_bytes_of_int, Hv.
  - intros value m H0 Hroom Hlen.
    unfold GenerateInt, bytes_of_int, for_each.
    destruct (Z.le_gt_cases MAX_PROG_LEN (ProgramLength m)) as [F0|F0].
    { apply bind_Fail, GenerateCode_full, F0. }
    rewrite (bind_step _ _ _ _ _ (GenerateCode_step _ m (conj H0 F0) Hlen)).
    match goal with |- bind _ _ ?s = _ => set (m1 := s) end.
    assert (ProgramLength m1 = ProgramLength m + 1) as P1 by reflexivity.
    assert (Z.of_nat (length (Program m1)) = Z.of_nat (length (Program m))) as L1
      by (subst m1; cbn; rewrite length_insert; reflexivity).
    destruct (Z.le_gt_cases MAX_PROG_LEN (ProgramLength m1)) as [F1|F1].
    { apply bind_Fail, GenerateCode_full, F1. }
    rewrite (bind_step _ _ _ _ _
               (GenerateCode_step _ m1 ltac:(split; lia) ltac:(lia))).
    match goal with |- bind _ _ ?s = _ => set (m2 := s) end.
    assert (ProgramLength m2 = ProgramLength m + 2) as P2 by (subst m2; cbn; lia).
    assert (Z.of_nat (length (Program m2)) = Z.of_nat (length (Program m))) as L2
      by (subst m2; cbn; rewrite length_insert; exact L1).
    destruct (Z.le_gt_cases MAX_PROG_LEN (ProgramLength m2)) as [F2|F2].
    { apply bind_Fail, GenerateCode_full, F2. }
    rewrite (bind_step _ _ _ _ _
               (GenerateCode_step _ m2 ltac:(split; lia) ltac:(lia))).
    match goal with |- bind _ _ ?s = _ => set (m3 := s) end.
    assert (ProgramLength m3 = ProgramLength m + 3) as P3 by (subst m3; cbn; lia).
    apply bind_Fail, GenerateCode_full. lia.
Qed.

Lemma patch_step pc i b (k : unit → M unit) m :
  0 ≤ pc + i < Z.of_nat (length (Program m)) →
  bind (let* prog := gets Program in
        let* prog' := store "Program index out of bounds" prog (pc + i) b in
        modify (set_Program prog')) k m
  = k tt (set_Program (<[Z.to_nat (pc + i) := b]> (Program m)) m).
Proof.
  intros H. unfold bind at 1. rewrite bind_gets.
  rewrite (bind_step _ _ _ _ _ (store_step _ _ _ _ _ _ (upd_inside _ _ _ H))).
  reflexivity.
Qed.

(** X3.  [GenerateIntAt] overwrites the four bytes at [pc] with an
    immediate that reads back as the value written, and changes
    nothing else: not the rest of the code, not the length of the
    program.  (It is how forward jumps get their targets.) *)
Theorem immediate_patched_in_place value pc m :
  INT_MIN ≤ value ≤ INT_MAX →
  0 ≤ pc →
  pc + 4 ≤ Z.of_nat (length (Program m)) →
  ∃ prog,
    GenerateIntAt value pc m = Ok (tt, set_Program prog m) ∧
    immediate_at (set_Program prog m) pc = Some value ∧
    ∀ j, j < pc ∨ pc + 4 ≤ j → idx prog j = idx (Program m) j.
Proof.
  intros Hv H0 Hlen. unfold GenerateIntAt, bytes_of_int, for_each.
  change (zip (seqZ 0 4) ?l) with
    [(0, Z.land value 255); (1, Z.land (Z.shiftr value 8) 255);
     (2, Z.land (Z.shiftr value 16) 255); (3, Z.land (Z.shiftr value 24) 255)].
  set (p0 := Program m) in *.
  set (p1 := <[Z.to_nat (pc + 0) := Z.land value 255]> p0).
  set (p2 := <[Z.to_nat (pc + 1) := Z.land (Z.shiftr value 8) 255]> p1).
  set (p3 := <[Z.to_nat (pc + 2) := Z.land (Z.shiftr value 16) 255]> p2).
  set (p4 := <[Z.to_nat (pc + 3) := Z.land (Z.shiftr value 24) 255]> p3).
  assert (length p1 = length p0) as L1 by apply length_insert.
  assert (length p2 = length p0) as L2 by (unfold p2; rewrite length_insert; exact L1).
  assert (length p3 = length p0) as L3 by (unfold p3; rewrite length_insert; exact L2).
  exists p4. split.
  - rewrite patch_step by (fold p0; lia). fold p0 p1.
    rewrite patch_step by (cbn; lia). cbn [Program set_Program]. fold p2.
    rewrite patch_step by (cbn; lia). cbn [Program set_Program]. fold p3.
    rewrite patch_step by (cbn; lia). cbn [Program set_Program]. fold p4.
    reflexivity.
  - assert (∀ j, idx p4 j =
              if decide (j = pc + 3) then Some (Z.land (Z.shiftr value 24) 255)
              else if decide (j = pc + 2) then Some (Z.land (Z.shiftr value 16) 255)
              else if decide (j = pc + 1) then Some (Z.land (Z.shiftr value 8) 255)
              else if decide (j = pc + 0) then Some (Z.land value 255)
              else idx p0 j) as Hidx.
    { intros j. unfold p4. rewrite idx_insert by lia.
      unfold p3. rewrite idx_insert by lia.
      unfold p2. rewrite idx_insert by lia.
      unfold p1. rewrite idx_insert by lia. reflexivity. }
    split.
    + unfold immediate_at. cbn [Program set_Program]. rewrite !Hidx.
      repeat case_decide; try lia. f_equal. apply int_of_bytes_of_int, Hv.
    + intros j Hj. rewrite Hidx. repeat case_decide; try lia. reflexivity.
Qed.

(** X4.  The operand stack is last-in first-out within its bounds.
    On a stack with room, [DoPush] stores the value in the slot on top
    and [DoPop] right after returns that value and the stack as it was
    before the push, up to the contents of the slot above the top.
    [DoPush] on a full stack stops with its diagnostic.  So does
    [DoPop] on an empty one when the program counter is inside the
    [Program] array; its message reads [Program[ProgramCounter]], and
    with the program counter outside the array (it is -1 before a run
    and after [HALT]) that read is out of bounds. *)
Theorem operand_stack_is_lifo :
  (∀ v m,
     0 ≤ StackSize m < MAX_STACK →
     Z.of_nat (length (Stack m)) = MAX_STACK →
     ∃ m1, DoPush v m = Ok (tt, m1) ∧
           StackSize m1 = StackSize m + 1 ∧
           (∀ j, j ≠ StackSize m → idx (Stack m1) j = idx (Stack m) j) ∧
           DoPop m1 = Ok (v, set_StackSize (StackSize m) m1)) ∧
  (∀ v m, MAX_STACK ≤ StackSize m → DoPush v m = Fail (Fatal "Stack Overflow")) ∧
  (∀ m, StackSize m ≤ 0 →
        Z.of_nat (length (Program m)) = MAX_PROG_LEN →
        0 ≤ ProgramCounter m < MAX_PROG_LEN →
        DoPop m = Fail (Fatal "Stack Underflow")) ∧
  (∀ m, StackSize m ≤ 0 →
        Z.of_nat (length (Program m)) = MAX_PROG_LEN →
        ProgramCounter m < 0 ∨ MAX_PROG_LEN ≤ ProgramCounter m →
        DoPop m = Fail (Undefined "Program index out of bounds")).
Proof.
  split; [|split; [|split]].
  - intros v m Hn Hlen. eexists. split; [apply DoPush_step; assumption|].
    cbn. split; [reflexivity|]. split.
    + intros j Hj. rewrite idx_insert by lia. case_decide; [lia | reflexivity].
    + match goal with |- DoPop ?s = _ => set (m1 := s) end.
      rewrite (DoPop_step m1 v).
      * do 2 f_equal. subst m1. machine_eq.
      * subst m1. cbn. lia.
      * subst m1. cbn. rewrite idx_insert by lia. case_decide; [reflexivity | lia].
  - intros v m Hn. unfold DoPush. rewrite bind_gets.
    replace (MAX_STACK <=? StackSize m) with true by lia. reflexivity.
  - intros m Hn Hlen Hpc. unfold DoPop. rewrite bind_gets.
    replace (StackSize m <=? 0) with true by lia.
    rewrite !bind_gets. unfold load.
    destruct (idx_inside (Program m) (ProgramCounter m)) as [w ->]; [lia|].
    reflexivity.
  - intros m Hn Hlen Hpc. unfold DoPop. rewrite bind_gets.
    replace (StackSize m <=? 0) with true by lia.
    rewrite !bind_gets. unfold load.
    destruct (idx (Program m) (ProgramCounter m)) as [w|] eqn:E; [|reflexivity].
    apply idx_Some in E. lia.
Qed.

(** * The tables of names *)

Lemma find_first_None {A} (p : A → bool) l i :
  find_first p l i = None → ∀ x, x ∈ l → p x = false.
Proof.
  revert i. induction l as [|y l IH]; intros i; simpl; intros H x Hx.
  - inversion Hx.
  - destruct (p y) eqn:Hy; [discriminate|].
    apply elem_of_cons in Hx as [->|Hx]; [exact Hy | eapply IH; eassumption].
Qed.

Lemma find_first_shift {A} (p : A → bool) l i d :
  find_first p l (i + d) = (λ k, k + d) <$> find_first p l i.
Proof.
  revert i. induction l as [|x l IH]; intros i; simpl; [reflexivity|].
  destruct (p x); [reflexivity|].
  replace (i + d + 1) with (i + 1 + d) by lia. apply IH.
Qed.

(** Searching a table of which one entry past the searched part is
    written. *)
Lemma take_insert_past {A} (l : list A) (n : nat) v :
  take n (<[n := v]> l) = take n l.
Proof. apply take_insert_ge. lia. Qed.

Lemma take_S_insert {A} (l : list A) (n : nat) v :
  (n < length l)%nat →
  take (S n) (<[n := v]> l) = take n l ++ [v].
Proof.
  intros H. rewrite (take_S_r _ _ v).
  - rewrite take_insert_past. reflexivity.
  - apply list_lookup_insert_eq. exact H.
Qed.

Lemma RegisterVariableName_unfold nm m :
  RegisterVariableName nm m =
    match find_first (λ v, String.eqb (name v) nm)
            (take (Z.to_nat (VariableAmount m)) (Variables m)) 0 with
    | Some i => Ok (i, m)
    | None =>
        match idx (Variables m) (VariableAmount m) with
        | Some old =>
            Ok (VariableAmount m,
                set_VariableAmount (VariableAmount m + 1)
                  (set_Variables
                     (<[Z.to_nat (VariableAmount m) :=
                          mkVar nm false (object old) (members old)]> (Variables m)) m))
        | None => Fail (Undefined "Variables index out of bounds")
        end
    end.
Proof.
  unfold RegisterVariableName. rewrite !bind_gets.
  destruct (find_first _ _ _); [reflexivity|].
  destruct (idx (Variables m) (VariableAmount m)) as [old|] eqn:E.
  - rewrite (bind_step _ _ _ _ _ (load_step _ _ _ _ _ E)).
    pose proof (idx_Some _ _ _ E) as Hi.
    rewrite (bind_step _ _ _ _ _ (store_step _ _ _ _ _ _ (upd_inside _ _ _ Hi))).
    reflexivity.
  - apply bind_Fail. unfold load. rewrite E. reflexivity.
Qed.

(** X5.  A global name has one slot.  When [RegisterVariableName]
    returns [i] for a name, slot [i] carries that name, registering
    the name again returns [i] and changes nothing, and registering
    any other name returns another slot.  A name seen for the first
    time takes the next free slot with its initialization flag
    cleared, and no other slot is touched.  There is no test against
    the size of the table: with all [MAX_VARS] slots taken, a new name
    is written past its end. *)
Theorem variable_names_registered_once :
  (∀ nm m i m1,
     RegisterVariableName nm m = Ok (i, m1) →
     0 ≤ i < VariableAmount m1 ∧
     name <$> idx (Variables m1) i = Some nm ∧
     RegisterVariableName nm m1 = Ok (i, m1) ∧
     (∀ nm' j m2, RegisterVariableName nm' m1 = Ok (j, m2) → j = i → nm' = nm) ∧
     (m1 = m ∨
      i = VariableAmount m ∧ VariableAmount m1 = VariableAmount m + 1 ∧
      initialized <$> idx (Variables m1) i = Some false ∧
      ∀ j, j ≠ i → idx (Variables m1) j = idx (Variables m) j)) ∧
  (∀ nm m,
     VariableAmount m = MAX_VARS →
     Z.of_nat (length (Variables m)) = MAX_VARS →
     (∀ v, v ∈ Variables m → name v ≠ nm) →
     RegisterVariableName nm m = Fail (Undefined "Variables index out of bounds")).
Proof.
  split.
  - intros nm m i m1 H.
    assert (0 ≤ i < VariableAmount m1 ∧
            name <$> idx (Variables m1) i = Some nm ∧
            find_first (λ v, String.eqb (name v) nm)
              (take (Z.to_nat (VariableAmount m1)) (Variables m1)) 0 = Some i ∧
            (m1 = m ∨
             i = VariableAmount m ∧ VariableAmount m1 = VariableAmount m + 1 ∧
             initialized <$> idx (Variables m1) i = Some false ∧
             ∀ j, j ≠ i → idx (Variables m1) j = idx (Variables m) j))
      as (Hi & Hname & Hfind & Hnew).
    { rewrite RegisterVariableName_unfold in H.
      destruct (find_first _ _ _) as [k|] eqn:Hf.
      - injection H as <- <-.
        pose proof (find_first_range _ _ _ _ Hf) as Hr.
        rewrite length_take in Hr.
        destruct (find_first_Some _ _ _ _ Hf) as (x & Hx & Hpx).
        rewrite Z.sub_0_r in Hx. apply lookup_take_Some in Hx as [Hx _].
        split; [lia|]. split; [|split; [exact Hf | left; reflexivity]].
        unfold idx. replace (0 <=? k) with true by lia. rewrite Hx. cbn.
        f_equal. apply String.eqb_eq, Hpx.
      - destruct (idx (Variables m) (VariableAmount m)) as [old|] eqn:E; [|discriminate].
        injection H as <- <-. pose proof (idx_Some _ _ _ E) as Hn. cbn.
        split; [lia|]. rewrite idx_insert by lia.
        split; [case_decide; [reflexivity | lia]|]. split.
        + replace (Z.to_nat (VariableAmount m + 1)) with (S (Z.to_nat (VariableAmount m)))
            by lia.
          rewrite take_S_insert by lia.
          rewrite (find_first_snoc _ _ _ _ Hf) by (cbn; apply String.eqb_refl).
          rewrite length_take. f_equal. lia.
        + right. split; [reflexivity|]. split; [reflexivity|].
          split; [case_decide; [reflexivity | lia]|].
          intros j Hj. rewrite idx_insert by lia. case_decide; [lia | reflexivity]. }
    split; [exact Hi|]. split; [exact Hname|]. split; [|split; [|exact Hnew]].
    + rewrite RegisterVariableName_unfold, Hfind. reflexivity.
    + intros nm' j m2 H2 ->. rewrite RegisterVariableName_unfold in H2.
      match type of H2 with context [find_first ?p ?l ?i] =>
        destruct (find_first p l i) as [k|] eqn:Hf
      end.
      * injection H2 as -> <-.
        destruct (find_first_Some _ _ _ _ Hf) as (x & Hx & Hpx).
        rewrite Z.sub_0_r in Hx. apply lookup_take_Some in Hx as [Hx _].
        unfold idx in Hname. replace (0 <=? i) with true in Hname by lia.
        rewrite Hx in Hname. cbn in Hname. injection Hname as <-.
        symmetry. apply String.eqb_eq, Hpx.
      * destruct (idx (Variables m1) (VariableAmount m1)); [|discriminate].
        injection H2 as E _. lia.
  - intros nm m Hn Hlen Hnew. rewrite RegisterVariableName_unfold.
    destruct (find_first _ _ _) as [k|] eqn:Hf.
    + destruct (find_first_Some _ _ _ _ Hf) as (x & Hx & Hpx).
      apply lookup_take_Some in Hx as [Hx _].
      apply String.eqb_eq in Hpx. exfalso. eapply Hnew; [|exact Hpx].
      eapply list_elem_of_lookup_2, Hx.
    + destruct (idx _ _) eqn:E; [|reflexivity]. apply idx_Some in E. lia.
Qed.

Lemma RegisterFunction_unfold nm m :
  RegisterFunction nm m =
    match find_first (String.eqb nm)
            (take (Z.to_nat (ForeignAmount m)) (ForeignFunctionNames m)) 0 with
    | Some i => Ok (- i - 1, m)
    | None =>
        match find_first (String.eqb nm)
                (take (Z.to_nat (FunctionAmount m)) (FunctionNames m)) 0 with
        | Some i => Ok (i, m)
        | None =>
            match upd (FunctionNames m) (FunctionAmount m) nm with
            | Some names =>
                Ok (FunctionAmount m,
                    set_FunctionAmount (FunctionAmount m + 1) (set_FunctionNames names m))
            | None => Fail (Undefined "FunctionNames index out of bounds")
            end
        end
    end.
Proof.
  unfold RegisterFunction. rewrite !bind_gets.
  destruct (find_first _ _ _); [reflexivity|]. rewrite !bind_gets.
  destruct (find_first _ _ _); [reflexivity|].
  destruct (upd _ _ _) as [names|] eqn:E.
  - rewrite (bind_step _ _ _ _ _ (store_step _ _ _ _ _ _ E)). reflexivity.
  - apply bind_Fail. unfold store. rewrite E. reflexivity.
Qed.

Lemma GetProcId_unfold nm m :
  GetProcId nm m =
    match find_first (String.eqb nm)
            (take (Z.to_nat (FunctionAmount m)) (FunctionNames m)) 0 with
    | Some i => Ok (i, m)
    | None => Ok (-1, m)
    end.
Proof.
  unfold GetProcId. rewrite !bind_gets. destruct (find_first _ _ _); reflexivity.
Qed.

Lemma find_first_take_Some (nm : string) names n k :
  find_first (String.eqb nm) (take n names) 0 = Some k →
  0 ≤ k < Z.of_nat n ∧ idx names k = Some nm.
Proof.
  intros Hf. pose proof (find_first_range _ _ _ _ Hf) as Hr.
  rewrite length_take in Hr.
  destruct (find_first_Some _ _ _ _ Hf) as (x & Hx & Hpx).
  rewrite Z.sub_0_r in Hx. apply lookup_take_Some in Hx as [Hx _].
  apply String.eqb_eq in Hpx. subst x.
  split; [lia|]. unfold idx. replace (0 <=? k) with true by lia. exact Hx.
Qed.

(** X6.  How a procedure name is resolved.  [RegisterFunction] looks
    among the bound host functions first and answers [-(slot + 1)]
    without registering anything; otherwise it answers the index of
    the user procedure of that name, which it appends when the name is
    new.  Whatever it answers, it answers again for the same name, and
    for a user procedure [GetProcId] gives the same index.
    [GetProcId] answers -1 for a name that no user procedure has.
    [BindForeignFunction] puts the callback in the next slot; a name
    bound for the first time resolves to that slot from then on. *)
Theorem procedure_names_resolve :
  (∀ nm m i m1,
     RegisterFunction nm m = Ok (i, m1) →
     RegisterFunction nm m1 = Ok (i, m1) ∧
     (i < 0 →
      m1 = m ∧ - i - 1 < ForeignAmount m ∧
      idx (ForeignFunctionNames m) (- i - 1) = Some nm) ∧
     (0 ≤ i →
      i < FunctionAmount m1 ∧ idx (FunctionNames m1) i = Some nm ∧
      GetProcId nm m1 = Ok (i, m1))) ∧
  (∀ nm m,
     (∀ x, x ∈ take (Z.to_nat (FunctionAmount m)) (FunctionNames m) → x ≠ nm) →
     GetProcId nm m = Ok (-1, m)) ∧
  (∀ callbacks callback nm m,
     0 ≤ ForeignAmount m < Z.of_nat (length (ForeignFunctionNames m)) →
     ForeignAmount m < Z.of_nat (length callbacks) →
     (∀ x, x ∈ take (Z.to_nat (ForeignAmount m)) (ForeignFunctionNames m) → x ≠ nm) →
     ∃ callbacks' m1,
       BindForeignFunction callbacks callback nm m = Ok (callbacks', m1) ∧
       idx callbacks' (ForeignAmount m) = Some callback ∧
       (∀ j, j ≠ ForeignAmount m → idx callbacks' j = idx callbacks j) ∧
       RegisterFunction nm m1 = Ok (- ForeignAmount m - 1, m1)).
Proof.
  split; [|split].
  - intros nm m i m1 H. rewrite RegisterFunction_unfold in H.
    destruct (find_first _ (take (Z.to_nat (ForeignAmount m)) _) _) as [k|] eqn:Hff.
    { injection H as <- <-. destruct (find_first_take_Some _ _ _ _ Hff) as [Hk Hnm].
      split; [rewrite RegisterFunction_unfold, Hff; reflexivity|].
      split; [|lia]. intros _. replace (- (- k - 1) - 1) with k by lia.
      split; [reflexivity|]. split; [lia | exact Hnm]. }
    destruct (find_first _ (take (Z.to_nat (FunctionAmount m)) _) _) as [k|] eqn:Hf.
    { injection H as <- <-. destruct (find_first_take_Some _ _ _ _ Hf) as [Hk Hnm].
      split; [rewrite RegisterFunction_unfold, Hff, Hf; reflexivity|].
      split; [lia|]. intros _. split; [lia|]. split; [exact Hnm|].
      rewrite GetProcId_unfold, Hf. reflexivity. }
    destruct (upd _ _ _) as [names|] eqn:E; [|discriminate].
    injection H as <- <-. apply upd_Some in E as [Hn ->].
    assert (find_first (String.eqb nm)
              (take (Z.to_nat (FunctionAmount m + 1))
                 (<[Z.to_nat (FunctionAmount m) := nm]> (FunctionNames m))) 0
            = Some (FunctionAmount m)) as Hf'.
    { replace (Z.to_nat (FunctionAmount m + 1)) with (S (Z.to_nat (FunctionAmount m)))
        by lia.
      rewrite take_S_insert by lia.
      rewrite (find_first_snoc _ _ _ _ Hf) by apply String.eqb_refl.
      rewrite length_take. f_equal. lia. }
    split; [|split; [lia|]].
    + rewrite RegisterFunction_unfold. cbn. rewrite Hff, Hf'. reflexivity.
    + intros _. cbn. split; [lia|]. split.
      * rewrite idx_insert by lia. case_decide; [reflexivity | lia].
      * rewrite GetProcId_unfold. cbn. rewrite Hf'. reflexivity.
  - intros nm m Hnew. rewrite GetProcId_unfold.
    destruct (find_first _ _ _) as [k|] eqn:Hf; [|reflexivity].
    destruct (find_first_Some _ _ _ _ Hf) as (x & Hx & Hpx).
    apply String.eqb_eq in Hpx. exfalso. apply (Hnew x); [|congruence].
    eapply list_elem_of_lookup_2, Hx.
  - intros callbacks callback nm m Hn Hcb Hnew.
    unfold BindForeignFunction. rewrite !bind_gets.
    rewrite (bind_step _ _ _ _ _ (store_step _ _ _ _ _ _ (upd_inside _ _ _ Hn))).
    rewrite bind_modify.
    assert (0 ≤ ForeignAmount m < Z.of_nat (length callbacks)) as Hcb' by lia.
    rewrite (bind_step _ _ _ _ _
               (store_step _ _ _ _ _ _ (upd_inside callbacks _ callback Hcb'))).
    rewrite bind_modify. eexists _, _. split; [reflexivity|].
    split; [rewrite idx_insert by lia; case_decide; [reflexivity | lia]|].
    split; [intros j Hj; rewrite idx_insert by lia; case_decide; [lia | reflexivity]|].
    rewrite RegisterFunction_unfold. cbn.
    replace (Z.to_nat (ForeignAmount m + 1)) with (S (Z.to_nat (ForeignAmount m))) by lia.
    rewrite take_S_insert by lia.
    assert (find_first (String.eqb nm)
              (take (Z.to_nat (ForeignAmount m)) (ForeignFunctionNames m)) 0 = None) as Hf.
    { destruct (find_first _ _ _) as [k|] eqn:Hf; [|reflexivity].
      destruct (find_first_Some _ _ _ _ Hf) as (x & Hx & Hpx).
      apply String.eqb_eq in Hpx. exfalso. apply (Hnew x); [|congruence].
      eapply list_elem_of_lookup_2, Hx. }
    rewrite (find_first_snoc _ _ _ _ Hf) by apply String.eqb_refl.
    rewrite length_take. do 2 f_equal. lia.
Qed.

Lemma ReferenceLocal_unfold nm m :
  ReferenceLocal nm m =
    match List.find (λ d, String.eqb (local_name d) nm && (scope d <=? CurrScope m))
            (LocalDeclarations m) with
    | Some d => Ok (index d, m)
    | None => Fail (Fatal "Attempted to reference non-existent local variable")
    end.
Proof.
  unfold ReferenceLocal. rewrite !bind_gets. destruct (List.find _ _); reflexivity.
Qed.

(** X7.  How the name of a local is resolved.  [DeclareLocal] numbers
    the locals of a procedure from 0 in the order of their
    declarations, and [DeclareArgument] gives the [k]-th of [nargs]
    parameters the index [k - nargs], below the frame.  A reference
    finds the latest declaration of the name: right after its
    declaration a name resolves to the index just given, and every
    other name resolves as before.  A declaration made in a deeper
    scope is not seen from a shallower one.  After [ClearLocals] no
    name resolves: a reference is a fatal error. *)
Theorem locals_resolve_to_latest_declaration :
  (∀ nm m,
     ∃ m1, DeclareLocal nm m = Ok (CurrNumLocals m, m1) ∧
           CurrNumLocals m1 = CurrNumLocals m + 1 ∧
           ReferenceLocal nm m1 = Ok (CurrNumLocals m, m1) ∧
           (∀ other i, other ≠ nm →
              ReferenceLocal other m1 = Ok (i, m1) ↔ ReferenceLocal other m = Ok (i, m)) ∧
           (∀ s i, s < CurrScope m →
              ReferenceLocal nm (set_CurrScope s m1) = Ok (i, set_CurrScope s m1) ↔
              ReferenceLocal nm (set_CurrScope s m) = Ok (i, set_CurrScope s m))) ∧
  (∀ nm nargs m,
     ∃ m1, DeclareArgument nm nargs m = Ok (NumArgsDeclared m - nargs, m1) ∧
           NumArgsDeclared m1 = NumArgsDeclared m + 1 ∧
           CurrNumLocals m1 = CurrNumLocals m ∧
           ReferenceLocal nm m1 = Ok (NumArgsDeclared m - nargs, m1)) ∧
  (∀ nm m,
     ∃ m1, ClearLocals m = Ok (tt, m1) ∧
           CurrNumLocals m1 = 0 ∧
           ReferenceLocal nm m1
             = Fail (Fatal "Attempted to reference non-existent local variable")).
Proof.
  split; [|split].
  - intros nm m. eexists. split; [reflexivity|]. split; [reflexivity|].
    split; [|split].
    + rewrite ReferenceLocal_unfold. cbn.
      rewrite String.eqb_refl, Z.leb_refl. reflexivity.
    + intros other i Hne. rewrite !ReferenceLocal_unfold. cbn.
      replace (String.eqb nm other) with false
        by (symmetry; apply String.eqb_neq; congruence).
      cbn. destruct (List.find _ _); split; intros H; try discriminate H;
        injection H as <-; reflexivity.
    + intros s i Hs. rewrite !ReferenceLocal_unfold. cbn.
      replace (CurrScope m <=? s) with false by lia. rewrite andb_false_r.
      destruct (List.find _ _); split; intros H; try discriminate H;
        injection H as <-; reflexivity.
  - intros nm nargs m. eexists. split.
    + unfold DeclareArgument. rewrite !bind_gets, bind_modify, bind_gets, bind_modify.
      unfold ret. do 2 f_equal. cbn. lia.
    + cbn. split; [reflexivity|]. split; [reflexivity|].
      rewrite ReferenceLocal_unfold. cbn.
      rewrite String.eqb_refl, Z.leb_refl. cbn. do 2 f_equal. lia.
  - intros nm m. eexists. split; [reflexivity|]. split; [reflexivity|].
    rewrite ReferenceLocal_unfold. reflexivity.
Qed.

(** * The loop of the machine *)

Lemma cycles_unfold ff steps fuel m :
  cycles ff steps fuel m =
    if (ProgramCounter m <? ProgramLength m) && (0 <=? ProgramCounter m) then
      match steps with
      | O => Fail (OutOfFuel "RunMachine")
      | S steps' => (ExecuteCycle ff fuel ;; cycles ff steps' fuel) m
      end
    else Ok (tt, m).
Proof. destruct steps; cbn [cycles]; rewrite !bind_gets; destruct (_ && _); reflexivity. Qed.

(** X8.  When the loop of [RunMachine] ends.  It runs no cycle once
    the program counter is outside the program, which is where [HALT]
    puts it: a cycle on [HALT] sets the program counter to -1 and the
    loop returns.  A byte that is no instruction is not an error:
    [ExecuteCycle] does nothing at all on it, the program counter
    stays where it is, and the loop never ends. *)
Theorem machine_loop_ends_on_halt_only :
  (∀ ff steps fuel m,
     ¬ (0 ≤ ProgramCounter m < ProgramLength m) →
     cycles ff steps fuel m = Ok (tt, m)) ∧
  (∀ ff steps fuel m,
     0 ≤ ProgramCounter m < ProgramLength m →
     instruction_at m = Some OP_HALT →
     ExecuteCycle ff fuel m = Ok (tt, set_ProgramCounter (-1) m) ∧
     cycles ff (S steps) fuel m = Ok (tt, set_ProgramCounter (-1) m)) ∧
  (∀ ff fuel m w,
     0 ≤ ProgramCounter m < ProgramLength m →
     idx (Program m) (ProgramCounter m) = Some w →
     decode w = None →
     ExecuteCycle ff fuel m = Ok (tt, m) ∧
     ∀ steps, cycles ff steps fuel m = Fail (OutOfFuel "RunMachine")).
Proof.
  split; [|split].
  - intros ff steps fuel m Hpc. rewrite cycles_unfold.
    replace ((ProgramCounter m <? ProgramLength m) && (0 <=? ProgramCounter m))
      with false by lia.
    reflexivity.
  - intros ff steps fuel m Hpc Hop.
    assert (ExecuteCycle ff fuel m = Ok (tt, set_ProgramCounter (-1) m)) as E
      by (rewrite (ExecuteCycle_at _ _ _ _ Hop); reflexivity).
    split; [exact E|]. rewrite cycles_unfold.
    replace ((ProgramCounter m <? ProgramLength m) && (0 <=? ProgramCounter m))
      with true by lia.
    rewrite (bind_step _ _ _ _ _ E). rewrite cycles_unfold.
    cbn [ProgramCounter set_ProgramCounter]. rewrite andb_false_r. reflexivity.
  - intros ff fuel m w Hpc Hw Hdec.
    assert (ExecuteCycle ff fuel m = Ok (tt, m)) as E.
    { unfold ExecuteCycle. rewrite !bind_gets.
      rewrite (bind_step _ _ _ _ _ (load_step _ _ _ _ _ Hw)). rewrite Hdec. reflexivity. }
    split; [exact E|]. intros steps. induction steps as [|steps IH];
      rewrite cycles_unfold;
      replace ((ProgramCounter m <? ProgramLength m) && (0 <=? ProgramCounter m))
        with true by lia; [reflexivity|].
    rewrite (bind_step _ _ _ _ _ E). exact IH.
Qed.

(** * Single instructions, forward *)

(** Reading the operand of an instruction: the opcode is stepped over
    and the immediate after it is read. *)
Lemma operand_step {B} (k : Z → M B) m i :
  immediate_at m (ProgramCounter m + 1) = Some i →
  (next_pc ;; let* x := ReadInteger in k x) m
  = k i (set_ProgramCounter (ProgramCounter m + 5) m).
Proof.
  intros Hi. unfold next_pc. rewrite bind_modify.
  rewrite (bind_step _ _ _ _ _
             (ReadInteger_step (set_ProgramCounter (ProgramCounter m + 1) m) i Hi)).
  f_equal. machine_eq.
Qed.

(** X9.  A global is stored and loaded through its slot.  [SET i] pops
    the top of the stack into slot [i], leaves the other slots alone
    and raises [RuntimeVariableAmount] to cover the slot, which makes
    it a root of the collector; [GET i] pushes what the slot holds,
    which is the null pointer for a slot never stored to. *)
Theorem global_store_and_load :
  (∀ ff fuel m i v,
     instruction_at m = Some OP_SET →
     immediate_at m (ProgramCounter m + 1) = Some i →
     0 ≤ i < MAX_VARS →
     Z.of_nat (length (Variables m)) = MAX_VARS →
     0 < StackSize m →
     idx (Stack m) (StackSize m - 1) = Some v →
     ∃ m1, ExecuteCycle ff fuel m = Ok (tt, m1) ∧
           ProgramCounter m1 = ProgramCounter m + 5 ∧
           StackSize m1 = StackSize m - 1 ∧
           object <$> idx (Variables m1) i = Some v ∧
           (∀ j, j ≠ i → idx (Variables m1) j = idx (Variables m) j) ∧
           RuntimeVariableAmount m1 = Z.max (RuntimeVariableAmount m) (i + 1) ∧
           heap m1 = heap m) ∧
  (∀ ff fuel m i slot,
     instruction_at m = Some OP_GET →
     immediate_at m (ProgramCounter m + 1) = Some i →
     idx (Variables m) i = Some slot →
     0 ≤ StackSize m < MAX_STACK →
     Z.of_nat (length (Stack m)) = MAX_STACK →
     ∃ m1, ExecuteCycle ff fuel m = Ok (tt, m1) ∧
           ProgramCounter m1 = ProgramCounter m + 5 ∧
           StackSize m1 = StackSize m + 1 ∧
           idx (Stack m1) (StackSize m) = Some (object slot) ∧
           Variables m1 = Variables m).
Proof.
  split.
  - intros ff fuel m i v Hop Hi Hrange Hlen Hn Hv.
    rewrite (ExecuteCycle_at _ _ _ _ Hop). unfold execute.
    rewrite (operand_step _ _ _ Hi). rewrite bind_gets.
    assert (int_result (i + 1) (set_ProgramCounter (ProgramCounter m + 5) m)
            = Ok (i + 1, set_ProgramCounter (ProgramCounter m + 5) m)) as Hint.
    { unfold int_result, INT_MIN, INT_MAX. unfold MAX_VARS in Hrange.
      replace ((-2147483648 <=? i + 1) && (i + 1 <=? 2147483647)) with true by lia.
      reflexivity. }
    rewrite (bind_step _ _ _ _ _ Hint).
    set (m0 := set_ProgramCounter (ProgramCounter m + 5) m).
    set (rva := Z.max (RuntimeVariableAmount m) (i + 1)).
    assert ((if RuntimeVariableAmount m0 <? i + 1
             then modify (set_RuntimeVariableAmount (i + 1)) else ret tt) m0
            = Ok (tt, set_RuntimeVariableAmount rva m0)) as Hrva.
    { subst m0 rva. cbn [RuntimeVariableAmount set_ProgramCounter].
      destruct (Z.ltb_spec (RuntimeVariableAmount m) (i + 1)).
      - rewrite Z.max_r by lia. reflexivity.
      - rewrite Z.max_l by lia. reflexivity. }
    rewrite (bind_step _ _ _ _ _ Hrva).
    set (m1 := set_RuntimeVariableAmount rva m0).
    rewrite (bind_step _ _ _ _ _ (DoPop_step m1 v Hn Hv)). rewrite bind_gets.
    destruct (idx (Variables m) i) as [old|] eqn:Hold.
    2:{ unfold idx in Hold. replace (0 <=? i) with true in Hold by lia.
        apply lookup_ge_None in Hold. lia. }
    rewrite (bind_step _ _ _ _ _ (load_step _ _ _ _ _ Hold)).
    assert (0 ≤ i < Z.of_nat (length (Variables m))) as Hi' by lia.
    rewrite (bind_step _ _ _ _ _ (store_step _ _ _ _ _ _ (upd_inside _ _ _ Hi'))).
    eexists. split; [reflexivity|]. cbn.
    split; [reflexivity|]. split; [reflexivity|].
    split; [rewrite idx_insert by lia; case_decide; [reflexivity | lia]|].
    split; [|split; reflexivity].
    intros j Hj. rewrite idx_insert by lia. case_decide; [lia | reflexivity].
  - intros ff fuel m i slot Hop Hi Hslot Hn Hlen.
    rewrite (ExecuteCycle_at _ _ _ _ Hop). unfold execute.
    rewrite (operand_step _ _ _ Hi). rewrite bind_gets.
    rewrite (bind_step _ _ _ _ _ (load_step _ _ _ _ _ Hslot)).
    rewrite DoPush_step by assumption.
    eexists. split; [reflexivity|]. cbn.
    split; [reflexivity|]. split; [reflexivity|]. split; [|reflexivity].
    rewrite idx_insert by lia. case_decide; [reflexivity | lia].
Qed.

Lemma int_result_step z m :
  INT_MIN ≤ z ≤ INT_MAX → int_result z m = Ok (z, m).
Proof.
  intros H. unfold int_result.
  replace ((INT_MIN <=? z) && (z <=? INT_MAX)) with true by lia. reflexivity.
Qed.

Lemma GETLOCAL_step ff fuel m k v :
  instruction_at m = Some OP_GETLOCAL →
  immediate_at m (ProgramCounter m + 1) = Some k →
  idx (Stack m) (FramePointer m + k) = Some v →
  0 ≤ StackSize m < MAX_STACK →
  Z.of_nat (length (Stack m)) = MAX_STACK →
  ExecuteCycle ff fuel m =
    Ok (tt, set_StackSize (StackSize m + 1)
              (set_Stack (<[Z.to_nat (StackSize m) := v]> (Stack m))
                 (set_ProgramCounter (ProgramCounter m + 5) m))).
Proof.
  intros Hop Hi Hv Hn Hlen.
  rewrite (ExecuteCycle_at _ _ _ _ Hop). unfold execute.
  rewrite (operand_step _ _ _ Hi). rewrite bind_gets.
  pose proof (idx_Some _ _ _ Hv) as Hr.
  rewrite (bind_step _ _ _ _ _ (int_result_step (FramePointer m + k) _
             ltac:(unfold INT_MIN, INT_MAX; unfold MAX_STACK in Hlen; cbn; lia))).
  rewrite bind_gets.
  rewrite (bind_step _ _ _ _ _ (load_step _ _ _ _ _ Hv)).
  rewrite DoPush_step by assumption. reflexivity.
Qed.

(** X10.  Locals and arguments live in the operand stack, addressed
    from the frame pointer.  [SETLOCAL k] pops the top of the stack
    into slot [FramePointer + k] and [GETLOCAL k] pushes what that
    slot holds; neither compares the slot with the stack size.  A call
    sets the frame pointer to the stack size at the call, so that in
    the callee [GETLOCAL (j - nargs)] pushes the [j]-th of the [nargs]
    values pushed last before the call. *)
Theorem frame_slots_hold_locals_and_arguments :
  (∀ ff fuel m k v,
     instruction_at m = Some OP_SETLOCAL →
     immediate_at m (ProgramCounter m + 1) = Some k →
     0 < StackSize m →
     idx (Stack m) (StackSize m - 1) = Some v →
     0 ≤ FramePointer m + k < Z.of_nat (length (Stack m)) →
     Z.of_nat (length (Stack m)) = MAX_STACK →
     ∃ m1, ExecuteCycle ff fuel m = Ok (tt, m1) ∧
           ProgramCounter m1 = ProgramCounter m + 5 ∧
           StackSize m1 = StackSize m - 1 ∧
           FramePointer m1 = FramePointer m ∧
           idx (Stack m1) (FramePointer m + k) = Some v ∧
           (∀ j, j ≠ FramePointer m + k → idx (Stack m1) j = idx (Stack m) j)) ∧
  (∀ ff fuel m k v,
     instruction_at m = Some OP_GETLOCAL →
     immediate_at m (ProgramCounter m + 1) = Some k →
     idx (Stack m) (FramePointer m + k) = Some v →
     0 ≤ StackSize m < MAX_STACK →
     Z.of_nat (length (Stack m)) = MAX_STACK →
     ∃ m1, ExecuteCycle ff fuel m = Ok (tt, m1) ∧
           ProgramCounter m1 = ProgramCounter m + 5 ∧
           StackSize m1 = StackSize m + 1 ∧
           idx (Stack m1) (StackSize m) = Some v) ∧
  (∀ ff fuel m nargs ma entry j v,
     DoPushIndir nargs m = Ok (tt, ma) →
     instruction_at (set_ProgramCounter entry ma) = Some OP_GETLOCAL →
     immediate_at ma (entry + 1) = Some (j - nargs) →
     idx (Stack m) (StackSize m - nargs + j) = Some v →
     0 ≤ StackSize m < MAX_STACK →
     Z.of_nat (length (Stack m)) = MAX_STACK →
     ∃ m1, ExecuteCycle ff fuel (set_ProgramCounter entry ma) = Ok (tt, m1) ∧
           StackSize m1 = StackSize m + 1 ∧
           idx (Stack m1) (StackSize m) = Some v).
Proof.
  split; [|split].
  - intros ff fuel m k v Hop Hi Hn Hv Hslot Hlen.
    rewrite (ExecuteCycle_at _ _ _ _ Hop). unfold execute.
    rewrite (operand_step _ _ _ Hi).
    set (m0 := set_ProgramCounter (ProgramCounter m + 5) m).
    rewrite (bind_step _ _ _ _ _ (DoPop_step m0 v Hn Hv)). rewrite bind_gets.
    rewrite (bind_step _ _ _ _ _ (int_result_step (FramePointer m + k) _
               ltac:(unfold INT_MIN, INT_MAX; unfold MAX_STACK in Hlen; lia))).
    rewrite bind_gets.
    rewrite (bind_step _ _ _ _ _ (store_step _ _ _ _ _ _ (upd_inside _ _ _ Hslot))).
    eexists. split; [reflexivity|]. cbn.
    split; [reflexivity|]. split; [reflexivity|]. split; [reflexivity|].
    split; [rewrite idx_insert by lia; case_decide; [reflexivity | lia]|].
    intros j Hj. rewrite idx_insert by lia. case_decide; [lia | reflexivity].
  - intros ff fuel m k v Hop Hi Hv Hn Hlen.
    eexists. split; [apply (GETLOCAL_step _ _ _ k v); assumption|]. cbn.
    split; [reflexivity|]. split; [reflexivity|].
    rewrite idx_insert by lia. case_decide; [reflexivity | lia].
  - intros ff fuel m nargs ma entry j v Hpush Hop Hi Hv Hn Hlen.
    apply DoPushIndir_Ok in Hpush as (l1 & l2 & l3 & _ & _ & _ & ->).
    eexists. split.
    + apply (GETLOCAL_step _ _ _ (j - nargs) v); cbn; try assumption.
      rewrite <- Hv. f_equal. lia.
    + cbn. split; [reflexivity|].
      rewrite idx_insert by lia. case_decide; [reflexivity | lia].
Qed.

(** * Arithmetic instructions *)

Lemma allocate_step t m :
  INT_MIN ≤ NumObjects m + 1 ≤ INT_MAX →
  allocate t m =
    Ok (next_addr m,
        set_NumObjects (NumObjects m + 1)
          (set_GCHead (next_addr m :: GCHead m)
             (set_next_addr (Pos.succ (next_addr m))
                (set_heap (<[next_addr m := mkObject false (blank t)]> (heap m)) m)))).
Proof.
  intros H. unfold allocate. rewrite bind_gets, !bind_modify, bind_gets.
  rewrite (bind_step _ _ _ _ _ (int_result_step _ _ H)). reflexivity.
Qed.

Lemma NewObject_step fuel t m :
  NumObjects m < MaxNumObjects m →
  INT_MIN ≤ NumObjects m + 1 ≤ INT_MAX →
  NewObject fuel t m =
    Ok (next_addr m,
        set_NumObjects (NumObjects m + 1)
          (set_GCHead (next_addr m :: GCHead m)
             (set_next_addr (Pos.succ (next_addr m))
                (set_heap (<[next_addr m := mkObject false (blank t)]> (heap m)) m)))).
Proof.
  intros Hn H. unfold NewObject. rewrite !bind_gets.
  replace (MaxNumObjects m <=? NumObjects m) with false by lia.
  rewrite bind_ret. apply allocate_step, H.
Qed.

Lemma pop_two m a1 a2 o1 o2 :
  two_operands m a1 a2 o1 o2 →
  DoPop m = Ok (Some a2, set_StackSize (StackSize m - 1) m) ∧
  DoPop (set_StackSize (StackSize m - 1) m)
    = Ok (Some a1, set_StackSize (StackSize m - 2) m).
Proof.
  intros (Hn & H1 & H2 & _). split.
  - apply DoPop_step; [lia | exact H2].
  - rewrite (DoPop_step (set_StackSize (StackSize m - 1) m) (Some a1)).
    + do 2 f_equal. machine_eq.
    + cbn. lia.
    + cbn. replace (StackSize m - 1 - 1) with (StackSize m - 2) by lia. exact H1.
Qed.

Lemma BIN_OP_step fuel f m a1 a2 o1 o2 d1 d2 :
  two_operands m a1 a2 o1 o2 →
  val o1 = Num d1 → val o2 = Num d2 →
  allocates_directly m →
  Z.of_nat (length (Stack m)) = MAX_STACK →
  ∃ m1, BIN_OP fuel f m = Ok (tt, m1) ∧
        ProgramCounter m1 = ProgramCounter m + 1 ∧
        StackSize m1 = StackSize m - 1 ∧
        idx (Stack m1) (StackSize m - 2) = Some (Some (next_addr m)) ∧
        heap m1 = <[next_addr m := mkObject false (Num (f d1 d2))]> (heap m).
Proof.
  intros Hops Hv1 Hv2 (Hn & Hmax & Hfresh) Hlen.
  destruct (pop_two _ _ _ _ _ Hops) as [P2 P1].
  destruct Hops as (Hs & _ & Htop & Ho1 & Ho2).
  apply idx_Some in Htop.
  assert (a1 ≠ next_addr m) as N1 by congruence.
  assert (a2 ≠ next_addr m) as N2 by congruence.
  eexists. split.
  { unfold BIN_OP.
    rewrite (bind_step _ _ _ _ _ P2), (bind_step _ _ _ _ _ P1).
    set (m0 := set_StackSize (StackSize m - 2) m).
    assert (NewObject fuel OBJ_NUM m0 = Ok (next_addr m, _)) as E
      by (apply (NewObject_step fuel OBJ_NUM m0); unfold INT_MIN; cbn; lia).
    rewrite (bind_step _ _ _ _ _ E). clear E.
    match goal with |- bind _ _ ?s = _ => set (m1 := s) end.
    assert (heap m1 !! a1 = Some o1) as Ho1'
      by (subst m1 m0; cbn; rewrite lookup_insert_ne by congruence; exact Ho1).
    assert (heap m1 !! a2 = Some o2) as Ho2'
      by (subst m1 m0; cbn; rewrite lookup_insert_ne by congruence; exact Ho2).
    rewrite (bind_step _ _ _ _ _ (number_of_step m1 a1 o1 d1 Ho1' Hv1)).
    rewrite (bind_step _ _ _ _ _ (number_of_step m1 a2 o2 d2 Ho2' Hv2)).
    unfold set_val. rewrite bind_modify.
    match goal with |- bind _ _ ?s = _ => set (m2 := s) end.
    assert (DoPush (Some (next_addr m)) m2 = Ok (tt, _)) as E
      by (apply (DoPush_step m2); subst m2 m1 m0; cbn; [lia | exact Hlen]).
    rewrite (bind_step _ _ _ _ _ E). clear E.
    unfold next_pc. subst m2 m1 m0. reflexivity. }
  cbn. split; [reflexivity|]. split; [lia|]. split.
  - rewrite idx_insert by lia. case_decide; [reflexivity | lia].
  - apply map_eq. intros a. destruct (decide (a = next_addr m)) as [->|Ha].
    + rewrite lookup_alter_eq, !lookup_insert_eq. reflexivity.
    + rewrite lookup_alter_ne by congruence. rewrite !lookup_insert_ne by congruence.
      reflexivity.
Qed.

Lemma BIN_OP_INT_run fuel (g : Z → Z → M Z) m a1 a2 o1 o2 d1 d2 i1 i2 :
  two_operands m a1 a2 o1 o2 →
  val o1 = Num d1 → val o2 = Num d2 →
  int_of_double d1 = Some i1 → int_of_double d2 = Some i2 →
  allocates_directly m →
  ∃ m1,
    heap m1 = <[next_addr m := mkObject false (Num dzero)]> (heap m) ∧
    StackSize m1 = StackSize m - 2 ∧
    Stack m1 = Stack m ∧
    ProgramCounter m1 = ProgramCounter m ∧
    BIN_OP_INT fuel g m =
      (let* r := g i1 i2 in
       set_val (next_addr m) (Num (double_of_int r)) ;;
       DoPush (Some (next_addr m)) ;;
       next_pc) m1.
Proof.
  intros Hops Hv1 Hv2 Hi1 Hi2 (Hn & Hmax & Hfresh).
  destruct (pop_two _ _ _ _ _ Hops) as [P2 P1].
  destruct Hops as (Hs & _ & Htop & Ho1 & Ho2).
  assert (a1 ≠ next_addr m) as N1 by congruence.
  assert (a2 ≠ next_addr m) as N2 by congruence.
  eexists. split; [|split; [|split; [|split]]]; cycle 4.
  { unfold BIN_OP_INT.
    rewrite (bind_step _ _ _ _ _ P2), (bind_step _ _ _ _ _ P1).
    set (m0 := set_StackSize (StackSize m - 2) m).
    assert (NewObject fuel OBJ_NUM m0 = Ok (next_addr m, _)) as E
      by (apply (NewObject_step fuel OBJ_NUM m0); unfold INT_MIN; cbn; lia).
    rewrite (bind_step _ _ _ _ _ E). clear E.
    match goal with |- bind _ _ ?s = _ => set (m1 := s) end.
    assert (heap m1 !! a1 = Some o1) as Ho1'
      by (subst m1 m0; cbn; rewrite lookup_insert_ne by congruence; exact Ho1).
    assert (heap m1 !! a2 = Some o2) as Ho2'
      by (subst m1 m0; cbn; rewrite lookup_insert_ne by congruence; exact Ho2).
    rewrite (bind_step _ _ _ _ _ (int_of_step m1 a1 o1 d1 i1 Ho1' Hv1 Hi1)).
    rewrite (bind_step _ _ _ _ _ (int_of_step m1 a2 o2 d2 i2 Ho2' Hv2 Hi2)).
    subst m1 m0. reflexivity. }
  all: reflexivity.
Qed.

Lemma int_mod_step a b :
  b ≠ 0 → ¬ (a = INT_MIN ∧ b = -1) → int_mod a b = ret (Z.rem a b).
Proof.
  intros Hb Hab. unfold int_mod.
  replace (b =? 0) with false by lia.
  replace ((a =? INT_MIN) && (b =? -1)) with false by lia.
  reflexivity.
Qed.

(** X11.  What the arithmetic instructions compute when their
    allocation triggers no collection.  The operand pushed first is
    the left one.  [ADD], [SUB], [MUL] and [DIV] push a new number
    holding the IEEE result, the comparisons one holding 1 or 0.
    [MOD], [OR] and [AND] convert both operands to [int] first,
    truncating toward zero, and push the [int] result as a number;
    [MOD] takes the sign of its left operand.  [MOD] by zero is not
    diagnosed: the machine divides. *)
Theorem arithmetic_instructions_compute :
  (∀ ff fuel m op f a1 a2 o1 o2 d1 d2,
     instruction_at m = Some op →
     float_operator op = Some f →
     two_operands m a1 a2 o1 o2 →
     val o1 = Num d1 → val o2 = Num d2 →
     allocates_directly m →
     Z.of_nat (length (Stack m)) = MAX_STACK →
     ∃ m1, ExecuteCycle ff fuel m = Ok (tt, m1) ∧
           ProgramCounter m1 = ProgramCounter m + 1 ∧
           StackSize m1 = StackSize m - 1 ∧
           idx (Stack m1) (StackSize m - 2) = Some (Some (next_addr m)) ∧
           heap m1 = <[next_addr m := mkObject false (Num (f d1 d2))]> (heap m)) ∧
  (∀ ff fuel m op g a1 a2 o1 o2 d1 d2 i1 i2 r,
     instruction_at m = Some op →
     int_operator op = Some g →
     two_operands m a1 a2 o1 o2 →
     val o1 = Num d1 → val o2 = Num d2 →
     int_of_double d1 = Some i1 → int_of_double d2 = Some i2 →
     g i1 i2 = ret r →
     allocates_directly m →
     Z.of_nat (length (Stack m)) = MAX_STACK →
     ∃ m1, ExecuteCycle ff fuel m = Ok (tt, m1) ∧
           ProgramCounter m1 = ProgramCounter m + 1 ∧
           StackSize m1 = StackSize m - 1 ∧
           idx (Stack m1) (StackSize m - 2) = Some (Some (next_addr m)) ∧
           heap m1 = <[next_addr m := mkObject false (Num (double_of_int r))]> (heap m)) ∧
  (∀ a b, int_or a b = ret (Z.lor a b) ∧ int_and a b = ret (Z.land a b) ∧
          (b ≠ 0 → ¬ (a = INT_MIN ∧ b = -1) → int_mod a b = ret (Z.rem a b))) ∧
  (∀ ff fuel m a1 a2 o1 o2 d1 d2 i1,
     instruction_at m = Some OP_MOD →
     two_operands m a1 a2 o1 o2 →
     val o1 = Num d1 → val o2 = Num d2 →
     int_of_double d1 = Some i1 → int_of_double d2 = Some 0 →
     allocates_directly m →
     ExecuteCycle ff fuel m = Fail (Undefined "remainder by zero")).
Proof.
  split; [|split; [|split]].
  - intros ff fuel m op f a1 a2 o1 o2 d1 d2 Hop Hf Hops Hv1 Hv2 Halloc Hlen.
    rewrite (ExecuteCycle_at _ _ _ _ Hop).
    assert (execute ff fuel (Some op) m = BIN_OP fuel f m) as ->
      by (destruct op; try discriminate Hf; injection Hf as <-; reflexivity).
    apply (BIN_OP_step fuel f m a1 a2 o1 o2 d1 d2); assumption.
  - intros ff fuel m op g a1 a2 o1 o2 d1 d2 i1 i2 r Hop Hg Hops Hv1 Hv2 Hi1 Hi2 Hr
      Halloc Hlen.
    rewrite (ExecuteCycle_at _ _ _ _ Hop).
    destruct (BIN_OP_INT_run fuel g m a1 a2 o1 o2 d1 d2 i1 i2
                Hops Hv1 Hv2 Hi1 Hi2 Halloc) as (m1 & Hh & Hs & Hst & Hpc & E).
    assert (execute ff fuel (Some op) m = BIN_OP_INT fuel g m) as ->
      by (destruct op; try discriminate Hg; injection Hg as <-; reflexivity).
    rewrite E, Hr, bind_ret. unfold set_val. rewrite bind_modify.
    destruct Hops as (Hn & _ & Htop & _). apply idx_Some in Htop.
    match goal with |- context [bind _ _ ?s] => set (m2 := s) end.
    assert (DoPush (Some (next_addr m)) m2 = Ok (tt, _)) as P
      by (apply (DoPush_step m2); subst m2; cbn; rewrite ?Hs, ?Hst; [lia | exact Hlen]).
    rewrite (bind_step _ _ _ _ _ P). clear P. unfold next_pc.
    eexists. split; [reflexivity|]. subst m2. cbn. rewrite Hpc, Hs, Hst, Hh.
    split; [reflexivity|]. split; [lia|]. split.
    + rewrite idx_insert by lia. case_decide; [reflexivity | lia].
    + apply map_eq. intros a. destruct (decide (a = next_addr m)) as [->|Ha].
      * rewrite lookup_alter_eq, !lookup_insert_eq. reflexivity.
      * rewrite lookup_alter_ne by congruence. rewrite !lookup_insert_ne by congruence.
        reflexivity.
  - intros a b. split; [reflexivity|]. split; [reflexivity|]. apply int_mod_step.
  - intros ff fuel m a1 a2 o1 o2 d1 d2 i1 Hop Hops Hv1 Hv2 Hi1 Hi2 Halloc.
    rewrite (ExecuteCycle_at _ _ _ _ Hop).
    destruct (BIN_OP_INT_run fuel int_mod m a1 a2 o1 o2 d1 d2 i1 0
                Hops Hv1 Hv2 Hi1 Hi2 Halloc) as (m1 & _ & _ & _ & _ & E).
    cbn [execute]. rewrite E. reflexivity.
Qed.

(** * Arrays *)

Lemma pop_array_and_index {B} (k : Z → ptr → M B) m top arr values i :
  array_and_index m top arr values i →
  StackSize m = top → 1 < top →
  (let* ip := DoPop in
   let* index := int_of ip in
   let* obj := DoPop in
   k index obj) m = k i (Some arr) (set_StackSize (top - 2) m).
Proof.
  intros (ip & io & d & ao & Hip & Hio & Hd & Hi & Harr & _) Htop Hn. subst top.
  rewrite (bind_step _ _ _ _ _ (DoPop_step m (Some ip) ltac:(lia) Hip)).
  set (m1 := set_StackSize (StackSize m - 1) m).
  rewrite (bind_step _ _ _ _ _ (int_of_step m1 ip io d i Hio Hd Hi)).
  rewrite (bind_step _ _ _ _ _ (DoPop_step m1 (Some arr) ltac:(cbn; lia)
             ltac:(cbn; replace (StackSize m - 1 - 1) with (StackSize m - 2) by lia;
                   exact Harr))).
  f_equal. machine_eq.
Qed.

(** X12.  An array element is stored and loaded in place.  Within the
    bounds, [SETINDEX] pops the value, the index and the array and
    replaces that one element of the array object; [GETINDEX] pops the
    index and the array and pushes the pointer the element holds when
    it is not null, without allocating anything.  So an element reads
    back as the very object that was stored, not as a copy. *)
Theorem array_element_stored_and_loaded :
  (∀ ff fuel m value arr values i,
     instruction_at m = Some OP_SETINDEX →
     2 < StackSize m →
     idx (Stack m) (StackSize m - 1) = Some value →
     array_and_index m (StackSize m - 1) arr values i →
     0 ≤ i < Z.of_nat (length values) →
     ∃ m1, ExecuteCycle ff fuel m = Ok (tt, m1) ∧
           ProgramCounter m1 = ProgramCounter m + 1 ∧
           StackSize m1 = StackSize m - 3 ∧
           (∃ ao, heap m1 !! arr = Some ao ∧
                  val ao = Arr (<[Z.to_nat i := value]> values)) ∧
           (∀ a, a ≠ arr → heap m1 !! a = heap m !! a)) ∧
  (∀ ff fuel m arr values i v,
     instruction_at m = Some OP_GETINDEX →
     1 < StackSize m →
     array_and_index m (StackSize m) arr values i →
     0 ≤ i →
     values !! Z.to_nat i = Some (Some v) →
     Z.of_nat (length (Stack m)) = MAX_STACK →
     ∃ m1, ExecuteCycle ff fuel m = Ok (tt, m1) ∧
           ProgramCounter m1 = ProgramCounter m + 1 ∧
           StackSize m1 = StackSize m - 1 ∧
           idx (Stack m1) (StackSize m - 2) = Some (Some v) ∧
           heap m1 = heap m).
Proof.
  split.
  - intros ff fuel m value arr values i Hop Hn Hv Hops Hi.
    rewrite (ExecuteCycle_at _ _ _ _ Hop). unfold execute.
    unfold next_pc at 1. rewrite bind_modify.
    set (m0 := set_ProgramCounter (ProgramCounter m + 1) m).
    rewrite (bind_step _ _ _ _ _ (DoPop_step m0 value ltac:(cbn; lia) Hv)).
    set (m1 := set_StackSize (StackSize m0 - 1) m0).
    rewrite (pop_array_and_index _ m1 (StackSize m - 1) arr values i Hops eq_refl
               ltac:(lia)).
    replace (i <? 0) with false by lia.
    destruct Hops as (ip & io & d & ao & _ & _ & _ & _ & _ & Hao & Hvals).
    set (m2 := set_StackSize (StackSize m - 1 - 2) m1).
    rewrite (bind_step _ _ _ _ _ (array_of_step m2 arr ao values Hao Hvals)).
    replace (i <? Z.of_nat (length values)) with true by lia.
    unfold set_val, modify. eexists. split; [reflexivity|]. cbn.
    split; [reflexivity|]. split; [lia|]. split.
    + eexists. rewrite lookup_alter_eq, Hao. cbn. split; reflexivity.
    + intros a Ha. apply lookup_alter_ne. congruence.
  - intros ff fuel m arr values i v Hop Hn Hops Hi Hslot Hlen.
    rewrite (ExecuteCycle_at _ _ _ _ Hop). unfold execute.
    unfold next_pc at 1. rewrite bind_modify.
    set (m0 := set_ProgramCounter (ProgramCounter m + 1) m).
    rewrite (pop_array_and_index _ m0 (StackSize m) arr values i Hops eq_refl Hn).
    replace (i <? 0) with false by lia.
    destruct Hops as (ip & io & d & ao & Htop & _ & _ & _ & _ & Hao & Hvals).
    apply idx_Some in Htop.
    set (m2 := set_StackSize (StackSize m - 2) m0).
    rewrite (bind_step _ _ _ _ _ (array_of_step m2 arr ao values Hao Hvals)).
    rewrite Hslot.
    rewrite (DoPush_step m2); [|subst m2 m0; cbn; lia | exact Hlen].
    eexists. split; [reflexivity|]. cbn.
    split; [reflexivity|]. split; [lia|]. split; [|reflexivity].
    rewrite idx_insert by lia. case_decide; [reflexivity | lia].
Qed.

(** * Constants *)

Lemma PUSH_step ff fuel m cidx c :
  instruction_at m = Some OP_PUSH →
  immediate_at m (ProgramCounter m + 1) = Some cidx →
  idx (Constants m) cidx = Some c →
  allocates_directly m →
  0 ≤ StackSize m < MAX_STACK →
  Z.of_nat (length (Stack m)) = MAX_STACK →
  ExecuteCycle ff fuel m =
    Ok (tt,
        set_StackSize (StackSize m + 1)
          (set_Stack (<[Z.to_nat (StackSize m) := Some (next_addr m)]> (Stack m))
             (set_NumObjects (NumObjects m + 1)
                (set_GCHead (next_addr m :: GCHead m)
                   (set_next_addr (Pos.succ (next_addr m))
                      (set_heap (<[next_addr m := mkObject false (constant_value c)]> (heap m))
                         (set_ProgramCounter (ProgramCounter m + 5) m))))))).
Proof.
  intros Hop Hi Hc (Hn & Hmax & Hfresh) Hs Hlen.
  rewrite (ExecuteCycle_at _ _ _ _ Hop). unfold execute.
  rewrite (operand_step _ _ _ Hi). rewrite bind_gets.
  rewrite (bind_step _ _ _ _ _ (load_step _ _ _ _ _ Hc)).
  set (m0 := set_ProgramCounter (ProgramCounter m + 5) m).
  assert (∀ t, NewObject fuel t m0 = Ok (next_addr m, _)) as E
    by (intros t; apply (NewObject_step fuel t m0); unfold INT_MIN; cbn; lia).
  destruct c as [d|s]; cbn [constant_value];
    rewrite bind_assoc, (bind_step _ _ _ _ _ (E _));
    unfold set_val; rewrite bind_assoc, bind_modify, bind_ret;
    (rewrite DoPush_step; [|subst m0; cbn; lia | exact Hlen]);
    do 2 f_equal; subst m0; apply machine_ext; cbn; try reflexivity;
    apply map_eq; intros a; (destruct (decide (a = next_addr m)) as [->|Ha];
      [rewrite lookup_alter_eq, !lookup_insert_eq; reflexivity
      |rewrite lookup_alter_ne by congruence; rewrite !lookup_insert_ne by congruence;
       reflexivity]).
Qed.

(** X13.  A constant is copied on every use.  When no collection is
    due, [PUSH] allocates a new object holding the number or the
    string of the constant (the pool entry itself is never on the
    stack).  [PRINT] right after it pops that object again and writes
    the constant. *)
Theorem constant_pushed_then_printed ff fuel m cidx c :
  instruction_at m = Some OP_PUSH →
  immediate_at m (ProgramCounter m + 1) = Some cidx →
  idx (Constants m) cidx = Some c →
  allocates_directly m →
  0 ≤ StackSize m < MAX_STACK →
  Z.of_nat (length (Stack m)) = MAX_STACK →
  idx (Program m) (ProgramCounter m + 5) = Some (encode OP_PRINT) →
  ∃ m1 m2,
    ExecuteCycle ff fuel m = Ok (tt, m1) ∧
    StackSize m1 = StackSize m + 1 ∧
    idx (Stack m1) (StackSize m) = Some (Some (next_addr m)) ∧
    heap m1 = <[next_addr m := mkObject false (constant_value c)]> (heap m) ∧
    ExecuteCycle ff fuel m1 = Ok (tt, m2) ∧
    stdout m2 = stdout m ++ [constant_output c] ∧
    StackSize m2 = StackSize m ∧
    ProgramCounter m2 = ProgramCounter m + 6.
Proof.
  intros Hop Hi Hc Halloc Hs Hlen Hprint.
  pose proof (PUSH_step ff fuel m cidx c Hop Hi Hc Halloc Hs Hlen) as Hpush.
  match type of Hpush with _ = Ok (tt, ?s) => set (m1 := s) in * end.
  assert (instruction_at m1 = Some OP_PRINT) as Hop1.
  { unfold instruction_at. subst m1. cbn. rewrite Hprint. apply decode_encode. }
  assert (DoPop m1 = Ok (Some (next_addr m), set_StackSize (StackSize m) m1)) as P.
  { rewrite (DoPop_step m1 (Some (next_addr m))).
    - do 2 f_equal. subst m1. machine_eq.
    - subst m1. cbn. lia.
    - subst m1. cbn. rewrite idx_insert by lia. case_decide; [reflexivity | lia]. }
  assert (heap (set_StackSize (StackSize m) m1) !! next_addr m
          = Some (mkObject false (constant_value c))) as Hobj
    by (subst m1; cbn; apply lookup_insert_eq).
  assert (∃ m2, ExecuteCycle ff fuel m1 = Ok (tt, m2) ∧
                stdout m2 = stdout m ++ [constant_output c] ∧
                StackSize m2 = StackSize m ∧
                ProgramCounter m2 = ProgramCounter m + 6) as (m2 & E2 & Hout).
  { rewrite (ExecuteCycle_at _ _ _ _ Hop1). unfold execute.
    rewrite (bind_step _ _ _ _ _ P).
    rewrite (bind_step _ _ _ _ _ (deref_step _ _ _ Hobj)).
    destruct c as [d|s]; cbn [val constant_value constant_output];
      unfold print, next_pc; rewrite ?bind_modify, ?bind_ret;
      (eexists; split; [reflexivity|]); subst m1; cbn;
      (split; [reflexivity|]); (split; [reflexivity | lia]). }
  exists m1, m2. split; [exact Hpush|]. subst m1. cbn.
  split; [reflexivity|].
  split; [rewrite idx_insert by lia; case_decide; [reflexivity | lia]|].
  split; [reflexivity|]. split; [exact E2 | exact Hout].
Qed.

(** * Jumps *)

(** X14.  The conditional jumps pop a number and compare it with
    zero.  [GOTOZ] jumps to its target when the number equals 0 and
    falls through to the next instruction otherwise; [GOTONZ] does the
    opposite; [GOTO] always jumps.  Negative zero counts as zero and
    NaN does not: a condition that is NaN is taken as true. *)
Theorem jumps_test_against_zero :
  (∀ ff fuel m target,
     instruction_at m = Some OP_GOTO →
     immediate_at m (ProgramCounter m + 1) = Some target →
     ExecuteCycle ff fuel m = Ok (tt, set_ProgramCounter target m)) ∧
  (∀ ff fuel m op target a o d,
     op = OP_GOTOZ ∨ op = OP_GOTONZ →
     instruction_at m = Some op →
     immediate_at m (ProgramCounter m + 1) = Some target →
     0 < StackSize m →
     idx (Stack m) (StackSize m - 1) = Some (Some a) →
     heap m !! a = Some o → val o = Num d →
     ExecuteCycle ff fuel m =
       Ok (tt, set_ProgramCounter
                 (if opcode_eqb op OP_GOTOZ
                  then (if deq d dzero then target else ProgramCounter m + 5)
                  else (if deq d dzero then ProgramCounter m + 5 else target))
                 (set_StackSize (StackSize m - 1) m))) ∧
  deq (S754_zero true) dzero = true ∧
  deq (S754_zero false) dzero = true ∧
  deq S754_nan dzero = false.
Proof.
  split; [|split; [|repeat split]].
  - intros ff fuel m target Hop Hi.
    rewrite (ExecuteCycle_at _ _ _ _ Hop). unfold execute.
    rewrite (operand_step _ _ _ Hi). reflexivity.
  - intros ff fuel m op target a o d Hkind Hop Hi Hn Htop Ho Hd.
    rewrite (ExecuteCycle_at _ _ _ _ Hop).
    set (m0 := set_ProgramCounter (ProgramCounter m + 5) m).
    assert (DoPop m0 = Ok (Some a, set_StackSize (StackSize m - 1) m0)) as P
      by (apply (DoPop_step m0); assumption).
    assert (number_of (Some a) (set_StackSize (StackSize m - 1) m0)
            = Ok (d, set_StackSize (StackSize m - 1) m0)) as N
      by (apply (number_of_step _ a o d); assumption).
    destruct Hkind as [-> | ->]; unfold execute;
      rewrite (operand_step _ _ _ Hi); fold m0;
      rewrite (bind_step _ _ _ _ _ P), (bind_step _ _ _ _ _ N);
      cbn [opcode_eqb]; destruct (deq d dzero); cbn;
      unfold modify, ret; do 2 f_equal; subst m0; machine_eq.
Qed.

(** * What a collection keeps *)

Lemma closed_reaches h0 h a b :
  marks_closed h0 h → reaches h0 a b → is_marked h a → is_marked h b.
Proof.
  intros Hc Hr. induction Hr as [a | a o c b Ho Hkid _ IH]; intros Hm; [exact Hm|].
  apply IH. eapply Hc; eassumption.
Qed.

Lemma reaches_inv h a b :
  reaches h a b ↔ b = a ∨ ∃ o c, h !! a = Some o ∧ Some c ∈ children o ∧ reaches h c b.
Proof.
  split.
  - intros H. inversion H; subst; [left; reflexivity | right; eauto].
  - intros [-> | (o & c & Ho & Hc & Hr)]; [constructor | econstructor; eassumption].
Qed.

Lemma reaches_same_shape h h' a b :
  same_shape h h' → reaches h a b → reaches h' a b.
Proof.
  intros Hs Hr. induction Hr as [a | a o c b Ho Hkid _ IH]; [constructor|].
  destruct (same_shape_lookup _ _ _ _ Hs Ho) as (o' & Ho' & Hval).
  eapply reaches_child; [exact Ho' | | exact IH].
  unfold children in *. rewrite Hval. exact Hkid.
Qed.

Lemma for_each_marks {A} (l : list A) (body : A → M unit)
    (target : A → addr → Prop) (inv : machine → Prop) :
  (∀ x m1, x ∈ l → inv m1 →
     ∃ m2, body x m1 = Ok (tt, m2) ∧ inv m2 ∧
           ∀ b, is_marked (heap m2) b ↔ is_marked (heap m1) b ∨ target x b) →
  ∀ m1, inv m1 →
    ∃ m2, for_each l body m1 = Ok (tt, m2) ∧ inv m2 ∧
          ∀ b, is_marked (heap m2) b ↔
               is_marked (heap m1) b ∨ ∃ x, x ∈ l ∧ target x b.
Proof.
  induction l as [|x l IH]; intros Hbody m1 Hinv.
  - exists m1. split; [reflexivity|]. split; [exact Hinv|].
    intros b. split; [left; assumption|]. intros [H | (x & Hx & _)]; [exact H|].
    inversion Hx.
  - destruct (Hbody x m1) as (m2 & H2 & Hinv2 & Hm2); [left | exact Hinv |].
    destruct (IH (λ y m0 Hy, Hbody y m0 (list_elem_of_further _ _ _ Hy)) m2 Hinv2)
      as (m3 & H3 & Hinv3 & Hm3).
    exists m3. split; [|split; [exact Hinv3|]].
    + change (for_each (x :: l) body) with (body x ;; for_each l body).
      rewrite (bind_step _ _ _ _ _ H2). exact H3.
    + intros b. rewrite Hm3, Hm2. split.
      * intros [[H | H] | (y & Hy & H)]; [left; exact H | right | right].
        -- exists x. split; [left | exact H].
        -- exists y. split; [right; exact Hy | exact H].
      * intros [H | (y & Hy & H)]; [left; left; exact H|].
        apply elem_of_cons in Hy as [-> | Hy]; [left; right; exact H|].
        right. exists y. split; assumption.
Qed.

Lemma is_marked_alter_true h a b :
  is_Some (h !! a) →
  is_marked (alter (λ o, mkObject true (val o)) a h) b ↔ b = a ∨ is_marked h b.
Proof.
  intros [oa Hoa]. unfold is_marked. split.
  - intros (o & Ho & Hm). destruct (decide (b = a)) as [->|Hne]; [left; reflexivity|].
    right. rewrite lookup_alter_ne in Ho by congruence. eauto.
  - intros [-> | (o & Ho & Hm)].
    + rewrite lookup_alter_eq, Hoa. eexists. split; reflexivity.
    + destruct (decide (b = a)) as [->|Hne].
      * rewrite lookup_alter_eq, Hoa. eexists. split; reflexivity.
      * rewrite lookup_alter_ne by congruence. eauto.
Qed.

Section MarkMarks.

Variable rank : addr → nat.
Variable h0 : gmap addr Object.
Hypothesis Hranked : well_ranked rank h0.

(** What [Mark] has marked when it returns: what was marked before,
    and everything that its argument reaches. *)
Lemma Mark_marks fuel p m :
  same_shape h0 (heap m) →
  markable rank fuel h0 p →
  marks_closed h0 (heap m) →
  ∃ m', Mark fuel p m = Ok (tt, m') ∧
        same_shape h0 (heap m') ∧
        marks_closed h0 (heap m') ∧
        ∀ b, is_marked (heap m') b ↔
             is_marked (heap m) b ∨ ∃ a, p = Some a ∧ reaches h0 a b.
Proof.
  revert p m. induction fuel as [|fuel IH]; intros p m Hs Hp Hc.
  { destruct p as [a|]; simpl in Hp; [destruct Hp|]; lia. }
  destruct p as [a|]; cbn [Mark].
  2:{ eexists. split; [reflexivity|]. split; [exact Hs|]. split; [exact Hc|].
      intros b. cbn. split; [left; assumption|].
      intros [H | (a & Ha & _)]; [exact H | discriminate]. }
  destruct Hp as [[o0 Ho0] Hfuel].
  destruct (same_shape_lookup _ _ _ _ Hs Ho0) as (o & Ho & Hval).
  rewrite (bind_step _ _ _ _ _ (deref_step m a o Ho)).
  destruct (marked o) eqn:Hmark.
  { exists m. split; [reflexivity|]. split; [exact Hs|]. split; [exact Hc|].
    intros b. split; [left; assumption|].
    intros [H | (a' & [= <-] & Hr)]; [exact H|].
    eapply closed_reaches; [exact Hc | exact Hr|]. exists o. split; assumption. }
  set (inv := λ m1 : machine, same_shape h0 (heap m1) ∧ marks_closed h0 (heap m1)).
  set (target := λ (c : ptr) (b : addr), ∃ a', c = Some a' ∧ reaches h0 a' b).
  assert (∀ c, c ∈ children o0 → markable rank fuel h0 c) as Hkids.
  { intros [c|] Hcin; simpl.
    - destruct (Hranked a o0 c Ho0 Hcin) as [Hin Hlt]. split; [exact Hin | lia].
    - lia. }
  assert (∀ l m1, (∀ c, c ∈ l → markable rank fuel h0 c) → inv m1 →
            ∃ m2, for_each l (Mark fuel) m1 = Ok (tt, m2) ∧ inv m2 ∧
                  ∀ b, is_marked (heap m2) b ↔
                       is_marked (heap m1) b ∨ ∃ x, x ∈ l ∧ target x b) as Hloop.
  { intros l m1 Hl Hinv1. apply for_each_marks; [|exact Hinv1].
    intros c m2 Hcin [Hs2 Hc2].
    destruct (IH c m2 Hs2 (Hl c Hcin) Hc2) as (m3 & H3 & Hs3 & Hc3 & Hm3).
    exists m3. split; [exact H3|]. split; [split; assumption | exact Hm3]. }
  assert (∀ l m1, (∀ c, c ∈ l → markable rank fuel h0 c) → inv m1 →
            ∃ m2, for_each l (λ v, match v with
                                   | Some _ => Mark fuel v
                                   | None => ret tt
                                   end) m1 = Ok (tt, m2) ∧ inv m2 ∧
                  ∀ b, is_marked (heap m2) b ↔
                       is_marked (heap m1) b ∨ ∃ x, x ∈ l ∧ target x b) as Hloop'.
  { intros l m1 Hl Hinv1. apply for_each_marks; [|exact Hinv1].
    intros [c|] m2 Hcin [Hs2 Hc2].
    - destruct (IH (Some c) m2 Hs2 (Hl _ Hcin) Hc2) as (m3 & H3 & Hs3 & Hc3 & Hm3).
      exists m3. split; [exact H3|]. split; [split; assumption | exact Hm3].
    - exists m2. split; [reflexivity|]. split; [split; assumption|].
      intros b. split; [left; assumption|].
      intros [H | (a' & Ha' & _)]; [exact H | discriminate]. }
  assert (children o = children o0) as Hch by (unfold children; rewrite Hval; reflexivity).
  assert (∀ m2, inv m2 →
            (∀ b, is_marked (heap m2) b ↔
                  is_marked (heap m) b ∨ ∃ x, x ∈ children o0 ∧ target x b) →
            ∃ m', set_marked a true m2 = Ok (tt, m') ∧
                  same_shape h0 (heap m') ∧
                  marks_closed h0 (heap m') ∧
                  ∀ b, is_marked (heap m') b ↔
                       is_marked (heap m) b ∨ ∃ a', Some a = Some a' ∧ reaches h0 a' b)
    as Hfinish.
  { intros m2 [Hs2 Hc2] Hm2. eexists. split; [reflexivity|]. cbn.
    destruct (same_shape_lookup _ _ _ _ Hs2 Ho0) as (o2 & Ho2 & _).
    assert (∀ b, is_marked (alter (λ o, mkObject true (val o)) a (heap m2)) b ↔
                 b = a ∨ is_marked (heap m2) b) as Halter
      by (intros b; apply is_marked_alter_true; eauto).
    split; [apply same_shape_alter; [exact Hs2 | reflexivity]|]. split.
    - intros x ox c Hx Hox Hcin. apply Halter. apply Halter in Hx as [-> | Hx].
      + right. apply Hm2. right. exists (Some c).
        rewrite Ho0 in Hox. injection Hox as <-.
        split; [exact Hcin|]. exists c. split; [reflexivity | constructor].
      + right. eapply Hc2; eassumption.
    - intros b. rewrite Halter, Hm2. split.
      + intros [-> | [H | (x & Hx & a' & -> & Hr)]].
        * right. exists a. split; [reflexivity | constructor].
        * left. exact H.
        * right. exists a. split; [reflexivity|]. econstructor; eassumption.
      + intros [H | (a' & [= <-] & Hr)]; [right; left; exact H|].
        apply reaches_inv in Hr as [-> | (o' & c & Ho' & Hcin & Hr)].
        * left. reflexivity.
        * right. right. rewrite Ho0 in Ho'. injection Ho' as <-.
          exists (Some c). split; [exact Hcin|]. exists c. split; [reflexivity | exact Hr]. }
  assert (inv m) as Hinv by (split; assumption).
  assert (∀ b, is_marked (heap m) b ↔
               is_marked (heap m) b ∨ ∃ x : ptr, x ∈ [] ∧ target x b) as Hnone.
  { intros b. split; [left; assumption|].
    intros [H | (x & Hx & _)]; [exact H | inversion Hx]. }
  rewrite <- Hch in Hkids, Hfinish. unfold children in Hkids, Hfinish.
  destruct (val o) as [d|s|vs|host f [kids|]].
  - rewrite !bind_ret. apply Hfinish; assumption.
  - rewrite !bind_ret. apply Hfinish; assumption.
  - rewrite bind_ret.
    destruct (Hloop' vs m Hkids Hinv) as (m2 & H2 & Hinv2 & Hm2).
    rewrite (bind_step _ _ _ _ _ H2). apply Hfinish; assumption.
  - destruct (Hloop kids m Hkids Hinv) as (m2 & H2 & Hinv2 & Hm2).
    rewrite (bind_step _ _ _ _ _ H2). rewrite bind_ret. apply Hfinish; assumption.
  - rewrite !bind_ret. apply Hfinish; assumption.
Qed.

End MarkMarks.

Section CollectExact.

Variable rank : addr → nat.
Variable fuel : nat.

Lemma MarkAll_marks m :
  collectable rank fuel m →
  (∀ a, ¬ is_marked (heap m) a) →
  ∃ m', MarkAll fuel m = Ok (tt, m') ∧
        same_shape (heap m) (heap m') ∧
        ∀ b, is_marked (heap m') b ↔ reachable m b.
Proof.
  intros C Hrest. unfold MarkAll.
  pose proof (coll_ranked _ _ _ C) as Hranked.
  set (inv := λ m1, (same_shape (heap m) (heap m1) ∧ marks_closed (heap m) (heap m1)) ∧
                    Stack m1 = Stack m ∧ Variables m1 = Variables m).
  assert (inv m) as Hinv.
  { split; [split; [apply same_shape_refl|] | split; reflexivity].
    intros a o c Ha. destruct (Hrest a Ha). }
  rewrite bind_gets.
  set (body1 := λ i, let* st := gets Stack in
                     let* p := load "Stack index out of bounds" st i in
                     Mark fuel p).
  set (target1 := λ (i : Z) (b : addr),
         ∃ a, idx (Stack m) i = Some (Some a) ∧ reaches (heap m) a b).
  assert (∀ i m1, i ∈ seqZ 0 (StackSize m) → inv m1 →
            ∃ m2, body1 i m1 = Ok (tt, m2) ∧ inv m2 ∧
                  ∀ b, is_marked (heap m2) b ↔ is_marked (heap m1) b ∨ target1 i b)
    as Hbody1.
  { intros i m1 Hi ((Hs & Hc) & Hst & Hv). apply elem_of_seqZ_0 in Hi. unfold body1.
    destruct (idx_inside (Stack m) i) as [p Hp];
      [pose proof (coll_stack_size _ _ _ C); lia|].
    rewrite bind_gets, Hst. rewrite (bind_step _ _ _ _ _ (load_step _ _ _ _ _ Hp)).
    destruct (Mark_marks rank (heap m) Hranked fuel p m1 Hs) as (m2 & H2 & Hs2 & Hc2 & Hm2);
      [eapply coll_stack; eassumption | exact Hc |].
    exists m2. split; [exact H2|]. split.
    - split; [split; assumption|]. split.
      + rewrite <- Hst. eapply (keeps_Mark Stack); [split; reflexivity | exact H2].
      + rewrite <- Hv. eapply (keeps_Mark Variables); [split; reflexivity | exact H2].
    - intros b. rewrite Hm2. unfold target1. rewrite Hp. split.
      + intros [H | (a & -> & Hr)]; [left; exact H | right; eauto].
      + intros [H | (a & [= ->] & Hr)]; [left; exact H | right; eauto]. }
  destruct (for_each_marks _ _ target1 inv Hbody1 m Hinv) as (m1 & H1 & Hinv1 & Hm1).
  rewrite (bind_step _ _ _ _ _ H1).
  assert (RuntimeVariableAmount m1 = RuntimeVariableAmount m) as Hr.
  { eapply (keeps_for_each RuntimeVariableAmount); [|exact H1].
    intros i. assert (heap_blind RuntimeVariableAmount) by (split; reflexivity).
    unfold body1. keeps_tac. }
  rewrite bind_gets, Hr.
  set (body2 := λ i, let* vars := gets Variables in
                     let* v := load "Variables index out of bounds" vars i in
                     Mark fuel (object v)).
  set (target2 := λ (i : Z) (b : addr),
         ∃ v a, idx (Variables m) i = Some v ∧ object v = Some a ∧ reaches (heap m) a b).
  assert (∀ i m2, i ∈ seqZ 0 (RuntimeVariableAmount m) → inv m2 →
            ∃ m3, body2 i m2 = Ok (tt, m3) ∧ inv m3 ∧
                  ∀ b, is_marked (heap m3) b ↔ is_marked (heap m2) b ∨ target2 i b)
    as Hbody2.
  { intros i m2 Hi ((Hs & Hc) & Hst & Hv). apply elem_of_seqZ_0 in Hi. unfold body2.
    destruct (idx_inside (Variables m) i) as [v Hp];
      [pose proof (coll_vars_size _ _ _ C); lia|].
    rewrite bind_gets, Hv. rewrite (bind_step _ _ _ _ _ (load_step _ _ _ _ _ Hp)).
    destruct (Mark_marks rank (heap m) Hranked fuel (object v) m2 Hs)
      as (m3 & H3 & Hs3 & Hc3 & Hm3);
      [eapply coll_vars; eassumption | exact Hc |].
    exists m3. split; [exact H3|]. split.
    - split; [split; assumption|]. split.
      + rewrite <- Hst. eapply (keeps_Mark Stack); [split; reflexivity | exact H3].
      + rewrite <- Hv. eapply (keeps_Mark Variables); [split; reflexivity | exact H3].
    - intros b. rewrite Hm3. unfold target2. rewrite Hp. split.
      + intros [H | (a & Ha & Hr')]; [left; exact H | right; eauto].
      + intros [H | (v' & a & [= <-] & Ha & Hr')]; [left; exact H | right; eauto]. }
  destruct (for_each_marks _ _ target2 inv Hbody2 m1 Hinv1) as (m2 & H2 & Hinv2 & Hm2).
  exists m2. split; [exact H2|]. split; [apply Hinv2|].
  intros b. rewrite Hm2, Hm1. unfold reachable, root, target1, target2. split.
  - intros [[H | (i & Hi & a & Ha & Hr')] | (i & Hi & v & a & Hv & Ha & Hr')].
    + destruct (Hrest b H).
    + apply elem_of_seqZ_0 in Hi. exists a. split; [left; eauto | exact Hr'].
    + apply elem_of_seqZ_0 in Hi. exists a. split; [right; eauto | exact Hr'].
  - intros (a & [(i & Hi & Ha) | (i & v & Hi & Hv & Ha)] & Hr').
    + left. right. exists i. split; [apply elem_of_seqZ; lia | eauto].
    + right. exists i. split; [apply elem_of_seqZ; lia | eauto].
Qed.

End CollectExact.

Lemma is_marked_lookup h a o :
  h !! a = Some o → is_marked h a ↔ marked o = true.
Proof.
  intros Ho. unfold is_marked. split.
  - intros (o' & Ho' & Hm). congruence.
  - intros Hm. eauto.
Qed.

Lemma Sweep_chain_exact chain m chain' m' :
  NoDup chain →
  Sweep_chain chain m = Ok (chain', m') →
  (∀ a, a ∈ chain' ↔ a ∈ chain ∧ is_marked (heap m) a) ∧
  NoDup chain' ∧
  (∀ a, heap m' !! a =
        if decide (a ∈ chain) then heap m !! a ≫= swept else heap m !! a).
Proof.
  revert m chain' m'. induction chain as [|a chain IH]; intros m chain' m' Hnd H;
    cbn [Sweep_chain] in H.
  - apply ret_Ok in H as [-> ->]. split; [|split; [constructor|]].
    + intros a. split; [intros Ha; inversion Ha | intros [Ha _]; inversion Ha].
    + intros a. case_decide as E; [inversion E | reflexivity].
  - apply NoDup_cons in Hnd as [Ha Hnd].
    apply bind_inv in H as (o1 & m0 & Hd & H).
    unfold deref in Hd. rewrite bind_gets in Hd.
    destruct (heap m !! a) as [o|] eqn:Ho; [|discriminate Hd].
    apply ret_Ok in Hd as [-> ->].
    destruct (marked o) eqn:Hmark; cbn [negb] in H.
    + apply bind_inv in H as ([] & m1 & H1 & H). apply modify_Ok in H1 as ->.
      apply bind_inv in H as (rest' & m2 & H2 & H). apply ret_Ok in H as [-> ->].
      destruct (IH _ _ _ Hnd H2) as (Hin & Hnd' & Hheap). cbn in Hin, Hheap.
      assert (∀ x, x ≠ a →
                is_marked (alter (λ o, mkObject false (val o)) a (heap m)) x
                ↔ is_marked (heap m) x) as Hother.
      { intros x Hx. unfold is_marked. rewrite lookup_alter_ne by congruence. reflexivity. }
      split; [|split].
      * intros x. rewrite !elem_of_cons, Hin. split.
        -- intros [-> | [Hx Hm]].
           ++ split; [left; reflexivity|]. apply (is_marked_lookup _ _ _ Ho), Hmark.
           ++ split; [right; exact Hx|]. apply Hother; [|exact Hm]. intros ->. exact (Ha Hx).
        -- intros [[-> | Hx] Hm]; [left; reflexivity|].
           right. split; [exact Hx|]. apply Hother; [|exact Hm]. intros ->. exact (Ha Hx).
      * apply NoDup_cons. split; [|exact Hnd']. rewrite Hin. tauto.
      * intros x. rewrite Hheap. destruct (decide (x = a)) as [->|Hx].
        -- rewrite (decide_False (P := a ∈ chain)) by exact Ha.
           rewrite (decide_True (P := a ∈ a :: chain)) by left.
           rewrite lookup_alter_eq, Ho. cbn. unfold swept. rewrite Hmark. reflexivity.
        -- rewrite lookup_alter_ne by congruence.
           destruct (decide (x ∈ chain)) as [Hin'|Hin'].
           ++ rewrite (decide_True (P := x ∈ a :: chain)) by (right; exact Hin'). reflexivity.
           ++ rewrite (decide_False (P := x ∈ a :: chain)); [reflexivity|].
              rewrite elem_of_cons. tauto.
    + apply bind_inv in H as (n & m1 & H1 & H). apply gets_Ok in H1 as [-> ->].
      apply bind_inv in H as (n' & m1 & H1 & H). apply int_result_Ok in H1 as (-> & -> & _).
      apply bind_inv in H as ([] & m1 & H1 & H). apply modify_Ok in H1 as ->.
      apply bind_inv in H as ([] & m1 & H1 & H). apply modify_Ok in H1 as ->.
      destruct (IH _ _ _ Hnd H) as (Hin & Hnd' & Hheap). cbn in Hin, Hheap.
      assert (∀ x, x ≠ a → is_marked (delete a (heap m)) x ↔ is_marked (heap m) x)
        as Hother.
      { intros x Hx. unfold is_marked. rewrite lookup_delete_ne by congruence. reflexivity. }
      split; [|split; [exact Hnd'|]].
      * intros x. rewrite elem_of_cons, Hin. split.
        -- intros [Hx Hm]. split; [right; exact Hx|].
           apply Hother; [|exact Hm]. intros ->. exact (Ha Hx).
        -- intros [[-> | Hx] Hm].
           ++ apply (is_marked_lookup _ _ _ Ho) in Hm. congruence.
           ++ split; [exact Hx|]. apply Hother; [|exact Hm]. intros ->. exact (Ha Hx).
      * intros x. rewrite Hheap. destruct (decide (x = a)) as [->|Hx].
        -- rewrite (decide_False (P := a ∈ chain)) by exact Ha.
           rewrite (decide_True (P := a ∈ a :: chain)) by left.
           rewrite lookup_delete_eq, Ho. cbn. unfold swept. rewrite Hmark. reflexivity.
        -- rewrite lookup_delete_ne by congruence.
           destruct (decide (x ∈ chain)) as [Hin'|Hin'].
           ++ rewrite (decide_True (P := x ∈ a :: chain)) by (right; exact Hin'). reflexivity.
           ++ rewrite (decide_False (P := x ∈ a :: chain)); [reflexivity|].
              rewrite elem_of_cons. tauto.
Qed.

Lemma same_shape_None h h' a : same_shape h h' → h !! a = None → h' !! a = None.
Proof.
  intros Hs Ha. specialize (Hs a). rewrite Ha in Hs.
  destruct (h' !! a); [discriminate | reflexivity].
Qed.

Lemma reachable_live rank fuel m a :
  collectable rank fuel m → reachable m a → is_Some (heap m !! a).
Proof.
  intros C (r & Hroot & Hr).
  assert (is_Some (heap m !! r)) as Hlive.
  { destruct Hroot as [(i & Hi & Hs) | (i & v & Hi & Hv & Ho)].
    - exact (proj1 (coll_stack _ _ _ C i (Some r) Hi Hs)).
    - pose proof (coll_vars _ _ _ C i v Hi Hv) as Hm. rewrite Ho in Hm. exact (proj1 Hm). }
  clear Hroot. induction Hr as [x | x o c b Ho Hkid _ IH]; [exact Hlive|].
  apply IH. exact (proj1 (coll_ranked _ _ _ C x o c Ho Hkid)).
Qed.

(** X15.  A collection keeps exactly what the roots reach.  On a
    machine whose heap is closed and without cycles, with no object
    marked and every object on the chain, [GarbageCollect] returns
    (given a recursion bound above the depth of the heap), and then:
    every object reachable from the operand stack or from a global
    below [RuntimeVariableAmount] is still there, unchanged and
    unmarked; every other object is freed; the chain lists the
    survivors, their count is [NumObjects] and the threshold is twice
    that; the stack and the globals are as before.  The machine it
    leaves satisfies the same conditions again. *)
Theorem collection_keeps_exactly_the_reachable rank fuel m :
  collectable rank fuel m →
  at_rest m →
  ∃ m', GarbageCollect fuel m = Ok (tt, m') ∧
        (∀ a, reachable m a → is_Some (heap m !! a) ∧ heap m' !! a = heap m !! a) ∧
        (∀ a, ¬ reachable m a → heap m' !! a = None) ∧
        (∀ a, a ∈ GCHead m' ↔ reachable m a) ∧
        NumObjects m' = Z.of_nat (length (GCHead m')) ∧
        MaxNumObjects m' = 2 * NumObjects m' ∧
        (Stack m', StackSize m', Variables m', RuntimeVariableAmount m')
          = (Stack m, StackSize m, Variables m, RuntimeVariableAmount m) ∧
        collectable rank fuel m' ∧
        at_rest m'.
Proof.
  intros C Hrest.
  destruct (GarbageCollect_total rank fuel m C) as (m' & H & Hle).
  exists m'. split; [exact H|].
  destruct (GarbageCollect_threshold _ _ _ H) as [Hmax Hcount].
  specialize (Hcount (coll_count _ _ _ C)).
  assert ((Stack m', StackSize m', Variables m', RuntimeVariableAmount m', next_addr m')
          = (Stack m, StackSize m, Variables m, RuntimeVariableAmount m, next_addr m))
    as Hframe.
  { eapply (keeps_GarbageCollect
              (λ s, (Stack s, StackSize s, Variables s, RuntimeVariableAmount s, next_addr s)));
      [|exact H]. repeat split. }
  injection Hframe as Hst Hsz Hv Hrva Hnext.
  unfold GarbageCollect in H.
  apply bind_inv in H as ([] & m1 & H1 & H).
  apply bind_inv in H as ([] & m3 & H2 & H).
  unfold Sweep in H2. rewrite bind_gets in H2.
  apply bind_inv in H2 as (chain' & m2 & H2 & H3). apply modify_Ok in H3 as ->.
  rewrite bind_gets in H. apply bind_inv in H as (n2 & m4 & H4 & H).
  apply int_result_Ok in H4 as (-> & -> & _). apply modify_Ok in H as ->.
  cbn in *.
  destruct (MarkAll_marks rank fuel m C) as (m1' & H1' & Hs & Hm).
  { intros a (o & Ho & Hmark). destruct (Hrest a o Ho) as [Hf _]. congruence. }
  rewrite H1 in H1'. injection H1' as <-.
  assert (GCHead m1 = GCHead m) as Hc
    by (eapply (keeps_MarkAll GCHead); [split; reflexivity | exact H1]).
  assert (NoDup (GCHead m1)) as Hnd1 by (rewrite Hc; apply (coll_chain_nodup _ _ _ C)).
  destruct (Sweep_chain_exact _ _ _ _ Hnd1 H2) as (Hin & Hnd & Hheap).
  rewrite Hc in Hin, Hheap.
  assert (∀ a, reachable m a → is_Some (heap m !! a) ∧ heap m2 !! a = heap m !! a) as Hkeep.
  { intros a Hr. pose proof (reachable_live _ _ _ _ C Hr) as [o Ho].
    split; [eauto|]. destruct (Hrest a o Ho) as [Hunm Hon].
    apply Hm in Hr as (o1 & Ho1 & Hmark1).
    destruct (same_shape_lookup _ _ _ _ Hs Ho) as (o1' & Ho1' & Hval).
    rewrite Ho1 in Ho1'. injection Ho1' as <-.
    rewrite Hheap, (decide_True (P := a ∈ GCHead m)) by exact Hon.
    rewrite Ho1, Ho. cbn. unfold swept. rewrite Hmark1, Hval.
    destruct o as [mk v]. cbn in Hunm |- *. rewrite Hunm. reflexivity. }
  assert (∀ a, ¬ reachable m a → heap m2 !! a = None) as Hfree.
  { intros a Hr. rewrite Hheap.
    assert (∀ o1, heap m1 !! a = Some o1 → marked o1 = false) as Hunm.
    { intros o1 Ho1. destruct (marked o1) eqn:E; [|reflexivity].
      exfalso. apply Hr, Hm. exists o1. split; assumption. }
    case_decide as Hon.
    - destruct (heap m1 !! a) as [o1|] eqn:Ho1; [|reflexivity].
      cbn. unfold swept. rewrite (Hunm o1 eq_refl). reflexivity.
    - destruct (heap m !! a) as [o|] eqn:Ho.
      + destruct (Hrest a o Ho) as [_ Hon']. contradiction.
      + apply (same_shape_None _ _ _ Hs Ho). }
  assert (∀ a, a ∈ chain' ↔ reachable m a) as Hchain.
  { intros a. rewrite Hin, Hm. split; [tauto|]. intros Hr. split; [|exact Hr].
    pose proof (reachable_live _ _ _ _ C Hr) as [o Ho].
    apply (Hrest a o Ho). }
  split; [exact Hkeep|]. split; [exact Hfree|]. split; [exact Hchain|].
  split; [exact Hcount|]. split; [exact Hmax|]. split; [congruence|].
  assert (∀ a o, heap m2 !! a = Some o → reachable m a ∧ heap m !! a = Some o) as Hback.
  { intros a o Ho.
    assert (reachable m a) as Hr.
    { rewrite Hheap in Ho. case_decide as Hon.
      - destruct (heap m1 !! a) as [o1|] eqn:Ho1; [|discriminate Ho].
        cbn in Ho. unfold swept in Ho. destruct (marked o1) eqn:E; [|discriminate Ho].
        apply Hm. exists o1. split; assumption.
      - exfalso. destruct (heap m !! a) as [o0|] eqn:Ho0.
        + destruct (Hrest a o0 Ho0) as [_ Hon']. contradiction.
        + rewrite (same_shape_None _ _ _ Hs Ho0) in Ho. discriminate. }
    split; [exact Hr|]. destruct (Hkeep a Hr) as [_ E]. congruence. }
  split.
  - constructor; cbn; rewrite ?Hst, ?Hsz, ?Hv, ?Hrva, ?Hnext.
    + intros a o c Ho Hkid. destruct (Hback a o Ho) as [Hr Ho0].
      destruct (coll_ranked _ _ _ C a o c Ho0 Hkid) as [Hlive Hrank].
      split; [|exact Hrank].
      assert (reachable m c) as Hrc.
      { destruct Hr as (r & Hroot & Hr). exists r. split; [exact Hroot|].
        clear Hroot. induction Hr as [x | x ox cx bx Hox Hkx _ IH].
        - econstructor; [exact Ho0 | exact Hkid | constructor].
        - econstructor; [exact Hox | exact Hkx|]. apply IH; assumption. }
      destruct (Hkeep c Hrc) as [_ E]. rewrite E. exact Hlive.
    + apply (coll_stack_size _ _ _ C).
    + apply (coll_vars_size _ _ _ C).
    + intros i p Hi Hp. pose proof (coll_stack _ _ _ C i p Hi Hp) as Hmk.
      destruct p as [a|]; [|exact Hmk]. destruct Hmk as [Hlive Hf].
      split; [|exact Hf].
      assert (reachable m a) as Hr
        by (exists a; split; [left; eauto | constructor]).
      destruct (Hkeep a Hr) as [_ E]. rewrite E. exact Hlive.
    + intros i v Hi Hp. pose proof (coll_vars _ _ _ C i v Hi Hp) as Hmk.
      destruct (object v) as [a|] eqn:Hobj; [|exact Hmk]. destruct Hmk as [Hlive Hf].
      split; [|exact Hf].
      assert (reachable m a) as Hr
        by (exists a; split; [right; eauto | constructor]).
      destruct (Hkeep a Hr) as [_ E]. rewrite E. exact Hlive.
    + exact Hnd.
    + intros a Ha. apply Hchain in Ha. destruct (Hkeep a Ha) as [Hlive E].
      rewrite E. exact Hlive.
    + exact Hcount.
    + pose proof (coll_count_small _ _ _ C). cbn in Hle. lia.
    + intros a Ha. destruct (heap m2 !! a) as [o|] eqn:Ho; [|reflexivity].
      destruct (Hback a o Ho) as [_ Ho0].
      pose proof (coll_fresh _ _ _ C a Ha) as F. exfalso. clear -F Ho0.
      unfold addr in *. rewrite F in Ho0. discriminate.
  - intros a o Ho. cbn in Ho |- *. destruct (Hback a o Ho) as [Hr Ho0].
    split; [apply (Hrest a o Ho0) | apply Hchain, Hr].
Qed.

(** * The chain of the collector *)

Section Preserves.
Context (P : machine → Prop).

Lemma preserves_ret {A} (a : A) : preserves P (ret a).
Proof. intros m x m' HP H. apply ret_Ok in H as [_ ->]. exact HP. Qed.

Lemma preserves_fail {A} f : preserves P (@fail A f).
Proof. intros m x m' _ H. discriminate H. Qed.

Lemma preserves_gets {A} (field : machine → A) : preserves P (gets field).
Proof. intros m x m' HP H. apply gets_Ok in H as [_ ->]. exact HP. Qed.

Lemma preserves_modify change :
  (∀ m, P m → P (change m)) → preserves P (modify change).
Proof. intros Hc m x m' HP H. apply modify_Ok in H as ->. apply Hc, HP. Qed.

Lemma preserves_bind {A C} (c : M A) (k : A → M C) :
  preserves P c → (∀ a, preserves P (k a)) → preserves P (bind c k).
Proof.
  intros Hc Hk m x m' HP H. apply bind_inv in H as (a & m1 & H1 & H2).
  eapply Hk; [|exact H2]. eapply Hc; eassumption.
Qed.

Lemma preserves_for_each {A} (l : list A) body :
  (∀ x, preserves P (body x)) → preserves P (for_each l body).
Proof.
  intros Hb. induction l as [|x l IH].
  - apply preserves_ret.
  - apply preserves_bind; [apply Hb | intros _; exact IH].
Qed.

End Preserves.

Ltac preserves_step :=
  lazymatch goal with
  | |- preserves _ (bind _ _) => apply preserves_bind; [ | intros ? ]
  | |- preserves _ (ret _) => apply preserves_ret
  | |- preserves _ (fail _) => apply preserves_fail
  | |- preserves _ (gets _) => apply preserves_gets
  | |- preserves _ (modify _) =>
      apply preserves_modify; let H := fresh in intros ? H; exact H
  | |- preserves _ (for_each _ _) => apply preserves_for_each; intros ?
  | |- preserves _ (match ?x with _ => _ end) => destruct x
  | |- preserves _ _ => solve [eauto]
  end.
Ltac preserves_tac := repeat preserves_step.

(** The parts of the machine that hold no object. *)
Ltac unfold_plain :=
  unfold ReadInteger, fetch, next_pc, DoPush, DoPop, DoPushIndir, DoPopIndir,
    push_indir, pop_indir, int_of, number_of, array_of, deref, load, store,
    int_result, print, int_mod, int_or, int_and, out_of_bounds.

Lemma preserves_set_marked_shape h0 a b :
  preserves (λ m, same_shape h0 (heap m)) (set_marked a b).
Proof.
  unfold set_marked. apply preserves_modify. intros m Hs. cbn.
  apply same_shape_alter; [exact Hs | reflexivity].
Qed.

Lemma Mark_shape h0 fuel p : preserves (λ m, same_shape h0 (heap m)) (Mark fuel p).
Proof.
  revert p. induction fuel as [|fuel IH]; intros p; cbn [Mark].
  - apply preserves_fail.
  - pose proof (preserves_set_marked_shape h0) as Hset.
    unfold_plain. preserves_tac.
Qed.

Lemma MarkAll_shape h0 fuel : preserves (λ m, same_shape h0 (heap m)) (MarkAll fuel).
Proof.
  pose proof (Mark_shape h0 fuel) as Hmark.
  unfold MarkAll. unfold_plain. preserves_tac.
Qed.

Lemma preserves_GarbageCollect fuel : preserves heap_consistent (GarbageCollect fuel).
Proof.
  intros m [] m' (Hnd & Hdom & Hcount & Hunm & Hfresh) H.
  destruct (GarbageCollect_threshold _ _ _ H) as [_ Hcount'].
  specialize (Hcount' Hcount).
  assert (next_addr m' = next_addr m) as Hnext
    by (eapply (keeps_GarbageCollect next_addr); [repeat split | exact H]).
  unfold GarbageCollect in H.
  apply bind_inv in H as ([] & m1 & H1 & H).
  apply bind_inv in H as ([] & m3 & H2 & H).
  unfold Sweep in H2. rewrite bind_gets in H2.
  apply bind_inv in H2 as (chain' & m2 & H2 & H3). apply modify_Ok in H3 as ->.
  rewrite bind_gets in H. apply bind_inv in H as (n2 & m4 & H4 & H).
  apply int_result_Ok in H4 as (-> & -> & _). apply modify_Ok in H as ->.
  cbn in *.
  assert (same_shape (heap m) (heap m1)) as Hs
    by (eapply (MarkAll_shape (heap m)); [apply same_shape_refl | exact H1]).
  assert (GCHead m1 = GCHead m) as Hc
    by (eapply (keeps_MarkAll GCHead); [split; reflexivity | exact H1]).
  assert (NoDup (GCHead m1)) as Hnd1 by (rewrite Hc; exact Hnd).
  destruct (Sweep_chain_exact _ _ _ _ Hnd1 H2) as (Hin & Hnd' & Hheap).
  rewrite Hc in Hin, Hheap.
  assert (∀ a, heap m2 !! a = heap m1 !! a ≫= swept) as Hheap'.
  { intros a. rewrite Hheap. case_decide as Hon; [reflexivity|].
    destruct (heap m !! a) as [o|] eqn:Ho.
    - exfalso. apply Hon, Hdom. eauto.
    - rewrite (same_shape_None _ _ _ Hs Ho). reflexivity. }
  split; [exact Hnd'|]. split; [|split; [exact Hcount'|split]].
  - intros a. rewrite Hin, Hheap'. unfold is_marked. split.
    + intros (_ & o1 & -> & Hmark). cbn. unfold swept. rewrite Hmark. eauto.
    + intros [o Ho]. destruct (heap m1 !! a) as [o1|] eqn:Ho1; [|discriminate Ho].
      cbn in Ho. unfold swept in Ho. destruct (marked o1) eqn:Hmark; [|discriminate Ho].
      split; [|eauto]. apply Hdom.
      destruct (heap m !! a) as [o0|] eqn:Ho0; [eauto|].
      rewrite (same_shape_None _ _ _ Hs Ho0) in Ho1. discriminate.
  - intros a o Ho. rewrite Hheap' in Ho.
    destruct (heap m1 !! a) as [o1|]; [|discriminate Ho].
    cbn in Ho. unfold swept in Ho. destruct (marked o1); [|discriminate Ho].
    injection Ho as <-. reflexivity.
  - intros a Ha. cbn in Ha |- *. rewrite Hheap'. rewrite Hnext in Ha.
    rewrite (same_shape_None _ _ _ Hs (Hfresh a Ha)). reflexivity.
Qed.

Lemma preserves_allocate t : preserves heap_consistent (allocate t).
Proof.
  intros m a m' (Hnd & Hdom & Hcount & Hunm & Hfresh) H.
  unfold allocate in H.
  rewrite bind_gets, !bind_modify, bind_gets in H.
  apply bind_inv in H as (n' & m1 & H1 & H). apply int_result_Ok in H1 as (-> & -> & _).
  rewrite bind_modify in H. apply ret_Ok in H as [-> ->].
  assert (heap m !! next_addr m = None) as Hnew by (apply Hfresh; lia).
  assert (next_addr m ∉ GCHead m) as Hnotin.
  { intros Hin. apply Hdom in Hin as [o Ho]. congruence. }
  unfold heap_consistent. cbn.
  split; [apply NoDup_cons; split; assumption|]. split; [|split; [|split]].
  - intros a. rewrite elem_of_cons, Hdom. destruct (decide (a = next_addr m)) as [->|Ha].
    + rewrite lookup_insert_eq. split; [eauto | left; reflexivity].
    + rewrite lookup_insert_ne by congruence. split; [intros [?|?]; [congruence | assumption]|].
      intros ?. right. assumption.
  - cbn [length]. lia.
  - intros a o. destruct (decide (a = next_addr m)) as [->|Ha].
    + rewrite lookup_insert_eq. intros [= <-]. reflexivity.
    + rewrite lookup_insert_ne by congruence. apply Hunm.
  - intros a Ha. rewrite lookup_insert_ne by lia. apply Hfresh. lia.
Qed.

Lemma preserves_NewObject fuel t : preserves heap_consistent (NewObject fuel t).
Proof.
  pose proof (preserves_GarbageCollect fuel). pose proof (preserves_allocate t).
  unfold NewObject. preserves_tac.
Qed.

Lemma preserves_set_val a v : preserves heap_consistent (set_val a v).
Proof.
  unfold set_val. apply preserves_modify.
  intros m (Hnd & Hdom & Hcount & Hunm & Hfresh). unfold heap_consistent. cbn.
  split; [exact Hnd|]. split; [|split; [exact Hcount|split]].
  - intros b. rewrite Hdom. destruct (decide (b = a)) as [->|Hb].
    + rewrite lookup_alter_eq. destruct (heap m !! a); cbn; split; intros [? ?];
        eauto; discriminate.
    + rewrite lookup_alter_ne by congruence. reflexivity.
  - intros b o. destruct (decide (b = a)) as [->|Hb].
    + rewrite lookup_alter_eq. destruct (heap m !! a) as [o'|] eqn:Ho; cbn; [|discriminate].
      intros [= <-]. cbn. eapply Hunm, Ho.
    + rewrite lookup_alter_ne by congruence. apply Hunm.
  - intros b Hb. destruct (decide (b = a)) as [->|Hne].
    + rewrite lookup_alter_eq, (Hfresh a Hb). reflexivity.
    + rewrite lookup_alter_ne by congruence. apply Hfresh, Hb.
Qed.

Lemma preserves_callback ff i :
  heap_safe ff →
  preserves heap_consistent
    (let* callback := load "ForeignFunctions index out of bounds" ff i in callback).
Proof.
  intros Hff m x m' HP H. apply bind_inv in H as (cb & m1 & Hl & H).
  apply load_Ok in Hl as [Hl ->]. unfold idx in Hl. destruct (0 <=? i); [|discriminate].
  apply list_elem_of_lookup_2 in Hl.
  unfold heap_safe in Hff. rewrite Forall_forall in Hff.
  eapply Hff; eassumption.
Qed.

Lemma preserves_execute ff fuel op :
  heap_safe ff → preserves heap_consistent (execute ff fuel op).
Proof.
  intros Hff.
  pose proof (preserves_NewObject fuel) as Hnew.
  pose proof preserves_set_val as Hval.
  destruct op as [op|]; [|apply preserves_ret].
  destruct op;
    try (unfold execute, BIN_OP, BIN_OP_INT, DoRead, NewNumber, NewArray;
         unfold_plain; preserves_tac; fail).
  (* CALLF *)
  unfold execute.
  apply preserves_bind; [unfold_plain; preserves_tac|]. intros _.
  apply preserves_bind; [unfold_plain; preserves_tac|]. intros i.
  exact (preserves_callback ff i Hff).
Qed.

(** X16.  The cycles of the machine keep the chain of the collector
    consistent: when the chain lists the objects of the heap once
    each, [NumObjects] is its length, no object is marked and the
    addresses from [next_addr] on are unused, then the same holds
    after a cycle that returns, whether it allocates, collects or
    stores into an object.  [InitInterpreter] on a machine without
    objects establishes it.  (Host callbacks are assumed to keep it;
    [READ], which fills a buffer of its own, is left aside.) *)
Theorem cycle_keeps_chain_consistent :
  (∀ m m', InitInterpreter m = Ok (tt, m') →
           heap m = ∅ → heap_consistent m') ∧
  (∀ ff fuel m m',
     heap_safe ff →
     heap_consistent m →
     instruction_at m ≠ Some OP_READ →
     ExecuteCycle ff fuel m = Ok (tt, m') →
     heap_consistent m').
Proof.
  split.
  - intros m m' H Hempty. unfold InitInterpreter, ResetMachine in H.
    repeat (rewrite ?bind_assoc, bind_modify in H). apply modify_Ok in H as ->.
    unfold heap_consistent. cbn. rewrite Hempty.
    split; [constructor|]. split; [|split; [reflexivity|split]].
    + intros a. rewrite lookup_empty. split; [intros Ha; inversion Ha | intros [? ?]; discriminate].
    + intros a o. rewrite lookup_empty. discriminate.
    + intros a _. apply lookup_empty.
  - intros ff fuel m m' Hff HP _ H.
    assert (preserves heap_consistent (ExecuteCycle ff fuel)) as Hcycle.
    { unfold ExecuteCycle.
      apply preserves_bind; [apply preserves_gets|]. intros pc.
      apply preserves_bind; [apply preserves_gets|]. intros prog.
      apply preserves_bind; [unfold load; preserves_tac|]. intros w.
      apply preserves_execute, Hff. }
    eapply Hcycle; eassumption.
Qed.

(** * The lexer *)

Lemma getc_reading c text : getc (mkStream c text) = reading text.
Proof. reflexivity. Qed.

Lemma skip_while_stop fuel test s :
  test (last s) = false → skip_while fuel test s = s.
Proof. intros H. destruct fuel; simpl; rewrite H; reflexivity. Qed.

Lemma skip_while_run test l : ∀ fuel c text,
  test c = true → Forall (λ x, test x = true) l →
  test (last (reading text)) = false →
  (length l < fuel)%nat →
  skip_while fuel test (mkStream c (l ++ text)) = reading text.
Proof.
  induction l as [|x l IH]; intros fuel c text Hc Hl Hstop Hfuel.
  - destruct fuel as [|fuel]; [simpl in Hfuel; lia|].
    simpl. rewrite Hc. rewrite getc_reading. apply skip_while_stop, Hstop.
  - destruct fuel as [|fuel]; [simpl in Hfuel; lia|].
    inversion Hl as [|? ? Hx Hl']; subst.
    simpl. rewrite Hc. unfold getc. simpl ahead. cbv iota.
    apply IH; [assumption .. | simpl in Hfuel; lia].
Qed.

Lemma fill_stop fuel test guard buf s m :
  test (last s) = false → fill fuel test guard buf s m = Ok ((buf, s), m).
Proof. intros H. destruct fuel; simpl; rewrite H; reflexivity. Qed.

Lemma fill_run test guard l : ∀ fuel buf c text m,
  test c = true → Forall (λ x, test x = true) l →
  test (last (reading text)) = false →
  (∀ i, (length buf ≤ i ≤ length buf + length l)%nat →
        guard (Z.of_nat i) = ret tt) →
  (length l < fuel)%nat →
  fill fuel test guard buf (mkStream c (l ++ text)) m =
    Ok ((buf ++ c :: l, reading text), m).
Proof.
  induction l as [|x l IH]; intros fuel buf c text m Hc Hl Hstop Hguard Hfuel.
  - destruct fuel as [|fuel]; [simpl in Hfuel; lia|].
    simpl. rewrite Hc. rewrite Hguard by (simpl; lia). rewrite bind_ret.
    rewrite getc_reading. apply fill_stop, Hstop.
  - destruct fuel as [|fuel]; [simpl in Hfuel; lia|].
    inversion Hl as [|? ? Hx Hl']; subst.
    simpl. rewrite Hc. rewrite Hguard by (simpl; lia). rewrite bind_ret.
    unfold getc. simpl ahead. cbv iota.
    rewrite IH; [| assumption .. | | simpl in Hfuel; lia].
    + rewrite <- app_assoc. reflexivity.
    + intros i Hi. apply Hguard. rewrite length_app in Hi. simpl in *. lia.
Qed.

(** A run that reaches an index the guard refuses. *)
Lemma fill_refused test guard f l : ∀ fuel buf c text m,
  test c = true → Forall (λ x, test x = true) l →
  (∀ i, (length buf ≤ i < length buf + length l)%nat →
        guard (Z.of_nat i) = ret tt) →
  guard (Z.of_nat (length buf + length l)) = fail f →
  (length l < fuel)%nat →
  fill fuel test guard buf (mkStream c (l ++ text)) m = Fail f.
Proof.
  induction l as [|x l IH]; intros fuel buf c text m Hc Hl Hguard Hbad Hfuel.
  - destruct fuel as [|fuel]; [simpl in Hfuel; lia|].
    simpl. rewrite Hc. replace (length buf + length [])%nat with (length buf) in Hbad
      by (simpl; lia).
    rewrite Hbad. reflexivity.
  - destruct fuel as [|fuel]; [simpl in Hfuel; lia|].
    inversion Hl as [|? ? Hx Hl']; subst.
    simpl. rewrite Hc. rewrite Hguard by (simpl; lia). rewrite bind_ret.
    unfold getc. simpl ahead. cbv iota.
    apply IH; [assumption .. | | | simpl in Hfuel; lia].
    + intros i Hi. apply Hguard. rewrite length_app in Hi. simpl in *. lia.
    + rewrite length_app. simpl. rewrite <- Hbad. f_equal. f_equal. simpl. lia.
Qed.

Lemma GetToken_eq strtod fuel s :
  GetToken strtod fuel s =
    let s := skip_space s in
    if isalpha (last s) then
      let* r := fill 256 word_char (asserted "Token was too long!") [] s in
      terminate r.1 ;;
      let* tok := keyword (c_string r.1) in
      ret (tok, r.2)
    else if isdigit (last s) then
      let* r :=
        fill 256 (λ c, isdigit c || (c =? chr "."))
          (asserted "Number was too long!") [] s in
      terminate r.1 ;;
      modify (set_TokenNumber (strtod (c_string r.1))) ;;
      ret (TOK_NUMBER, r.2)
    else if last s =? chr "#" then
      match fuel with
      | O => fail (OutOfFuel "GetToken")
      | S fuel' => GetToken strtod fuel' (skip_comment s)
      end
    else if last s =? chr "$" then
      let* r :=
        fill 256 word_char (asserted "Token was too long!") [] (getc s) in
      terminate r.1 ;;
      ret (TOK_LOCALREF, r.2)
    else if last s =? chr "034" then
      let* r := fill 257 (λ c, negb (c =? chr "034")) unguarded [] (getc s) in
      terminate r.1 ;;
      ret (TOK_STRING, getc r.2)
    else if last s =? EOF then ret (TOK_EOF, s)
    else
      two_chars "=" TOK_EQUALS s
        (two_chars "!" TOK_NOTEQUALS s
           (two_chars "<" TOK_LTE s
              (two_chars ">" TOK_GTE s
                 (ret (last s, getc s))))).
Proof. destruct fuel; reflexivity. Qed.

Lemma skip_while_eof fuel test :
  skip_while fuel test (mkStream EOF []) = mkStream EOF [].
Proof.
  induction fuel as [|fuel IH]; simpl; destruct (test EOF); try reflexivity.
  exact IH.
Qed.

Lemma skip_while_fuel test : ∀ fuel fuel' s,
  (length (ahead s) < fuel)%nat → (length (ahead s) < fuel')%nat →
  skip_while fuel test s = skip_while fuel' test s.
Proof.
  induction fuel as [|fuel IH]; intros fuel' s H H'; [lia|].
  destruct fuel' as [|fuel']; [lia|].
  simpl. destruct (test (last s)); [|reflexivity].
  destruct s as [c [|x rest]]; unfold getc; simpl ahead; cbv iota.
  - rewrite !skip_while_eof. reflexivity.
  - apply IH; simpl in *; lia.
Qed.

Lemma skip_while_prefix test l : ∀ fuel c text,
  test c = true → Forall (λ x, test x = true) l →
  (length l < fuel)%nat →
  skip_while fuel test (mkStream c (l ++ text)) =
    skip_while (fuel - S (length l)) test (reading text).
Proof.
  induction l as [|x l IH]; intros fuel c text Hc Hl Hfuel.
  - destruct fuel as [|fuel]; [simpl in Hfuel; lia|].
    simpl. rewrite Hc. rewrite getc_reading. f_equal. lia.
  - destruct fuel as [|fuel]; [simpl in Hfuel; lia|].
    inversion Hl as [|? ? Hx Hl']; subst.
    simpl. rewrite Hc. unfold getc. simpl ahead. cbv iota.
    rewrite IH; [| assumption .. | simpl in Hfuel; lia].
    reflexivity.
Qed.

Lemma reading_ahead text : (length (ahead (reading text)) ≤ length text)%nat.
Proof. destruct text; simpl; lia. Qed.

Lemma skip_space_blanks c blanks text :
  isspace c = true → Forall (λ x, isspace x = true) blanks →
  skip_space (mkStream c (blanks ++ text)) = skip_space (reading text).
Proof.
  intros Hc Hb. unfold skip_space. simpl ahead.
  rewrite skip_while_prefix by (try assumption; rewrite length_app; lia).
  pose proof (reading_ahead text).
  destruct (decide (text = [])) as [->|Hne].
  - rewrite !skip_while_eof. reflexivity.
  - apply skip_while_fuel; [|lia].
    rewrite length_app. destruct text; [done|]. simpl. lia.
Qed.

Lemma skip_space_stop s : isspace (last s) = false → skip_space s = s.
Proof. apply skip_while_stop. Qed.

Lemma skip_while_settles test : ∀ fuel s,
  (length (ahead s) < fuel)%nat →
  test EOF = false →
  test (last (skip_while fuel test s)) = false.
Proof.
  induction fuel as [|fuel IH]; intros s Hfuel Heof; [lia|].
  simpl. destruct (test (last s)) eqn:E; [|exact E].
  destruct s as [c [|x rest]]; unfold getc; simpl ahead; cbv iota.
  - rewrite skip_while_eof. exact Heof.
  - apply IH; [simpl in *; lia | exact Heof].
Qed.

Lemma skip_space_settles s : isspace (last (skip_space s)) = false.
Proof. apply skip_while_settles; [lia | reflexivity]. Qed.

Ltac chars_tac :=
  unfold word_char, isalnum, isalpha, isdigit, isspace, tok_in, EOF, chr in *;
  cbn in *;
  repeat match goal with
    | |- context [(?a <=? ?b)] => destruct (Z.leb_spec a b)
    | |- context [(?a =? ?b)] => destruct (Z.eqb_spec a b)
    | H : context [(?a <=? ?b)] |- _ => destruct (Z.leb_spec a b)
    | H : context [(?a =? ?b)] |- _ => destruct (Z.eqb_spec a b)
    end;
  cbn in *; try reflexivity; try discriminate; try lia.

Lemma fill_word test guard w : ∀ fuel text m,
  Forall (λ x, test x = true) w →
  test (last (reading text)) = false →
  (∀ i, (i < length w)%nat → guard (Z.of_nat i) = ret tt) →
  (length w ≤ fuel)%nat →
  fill fuel test guard [] (reading (w ++ text)) m = Ok ((w, reading text), m).
Proof.
  intros fuel text m Hw Hstop Hguard Hfuel.
  destruct w as [|c w].
  - apply fill_stop, Hstop.
  - inversion Hw; subst. change (reading ((c :: w) ++ text)) with (mkStream c (w ++ text)).
    apply fill_run; try assumption.
    intros i Hi. apply Hguard. simpl in *. lia.
Qed.

Lemma fill_too_long test guard f w n : ∀ fuel text m,
  Forall (λ x, test x = true) w →
  (∀ i, (i < n)%nat → guard (Z.of_nat i) = ret tt) →
  guard (Z.of_nat n) = fail f →
  (n < length w)%nat → (n < fuel)%nat →
  fill fuel test guard [] (reading (w ++ text)) m = Fail f.
Proof.
  intros fuel text m Hw Hguard Hbad Hlen Hfuel.
  destruct w as [|c w]; [simpl in Hlen; lia|].
  inversion Hw as [|? ? Hc Hw']; subst.
  change (reading ((c :: w) ++ text)) with (mkStream c (w ++ text)).
  rewrite <- (take_drop n w), <- app_assoc.
  assert (length (take n w) = n) as Hn by (rewrite length_take; simpl in Hlen; lia).
  apply fill_refused; try assumption.
  - apply Forall_take, Hw'.
  - intros i Hi. apply Hguard. simpl in Hi. lia.
  - rewrite Hn. exact Hbad.
  - lia.
Qed.

Lemma asserted_ok what i : (i < 255)%nat → asserted what (Z.of_nat i) = ret tt.
Proof.
  intros H. unfold asserted, MAX_TOK_LEN.
  destruct (Z.ltb_spec (Z.of_nat i) (256 - 1)); [reflexivity | lia].
Qed.

Lemma asserted_fail what : asserted what (Z.of_nat 255) = fail (AssertFail what).
Proof. reflexivity. Qed.

Lemma unguarded_ok i : (i < 256)%nat → unguarded (Z.of_nat i) = ret tt.
Proof.
  intros H. unfold unguarded, MAX_TOK_LEN.
  destruct (Z.ltb_spec (Z.of_nat i) 256); [reflexivity | lia].
Qed.

Lemma terminate_step {B} buf (k : unit → M B) m :
  (length buf < 256)%nat →
  bind (terminate buf) k m = k tt (set_TokenBuffer (c_string buf) m).
Proof.
  intros H. unfold terminate, MAX_TOK_LEN.
  destruct (Z.ltb_spec (Z.of_nat (length buf)) 256); [reflexivity | lia].
Qed.

(** X17.  An identifier: a letter followed by letters, digits and
    underscores, up to the first other character or the end of the
    file.  [GetToken] leaves the word in [TokenBuffer] and returns
    what the chain of comparisons with the reserved words gives:
    their token, a number for [true] and [false], [TOK_IDENT]
    otherwise.  A [$] followed by a word, which may be empty and may
    start with a digit, is a [TOK_LOCALREF] with the word in
    [TokenBuffer].  A word of up to 255 characters is read; at the
    256th the assertion fails. *)
Theorem words_are_names_or_keywords strtod fuel c w text m :
  isalpha c = true →
  Forall (λ x, word_char x = true) w →
  word_char (last (reading text)) = false →
  ((length w < 255)%nat →
     GetToken strtod fuel (reading (c :: w ++ text)) m =
       (let* tok := keyword (c_string (c :: w)) in ret (tok, reading text))
         (set_TokenBuffer (c_string (c :: w)) m))
  ∧ ((length w ≤ 255)%nat →
     GetToken strtod fuel (reading (chr "$" :: w ++ text)) m =
       Ok ((TOK_LOCALREF, reading text), set_TokenBuffer (c_string w) m))
  ∧ ((255 ≤ length w)%nat →
     GetToken strtod fuel (reading (c :: w ++ text)) m =
       Fail (AssertFail "Token was too long!"))
  ∧ ((255 < length w)%nat →
     GetToken strtod fuel (reading (chr "$" :: w ++ text)) m =
       Fail (AssertFail "Token was too long!")).
Proof.
  intros Hc Hw Hstop.
  assert (word_char c = true) as Hwc by (clear - Hc; chars_tac).
  assert (isspace c = false) as Hsp by (clear - Hc; chars_tac).
  assert (Forall (λ x, word_char x = true) (c :: w)) as Hcw by (constructor; assumption).
  repeat split; intros Hlen; rewrite GetToken_eq; cbv zeta.
  - rewrite skip_space_stop by exact Hsp.
    change (last (reading (c :: w ++ text))) with c. rewrite Hc.
    change (c :: w ++ text) with ((c :: w) ++ text).
    erewrite bind_step; [| apply fill_word; try assumption;
      [intros i Hi; apply asserted_ok; simpl in Hi; lia | simpl; lia]].
    cbn [fst snd]. rewrite terminate_step by (simpl; lia). reflexivity.
  - rewrite skip_space_stop by reflexivity.
    change (last (reading (chr "$" :: w ++ text))) with (chr "$").
    cbn [isalpha isdigit]. 
    change (getc (reading (chr "$" :: w ++ text))) with (reading (w ++ text)).
    replace (isalpha (chr "$")) with false by reflexivity.
    replace (isdigit (chr "$")) with false by reflexivity.
    replace (chr "$" =? chr "#") with false by reflexivity.
    replace (chr "$" =? chr "$") with true by reflexivity.
    erewrite bind_step; [| apply fill_word; try assumption;
      [intros i Hi; apply asserted_ok; lia | lia]].
    cbn [fst snd]. rewrite terminate_step by lia. reflexivity.
  - rewrite skip_space_stop by exact Hsp.
    change (last (reading (c :: w ++ text))) with c. rewrite Hc.
    change (c :: w ++ text) with ((c :: w) ++ text).
    apply bind_Fail.
    apply (fill_too_long _ _ _ _ 255%nat); try assumption.
    + intros i Hi. apply asserted_ok. lia.
    + reflexivity.
    + simpl. lia.
    + lia.
  - rewrite skip_space_stop by reflexivity.
    change (last (reading (chr "$" :: w ++ text))) with (chr "$").
    change (getc (reading (chr "$" :: w ++ text))) with (reading (w ++ text)).
    replace (isalpha (chr "$")) with false by reflexivity.
    replace (isdigit (chr "$")) with false by reflexivity.
    replace (chr "$" =? chr "#") with false by reflexivity.
    replace (chr "$" =? chr "$") with true by reflexivity.
    apply bind_Fail.
    apply (fill_too_long _ _ _ _ 255%nat); try assumption.
    + intros i Hi. apply asserted_ok. lia.
    + reflexivity.
    + lia.
Qed.

Lemma GetToken_skip strtod fuel s s' m :
  skip_space s = skip_space s' →
  GetToken strtod fuel s m = GetToken strtod fuel s' m.
Proof. intros H. rewrite !GetToken_eq. cbv zeta. rewrite H. reflexivity. Qed.

Lemma GetToken_eof strtod fuel s m :
  last s = EOF → GetToken strtod fuel s m = Ok ((TOK_EOF, s), m).
Proof.
  intros H. rewrite GetToken_eq. cbv zeta.
  rewrite skip_space_stop by (rewrite H; reflexivity).
  rewrite H. reflexivity.
Qed.

Lemma skip_while_ahead test : ∀ fuel s,
  (length (ahead (skip_while fuel test s)) ≤ length (ahead s))%nat.
Proof.
  induction fuel as [|fuel IH]; intros s; simpl;
    destruct (test (last s)); try lia.
  etransitivity; [apply IH|].
  destruct s as [c [|x rest]]; simpl; lia.
Qed.

Lemma fill_fuel test guard f N : ∀ fuel buf s m what,
  (∀ i, guard i = ret tt ∨ guard i = fail f) →
  (∀ i, N ≤ i → guard i = fail f) →
  (∀ who, f ≠ OutOfFuel who) →
  Z.of_nat (length buf) ≤ N → N < Z.of_nat fuel + Z.of_nat (length buf) →
  fill fuel test guard buf s m ≠ Fail (OutOfFuel what).
Proof.
  induction fuel as [|fuel IH]; intros buf s m what Hg Hbad Hf Hlen Hfuel;
    simpl; destruct (test (last s)); try discriminate; [lia|].
  destruct (Hg (Z.of_nat (length buf))) as [Hok | Hno].
  - rewrite Hok, bind_ret.
    destruct (decide (Z.of_nat (length buf) = N)) as [E|E].
    + rewrite Hbad in Hok by lia.
      apply (f_equal (λ c, c m)) in Hok. discriminate.
    + apply IH; try assumption; rewrite length_app; simpl; lia.
  - rewrite Hno, bind_fail. intros [= H]. exact (Hf _ H).
Qed.

Lemma asserted_cases what i :
  asserted what i = ret tt ∨ asserted what i = fail (AssertFail what).
Proof. unfold asserted. destruct (i <? MAX_TOK_LEN - 1); auto. Qed.

Lemma unguarded_cases i :
  unguarded i = ret tt
  ∨ unguarded i = fail (Undefined "TokenBuffer index out of bounds").
Proof. unfold unguarded. destruct (i <? MAX_TOK_LEN); auto. Qed.

Lemma fill_asserted_fuel test what s m who :
  fill 256 test (asserted what) [] s m ≠ Fail (OutOfFuel who).
Proof.
  apply (fill_fuel _ _ (AssertFail what) 255).
  - apply asserted_cases.
  - intros i Hi. unfold asserted, MAX_TOK_LEN.
    destruct (Z.ltb_spec i (256 - 1)); [lia | reflexivity].
  - discriminate.
  - simpl. lia.
  - simpl. lia.
Qed.

Lemma fill_unguarded_fuel test s m who :
  fill 257 test unguarded [] s m ≠ Fail (OutOfFuel who).
Proof.
  apply (fill_fuel _ _ (Undefined "TokenBuffer index out of bounds") 256).
  - apply unguarded_cases.
  - intros i Hi. unfold unguarded, MAX_TOK_LEN.
    destruct (Z.ltb_spec i 256); [lia | reflexivity].
  - discriminate.
  - simpl. lia.
  - simpl. lia.
Qed.

Lemma fill_state test guard : ∀ fuel buf s m r m',
  (∀ i m0 m1, guard i m0 = Ok (tt, m1) → m1 = m0) →
  fill fuel test guard buf s m = Ok (r, m') → m' = m.
Proof.
  induction fuel as [|fuel IH]; intros buf s m r m' Hg; simpl;
    destruct (test (last s)); try discriminate;
    try (intros [= <- <-]; reflexivity).
  intros H. apply bind_inv in H as ([] & m1 & H1 & H2).
  apply Hg in H1 as ->. eapply IH; eassumption.
Qed.

Lemma terminate_cases buf m :
  terminate buf m = Ok (tt, set_TokenBuffer (c_string buf) m)
  ∨ terminate buf m = Fail (Undefined "TokenBuffer index out of bounds").
Proof. unfold terminate. destruct (_ <? _); auto. Qed.

Lemma keyword_not_fuel buf m who : keyword buf m ≠ Fail (OutOfFuel who).
Proof.
  unfold keyword.
  repeat (destruct (String.eqb buf _); [discriminate|]). discriminate.
Qed.

Lemma two_chars_not_fuel first tok s otherwise m who :
  otherwise m ≠ Fail (OutOfFuel who) →
  two_chars first tok s otherwise m ≠ Fail (OutOfFuel who).
Proof. unfold two_chars. destruct (_ && _); [discriminate | auto]. Qed.

Lemma GetToken_fuel strtod who : ∀ fuel s m,
  (length (ahead s) < fuel)%nat ∨ last s = EOF →
  GetToken strtod fuel s m ≠ Fail (OutOfFuel who).
Proof.
  induction fuel as [|fuel IH]; intros s m [Hlen | Heof]; try lia;
    try (rewrite GetToken_eof by exact Heof; discriminate).
  rewrite GetToken_eq. cbv zeta.
  pose proof (skip_while_ahead isspace (S (length (ahead s))) s) as Hsk.
  fold (skip_space s) in Hsk.
  set (s' := skip_space s) in *. clearbody s'.
  destruct (isalpha (last s')).
  { unfold bind at 1.
    pose proof (fill_asserted_fuel word_char "Token was too long!" s' m who).
    destruct (fill _ _ _ _ _ _) as [[r m1]|f] eqn:E; [|congruence].
    destruct (terminate_cases r.1 m1) as [Ht|Ht].
    - erewrite bind_step by exact Ht. unfold bind.
      destruct (keyword _ _) as [[]|f0] eqn:Ek; [discriminate|].
      intros Heq. injection Heq as ->.
      exact (keyword_not_fuel _ _ _ Ek).
    - erewrite bind_Fail by exact Ht. discriminate. }
  destruct (isdigit (last s')).
  { unfold bind at 1.
    pose proof (fill_asserted_fuel (λ c, isdigit c || (c =? chr "."))
                  "Number was too long!" s' m who).
    destruct (fill _ _ _ _ _ _) as [[r m1]|f] eqn:E; [|congruence].
    destruct (terminate_cases r.1 m1) as [Ht|Ht].
    - erewrite bind_step by exact Ht. discriminate.
    - erewrite bind_Fail by exact Ht. discriminate. }
  destruct (last s' =? chr "#") eqn:Ehash.
  { apply IH. unfold skip_comment.
    apply Z.eqb_eq in Ehash.
    destruct s' as [c [|x rest]]; simpl in Ehash; subst c.
    - right. reflexivity.
    - left. cbn [ahead].
      change (skip_while (S (length (x :: rest))) ?t (mkStream (chr "#") (x :: rest)))
        with (skip_while (length (x :: rest)) t (mkStream x rest)).
      pose proof (skip_while_ahead
        (λ c, negb (c =? chr "010") && negb (c =? EOF)) (length (x :: rest))
        (mkStream x rest)) as H.
      remember (skip_while _ _ _) as s2 eqn:E2. clear E2.
      cbn [ahead length] in H, Hsk. lia. }
  destruct (last s' =? chr "$").
  { unfold bind at 1.
    pose proof (fill_asserted_fuel word_char "Token was too long!" (getc s') m who).
    destruct (fill _ _ _ _ _ _) as [[r m1]|f] eqn:E; [|congruence].
    destruct (terminate_cases r.1 m1) as [Ht|Ht].
    - erewrite bind_step by exact Ht. discriminate.
    - erewrite bind_Fail by exact Ht. discriminate. }
  destruct (last s' =? chr "034").
  { unfold bind at 1.
    pose proof (fill_unguarded_fuel (λ c, negb (c =? chr "034")) (getc s') m who).
    destruct (fill _ _ _ _ _ _) as [[r m1]|f] eqn:E; [|congruence].
    destruct (terminate_cases r.1 m1) as [Ht|Ht].
    - erewrite bind_step by exact Ht. discriminate.
    - erewrite bind_Fail by exact Ht. discriminate. }
  destruct (last s' =? EOF); [discriminate|].
  repeat apply two_chars_not_fuel. discriminate.
Qed.

(** X18.  What [GetToken] passes over.  White space before a token is
    skipped, and so is the space [last] holds when the file is opened.
    A comment runs from [#] to the end of its line; the token is the
    one that follows.  At the end of the file, also at the end of a
    comment with no line end, the token is [TOK_EOF], again at every
    later call, and the lexer reads nothing more.  [GetToken] calls
    itself once per comment: as many calls as the file has characters
    left, and one, are always enough. *)
Theorem blanks_and_comments_are_skipped strtod :
  (∀ fuel blanks text m,
     Forall (λ x, isspace x = true) blanks →
     GetToken strtod fuel (opened (blanks ++ text)) m =
       GetToken strtod fuel (reading text) m)
  ∧ (∀ fuel body text m,
       Forall (λ x, x ≠ chr "010" ∧ x ≠ EOF) body →
       GetToken strtod (S fuel) (reading (chr "#" :: body ++ chr "010" :: text)) m =
         GetToken strtod fuel (reading text) m)
  ∧ (∀ fuel body m,
       Forall (λ x, x ≠ chr "010" ∧ x ≠ EOF) body →
       GetToken strtod (S fuel) (reading (chr "#" :: body)) m =
         Ok ((TOK_EOF, reading []), m))
  ∧ (∀ fuel m,
       GetToken strtod fuel (reading []) m = Ok ((TOK_EOF, reading []), m))
  ∧ (∀ fuel text m who,
       (length text < fuel)%nat →
       GetToken strtod fuel (opened text) m ≠ Fail (OutOfFuel who)).
Proof.
  set (in_comment := λ c : Z, negb (c =? chr "010") && negb (c =? EOF)).
  assert (∀ body, Forall (λ x, x ≠ chr "010" ∧ x ≠ EOF) body →
            Forall (λ x, in_comment x = true) body) as Hbody.
  { intros body Hb. eapply Forall_impl; [exact Hb|]. intros x [H1 H2]. unfold in_comment.
    apply Z.eqb_neq in H1, H2. rewrite H1, H2. reflexivity. }
  split; [|split; [|split; [|split]]].
  - intros fuel blanks text m Hb. apply GetToken_skip.
    apply skip_space_blanks; [reflexivity | assumption].
  - intros fuel body text m Hb. rewrite GetToken_eq. cbv zeta.
    rewrite skip_space_stop by reflexivity.
    change (last (reading (chr "#" :: body ++ chr "010" :: text))) with (chr "#").
    replace (isalpha (chr "#")) with false by reflexivity.
    replace (isdigit (chr "#")) with false by reflexivity.
    replace (chr "#" =? chr "#") with true by reflexivity.
    cbv iota.
    assert (skip_comment (reading (chr "#" :: body ++ chr "010" :: text))
            = mkStream (chr "010") text) as ->.
    { unfold skip_comment. fold in_comment.
      change (reading (chr "#" :: body ++ chr "010" :: text))
        with (mkStream (chr "#") (body ++ chr "010" :: text)).
      rewrite skip_while_prefix; [| reflexivity | auto | simpl; rewrite length_app; simpl; lia].
      apply skip_while_stop. reflexivity. }
    apply GetToken_skip.
    apply (skip_space_blanks (chr "010") [] text); [reflexivity | constructor].
  - intros fuel body m Hb. rewrite GetToken_eq. cbv zeta.
    rewrite skip_space_stop by reflexivity.
    change (last (reading (chr "#" :: body))) with (chr "#").
    replace (isalpha (chr "#")) with false by reflexivity.
    replace (isdigit (chr "#")) with false by reflexivity.
    replace (chr "#" =? chr "#") with true by reflexivity.
    cbv iota.
    assert (skip_comment (reading (chr "#" :: body)) = reading []) as ->.
    { unfold skip_comment. fold in_comment.
      change (reading (chr "#" :: body)) with (mkStream (chr "#") body).
      rewrite <- (app_nil_r body) at 2.
      apply skip_while_run; [reflexivity | auto | reflexivity | simpl; lia]. }
    apply GetToken_eof. reflexivity.
  - intros fuel m. apply GetToken_eof. reflexivity.
  - intros fuel text m who Hlen. apply GetToken_fuel. left. exact Hlen.
Qed.

Lemma GetToken_punctuation strtod fuel c text m :
  punctuation c = true →
  GetToken strtod fuel (reading (c :: text)) m =
    two_chars "=" TOK_EQUALS (reading (c :: text))
      (two_chars "!" TOK_NOTEQUALS (reading (c :: text))
         (two_chars "<" TOK_LTE (reading (c :: text))
            (two_chars ">" TOK_GTE (reading (c :: text))
               (ret (c, reading text))))) m.
Proof.
  intros Hc. unfold punctuation in Hc.
  apply negb_true_iff in Hc.
  apply orb_false_iff in Hc as [Hc Hin].
  apply orb_false_iff in Hc as [Hc Hdi].
  apply orb_false_iff in Hc as [Hsp Hal].
  rewrite GetToken_eq. cbv zeta.
  rewrite skip_space_stop by exact Hsp.
  change (last (reading (c :: text))) with c.
  change (getc (reading (c :: text))) with (reading text).
  unfold tok_in, existsb in *.
  repeat match goal with
    | H : _ || _ = false |- _ => apply orb_false_iff in H as [? ?]
    end.
  repeat match goal with
    | H : ?b = false |- context [?b] => rewrite H
    end.
  reflexivity.
Qed.

(** X19.  The comparison operators of two characters are one token
    each; the lexer looks one character past [last] to tell them from
    [=], [!], [<] and [>].  Every other character that starts no
    word, number, comment, local reference or string is a token of its
    own, with its character code as the token, and the same holds for
    [=], [!], [<] and [>] before anything but [=].  None of this
    touches [TokenBuffer] or [TokenNumber]. *)
Theorem operators_take_the_longest_match strtod fuel text m :
  GetToken strtod fuel (reading (chr "=" :: chr "=" :: text)) m =
    Ok ((TOK_EQUALS, reading text), m)
  ∧ GetToken strtod fuel (reading (chr "!" :: chr "=" :: text)) m =
      Ok ((TOK_NOTEQUALS, reading text), m)
  ∧ GetToken strtod fuel (reading (chr "<" :: chr "=" :: text)) m =
      Ok ((TOK_LTE, reading text), m)
  ∧ GetToken strtod fuel (reading (chr ">" :: chr "=" :: text)) m =
      Ok ((TOK_GTE, reading text), m)
  ∧ ∀ c, punctuation c = true →
      (tok_in c [chr "="; chr "!"; chr "<"; chr ">"] = true →
       last (reading text) ≠ chr "=") →
      GetToken strtod fuel (reading (c :: text)) m = Ok ((c, reading text), m).
Proof.
  split; [|split; [|split; [|split]]];
    try (rewrite GetToken_punctuation by reflexivity; reflexivity).
  intros c Hc Hnext.
  rewrite GetToken_punctuation by exact Hc.
  assert (Peek (reading (c :: text)) = last (reading text)) as HP
    by (destruct text; reflexivity).
  unfold two_chars. rewrite HP.
  change (last (reading (c :: text))) with c.
  destruct (last (reading text) =? chr "=") eqn:E.
  - apply Z.eqb_eq in E.
    assert (tok_in c [chr "="; chr "!"; chr "<"; chr ">"] = false) as Hno.
    { destruct (tok_in c _); [|reflexivity]. exfalso. apply Hnext; auto. }
    unfold tok_in, existsb in Hno.
    repeat match goal with
      | H : _ || _ = false |- _ => apply orb_false_iff in H as [? ?]
      end.
    repeat match goal with
      | H : ?b = false |- context [?b] => rewrite H
      end.
    reflexivity.
  - rewrite !andb_false_r. reflexivity.
Qed.

Lemma fill_unclosed test : ∀ fuel buf s m,
  test EOF = true →
  test (last s) = true → Forall (λ x, test x = true) (ahead s) →
  (length buf ≤ 256)%nat → (256 < fuel + length buf)%nat →
  fill fuel test unguarded buf s m =
    Fail (Undefined "TokenBuffer index out of bounds").
Proof.
  induction fuel as [|fuel IH]; intros buf s m Heof Hs Ha Hlen Hfuel; [lia|].
  simpl. rewrite Hs.
  destruct (decide (length buf = 256%nat)) as [E|E].
  - rewrite E. reflexivity.
  - rewrite unguarded_ok by lia. rewrite bind_ret.
    apply IH; try assumption.
    + destruct s as [c [|x rest]]; [exact Heof|].
      inversion Ha; subst. assumption.
    + destruct s as [c [|x rest]]; [constructor|].
      inversion Ha; subst. assumption.
    + rewrite length_app. simpl. lia.
    + rewrite length_app. simpl. lia.
Qed.

(** X20.  Literals.  A number is a digit followed by digits and dots,
    however many dots: [GetToken] leaves the run in [TokenBuffer] and
    what [strtod] makes of it in [TokenNumber].  A string runs from a
    double quote to the next one, with no escape character; it is left
    in [TokenBuffer] (as far as its first NUL).  A number of up to
    255 characters is read, and at the 256th the assertion fails.  The
    string loop has no assertion: a string of up to 255 characters is
    read, a longer one is written past the end of [TokenBuffer], and
    so is one that the file ends in, since the loop does not stop at
    the end of the file. *)
Theorem literals_fill_the_token_buffer strtod fuel :
  (∀ c run text m,
     isdigit c = true →
     Forall (λ x, isdigit x || (x =? chr ".") = true) run →
     isdigit (last (reading text)) || (last (reading text) =? chr ".") = false →
     ((length run < 255)%nat →
        GetToken strtod fuel (reading (c :: run ++ text)) m =
          Ok ((TOK_NUMBER, reading text),
              set_TokenNumber (strtod (c_string (c :: run)))
                (set_TokenBuffer (c_string (c :: run)) m)))
     ∧ ((255 ≤ length run)%nat →
        GetToken strtod fuel (reading (c :: run ++ text)) m =
          Fail (AssertFail "Number was too long!")))
  ∧ (∀ body text m,
       Forall (λ x, x ≠ chr "034") body →
       ((length body ≤ 255)%nat →
          GetToken strtod fuel (reading (chr "034" :: body ++ chr "034" :: text)) m =
            Ok ((TOK_STRING, reading text), set_TokenBuffer (c_string body) m))
       ∧ ((255 < length body)%nat →
          GetToken strtod fuel (reading (chr "034" :: body ++ chr "034" :: text)) m =
            Fail (Undefined "TokenBuffer index out of bounds"))
       ∧ GetToken strtod fuel (reading (chr "034" :: body)) m =
           Fail (Undefined "TokenBuffer index out of bounds")).
Proof.
  split.
  - intros c run text m Hc Hrun Hstop.
    assert (isspace c = false) as Hsp by (clear - Hc; chars_tac).
    assert (isalpha c = false) as Hal by (clear - Hc; chars_tac).
    assert (Forall (λ x, isdigit x || (x =? chr ".") = true) (c :: run)) as Hcr.
    { constructor; [rewrite Hc; reflexivity | assumption]. }
    split; intros Hlen; rewrite GetToken_eq; cbv zeta;
      rewrite skip_space_stop by exact Hsp;
      change (last (reading (c :: run ++ text))) with c; rewrite Hal, Hc;
      change (c :: run ++ text) with ((c :: run) ++ text).
    + erewrite bind_step; [| apply fill_word; try assumption;
        [intros i Hi; apply asserted_ok; simpl in Hi; lia | simpl; lia]].
      cbn [fst snd]. rewrite terminate_step by (simpl; lia). reflexivity.
    + apply bind_Fail.
      apply (fill_too_long _ _ _ _ 255%nat); try assumption.
      * intros i Hi. apply asserted_ok. lia.
      * reflexivity.
      * simpl. lia.
      * lia.
  - intros body text m Hbody.
    set (open := λ c : Z, negb (c =? chr "034")).
    assert (Forall (λ x, open x = true) body) as Hopen.
    { eapply Forall_impl; [exact Hbody|]. intros x Hx. unfold open.
      apply Z.eqb_neq in Hx. rewrite Hx. reflexivity. }
    assert (∀ rest, GetToken strtod fuel (reading (chr "034" :: rest)) m =
      (let* r := fill 257 open unguarded [] (reading rest) in
       terminate r.1 ;; ret (TOK_STRING, getc r.2)) m) as Hget.
    { intros rest. rewrite GetToken_eq. cbv zeta.
      rewrite skip_space_stop by reflexivity. reflexivity. }
    split; [|split].
    + intros Hlen. rewrite Hget.
      erewrite bind_step.
      2:{ apply (fill_word open unguarded body 257 (chr "034" :: text));
            [assumption | reflexivity | | lia].
          intros i Hi. apply unguarded_ok. lia. }
      cbn [fst snd]. rewrite terminate_step by lia. reflexivity.
    + intros Hlen. rewrite Hget.
      destruct (decide (length body = 256%nat)) as [E|E].
      * erewrite bind_step.
        2:{ apply (fill_word open unguarded body 257 (chr "034" :: text));
              [assumption | reflexivity | | lia].
            intros i Hi. apply unguarded_ok. lia. }
        cbn [fst snd]. unfold terminate. rewrite E. reflexivity.
      * apply bind_Fail.
        apply (fill_too_long _ _ _ _ 256%nat); try assumption.
        -- intros i Hi. apply unguarded_ok. lia.
        -- reflexivity.
        -- lia.
        -- lia.
    + rewrite Hget. apply bind_Fail.
      apply fill_unclosed; try reflexivity; try (simpl; lia).
      * destruct body as [|x rest]; [reflexivity|].
        inversion Hopen; subst. assumption.
      * destruct body as [|x rest]; [constructor|].
        inversion Hopen; subst. assumption.
Qed.

Lemma asserted_state what i m0 m1 : asserted what i m0 = Ok (tt, m1) → m1 = m0.
Proof. unfold asserted. destruct (_ <? _); [intros [= <-]; reflexivity | discriminate]. Qed.

Lemma unguarded_state i m0 m1 : unguarded i m0 = Ok (tt, m1) → m1 = m0.
Proof. unfold unguarded. destruct (_ <? _); [intros [= <-]; reflexivity | discriminate]. Qed.

Lemma terminate_Ok buf m x m' :
  terminate buf m = Ok (x, m') → m' = set_TokenBuffer (c_string buf) m.
Proof.
  unfold terminate. destruct (_ <? _); [|discriminate].
  intros H. apply modify_Ok in H. exact H.
Qed.

Lemma keyword_Ok buf m t m' :
  keyword buf m = Ok (t, m') →
  m' = m ∨ ∃ d, m' = set_TokenNumber d m.
Proof.
  unfold keyword.
  repeat (destruct (String.eqb buf _);
          [first [ intros [= <- <-]; left; reflexivity
                 | intros [= <- <-]; right; eexists; reflexivity ] |]).
  intros [= <- <-]. left. reflexivity.
Qed.

Lemma two_chars_Ok first tok s otherwise m r m' :
  (otherwise m = Ok (r, m') → m' = m) →
  two_chars first tok s otherwise m = Ok (r, m') → m' = m.
Proof.
  unfold two_chars. destruct (_ && _); [|auto].
  intros _ [= <- <-]. reflexivity.
Qed.

Lemma GetToken_delivers strtod : ∀ fuel s m t s' m',
  GetToken strtod fuel s m = Ok ((t, s'), m') →
  ∃ l, tok l = t ∧ m' = delivered l m.
Proof.
  induction fuel as [|fuel IH]; intros s m t s' m'; rewrite GetToken_eq; cbv zeta;
    set (s0 := skip_space s); clearbody s0.
  all: destruct (isalpha (last s0));
    [ intros H; apply bind_inv in H as (r & m1 & Hf & H);
      apply fill_state in Hf as ->; [|apply asserted_state];
      apply bind_inv in H as ([] & m2 & Ht & H);
      apply terminate_Ok in Ht as ->;
      apply bind_inv in H as (t0 & m3 & Hk & H);
      apply ret_Ok in H as [[= -> ->] ->];
      apply keyword_Ok in Hk as [-> | [d ->]];
      [ exists (mkLexeme t0 (Some (c_string r.1)) None); split; reflexivity
      | exists (mkLexeme t0 (Some (c_string r.1)) (Some d)); split; reflexivity ] |].
  all: destruct (isdigit (last s0));
    [ intros H; apply bind_inv in H as (r & m1 & Hf & H);
      apply fill_state in Hf as ->; [|apply asserted_state];
      apply bind_inv in H as ([] & m2 & Ht & H);
      apply terminate_Ok in Ht as ->;
      apply bind_inv in H as ([] & m3 & Hk & H);
      apply modify_Ok in Hk as ->;
      apply ret_Ok in H as [[= -> ->] ->];
      exists (mkLexeme TOK_NUMBER (Some (c_string r.1))
                (Some (strtod (c_string r.1)))); split; reflexivity |].
  all: destruct (last s0 =? chr "#"); [first [discriminate | apply IH] |].
  all: destruct (last s0 =? chr "$");
    [ intros H; apply bind_inv in H as (r & m1 & Hf & H);
      apply fill_state in Hf as ->; [|apply asserted_state];
      apply bind_inv in H as ([] & m2 & Ht & H);
      apply terminate_Ok in Ht as ->;
      apply ret_Ok in H as [[= -> ->] ->];
      exists (mkLexeme TOK_LOCALREF (Some (c_string r.1)) None);
      split; reflexivity |].
  all: destruct (last s0 =? chr "034");
    [ intros H; apply bind_inv in H as (r & m1 & Hf & H);
      apply fill_state in Hf as ->; [|apply unguarded_state];
      apply bind_inv in H as ([] & m2 & Ht & H);
      apply terminate_Ok in Ht as ->;
      apply ret_Ok in H as [[= -> ->] ->];
      exists (mkLexeme TOK_STRING (Some (c_string r.1)) None);
      split; reflexivity |].
  all: destruct (last s0 =? EOF);
    [ intros H; apply ret_Ok in H as [[= -> ->] ->];
      exists (mkLexeme TOK_EOF None None); split; reflexivity |].
  all: intros H; exists (mkLexeme t None None); split; [reflexivity|];
    unfold delivered; cbn [tok_text tok_number];
    revert H; repeat (apply two_chars_Ok); intros [= <- <- <-]; reflexivity.
Qed.

(** X21.  The parser's view of the lexer.  Whenever [GetNextToken]
    returns on the file, it has delivered one token: the number it
    returns and stores in [CurTok], and what it has written to
    [TokenBuffer] and [TokenNumber], if anything; nothing else of the
    machine has changed.  It is the step that [GetNextToken] on a
    sequence of tokens takes at that token. *)
Theorem lexer_delivers_one_token strtod fuel s m t s' m' :
  File.GetNextToken strtod fuel s m = Ok ((t, s'), m') →
  ∃ l, tok l = t
       ∧ m' = set_CurTok t (delivered l m)
       ∧ ∀ rest, GetNextToken (set_input (l :: rest) m) = Ok (t, set_input rest m').
Proof.
  unfold File.GetNextToken. intros H.
  apply bind_inv in H as ([t0 s0] & m1 & Hg & H).
  apply bind_inv in H as ([] & m2 & Hm & H).
  apply modify_Ok in Hm as ->.
  apply ret_Ok in H as [[= <- <-] ->].
  apply GetToken_delivers in Hg as (l & Ht & ->).
  exists l. split; [exact Ht|]. split; [reflexivity|].
  intros rest. destruct l as [t1 b n]. cbn [tok] in Ht. subst t1.
  unfold GetNextToken. rewrite bind_gets.
  cbn [input set_input tok tok_text tok_number fst].
  unfold delivered. cbn [tok_text tok_number].
  destruct b as [b|], n as [n|]; cbn;
    do 2 f_equal; machine_eq.
Qed.

(** * The parser *)

Lemma operand_alone fuel prec m rhs m' :
  ParseFactor fuel m = Ok (rhs, m') →
  precedence m' ≤ prec →
  operand fuel prec m = Ok (rhs, m').
Proof.
  intros HF Hp. unfold operand.
  rewrite (bind_step _ _ _ _ _ HF).
  rewrite (bind_step _ _ _ _ _ (GetTokenPrec_step m')).
  destruct (Z.ltb_spec prec (precedence m')); [lia | reflexivity].
Qed.

Lemma ParseBinRhs_end fuel exprPrec lhs m :
  precedence m < exprPrec →
  ParseBinRhs (S fuel) exprPrec lhs m = Ok (lhs, m).
Proof.
  intros H. rewrite ParseBinRhs_unfold.
  destruct (Z.ltb_spec (precedence m) exprPrec); [reflexivity | lia].
Qed.

Lemma ParseBinRhs_operator fuel exprPrec lhs m x m1 :
  exprPrec ≤ precedence m →
  GetNextToken m = Ok (x, m1) →
  ParseBinRhs (S fuel) exprPrec lhs m =
    (let* rhs := operand fuel (precedence m) in
     ParseBinRhs fuel exprPrec (EXP_BINARY lhs rhs (CurTok m))) m1.
Proof.
  intros H Hnext. rewrite ParseBinRhs_unfold.
  destruct (Z.ltb_spec (precedence m) exprPrec); [lia|].
  rewrite (bind_step _ _ _ _ _ Hnext). reflexivity.
Qed.

(** X22.  How two operators group.  [ParseBinRhs] has the left
    operand [a] and is at an operator; a factor [b], a second operator
    and a factor [c] follow, and then a token that is no binary
    operator.  If the second operator has the higher precedence, it
    takes [b] and [c] and the first takes the result as its right
    operand; otherwise, also when the two have the same precedence,
    the first takes [a] and [b] and the second takes the result as its
    left operand. *)
Theorem operators_group_by_precedence fuel a b c m0 m1 m2 m3 m4 x y :
  0 ≤ precedence m0 →
  GetNextToken m0 = Ok (x, m1) →
  ParseFactor (S (S fuel)) m1 = Ok (b, m2) →
  0 ≤ precedence m2 →
  GetNextToken m2 = Ok (y, m3) →
  ParseFactor (S fuel) m3 = Ok (c, m4) →
  precedence m4 = -1 →
  ParseBinRhs (S (S (S fuel))) 0 a m0 =
    Ok (if precedence m0 <? precedence m2
        then EXP_BINARY a (EXP_BINARY b c (CurTok m2)) (CurTok m0)
        else EXP_BINARY (EXP_BINARY a b (CurTok m0)) c (CurTok m2), m4).
Proof.
  intros H0 Hn0 Hb H2 Hn2 Hc H4.
  assert (operand (S fuel) (precedence m2) m3 = Ok (c, m4)) as Oc
    by (apply operand_alone; [exact Hc | lia]).
  rewrite (ParseBinRhs_operator _ _ _ _ _ _ H0 Hn0).
  destruct (Z.ltb_spec (precedence m0) (precedence m2)) as [Hlt | Hge].
  - (* the second operator binds tighter *)
    rewrite (bind_step _ _ m1 (EXP_BINARY b c (CurTok m2)) m4).
    + apply ParseBinRhs_end. lia.
    + unfold operand. rewrite (bind_step _ _ _ _ _ Hb).
      rewrite (bind_step _ _ _ _ _ (GetTokenPrec_step m2)).
      destruct (Z.ltb_spec (precedence m0) (precedence m2)); [|lia].
      rewrite (ParseBinRhs_operator _ _ _ _ y m3) by (lia || exact Hn2).
      rewrite (bind_step _ _ _ _ _ Oc).
      apply ParseBinRhs_end. lia.
  - (* the first operator closes its operands *)
    rewrite (bind_step _ _ m1 b m2) by (apply operand_alone; [exact Hb | lia]).
    rewrite (ParseBinRhs_operator _ _ _ _ y m3) by (lia || exact Hn2).
    rewrite (bind_step _ _ _ _ _ Oc).
    apply ParseBinRhs_end. lia.
Qed.

Lemma CurTok_isnt_step t m : CurTok_isnt t m = Ok (negb (CurTok m =? t), m).
Proof. reflexivity. Qed.

Lemma ParseFactor_brace fuel m x m1 :
  CurTok m = chr "{" →
  GetNextToken m = Ok (x, m1) →
  ParseFactor (S fuel) m =
    (let* ms :=
       while_do fuel "Parse" (CurTok_isnt (chr "}"))
         (fun acc =>
            let* s := gets TokenBuffer in
            let* acc' := append MAX_MEMBERS "namedMemArray.members index out of bounds" acc s in
            let* c := gets CurTok in
            (if c =? chr "," then GetNextToken ;; ret tt
             else if negb (c =? chr "}")
                  then fail (Fatal "Expected '}' after named member array declaration")
                  else ret tt) ;;
            ret acc') [] in
     GetNextToken ;;
     ret (EXP_NAMED_MEMBER_ARRAY ms)) m1.
Proof.
  intros Ht Hnext. cbn [ParseFactor].
  rewrite bind_gets. rewrite Ht.
  change (chr "{" =? TOK_IDENT) with false. cbv iota.
  change (chr "{" =? chr "{") with true. cbv iota.
  rewrite (bind_step _ _ _ _ _ Hnext). reflexivity.
Qed.

Lemma while_do_unfold {A} fuel who test (body : A → M A) acc m :
  while_do (S fuel) who test body acc m =
    (let* go := test in
     if go : bool then let* acc' := body acc in while_do fuel who test body acc'
     else ret acc) m.
Proof. reflexivity. Qed.

Lemma while_do_stop {A} fuel who test (body : A → M A) acc m :
  test m = Ok (false, m) → while_do fuel who test body acc m = Ok (acc, m).
Proof. intros H. destruct fuel; simpl; rewrite (bind_step _ _ _ _ _ H); reflexivity. Qed.

(** X23.  The literal in braces.  After [{] the parser records
    [TokenBuffer] as a member at every token that is not [}], and then
    accepts only a comma.  So [{}] is the array of no members; at a
    comma the member recorded is the text an earlier token has left in
    [TokenBuffer]; and a [{] followed by anything else, a name for
    instance, ends the program with [Expected '}' after named member
    array declaration]. *)
Theorem braces_accept_no_member_name fuel m x m1 :
  CurTok m = chr "{" →
  GetNextToken m = Ok (x, m1) →
  (CurTok m1 ≠ chr "}" → CurTok m1 ≠ chr "," →
     ParseFactor (S (S fuel)) m =
       Fail (Fatal "Expected '}' after named member array declaration"))
  ∧ (∀ y m2,
       CurTok m1 = chr "}" → GetNextToken m1 = Ok (y, m2) →
       ParseFactor (S fuel) m = Ok (EXP_NAMED_MEMBER_ARRAY [], m2))
  ∧ (∀ y m2 z m3,
       CurTok m1 = chr "," → GetNextToken m1 = Ok (y, m2) →
       CurTok m2 = chr "}" → GetNextToken m2 = Ok (z, m3) →
       ParseFactor (S (S fuel)) m =
         Ok (EXP_NAMED_MEMBER_ARRAY [TokenBuffer m1], m3)).
Proof.
  intros Ht Hnext. split; [|split].
  - intros Hclose Hcomma.
    rewrite (ParseFactor_brace _ _ _ _ Ht Hnext).
    apply bind_Fail. rewrite while_do_unfold.
    rewrite (bind_step _ _ _ _ _ (CurTok_isnt_step _ m1)).
    apply Z.eqb_neq in Hclose, Hcomma. rewrite Hclose. cbn [negb].
    apply bind_Fail.
    rewrite bind_gets. unfold append. cbn [length].
    change (Z.of_nat 0 <? MAX_MEMBERS) with true. cbv iota.
    rewrite bind_ret, bind_gets. rewrite Hcomma, Hclose. reflexivity.
  - intros y m2 Hclose Hnext1.
    rewrite (ParseFactor_brace _ _ _ _ Ht Hnext).
    rewrite (bind_step _ _ m1 [] m1).
    + rewrite (bind_step _ _ _ _ _ Hnext1). reflexivity.
    + apply while_do_stop. rewrite CurTok_isnt_step, Hclose. reflexivity.
  - intros y m2 z m3 Hcomma Hnext1 Hclose Hnext2.
    rewrite (ParseFactor_brace _ _ _ _ Ht Hnext).
    rewrite (bind_step _ _ m1 [TokenBuffer m1] m2).
    + rewrite (bind_step _ _ _ _ _ Hnext2). reflexivity.
    + rewrite while_do_unfold.
      rewrite (bind_step _ _ _ _ _ (CurTok_isnt_step _ m1)).
      rewrite Hcomma. change (negb (chr "," =? chr "}")) with true. cbv iota.
      rewrite (bind_step _ _ m1 [TokenBuffer m1] m2).
      * apply while_do_stop. rewrite CurTok_isnt_step, Hclose. reflexivity.
      * rewrite bind_gets. unfold append. cbn [length].
        change (Z.of_nat 0 <? MAX_MEMBERS) with true. cbv iota.
        rewrite bind_ret, bind_gets. rewrite Hcomma.
        change (chr "," =? chr ",") with true. cbv iota.
        rewrite bind_assoc, (bind_step _ _ _ _ _ Hnext1). reflexivity.
Qed.

(** * The compiler *)

Lemma Expr_nested_ind (P : Expr → Prop)
  (HREAD : ∀ ids, P (EXP_READ ids))
  (HWRITE : ∀ exprs, Forall P exprs → P (EXP_WRITE exprs))
  (HID : ∀ ident, P (EXP_ID ident))
  (HCALL : ∀ callee args, Forall P args → P (EXP_CALL callee args))
  (HNUM : ∀ number, P (EXP_NUM number))
  (HSTRING : ∀ str, P (EXP_STRING str))
  (HBINARY : ∀ lhs rhs op, P lhs → P rhs → P (EXP_BINARY lhs rhs op))
  (HPAREN : ∀ paren, P paren → P (EXP_PAREN paren))
  (HPROC : ∀ pname exprHead numLocals,
      Forall P exprHead → P (EXP_PROC pname exprHead numLocals))
  (HIF : ∀ cond exprHead, P cond → Forall P exprHead → P (EXP_IF cond exprHead))
  (HUNARY : ∀ op e, P e → P (EXP_UNARY op e))
  (HRETURN : ∀ e, P e → P (EXP_RETURN (Some e)))
  (HRETURN0 : P (EXP_RETURN None))
  (HWHILE : ∀ cond exprHead,
      P cond → Forall P exprHead → P (EXP_WHILE cond exprHead))
  (HLOCAL : ∀ index, P (EXP_LOCAL index))
  (HLOCALREF : ∀ localRefIdx, P (EXP_LOCALREF localRefIdx))
  (HMAKE : ∀ e, P e → P (EXP_MAKE_ARRAY e))
  (HINDEX : ∀ g i e, P e → P (EXP_ARRAY_INDEX g i e))
  (HLENGTH : P EXP_GET_ARRAY_LENGTH)
  (HNAMED : ∀ ms, P (EXP_NAMED_MEMBER_ARRAY ms)) :
  ∀ e, P e.
Proof.
  fix IH 1.
  assert (∀ l, Forall P l) as IHl.
  { fix IHl 1. intros [|x l]; constructor; [apply IH | apply IHl]. }
  intros [ids|exprs|ident|callee args|number|str|lhs rhs op|paren
         |pname exprHead numLocals|cond exprHead|op e|[e|]|cond exprHead
         |index|localRefIdx|e|g i e| |ms].
  - apply HREAD.
  - apply HWRITE, IHl.
  - apply HID.
  - apply HCALL, IHl.
  - apply HNUM.
  - apply HSTRING.
  - apply HBINARY; apply IH.
  - apply HPAREN, IH.
  - apply HPROC, IHl.
  - apply HIF; [apply IH | apply IHl].
  - apply HUNARY, IH.
  - apply HRETURN, IH.
  - apply HRETURN0.
  - apply HWHILE; [apply IH | apply IHl].
  - apply HLOCAL.
  - apply HLOCALREF.
  - apply HMAKE, IH.
  - apply HINDEX, IH.
  - apply HLENGTH.
  - apply HNAMED.
Qed.

Section CompilePreserves.
Context (P : machine → Prop).
Hypothesis P_emit : ∀ op, preserves P (emit op).
Hypothesis P_int : ∀ v, preserves P (GenerateInt v).
Hypothesis P_at : ∀ m0 v, P m0 → preserves P (GenerateIntAt v (ProgramLength m0)).
Hypothesis P_number : ∀ d, preserves P (RegisterNumber d).
Hypothesis P_initialized : ∀ i, preserves P (set_initialized i).
Hypothesis P_members : ∀ i ms, preserves P (set_members i ms).
Hypothesis P_pcs : ∀ pcs m, P m → P (set_FunctionPcs pcs m).

Lemma preserves_gets_bind {A C} (field : machine → A) (k : A → M C) :
  (∀ m0, P m0 → preserves P (k (field m0))) →
  preserves P (bind (gets field) k).
Proof. intros Hk m x m' HP H. rewrite bind_gets in H. eapply Hk; eassumption. Qed.

Lemma preserves_for_each_Forall {A} (l : list A) body :
  Forall (λ x, preserves P (body x)) l → preserves P (for_each l body).
Proof.
  induction 1 as [|x l Hx Hl IH].
  - apply preserves_ret.
  - apply preserves_bind; [exact Hx | intros _; exact IH].
Qed.

Lemma preserves_store {A} what (l : list A) i v : preserves P (store what l i v).
Proof. unfold store. destruct (upd l i v); [apply preserves_ret | apply preserves_fail]. Qed.

Lemma preserves_load {A} what (l : list A) i : preserves P (load what l i).
Proof. unfold load. destruct (idx l i); [apply preserves_ret | apply preserves_fail]. Qed.

Ltac compile_step :=
  lazymatch goal with
  | |- preserves _ (bind (gets _) _) =>
      apply preserves_gets_bind; let m0 := fresh "m0" in intros m0 ?
  | |- preserves _ (bind _ _) => apply preserves_bind; [ | intros ? ]
  | |- preserves _ (ret _) => apply preserves_ret
  | |- preserves _ (fail _) => apply preserves_fail
  | |- preserves _ (store _ _ _ _) => apply preserves_store
  | |- preserves _ (load _ _ _) => apply preserves_load
  | |- preserves _ (modify (set_FunctionPcs _)) =>
      apply preserves_modify; intros ?; apply P_pcs
  | |- preserves _ (for_each _ _) =>
      first [ apply preserves_for_each_Forall; assumption
            | apply preserves_for_each; intros ? ]
  | |- preserves _ (push_array _ _) => unfold push_array
  | |- preserves _ (CompileExpr _) =>
      first [ assumption
            | match goal with H : of_index _ _ |- _ => exact H end ]
  | |- preserves _ (match ?x with _ => _ end) => destruct x
  | |- preserves _ (let '(_, _) := ?x in _) => destruct x
  | |- preserves _ _ => solve [eauto]
  end.

Lemma CompileExpr_preserves_both exp :
  preserves P (CompileExpr exp) ∧ of_index P exp.
Proof.
  induction exp using Expr_nested_ind;
    repeat match goal with
      | H : _ ∧ of_index _ _ |- _ => destruct H
      | H : Forall (λ e, _ ∧ of_index _ e) _ |- _ =>
          apply Forall_and in H; destruct H as [H _]
      end;
    (split; [| try exact I; try assumption]); cbn [CompileExpr];
    try solve [repeat compile_step].
  (* EXP_WRITE *)
  apply preserves_for_each_Forall.
  eapply Forall_impl; [eassumption|]. intros e He. cbv beta.
  repeat compile_step.
Qed.

Lemma CompileExpr_preserves exp : preserves P (CompileExpr exp).
Proof. apply CompileExpr_preserves_both. Qed.

Lemma CompileProgram_preserves program : preserves P (CompileProgram program).
Proof. apply preserves_for_each. intros e. apply CompileExpr_preserves. Qed.

End CompilePreserves.

Lemma code_kept_GenerateCode len prog inst :
  preserves (code_kept len prog) (GenerateCode inst).
Proof.
  intros m [] m' [Hlen Hcode] H. unfold GenerateCode in H.
  rewrite bind_gets in H.
  destruct (ProgramLength m <? MAX_PROG_LEN); [|discriminate].
  rewrite bind_gets in H.
  apply bind_inv in H as (prog' & m1 & Hs & H).
  unfold store in Hs. destruct (upd _ _ _) as [p|] eqn:U; [|discriminate].
  apply ret_Ok in Hs as [-> ->].
  apply bind_inv in H as ([] & m2 & Hm & H).
  apply modify_Ok in Hm as ->. apply modify_Ok in H as ->.
  split; cbn.
  - lia.
  - intros i Hi. rewrite (idx_upd_ne _ _ _ _ _ U) by lia. apply Hcode, Hi.
Qed.

Lemma code_kept_GenerateInt len prog v :
  preserves (code_kept len prog) (GenerateInt v).
Proof. apply preserves_for_each. intros b. apply code_kept_GenerateCode. Qed.

Lemma code_kept_GenerateIntAt len prog m0 v :
  code_kept len prog m0 →
  preserves (code_kept len prog) (GenerateIntAt v (ProgramLength m0)).
Proof.
  intros [Hlen0 _]. unfold GenerateIntAt.
  apply preserves_for_each_Forall. cbn [bytes_of_int].
  change (seqZ 0 4) with [0; 1; 2; 3]. cbn [zip zip_with].
  apply List.Forall_cons; [|apply List.Forall_cons; [|apply List.Forall_cons;
    [|apply List.Forall_cons; [|apply List.Forall_nil]]]];
    (intros m [] m' [Hlen Hcode] H;
     rewrite bind_gets in H;
     apply bind_inv in H as (prog' & m1 & Hs & H);
     unfold store in Hs; destruct (upd _ _ _) as [p|] eqn:U; [|discriminate];
     apply ret_Ok in Hs as [-> ->];
     apply modify_Ok in H as ->;
     split; cbn; [exact Hlen|];
     intros i Hi; rewrite (idx_upd_ne _ _ _ _ _ U) by lia; apply Hcode, Hi).
Qed.

Lemma preserves_RegisterNumber P d :
  (∀ cs m, P m → P (set_Constants cs m)) → preserves P (RegisterNumber d).
Proof.
  intros HP. unfold RegisterNumber.
  apply preserves_bind; [apply preserves_gets | intros cs].
  destruct (find_first _ _ _); [apply preserves_ret|].
  destruct (_ <? _); [|apply preserves_fail].
  apply preserves_bind; [|intros ?; apply preserves_ret].
  apply preserves_modify. intros m. apply HP.
Qed.

Lemma preserves_set_variable P i (change : VarInfo → VarInfo) :
  (∀ m old vars',
     P m → idx (Variables m) i = Some old →
     upd (Variables m) i (change old) = Some vars' →
     P (set_Variables vars' m)) →
  preserves P
    (let* vars := gets Variables in
     let* old := load "Variables index out of bounds" vars i in
     let* vars' := store "Variables index out of bounds" vars i (change old) in
     modify (set_Variables vars')).
Proof.
  intros HP m [] m' Hm H. rewrite bind_gets in H.
  apply bind_inv in H as (old & m1 & Hl & H).
  unfold load in Hl. destruct (idx _ _) as [o|] eqn:Ho; [|discriminate].
  apply ret_Ok in Hl as [-> ->].
  apply bind_inv in H as (vars' & m1 & Hs & H).
  unfold store in Hs. destruct (upd _ _ _) as [p|] eqn:U; [|discriminate].
  apply ret_Ok in Hs as [-> ->].
  apply modify_Ok in H as ->.
  eapply HP; eassumption.
Qed.

Lemma code_kept_CompileExpr len prog exp :
  preserves (code_kept len prog) (CompileExpr exp).
Proof.
  apply CompileExpr_preserves.
  - intros op. apply code_kept_GenerateCode.
  - apply code_kept_GenerateInt.
  - intros m0 v. apply code_kept_GenerateIntAt.
  - intros d. apply preserves_RegisterNumber. intros cs m H. exact H.
  - intros i. apply preserves_set_variable. intros m old vars' H _ _. exact H.
  - intros i ms. apply preserves_set_variable. intros m old vars' H _ _. exact H.
  - intros pcs m H. exact H.
Qed.

(** X24.  Compiling only appends.  Whatever [CompileExpr] compiles, a
    whole program included, the code that was in [Program] below
    [ProgramLength] when it started is still there when it returns,
    and [ProgramLength] has not decreased: the jump operands that are
    written after the fact ([GenerateIntAt]) lie in the code the same
    call has emitted. *)
Theorem compiling_only_appends :
  (∀ exp m m',
     CompileExpr exp m = Ok (tt, m') →
     ProgramLength m ≤ ProgramLength m'
     ∧ ∀ i, i < ProgramLength m → idx (Program m') i = idx (Program m) i)
  ∧ (∀ program m m',
       CompileProgram program m = Ok (tt, m') →
       ProgramLength m ≤ ProgramLength m'
       ∧ ∀ i, i < ProgramLength m → idx (Program m') i = idx (Program m) i).
Proof.
  split.
  - intros exp m m' H.
    apply (code_kept_CompileExpr (ProgramLength m) (Program m) exp m tt m'); [|exact H].
    split; [lia | reflexivity].
  - intros program m m' H.
    eapply (preserves_for_each (code_kept (ProgramLength m) (Program m)));
      [intros e; apply code_kept_CompileExpr | | exact H].
    split; [lia | reflexivity].
Qed.

Lemma initialized_GenerateCode i inst :
  preserves (λ m, is_initialized m i) (GenerateCode inst).
Proof. unfold GenerateCode, store. preserves_tac. Qed.

Lemma initialized_GenerateIntAt i v pc :
  preserves (λ m, is_initialized m i) (GenerateIntAt v pc).
Proof.
  unfold GenerateIntAt. apply preserves_for_each. intros [k b].
  unfold store. preserves_tac.
Qed.

Lemma initialized_set_variable i j change :
  (∀ old, initialized old = true → initialized (change old) = true) →
  preserves (λ m, is_initialized m i)
    (let* vars := gets Variables in
     let* old := load "Variables index out of bounds" vars j in
     let* vars' := store "Variables index out of bounds" vars j (change old) in
     modify (set_Variables vars')).
Proof.
  intros Hc. apply preserves_set_variable.
  intros m old vars' (v & Hv & Hi) Hold U. unfold is_initialized. cbn.
  destruct (decide (i = j)) as [->|Hne].
  - exists (change old). split; [apply (idx_upd_eq _ _ _ _ U)|].
    apply Hc. congruence.
  - exists v. split; [|exact Hi].
    rewrite (idx_upd_ne _ _ _ _ _ U) by exact Hne. exact Hv.
Qed.

Lemma set_initialized_Ok i m m' :
  set_initialized i m = Ok (tt, m') → is_initialized m' i.
Proof.
  unfold set_initialized. intros H. rewrite bind_gets in H.
  apply bind_inv in H as (old & m1 & Hl & H).
  unfold load in Hl. destruct (idx _ _) as [o|] eqn:Ho; [|discriminate].
  apply ret_Ok in Hl as [-> ->].
  apply bind_inv in H as (vars' & m1 & Hs & H).
  unfold store in Hs. destruct (upd _ _ _) as [p|] eqn:U; [|discriminate].
  apply ret_Ok in Hs as [-> ->].
  apply modify_Ok in H as ->.
  eexists. split; [apply (idx_upd_eq _ _ _ _ U) | reflexivity].
Qed.

(** X25.  The flag of a global variable.  Reading a variable that no
    assignment has been compiled for is the compile-time error
    [Attempted to use uninitialized variable]; once the flag is set,
    the read compiles to [GET] of the slot.  Compiling an assignment
    to the variable (of anything but a literal in braces) sets the
    flag, at the end, after the right-hand side has been compiled: so
    a first assignment whose right-hand side reads the variable
    itself is rejected.  Nothing the compiler does clears a flag. *)
Theorem assignment_sets_the_initialized_flag :
  (∀ i m v,
     idx (Variables m) i = Some v → initialized v = false →
     CompileExpr (EXP_ID i) m =
       Fail (Fatal "Attempted to use uninitialized variable"))
  ∧ (∀ i m,
       is_initialized m i →
       CompileExpr (EXP_ID i) m = (emit OP_GET ;; GenerateInt i) m)
  ∧ (∀ i rhs m m',
       (∀ ms, rhs ≠ EXP_NAMED_MEMBER_ARRAY ms) →
       CompileExpr (EXP_BINARY (EXP_ID i) rhs (chr "=")) m = Ok (tt, m') →
       is_initialized m' i)
  ∧ (∀ i e op o m v,
       idx (Variables m) i = Some v → initialized v = false →
       binary_opcode op = Some o →
       CompileExpr (EXP_BINARY (EXP_ID i) (EXP_BINARY (EXP_ID i) e op) (chr "=")) m =
         Fail (Fatal "Attempted to use uninitialized variable"))
  ∧ (∀ exp i m m',
       CompileExpr exp m = Ok (tt, m') →
       is_initialized m i → is_initialized m' i).
Proof.
  assert (∀ i m v,
     idx (Variables m) i = Some v → initialized v = false →
     CompileExpr (EXP_ID i) m =
       Fail (Fatal "Attempted to use uninitialized variable")) as Hread.
  { intros i m v Hv Hi. cbn [CompileExpr]. rewrite bind_gets.
    unfold load. rewrite Hv. rewrite bind_ret. rewrite Hi. reflexivity. }
  split; [exact Hread|]. split; [|split; [|split]].
  - intros i m (v & Hv & Hi). cbn [CompileExpr]. rewrite bind_gets.
    unfold load. rewrite Hv. rewrite bind_ret. rewrite Hi. reflexivity.
  - intros i rhs m m' Hrhs H.
    assert (CompileExpr (EXP_BINARY (EXP_ID i) rhs (chr "=")) m =
            (CompileExpr rhs ;; emit OP_SET ;; GenerateInt i ;; set_initialized i) m) as E.
    { destruct rhs; try reflexivity. exfalso. eapply Hrhs. reflexivity. }
    rewrite E in H.
    apply bind_inv in H as ([] & m1 & _ & H).
    apply bind_inv in H as ([] & m2 & _ & H).
    apply bind_inv in H as ([] & m3 & _ & H).
    apply set_initialized_Ok in H. exact H.
  - intros i e op o m v Hv Hi Hop.
    assert ((op =? chr "=") = false) as E1.
    { destruct (Z.eqb_spec op (chr "=")) as [->|]; [discriminate Hop | reflexivity]. }
    assert ((op =? chr ".") = false) as E2.
    { destruct (Z.eqb_spec op (chr ".")) as [->|]; [discriminate Hop | reflexivity]. }
    assert (CompileExpr (EXP_BINARY (EXP_ID i) (EXP_BINARY (EXP_ID i) e op) (chr "=")) m =
            (CompileExpr (EXP_BINARY (EXP_ID i) e op) ;;
             emit OP_SET ;; GenerateInt i ;; set_initialized i) m) as -> by reflexivity.
    apply bind_Fail.
    assert (CompileExpr (EXP_BINARY (EXP_ID i) e op) m =
            (CompileExpr (EXP_ID i) ;; CompileExpr e ;; emit o) m) as ->.
    { cbn [CompileExpr]. rewrite E1, E2, Hop. reflexivity. }
    apply bind_Fail. eapply Hread; eassumption.
  - intros exp i m m' H Hi.
    eapply (CompileExpr_preserves (λ m, is_initialized m i)); [..| exact Hi | exact H].
    + intros op. apply initialized_GenerateCode.
    + intros v. apply preserves_for_each. intros b. apply initialized_GenerateCode.
    + intros m0 v _. apply initialized_GenerateIntAt.
    + intros d. apply preserves_RegisterNumber. intros cs m0 H0. exact H0.
    + intros j. apply initialized_set_variable. reflexivity.
    + intros j ms. apply initialized_set_variable. intros old Ho. exact Ho.
    + intros pcs m0 H0. exact H0.
Qed.

(** * Jumps and their targets *)

Lemma GenerateCode_Ok inst m m' :
  GenerateCode inst m = Ok (tt, m') →
  0 ≤ ProgramLength m < MAX_PROG_LEN ∧
  ProgramLength m < Z.of_nat (length (Program m)) ∧
  ProgramLength m' = ProgramLength m + 1 ∧
  length (Program m') = length (Program m) ∧
  idx (Program m') (ProgramLength m) = Some inst ∧
  ∀ j, j ≠ ProgramLength m → idx (Program m') j = idx (Program m) j.
Proof.
  unfold GenerateCode. rewrite bind_gets.
  destruct (Z.ltb_spec (ProgramLength m) MAX_PROG_LEN) as [Hmax|]; [|discriminate].
  rewrite bind_gets. intros H.
  apply bind_inv in H as (prog' & m1 & Hs & H).
  unfold store in Hs. destruct (upd _ _ _) as [p|] eqn:U; [|discriminate].
  apply ret_Ok in Hs as [-> ->].
  apply bind_inv in H as ([] & m2 & Hm & H).
  apply modify_Ok in Hm as ->. apply modify_Ok in H as ->.
  pose proof (upd_Some _ _ _ _ U) as [Hn _].
  cbn. repeat split; try lia.
  - apply (upd_length _ _ _ _ U).
  - apply (idx_upd_eq _ _ _ _ U).
  - intros j Hj. apply (idx_upd_ne _ _ _ _ _ U), Hj.
Qed.

Lemma GenerateInt_Ok value m m' :
  GenerateInt value m = Ok (tt, m') →
  0 ≤ ProgramLength m ∧
  ProgramLength m' = ProgramLength m + 4 ∧
  ProgramLength m' ≤ MAX_PROG_LEN ∧
  ProgramLength m' ≤ Z.of_nat (length (Program m')) ∧
  length (Program m') = length (Program m) ∧
  (INT_MIN ≤ value ≤ INT_MAX → immediate_at m' (ProgramLength m) = Some value) ∧
  ∀ j, j < ProgramLength m → idx (Program m') j = idx (Program m) j.
Proof.
  unfold GenerateInt, bytes_of_int, for_each. intros H.
  apply bind_inv in H as ([] & m1 & H1 & H).
  apply bind_inv in H as ([] & m2 & H2 & H).
  apply bind_inv in H as ([] & m3 & H3 & H).
  apply bind_inv in H as ([] & m4 & H4 & H).
  apply ret_Ok in H as [_ ->].
  apply GenerateCode_Ok in H1 as (A1 & B1 & C1 & D1 & E1 & F1).
  apply GenerateCode_Ok in H2 as (A2 & B2 & C2 & D2 & E2 & F2).
  apply GenerateCode_Ok in H3 as (A3 & B3 & C3 & D3 & E3 & F3).
  apply GenerateCode_Ok in H4 as (A4 & B4 & C4 & D4 & E4 & F4).
  repeat split; try lia.
  - intros Hv. unfold immediate_at.
    rewrite F4, F3, F2, E1 by lia.
    replace (ProgramLength m + 1) with (ProgramLength m1) by lia.
    rewrite F4, F3, E2 by lia.
    replace (ProgramLength m + 2) with (ProgramLength m2) by lia.
    rewrite F4, E3 by lia.
    replace (ProgramLength m + 3) with (ProgramLength m3) by lia.
    rewrite E4. f_equal. apply int_of_bytes_of_int, Hv.
  - intros j Hj. rewrite F4, F3, F2, F1 by lia. reflexivity.
Qed.

Lemma patch_Ok pc i b m m' :
  (let* prog := gets Program in
   let* prog' := store "Program index out of bounds" prog (pc + i) b in
   modify (set_Program prog')) m = Ok (tt, m') →
  ProgramLength m' = ProgramLength m ∧
  idx (Program m') (pc + i) = Some b ∧
  ∀ j, j ≠ pc + i → idx (Program m') j = idx (Program m) j.
Proof.
  rewrite bind_gets. intros H.
  apply bind_inv in H as (prog' & m1 & Hs & H).
  unfold store in Hs. destruct (upd _ _ _) as [p|] eqn:U; [|discriminate].
  apply ret_Ok in Hs as [-> ->].
  apply modify_Ok in H as ->.
  cbn. repeat split.
  - apply (idx_upd_eq _ _ _ _ U).
  - intros j Hj. apply (idx_upd_ne _ _ _ _ _ U), Hj.
Qed.

Lemma GenerateIntAt_Ok value pc m m' :
  GenerateIntAt value pc m = Ok (tt, m') →
  ProgramLength m' = ProgramLength m ∧
  (INT_MIN ≤ value ≤ INT_MAX → immediate_at m' pc = Some value) ∧
  ∀ j, j < pc ∨ pc + 4 ≤ j → idx (Program m') j = idx (Program m) j.
Proof.
  unfold GenerateIntAt, bytes_of_int, for_each.
  change (zip (seqZ 0 4) ?l) with
    [(0, Z.land value 255); (1, Z.land (Z.shiftr value 8) 255);
     (2, Z.land (Z.shiftr value 16) 255); (3, Z.land (Z.shiftr value 24) 255)].
  intros H.
  apply bind_inv in H as ([] & m1 & H1 & H).
  apply bind_inv in H as ([] & m2 & H2 & H).
  apply bind_inv in H as ([] & m3 & H3 & H).
  apply bind_inv in H as ([] & m4 & H4 & H).
  apply ret_Ok in H as [_ ->].
  apply patch_Ok in H1 as (A1 & B1 & C1).
  apply patch_Ok in H2 as (A2 & B2 & C2).
  apply patch_Ok in H3 as (A3 & B3 & C3).
  apply patch_Ok in H4 as (A4 & B4 & C4).
  repeat split; try lia.
  - intros Hv. unfold immediate_at.
    replace pc with (pc + 0) at 1 by lia.
    rewrite C4, C3, C2, B1 by lia.
    rewrite C4, C3, B2 by lia.
    rewrite C4, B3 by lia.
    rewrite B4. f_equal. apply int_of_bytes_of_int, Hv.
  - intros j Hj. rewrite C4, C3, C2, C1 by lia. reflexivity.
Qed.

Lemma within_CompileExpr exp :
  preserves (λ m, ProgramLength m ≤ MAX_PROG_LEN) (CompileExpr exp).
Proof.
  assert (∀ inst, preserves (λ m, ProgramLength m ≤ MAX_PROG_LEN) (GenerateCode inst)) as HG.
  { intros inst m [] m' _ H. apply GenerateCode_Ok in H. lia. }
  apply CompileExpr_preserves.
  - intros op. apply HG.
  - intros v. apply preserves_for_each. intros b. apply HG.
  - intros m0 v _ m [] m' Hm H. apply GenerateIntAt_Ok in H as [-> _]. exact Hm.
  - intros d. apply preserves_RegisterNumber. intros cs m H. exact H.
  - intros i. apply preserves_set_variable. intros m old vars' H _ _. exact H.
  - intros i ms. apply preserves_set_variable. intros m old vars' H _ _. exact H.
  - intros pcs m H. exact H.
Qed.

Lemma within_body body :
  preserves (λ m, ProgramLength m ≤ MAX_PROG_LEN) (for_each body CompileExpr).
Proof. apply preserves_for_each. intros e. apply within_CompileExpr. Qed.

Lemma code_kept_here m : code_kept (ProgramLength m) (Program m) m.
Proof. split; [lia | reflexivity]. Qed.

Lemma code_kept_body len prog body :
  preserves (code_kept len prog) (for_each body CompileExpr).
Proof. apply preserves_for_each. intros e. apply code_kept_CompileExpr. Qed.

(** X26.  Forward jumps are patched to the end of what they skip.
    The code of a procedure declaration starts with a [GOTO] whose
    operand is the address after the procedure, so that control
    reaching the declaration passes over the body, and ends with a
    [RETURN].  The code of [if] and of [while] has, after the code of
    the condition, a [GOTOZ] whose operand is the address after the
    whole statement; that of [while] ends with a [GOTO] back to the
    first instruction of the condition. *)
Theorem jumps_are_patched_to_the_end :
  (∀ pname body numLocals m m',
     CompileExpr (EXP_PROC pname body numLocals) m = Ok (tt, m') →
     idx (Program m') (ProgramLength m) = Some (encode OP_GOTO)
     ∧ immediate_at m' (ProgramLength m + 1) = Some (ProgramLength m')
     ∧ idx (Program m') (ProgramLength m' - 1) = Some (encode OP_RETURN)
     ∧ ProgramLength m + 6 ≤ ProgramLength m')
  ∧ (∀ cond body m m',
       CompileExpr (EXP_IF cond body) m = Ok (tt, m') →
       ∃ mc, CompileExpr cond m = Ok (tt, mc)
             ∧ idx (Program m') (ProgramLength mc) = Some (encode OP_GOTOZ)
             ∧ immediate_at m' (ProgramLength mc + 1) = Some (ProgramLength m')
             ∧ ProgramLength mc + 5 ≤ ProgramLength m')
  ∧ (∀ cond body m m',
       0 ≤ ProgramLength m →
       CompileExpr (EXP_WHILE cond body) m = Ok (tt, m') →
       ∃ mc, CompileExpr cond m = Ok (tt, mc)
             ∧ idx (Program m') (ProgramLength mc) = Some (encode OP_GOTOZ)
             ∧ immediate_at m' (ProgramLength mc + 1) = Some (ProgramLength m')
             ∧ idx (Program m') (ProgramLength m' - 5) = Some (encode OP_GOTO)
             ∧ immediate_at m' (ProgramLength m' - 4) = Some (ProgramLength m)
             ∧ ProgramLength mc + 10 ≤ ProgramLength m').
Proof.
  split; [|split].
  - intros pname body numLocals m m' H. cbn [CompileExpr] in H.
    apply bind_inv in H as ([] & m1 & H1 & H).
    rewrite bind_gets in H.
    apply bind_inv in H as ([] & m2 & H2 & H).
    rewrite !bind_gets in H.
    apply bind_inv in H as (pcs' & m2' & Hs & H).
    unfold store in Hs. destruct (upd _ _ _) as [p|]; [|discriminate].
    apply ret_Ok in Hs as [Hp ->]. clear Hp.
    rewrite bind_modify in H.
    apply bind_inv in H as ([] & m3 & H3 & H).
    apply bind_inv in H as ([] & m4 & H4 & H).
    apply bind_inv in H as ([] & m5 & H5 & H).
    rewrite bind_gets in H.
    apply GenerateCode_Ok in H1 as (A1 & B1 & C1 & D1 & E1 & F1).
    apply GenerateInt_Ok in H2 as (A2 & B2 & C2 & D2 & E2 & _ & F2).
    assert (code_kept (ProgramLength m2) (Program m2) m4) as [K1 K2].
    { eapply code_kept_body; [|exact H4].
      eapply (preserves_for_each (code_kept (ProgramLength m2) (Program m2)));
        [| |exact H3].
      - intros x. cbv beta. apply preserves_bind; [apply code_kept_GenerateCode|].
        intros _. apply preserves_bind;
          [apply preserves_RegisterNumber; intros cs m0 H0; exact H0|].
        intros c. apply code_kept_GenerateInt.
      - split; [cbn; lia | reflexivity]. }
    apply GenerateCode_Ok in H5 as (A5 & B5 & C5 & D5 & E5 & F5).
    apply GenerateIntAt_Ok in H as (A6 & B6 & C6).
    unfold emit in *.
    rewrite A6. repeat split.
    + rewrite C6, F5, K2, F2, E1 by lia. reflexivity.
    + replace (ProgramLength m + 1) with (ProgramLength m1) by lia.
      apply B6. unfold INT_MIN, INT_MAX, MAX_PROG_LEN in *. lia.
    + rewrite C6 by lia. replace (ProgramLength m5 - 1) with (ProgramLength m4) by lia.
      exact E5.
    + lia.
  - intros cond body m m' H. cbn [CompileExpr] in H.
    apply bind_inv in H as ([] & mc & Hc & H).
    exists mc. split; [exact Hc|].
    apply bind_inv in H as ([] & m1 & H1 & H).
    rewrite bind_gets in H.
    apply bind_inv in H as ([] & m2 & H2 & H).
    apply bind_inv in H as ([] & m3 & H3 & H).
    rewrite bind_gets in H.
    apply GenerateCode_Ok in H1 as (A1 & B1 & C1 & D1 & E1 & F1).
    apply GenerateInt_Ok in H2 as (A2 & B2 & C2 & D2 & E2 & _ & F2).
    pose proof (code_kept_body _ _ body m2 tt m3 (code_kept_here m2) H3) as [K1 K2].
    pose proof (within_body body m2 tt m3 C2 H3) as Hmax.
    apply GenerateIntAt_Ok in H as (A6 & B6 & C6).
    rewrite A6. repeat split.
    + rewrite C6, K2, F2 by lia. exact E1.
    + replace (ProgramLength mc + 1) with (ProgramLength m1) by lia.
      apply B6. unfold INT_MIN, INT_MAX, MAX_PROG_LEN in *. lia.
    + lia.
  - intros cond body m m' H0 H. cbn [CompileExpr] in H.
    rewrite bind_gets in H.
    apply bind_inv in H as ([] & mc & Hc & H).
    exists mc. split; [exact Hc|].
    apply bind_inv in H as ([] & m1 & H1 & H).
    rewrite bind_gets in H.
    apply bind_inv in H as ([] & m2 & H2 & H).
    apply bind_inv in H as ([] & m3 & H3 & H).
    apply bind_inv in H as ([] & m4 & H4 & H).
    apply bind_inv in H as ([] & m5 & H5 & H).
    rewrite bind_gets in H.
    pose proof (code_kept_CompileExpr _ _ cond m tt mc (code_kept_here m) Hc) as [Kc _].
    apply GenerateCode_Ok in H1 as (A1 & B1 & C1 & D1 & E1 & F1).
    apply GenerateInt_Ok in H2 as (A2 & B2 & C2 & D2 & E2 & _ & F2).
    pose proof (code_kept_body _ _ body m2 tt m3 (code_kept_here m2) H3) as [K1 K2].
    apply GenerateCode_Ok in H4 as (A4 & B4 & C4 & D4 & E4 & F4).
    apply GenerateInt_Ok in H5 as (A5 & B5 & C5 & D5 & E5 & I5 & F5).
    apply GenerateIntAt_Ok in H as (A6 & B6 & C6).
    unfold emit in *.
    assert (immediate_at m' (ProgramLength m4) = immediate_at m5 (ProgramLength m4)) as Himm.
    { unfold immediate_at. rewrite !C6 by lia. reflexivity. }
    rewrite A6. repeat split.
    + rewrite C6, F5, F4, K2, F2 by lia. exact E1.
    + replace (ProgramLength mc + 1) with (ProgramLength m1) by lia.
      apply B6. unfold INT_MIN, INT_MAX, MAX_PROG_LEN in *. lia.
    + replace (ProgramLength m5 - 5) with (ProgramLength m3) by lia.
      rewrite C6, F5 by lia. exact E4.
    + replace (ProgramLength m5 - 4) with (ProgramLength m4) by lia.
      rewrite Himm. apply I5. unfold INT_MIN, INT_MAX, MAX_PROG_LEN in *. lia.
    + lia.
Qed.

(** * Calls *)

Lemma cycles_stopped ff fuel : ∀ steps m m',
  cycles ff steps fuel m = Ok (tt, m') →
  ¬ (0 ≤ ProgramCounter m' < ProgramLength m').
Proof.
  induction steps as [|steps IH]; intros m m'; rewrite cycles_unfold;
    destruct (_ && _) eqn:E; try discriminate;
    try (intros [= <-]; lia).
  intros H. apply bind_inv in H as ([] & m1 & _ & H). eapply IH, H.
Qed.

(** X27.  A call from the host.  [CallProc] with a negative
    procedure number does nothing.  Otherwise it pushes a frame, jumps
    to the entry of the procedure and runs the loop of [RunMachine];
    like [RunMachine], it returns only when the program counter has
    left the program.  The frame it pushes holds, on top of the
    indirection stack, the program counter it found. *)
Theorem host_call_returns_on_halt ff steps fuel :
  (∀ id nargs m, id < 0 → CallProc ff steps fuel id nargs m = Ok (tt, m))
  ∧ (∀ id nargs m m',
       0 ≤ id →
       CallProc ff steps fuel id nargs m = Ok (tt, m') →
       ¬ (0 ≤ ProgramCounter m' < ProgramLength m'))
  ∧ (∀ m m',
       RunMachine ff steps fuel m = Ok (tt, m') →
       ¬ (0 ≤ ProgramCounter m' < ProgramLength m'))
  ∧ (∀ id nargs m m1 entry,
       0 ≤ id →
       DoPushIndir nargs m = Ok (tt, m1) →
       idx (FunctionPcs m1) id = Some entry →
       CallProc ff steps fuel id nargs m =
         cycles ff steps fuel (set_ProgramCounter entry m1)
       ∧ idx (IndirStack m1) (IndirStackSize m1 - 1) = Some (ProgramCounter m)).
Proof.
  split; [|split; [|split]].
  - intros id nargs m Hid. unfold CallProc.
    destruct (Z.ltb_spec id 0); [reflexivity | lia].
  - intros id nargs m m' Hid H. unfold CallProc in H.
    destruct (Z.ltb_spec id 0); [lia|].
    apply bind_inv in H as ([] & m1 & _ & H).
    rewrite bind_gets in H.
    apply bind_inv in H as (entry & m2 & _ & H).
    rewrite bind_modify in H. eapply cycles_stopped, H.
  - intros m m' H. unfold RunMachine in H. rewrite bind_modify in H.
    eapply cycles_stopped, H.
  - intros id nargs m m1 entry Hid Hpush Hentry. split.
    + unfold CallProc. destruct (Z.ltb_spec id 0); [lia|].
      rewrite (bind_step _ _ _ _ _ Hpush). rewrite bind_gets.
      unfold load. rewrite Hentry. reflexivity.
    + unfold DoPushIndir in Hpush.
      apply bind_inv in Hpush as ([] & ma & Ha & Hpush).
      rewrite bind_gets in Hpush.
      apply bind_inv in Hpush as ([] & mb & Hb & Hpush).
      rewrite bind_gets in Hpush.
      apply bind_inv in Hpush as ([] & mc & Hc & Hpush).
      rewrite bind_gets in Hpush. apply modify_Ok in Hpush as ->.
      assert (∀ v s s', push_indir v s = Ok (tt, s') →
                ProgramCounter s' = ProgramCounter s ∧
                IndirStackSize s' = IndirStackSize s + 1 ∧
                idx (IndirStack s') (IndirStackSize s) = Some v) as Hp.
      { intros v s s' Hs. unfold push_indir in Hs. rewrite !bind_gets in Hs.
        apply bind_inv in Hs as (st' & s1 & Hst & Hs).
        unfold store in Hst. destruct (upd _ _ _) as [p|] eqn:U; [|discriminate].
        apply ret_Ok in Hst as [-> ->].
        apply bind_inv in Hs as ([] & s2 & Hm & Hs).
        apply modify_Ok in Hm as ->. apply modify_Ok in Hs as ->.
        cbn. repeat split. apply (idx_upd_eq _ _ _ _ U). }
      apply Hp in Ha as (Pa & _ & _). apply Hp in Hb as (Pb & _ & _).
      apply Hp in Hc as (Pc & Sc & Ic).
      cbn. rewrite Sc. replace (IndirStackSize mb + 1 - 1) with (IndirStackSize mb) by lia.
      rewrite Ic. f_equal. congruence.
Qed.

Lemma immediate_at_same m m' pc :
  (∀ j, pc ≤ j < pc + 4 → idx (Program m') j = idx (Program m) j) →
  immediate_at m' pc = immediate_at m pc.
Proof. intros H. unfold immediate_at. rewrite !H by lia. reflexivity. Qed.

(** X28.  What a call compiles to.  After the code of the arguments,
    a call of a procedure of the program is [CALL] with the number of
    arguments written at the call, whatever the declaration of the
    procedure says, and the number of the procedure; the cycle on it
    pushes a frame for that many arguments and jumps to the entry
    recorded for the procedure.  A call of a foreign function, which
    [RegisterFunction] numbers [-1], [-2], ... is [CALLF] with the
    slot of the function, and the cycle on it runs the callback bound
    to the slot, with the program counter after the instruction. *)
Theorem calls_reach_their_target ff fuel callee args m m' :
  INT_MIN < callee ≤ INT_MAX →
  Z.of_nat (length args) ≤ INT_MAX →
  CompileExpr (EXP_CALL callee args) m = Ok (tt, m') →
  (callee < 0 →
     ExecuteCycle ff fuel (set_ProgramCounter (ProgramLength m' - 5) m') =
       (let* callback := load "ForeignFunctions index out of bounds" ff (- callee - 1) in
        callback) (set_ProgramCounter (ProgramLength m') m'))
  ∧ (0 ≤ callee →
     ExecuteCycle ff fuel (set_ProgramCounter (ProgramLength m' - 9) m') =
       (DoPushIndir (Z.of_nat (length args)) ;;
        let* pcs := gets FunctionPcs in
        let* entry := load "FunctionPcs index out of bounds" pcs callee in
        modify (set_ProgramCounter entry))
         (set_ProgramCounter (ProgramLength m') m')).
Proof.
  intros Hcallee Hargs H. cbn [CompileExpr] in H.
  apply bind_inv in H as ([] & ma & _ & H).
  destruct (Z.ltb_spec callee 0) as [Hneg|Hpos]; (split; [intros ? | intros ?]); try lia.
  - apply bind_inv in H as ([] & m1 & H1 & H2).
    apply GenerateCode_Ok in H1 as (A1 & B1 & C1 & D1 & E1 & F1).
    apply GenerateInt_Ok in H2 as (A2 & B2 & C2 & D2 & E2 & I2 & F2).
    set (s := set_ProgramCounter (ProgramLength m' - 5) m').
    assert (instruction_at s = Some OP_CALLF) as Hop.
    { unfold instruction_at. subst s. cbn.
      replace (ProgramLength m' - 5) with (ProgramLength ma) by lia.
      rewrite F2, E1 by lia. apply decode_encode. }
    rewrite (ExecuteCycle_at _ _ _ _ Hop). cbn [execute].
    rewrite (operand_step _ s (- callee - 1)).
    + subst s. cbn [ProgramCounter set_ProgramCounter]. f_equal. machine_eq.
    + subst s. cbn [ProgramCounter set_ProgramCounter].
      replace (ProgramLength m' - 5 + 1) with (ProgramLength m1) by lia.
      replace (- callee - 1) with (- (callee + 1)) by lia.
      assert (immediate_at m' (ProgramLength m1) = Some (- (callee + 1))) as Hi
        by (apply I2; unfold INT_MIN, INT_MAX in *; lia).
      exact Hi.
  - apply bind_inv in H as ([] & m1 & H1 & H).
    apply bind_inv in H as ([] & m2 & H2 & H3).
    apply GenerateCode_Ok in H1 as (A1 & B1 & C1 & D1 & E1 & F1).
    apply GenerateInt_Ok in H2 as (A2 & B2 & C2 & D2 & E2 & I2 & F2).
    apply GenerateInt_Ok in H3 as (A3 & B3 & C3 & D3 & E3 & I3 & F3).
    set (s := set_ProgramCounter (ProgramLength m' - 9) m').
    assert (instruction_at s = Some OP_CALL) as Hop.
    { unfold instruction_at. subst s. cbn.
      replace (ProgramLength m' - 9) with (ProgramLength ma) by lia.
      rewrite F3, F2, E1 by lia. apply decode_encode. }
    rewrite (ExecuteCycle_at _ _ _ _ Hop). cbn [execute].
    rewrite (operand_step _ s (Z.of_nat (length args))).
    2:{ subst s. cbn [ProgramCounter set_ProgramCounter].
        replace (ProgramLength m' - 9 + 1) with (ProgramLength m1) by lia.
        assert (immediate_at m' (ProgramLength m1) = Some (Z.of_nat (length args))) as Hi.
        { rewrite (immediate_at_same m2 m') by (intros j Hj; apply F3; lia).
          apply I2. unfold INT_MIN, INT_MAX in *. lia. }
        exact Hi. }
    set (s1 := set_ProgramCounter (ProgramCounter s + 5) s).
    assert (immediate_at s1 (ProgramCounter s1) = Some callee) as Hi2.
    { subst s1 s. cbn [ProgramCounter set_ProgramCounter].
      replace (ProgramLength m' - 9 + 5) with (ProgramLength m2) by lia.
      assert (immediate_at m' (ProgramLength m2) = Some callee) as Hi
        by (apply I3; unfold INT_MIN, INT_MAX in *; lia).
      exact Hi. }
    rewrite (bind_step _ _ _ _ _ (ReadInteger_step s1 callee Hi2)).
    f_equal. subst s1 s. machine_eq.
Qed.

(** * Compile time and run time *)

Lemma objects_kept (vars : list VarInfo) i old new vars' :
  idx vars i = Some old → upd vars i new = Some vars' →
  object new = object old →
  object <$> vars' = object <$> vars.
Proof.
  intros Ho U Hobj. apply upd_Some in U as [Hi ->].
  rewrite list_fmap_insert. apply list_insert_id.
  rewrite list_lookup_fmap. unfold idx in Ho.
  destruct (0 <=? i); [|discriminate]. rewrite Ho. cbn. congruence.
Qed.

Lemma run_time_CompileExpr v exp :
  preserves (λ m, run_time m = v) (CompileExpr exp).
Proof.
  assert (∀ inst, preserves (λ m, run_time m = v) (GenerateCode inst)) as HG
    by (intros inst; unfold GenerateCode, store; preserves_tac).
  apply CompileExpr_preserves.
  - intros op. apply HG.
  - intros x. apply preserves_for_each. intros b. apply HG.
  - intros m0 x _. unfold GenerateIntAt. apply preserves_for_each. intros [k b].
    unfold store. preserves_tac.
  - intros d. apply preserves_RegisterNumber. intros cs m H. exact H.
  - intros i. apply preserves_set_variable. intros m old vars' H Ho U.
    rewrite <- H. unfold run_time. cbn.
    rewrite (objects_kept _ _ _ _ _ Ho U) by reflexivity. reflexivity.
  - intros i ms. apply preserves_set_variable. intros m old vars' H Ho U.
    rewrite <- H. unfold run_time. cbn.
    rewrite (objects_kept _ _ _ _ _ Ho U) by reflexivity. reflexivity.
  - intros pcs m H. exact H.
Qed.

(** X29.  Compiling runs nothing.  Whatever [CompileExpr] compiles, a
    whole program included, it leaves the objects, the chain and the
    counters of the collector, both stacks, the frame pointer, the
    program counter, the values of the globals and the number of
    them in use, and the input and output as they are: it writes code,
    constants and the tables of names only. *)
Theorem compiling_runs_nothing :
  (∀ exp m m', CompileExpr exp m = Ok (tt, m') → run_time m' = run_time m)
  ∧ (∀ program m m',
       CompileProgram program m = Ok (tt, m') → run_time m' = run_time m).
Proof.
  split.
  - intros exp m m' H.
    exact (run_time_CompileExpr (run_time m) exp m tt m' eq_refl H).
  - intros program m m' H.
    eapply (preserves_for_each (λ s, run_time s = run_time m));
      [intros e; apply run_time_CompileExpr | reflexivity | exact H].
Qed.

(** X30.  A return outside any call.  [RETURN] takes the frame to
    return to from the indirection stack without looking at its size:
    with no frame on it, as at the top level of a program, the cycle
    reads [IndirStack[-1]]. *)
Theorem return_outside_a_call_underflows ff fuel m :
  instruction_at m = Some OP_RETURN →
  IndirStackSize m ≤ 0 →
  ExecuteCycle ff fuel m = Fail (Undefined "IndirStack index out of bounds").
Proof.
  intros Hop Hsize. rewrite (ExecuteCycle_at _ _ _ _ Hop). cbn [execute].
  unfold DoPopIndir. rewrite bind_gets, bind_modify.
  apply bind_Fail. unfold pop_indir.
  rewrite bind_gets, bind_modify, bind_gets.
  cbn [IndirStackSize IndirStack set_StackSize set_IndirStackSize].
  unfold load, idx.
  destruct (Z.leb_spec 0 (IndirStackSize m - 1)) as [Hle|]; [lia | reflexivity].
Qed.

(** * The further properties at work *)

(** X1 on the empty program: [ADD] is emitted and found under the program counter. *)
Lemma opcode_written_is_decoded_witness :
  0 ≤ ProgramLength initial < MAX_PROG_LEN ∧
  MAX_PROG_LEN ≤ Z.of_nat (length (Program initial)) ∧
  ∃ m1, emit OP_ADD initial = Ok (tt, m1) ∧
        ProgramLength m1 = ProgramLength initial + 1 ∧
        (∀ j, j ≠ ProgramLength initial → idx (Program m1) j = idx (Program initial) j) ∧
        instruction_at (set_ProgramCounter (ProgramLength initial) m1) = Some OP_ADD.
Proof.
  assert (0 ≤ ProgramLength initial < MAX_PROG_LEN) as H1 by (vm_compute; split; congruence).
  assert (MAX_PROG_LEN ≤ Z.of_nat (length (Program initial))) as H2 by (vm_compute; congruence).
  split; [exact H1|]. split; [exact H2|].
  destruct opcode_written_is_decoded as (_ & _ & _ & H).
  exact (H OP_ADD initial H1 H2).
Defined.

(** X2 on the empty program: the immediate 1000. *)
Lemma immediate_written_is_read_witness :
  ∃ m1, GenerateInt 1000 initial = Ok (tt, m1) ∧
        ProgramLength m1 = ProgramLength initial + 4 ∧
        (∀ j, j < ProgramLength initial → idx (Program m1) j = idx (Program initial) j) ∧
        ReadInteger (set_ProgramCounter (ProgramLength initial) m1)
          = Ok (1000, set_ProgramCounter (ProgramLength initial + 4) m1).
Proof.
  destruct immediate_written_is_read as (H & _).
  apply (H 1000 initial).
  - vm_compute. split; congruence.
  - vm_compute. congruence.
  - vm_compute. congruence.
  - vm_compute. congruence.
Defined.

(** X3 on the empty program: the immediate 7 written at address 0. *)
Lemma immediate_patched_in_place_witness :
  ∃ prog,
    GenerateIntAt 7 0 initial = Ok (tt, set_Program prog initial) ∧
    immediate_at (set_Program prog initial) 0 = Some 7 ∧
    ∀ j, j < 0 ∨ 0 + 4 ≤ j → idx prog j = idx (Program initial) j.
Proof.
  apply (immediate_patched_in_place 7 0 initial).
  - vm_compute. split; congruence.
  - lia.
  - vm_compute. congruence.
Defined.

(** X4: a pointer pushed on the empty stack and popped; [DoPop] on the
    empty stack at the [HALT] of the empty program, and before any
    run, with the program counter at -1. *)
Lemma operand_stack_is_lifo_witness :
  (∃ m1, DoPush (Some 1%positive) initial = Ok (tt, m1) ∧
         StackSize m1 = StackSize initial + 1 ∧
         (∀ j, j ≠ StackSize initial → idx (Stack m1) j = idx (Stack initial) j) ∧
         DoPop m1 = Ok (Some 1%positive, set_StackSize (StackSize initial) m1)) ∧
  DoPop at_halt = Fail (Fatal "Stack Underflow") ∧
  DoPop initial = Fail (Undefined "Program index out of bounds").
Proof.
  destruct operand_stack_is_lifo as (Hlifo & _ & Hunder & Houtside).
  split; [|split].
  - apply (Hlifo (Some 1%positive) initial).
    + vm_compute. split; congruence.
    + vm_compute. reflexivity.
  - apply (Hunder at_halt).
    + vm_compute. congruence.
    + vm_compute. reflexivity.
    + vm_compute. split; congruence.
  - apply (Houtside initial).
    + vm_compute. congruence.
    + vm_compute. reflexivity.
    + left. vm_compute. reflexivity.
Defined.

(** X5: [x] registered twice has slot 0 both times. *)
Lemma variable_names_registered_once_witness :
  RegisterVariableName "x" initial =
    Ok (0, machine_of (RegisterVariableName "x" initial)) ∧
  RegisterVariableName "x" (machine_of (RegisterVariableName "x" initial)) =
    Ok (0, machine_of (RegisterVariableName "x" initial)).
Proof.
  assert (RegisterVariableName "x" initial =
            Ok (0, machine_of (RegisterVariableName "x" initial))) as H
    by (vm_compute; reflexivity).
  split; [exact H|].
  destruct variable_names_registered_once as (Hreg & _).
  destruct (Hreg "x"%string initial 0 _ H) as (_ & _ & Hagain & _).
  exact Hagain.
Defined.

(** X6: [f] registered is procedure 0, and [GetProcId] finds it. *)
Lemma procedure_names_resolve_witness :
  RegisterFunction "f" initial = Ok (0, machine_of (RegisterFunction "f" initial)) ∧
  GetProcId "f" (machine_of (RegisterFunction "f" initial)) =
    Ok (0, machine_of (RegisterFunction "f" initial)).
Proof.
  assert (RegisterFunction "f" initial = Ok (0, machine_of (RegisterFunction "f" initial))) as H
    by (vm_compute; reflexivity).
  split; [exact H|].
  destruct procedure_names_resolve as (Hreg & _).
  destruct (Hreg "f"%string initial 0 _ H) as (_ & _ & Hpos).
  apply Hpos. lia.
Defined.

(** X7: the local [x] declared first is local 0; [y] resolves as before. *)
Lemma locals_resolve_to_latest_declaration_witness :
  ∃ m1, DeclareLocal "x" initial = Ok (CurrNumLocals initial, m1) ∧
        ReferenceLocal "x" m1 = Ok (CurrNumLocals initial, m1) ∧
        (ReferenceLocal "y" m1 = Ok (0, m1) ↔ ReferenceLocal "y" initial = Ok (0, initial)).
Proof.
  destruct locals_resolve_to_latest_declaration as (Hdecl & _).
  destruct (Hdecl "x"%string initial) as (m1 & H1 & _ & H2 & H3 & _).
  exists m1. split; [exact H1|]. split; [exact H2|].
  apply H3. discriminate.
Defined.

(** X8 on the empty program, whose code is [HALT]. *)
Lemma machine_loop_ends_on_halt_only_witness :
  0 ≤ ProgramCounter at_halt < ProgramLength at_halt ∧
  instruction_at at_halt = Some OP_HALT ∧
  ExecuteCycle [] 20 at_halt = Ok (tt, set_ProgramCounter (-1) at_halt) ∧
  cycles [] 1 20 at_halt = Ok (tt, set_ProgramCounter (-1) at_halt).
Proof.
  assert (0 ≤ ProgramCounter at_halt < ProgramLength at_halt) as H1
    by (vm_compute; split; congruence).
  assert (instruction_at at_halt = Some OP_HALT) as H2 by (vm_compute; reflexivity).
  split; [exact H1|]. split; [exact H2|].
  destruct machine_loop_ends_on_halt_only as (_ & Hhalt & _).
  exact (Hhalt [] 0%nat 20%nat at_halt H1 H2).
Defined.

(** X9 in [x = 1  write x end]: the [SET] of [x]. *)
Lemma global_store_and_load_witness :
  instruction_at at_set = Some OP_SET ∧
  ∃ m1, ExecuteCycle [] 20 at_set = Ok (tt, m1) ∧
        ProgramCounter m1 = ProgramCounter at_set + 5 ∧
        StackSize m1 = StackSize at_set - 1 ∧
        object <$> idx (Variables m1) 0 = Some (Some 1%positive) ∧
        (∀ j, j ≠ 0 → idx (Variables m1) j = idx (Variables at_set) j) ∧
        RuntimeVariableAmount m1 = Z.max (RuntimeVariableAmount at_set) (0 + 1) ∧
        heap m1 = heap at_set.
Proof.
  split; [vm_compute; reflexivity|].
  destruct global_store_and_load as (Hset & _).
  apply (Hset [] 20%nat at_set 0 (Some 1%positive)).
  - vm_compute; reflexivity.
  - vm_compute; reflexivity.
  - vm_compute. split; congruence.
  - vm_compute; reflexivity.
  - vm_compute; reflexivity.
  - vm_compute; reflexivity.
Defined.

(** X10 in [proc f(x) return $x end  f(5)]: the [GETLOCAL] of [x], at offset -1. *)
Lemma frame_slots_hold_locals_and_arguments_witness :
  instruction_at in_callee = Some OP_GETLOCAL ∧
  immediate_at in_callee (ProgramCounter in_callee + 1) = Some (-1) ∧
  ∃ m1, ExecuteCycle [] 20 in_callee = Ok (tt, m1) ∧
        ProgramCounter m1 = ProgramCounter in_callee + 5 ∧
        StackSize m1 = StackSize in_callee + 1 ∧
        idx (Stack m1) (StackSize in_callee) = Some (Some 1%positive).
Proof.
  split; [vm_compute; reflexivity|]. split; [vm_compute; reflexivity|].
  destruct frame_slots_hold_locals_and_arguments as (_ & Hget & _).
  apply (Hget [] 20%nat in_callee (-1) (Some 1%positive)).
  - vm_compute; reflexivity.
  - vm_compute; reflexivity.
  - vm_compute; reflexivity.
  - vm_compute. split; congruence.
  - vm_compute; reflexivity.
Defined.

(** X11 in [x = 1  y = 2  z = 3  w = x + y]: the [ADD]. *)
Lemma arithmetic_instructions_compute_witness :
  instruction_at at_add = Some OP_ADD ∧
  allocates_directly at_add ∧
  ∃ m1, ExecuteCycle [] 20 at_add = Ok (tt, m1) ∧
        ProgramCounter m1 = ProgramCounter at_add + 1 ∧
        StackSize m1 = StackSize at_add - 1 ∧
        idx (Stack m1) (StackSize at_add - 2) = Some (Some (next_addr at_add)) ∧
        heap m1 =
          <[next_addr at_add :=
              mkObject false (Num (dadd (double_of_int 1) (double_of_int 2)))]>
            (heap at_add).
Proof.
  assert (instruction_at at_add = Some OP_ADD) as H1 by (vm_compute; reflexivity).
  assert (allocates_directly at_add) as H2.
  { split; [vm_compute; split; congruence|].
    split; [vm_compute; congruence | vm_compute; reflexivity]. }
  split; [exact H1|]. split; [exact H2|].
  destruct arithmetic_instructions_compute as (Hfloat & _).
  apply (Hfloat [] 20%nat at_add OP_ADD dadd 1%positive 2%positive
           (mkObject false (Num (double_of_int 1)))
           (mkObject false (Num (double_of_int 2)))
           (double_of_int 1) (double_of_int 2)).
  - exact H1.
  - reflexivity.
  - split; [vm_compute; reflexivity|]. repeat split; vm_compute; reflexivity.
  - reflexivity.
  - reflexivity.
  - exact H2.
  - vm_compute; reflexivity.
Defined.

(** X12 in [a = [3]  a[1] = 7  write a[1] end]: the [SETINDEX] and the [GETINDEX]. *)
Lemma array_element_stored_and_loaded_witness :
  (instruction_at at_setindex = Some OP_SETINDEX ∧
   ∃ m1, ExecuteCycle [] 20 at_setindex = Ok (tt, m1) ∧
         ProgramCounter m1 = ProgramCounter at_setindex + 1 ∧
         StackSize m1 = StackSize at_setindex - 3 ∧
         (∃ ao, heap m1 !! 2%positive = Some ao ∧
                val ao = Arr (<[Z.to_nat 1 := Some 4%positive]> [None; None; None])) ∧
         (∀ a, a ≠ 2%positive → heap m1 !! a = heap at_setindex !! a)) ∧
  (instruction_at at_getindex_set = Some OP_GETINDEX ∧
   ∃ m1, ExecuteCycle [] 20 at_getindex_set = Ok (tt, m1) ∧
         ProgramCounter m1 = ProgramCounter at_getindex_set + 1 ∧
         StackSize m1 = StackSize at_getindex_set - 1 ∧
         idx (Stack m1) (StackSize at_getindex_set - 2) = Some (Some 4%positive) ∧
         heap m1 = heap at_getindex_set).
Proof.
  destruct array_element_stored_and_loaded as (Hset & Hget).
  split.
  - assert (instruction_at at_setindex = Some OP_SETINDEX) as H1
      by (vm_compute; reflexivity).
    split; [exact H1|].
    apply (Hset [] 20%nat at_setindex (Some 4%positive) 2%positive [None; None; None] 1).
    + exact H1.
    + vm_compute; reflexivity.
    + vm_compute; reflexivity.
    + exists 3%positive, (mkObject false (Num (double_of_int 1))),
        (double_of_int 1), (mkObject false (Arr [None; None; None])).
      repeat split; vm_compute; reflexivity.
    + vm_compute. split; [congruence | reflexivity].
  - assert (instruction_at at_getindex_set = Some OP_GETINDEX) as H1
      by (vm_compute; reflexivity).
    split; [exact H1|].
    apply (Hget [] 20%nat at_getindex_set 2%positive
             [None; Some 4%positive; None] 1 4%positive).
    + exact H1.
    + vm_compute; reflexivity.
    + exists 5%positive, (mkObject false (Num (double_of_int 1))),
        (double_of_int 1), (mkObject false (Arr [None; Some 4%positive; None])).
      repeat split; vm_compute; reflexivity.
    + lia.
    + reflexivity.
    + vm_compute; reflexivity.
Defined.

(** X13 in [write 5 end]. *)
Lemma constant_pushed_then_printed_witness :
  instruction_at at_push = Some OP_PUSH ∧
  ∃ m1 m2,
    ExecuteCycle [] 20 at_push = Ok (tt, m1) ∧
    StackSize m1 = StackSize at_push + 1 ∧
    idx (Stack m1) (StackSize at_push) = Some (Some (next_addr at_push)) ∧
    heap m1 =
      <[next_addr at_push := mkObject false (constant_value (CST_NUM (double_of_int 5)))]>
        (heap at_push) ∧
    ExecuteCycle [] 20 m1 = Ok (tt, m2) ∧
    stdout m2 = stdout at_push ++ [constant_output (CST_NUM (double_of_int 5))] ∧
    StackSize m2 = StackSize at_push ∧
    ProgramCounter m2 = ProgramCounter at_push + 6.
Proof.
  assert (instruction_at at_push = Some OP_PUSH) as H1 by (vm_compute; reflexivity).
  split; [exact H1|].
  apply (constant_pushed_then_printed [] 20%nat at_push 0 (CST_NUM (double_of_int 5))).
  - exact H1.
  - vm_compute; reflexivity.
  - vm_compute; reflexivity.
  - split; [vm_compute; split; congruence|].
    split; [vm_compute; congruence | vm_compute; reflexivity].
  - vm_compute. split; congruence.
  - vm_compute; reflexivity.
  - vm_compute; reflexivity.
Defined.

(** X14 in [if 0 then write 1 end end]: the [GOTOZ] is taken. *)
Lemma jumps_test_against_zero_witness :
  instruction_at at_gotoz = Some OP_GOTOZ ∧
  ExecuteCycle [] 20 at_gotoz =
    Ok (tt, set_ProgramCounter 16 (set_StackSize (StackSize at_gotoz - 1) at_gotoz)).
Proof.
  assert (instruction_at at_gotoz = Some OP_GOTOZ) as H1 by (vm_compute; reflexivity).
  split; [exact H1|].
  destruct jumps_test_against_zero as (_ & Hjump & _).
  exact (Hjump [] 20%nat at_gotoz OP_GOTOZ 16 1%positive
           (mkObject false (Num dzero)) dzero
           (or_introl eq_refl) H1
           ltac:(vm_compute; reflexivity) ltac:(vm_compute; reflexivity)
           ltac:(vm_compute; reflexivity) ltac:(vm_compute; reflexivity) eq_refl).
Defined.

Lemma at_restb_sound m : at_restb m = true → at_rest m.
Proof.
  unfold at_restb. intros H a o Ho.
  rewrite forallb_forall in H.
  apply elem_of_map_to_list, list_elem_of_In in Ho.
  specialize (H _ Ho). cbn in H.
  apply andb_true_iff in H as [H1 H2].
  apply negb_true_iff in H1. apply bool_decide_eq_true in H2.
  split; assumption.
Qed.

Lemma consistent_of_collectable rank fuel m :
  collectable rank fuel m → at_rest m → heap_consistent m.
Proof.
  intros C R. split; [apply (coll_chain_nodup _ _ _ C)|].
  split; [|split; [apply (coll_count _ _ _ C)|split]].
  - intros a. split; [apply (coll_chain_live _ _ _ C)|].
    intros [o Ho]. apply (R a o Ho).
  - intros a o Ho. apply (R a o Ho).
  - apply (coll_fresh _ _ _ C).
Qed.

(** X15 at the [GETINDEX] of [a = [3]  a[1] = 7  write a[1] end], where the first index is garbage. *)
Lemma collection_keeps_exactly_the_reachable_witness :
  collectable array_first 20 at_getindex_set ∧
  at_rest at_getindex_set ∧
  ∃ m', GarbageCollect 20 at_getindex_set = Ok (tt, m') ∧
        (∀ a, reachable at_getindex_set a →
              is_Some (heap at_getindex_set !! a) ∧
              heap m' !! a = heap at_getindex_set !! a) ∧
        (∀ a, ¬ reachable at_getindex_set a → heap m' !! a = None) ∧
        (∀ a, a ∈ GCHead m' ↔ reachable at_getindex_set a) ∧
        NumObjects m' = Z.of_nat (length (GCHead m')) ∧
        MaxNumObjects m' = 2 * NumObjects m' ∧
        (Stack m', StackSize m', Variables m', RuntimeVariableAmount m')
          = (Stack at_getindex_set, StackSize at_getindex_set,
             Variables at_getindex_set, RuntimeVariableAmount at_getindex_set) ∧
        collectable array_first 20 m' ∧
        at_rest m'.
Proof.
  assert (collectable array_first 20 at_getindex_set) as C
    by (apply collectableb_sound; vm_compute; reflexivity).
  assert (at_rest at_getindex_set) as R
    by (apply at_restb_sound; vm_compute; reflexivity).
  split; [exact C|]. split; [exact R|].
  exact (collection_keeps_exactly_the_reachable array_first 20 at_getindex_set C R).
Defined.

(** X16 at the [ADD] of [x = 1  y = 2  z = 3  w = x + y]. *)
Lemma cycle_keeps_chain_consistent_witness :
  heap_consistent at_add ∧
  instruction_at at_add ≠ Some OP_READ ∧
  ExecuteCycle [] 20 at_add = Ok (tt, machine_of (ExecuteCycle [] 20 at_add)) ∧
  heap_consistent (machine_of (ExecuteCycle [] 20 at_add)).
Proof.
  assert (heap_consistent at_add) as H1.
  { apply (consistent_of_collectable (λ _, 0%nat) 20).
    - apply collectableb_sound; vm_compute; reflexivity.
    - apply at_restb_sound; vm_compute; reflexivity. }
  assert (instruction_at at_add ≠ Some OP_READ) as H2 by (vm_compute; discriminate).
  assert (ExecuteCycle [] 20 at_add = Ok (tt, machine_of (ExecuteCycle [] 20 at_add))) as H3
    by (vm_compute; reflexivity).
  split; [exact H1|]. split; [exact H2|]. split; [exact H3|].
  destruct cycle_keeps_chain_consistent as (_ & Hcycle).
  exact (Hcycle [] 20%nat at_add _ (Forall_nil_2 _) H1 H2 H3).
Defined.

(** X17 on [while x] and on [$n)]. *)
Lemma words_are_names_or_keywords_witness :
  GetToken strtod_digits 0 (reading (chars "while x")) initial =
    Ok ((TOK_WHILE, reading (chars " x")), set_TokenBuffer "while" initial)
  ∧ GetToken strtod_digits 0 (reading (chars "$n)")) initial =
      Ok ((TOK_LOCALREF, reading (chars ")")), set_TokenBuffer "n" initial).
Proof.
  assert (isalpha (chr "w") = true) as H1 by reflexivity.
  assert (Forall (λ x, word_char x = true) (chars "hile")) as H2
    by (repeat constructor).
  assert (word_char (last (reading (chars " x"))) = false) as H3 by reflexivity.
  destruct (words_are_names_or_keywords strtod_digits 0 (chr "w") (chars "hile")
              (chars " x") initial H1 H2 H3) as (Hword & _).
  split.
  - apply Hword. simpl. lia.
  - assert (Forall (λ x, word_char x = true) (chars "n")) as H4
      by (repeat constructor).
    assert (word_char (last (reading (chars ")"))) = false) as H5 by reflexivity.
    destruct (words_are_names_or_keywords strtod_digits 0 (chr "w") (chars "n")
                (chars ")") initial H1 H4 H5) as (_ & Href & _).
    apply Href. simpl. lia.
Defined.

(** X18 on a comment line and on leading blanks. *)
Lemma blanks_and_comments_are_skipped_witness :
  GetToken strtod_digits 1 (reading (chars "# note" ++ chr "010" :: chars "x")) initial =
    GetToken strtod_digits 0 (reading (chars "x")) initial
  ∧ GetToken strtod_digits 0 (opened (chars "  x")) initial =
      GetToken strtod_digits 0 (reading (chars "x")) initial.
Proof.
  destruct (blanks_and_comments_are_skipped strtod_digits) as (Hblank & Hcomment & _).
  split.
  - apply (Hcomment 0%nat (chars " note") (chars "x") initial).
    repeat constructor; discriminate.
  - apply (Hblank 0%nat (chars "  ") (chars "x") initial).
    repeat constructor.
Defined.

(** X19 on [<1] and [<=1]. *)
Lemma operators_take_the_longest_match_witness :
  GetToken strtod_digits 0 (reading (chars "<1")) initial =
    Ok ((chr "<", reading (chars "1")), initial)
  ∧ GetToken strtod_digits 0 (reading (chars "<=1")) initial =
      Ok ((TOK_LTE, reading (chars "1")), initial).
Proof.
  destruct (operators_take_the_longest_match strtod_digits 0 (chars "1") initial)
    as (_ & _ & Hlte & _ & Hone).
  split.
  - apply (Hone (chr "<")); [reflexivity|].
    intros _. discriminate.
  - exact Hlte.
Defined.

(** X20 on the number [12], on a string, and on a string that is not closed. *)
Lemma literals_fill_the_token_buffer_witness :
  GetToken strtod_digits 0 (reading (chars "12 ")) initial =
    Ok ((TOK_NUMBER, reading (chars " ")),
        set_TokenNumber (double_of_int 12) (set_TokenBuffer "12" initial))
  ∧ GetToken strtod_digits 0 (reading (chr "034" :: chars "hi" ++ chr "034" :: [])) initial =
      Ok ((TOK_STRING, reading []), set_TokenBuffer "hi" initial)
  ∧ GetToken strtod_digits 0 (reading (chr "034" :: chars "hi")) initial =
      Fail (Undefined "TokenBuffer index out of bounds").
Proof.
  destruct (literals_fill_the_token_buffer strtod_digits 0) as (Hnum & Hstr).
  split; [|split].
  - destruct (Hnum (chr "1") (chars "2") (chars " ") initial) as (H & _).
    + reflexivity.
    + repeat constructor.
    + reflexivity.
    + apply H. simpl. lia.
  - destruct (Hstr (chars "hi") [] initial) as (H & _).
    + repeat constructor; discriminate.
    + apply H. simpl. lia.
  - destruct (Hstr (chars "hi") [] initial) as (_ & _ & H).
    + repeat constructor; discriminate.
    + exact H.
Defined.

(** X21 on the first token of [write 1]. *)
Lemma lexer_delivers_one_token_witness :
  File.GetNextToken strtod_digits 0 (opened (chars "write 1")) initial =
    Ok ((TOK_WRITE, reading (chars " 1")),
        set_CurTok TOK_WRITE (set_TokenBuffer "write" initial))
  ∧ ∃ l, tok l = TOK_WRITE
         ∧ set_CurTok TOK_WRITE (set_TokenBuffer "write" initial) =
             set_CurTok TOK_WRITE (delivered l initial)
         ∧ ∀ rest, GetNextToken (set_input (l :: rest) initial) =
                     Ok (TOK_WRITE,
                         set_input rest
                           (set_CurTok TOK_WRITE (set_TokenBuffer "write" initial))).
Proof.
  assert (File.GetNextToken strtod_digits 0 (opened (chars "write 1")) initial =
            Ok ((TOK_WRITE, reading (chars " 1")),
                set_CurTok TOK_WRITE (set_TokenBuffer "write" initial))) as H
    by reflexivity.
  split; [exact H|].
  exact (lexer_delivers_one_token _ _ _ _ _ _ _ H).
Defined.

(** X22 on [a + b * c]. *)
Lemma operators_group_by_precedence_witness :
  precedence at_plus = 4 ∧ precedence at_times = 5 ∧
  ParseBinRhs 4 0 (EXP_ID 0) at_plus =
    Ok (EXP_BINARY (EXP_ID 0) (EXP_BINARY (EXP_ID 1) (EXP_ID 2) (chr "*")) (chr "+"),
        at_end).
Proof.
  assert (precedence at_plus = 4) as P0 by (vm_compute; reflexivity).
  assert (precedence at_times = 5) as P2 by (vm_compute; reflexivity).
  assert (CurTok at_plus = chr "+") as T0 by (vm_compute; reflexivity).
  assert (CurTok at_times = chr "*") as T2 by (vm_compute; reflexivity).
  split; [exact P0|]. split; [exact P2|].
  rewrite (operators_group_by_precedence 1 (EXP_ID 0) (EXP_ID 1) (EXP_ID 2)
             at_plus at_b at_times at_c at_end TOK_IDENT TOK_IDENT).
  - rewrite P0, P2, T0, T2. reflexivity.
  - rewrite P0. lia.
  - vm_compute; reflexivity.
  - vm_compute; reflexivity.
  - rewrite P2. lia.
  - vm_compute; reflexivity.
  - vm_compute; reflexivity.
  - vm_compute; reflexivity.
Defined.

(** X23 on [{ a }]. *)
Lemma braces_accept_no_member_name_witness :
  CurTok at_brace = chr "{" ∧
  CurTok in_braces = TOK_IDENT ∧
  ParseFactor 2 at_brace =
    Fail (Fatal "Expected '}' after named member array declaration").
Proof.
  assert (CurTok at_brace = chr "{") as H1 by (vm_compute; reflexivity).
  assert (GetNextToken at_brace = Ok (TOK_IDENT, in_braces)) as H2
    by (vm_compute; reflexivity).
  assert (CurTok in_braces = TOK_IDENT) as H3 by (vm_compute; reflexivity).
  split; [exact H1|]. split; [exact H3|].
  destruct (braces_accept_no_member_name 0 at_brace TOK_IDENT in_braces H1 H2)
    as (Hname & _).
  apply Hname; rewrite H3; discriminate.
Defined.

(** X24: an [if] compiled after the code of [write 5 end]. *)
Lemma compiling_only_appends_witness :
  CompileExpr if_tree at_push = Ok (tt, machine_of (CompileExpr if_tree at_push)) ∧
  ProgramLength at_push ≤ ProgramLength (machine_of (CompileExpr if_tree at_push)) ∧
  ∀ i, i < ProgramLength at_push →
       idx (Program (machine_of (CompileExpr if_tree at_push))) i = idx (Program at_push) i.
Proof.
  assert (CompileExpr if_tree at_push = Ok (tt, machine_of (CompileExpr if_tree at_push))) as H
    by (vm_compute; reflexivity).
  split; [exact H|].
  destruct compiling_only_appends as (Hexp & _).
  exact (Hexp if_tree at_push _ H).
Defined.

(** X25 on the variable of slot 0: read before, and assigned. *)
Lemma assignment_sets_the_initialized_flag_witness :
  CompileExpr (EXP_ID 0) initial = Fail (Fatal "Attempted to use uninitialized variable") ∧
  CompileExpr (EXP_BINARY (EXP_ID 0) (EXP_NUM 0) (chr "=")) initial =
    Ok (tt, machine_of (CompileExpr (EXP_BINARY (EXP_ID 0) (EXP_NUM 0) (chr "=")) initial)) ∧
  is_initialized
    (machine_of (CompileExpr (EXP_BINARY (EXP_ID 0) (EXP_NUM 0) (chr "=")) initial)) 0.
Proof.
  destruct assignment_sets_the_initialized_flag as (Hread & _ & Hset & _).
  assert (CompileExpr (EXP_BINARY (EXP_ID 0) (EXP_NUM 0) (chr "=")) initial =
    Ok (tt, machine_of (CompileExpr (EXP_BINARY (EXP_ID 0) (EXP_NUM 0) (chr "=")) initial)))
    as H by (vm_compute; reflexivity).
  split; [|split; [exact H|]].
  - apply (Hread 0 initial no_var); vm_compute; reflexivity.
  - apply (Hset 0 (EXP_NUM 0) initial _); [discriminate | exact H].
Defined.

(** X26 on [if 0 then write 0 end end]. *)
Lemma jumps_are_patched_to_the_end_witness :
  CompileExpr if_tree initial = Ok (tt, machine_of (CompileExpr if_tree initial)) ∧
  ∃ mc, CompileExpr (EXP_NUM 0) initial = Ok (tt, mc)
        ∧ idx (Program (machine_of (CompileExpr if_tree initial))) (ProgramLength mc)
            = Some (encode OP_GOTOZ)
        ∧ immediate_at (machine_of (CompileExpr if_tree initial)) (ProgramLength mc + 1)
            = Some (ProgramLength (machine_of (CompileExpr if_tree initial)))
        ∧ ProgramLength mc + 5 ≤ ProgramLength (machine_of (CompileExpr if_tree initial)).
Proof.
  assert (CompileExpr if_tree initial = Ok (tt, machine_of (CompileExpr if_tree initial))) as H
    by (vm_compute; reflexivity).
  split; [exact H|].
  destruct jumps_are_patched_to_the_end as (_ & Hif & _).
  exact (Hif (EXP_NUM 0) [write_tree] initial _ H).
Defined.

(** X27: [CallProc] of [f] after the run of [proc f(x) return $x end  f(5)]. *)
Lemma host_call_returns_on_halt_witness :
  CallProc [] 10 20 0 0 after_run =
    Ok (tt, machine_of (CallProc [] 10 20 0 0 after_run)) ∧
  ¬ (0 ≤ ProgramCounter (machine_of (CallProc [] 10 20 0 0 after_run))
       < ProgramLength (machine_of (CallProc [] 10 20 0 0 after_run))).
Proof.
  assert (CallProc [] 10 20 0 0 after_run =
            Ok (tt, machine_of (CallProc [] 10 20 0 0 after_run))) as H
    by (vm_compute; reflexivity).
  split; [exact H|].
  destruct (host_call_returns_on_halt [] 10 20) as (_ & Hhalt & _).
  apply (Hhalt 0 0 after_run _); [lia | exact H].
Defined.

(** X28 on the call [f(0)] of procedure 0. *)
Lemma calls_reach_their_target_witness :
  CompileExpr call_tree initial = Ok (tt, machine_of (CompileExpr call_tree initial)) ∧
  ExecuteCycle [] 20
    (set_ProgramCounter (ProgramLength (machine_of (CompileExpr call_tree initial)) - 9)
       (machine_of (CompileExpr call_tree initial))) =
    (DoPushIndir (Z.of_nat (length [EXP_NUM 0])) ;;
     let* pcs := gets FunctionPcs in
     let* entry := load "FunctionPcs index out of bounds" pcs 0 in
     modify (set_ProgramCounter entry))
      (set_ProgramCounter (ProgramLength (machine_of (CompileExpr call_tree initial)))
         (machine_of (CompileExpr call_tree initial))).
Proof.
  assert (CompileExpr call_tree initial = Ok (tt, machine_of (CompileExpr call_tree initial)))
    as H by (vm_compute; reflexivity).
  split; [exact H|].
  destruct (calls_reach_their_target [] 20 0 [EXP_NUM 0] initial
              (machine_of (CompileExpr call_tree initial))) as (_ & Hcall).
  - vm_compute. split; congruence.
  - vm_compute. congruence.
  - exact H.
  - apply Hcall. lia.
Defined.

(** X29: an [if] compiled on the machine at the [ADD] of
    [x = 1  y = 2  z = 3  w = x + y], with its three objects. *)
Lemma compiling_runs_nothing_witness :
  CompileExpr if_tree at_add = Ok (tt, machine_of (CompileExpr if_tree at_add)) ∧
  run_time (machine_of (CompileExpr if_tree at_add)) = run_time at_add.
Proof.
  assert (CompileExpr if_tree at_add = Ok (tt, machine_of (CompileExpr if_tree at_add)))
    as H by (vm_compute; reflexivity).
  split; [exact H|].
  destruct compiling_runs_nothing as (Hexp & _).
  exact (Hexp if_tree at_add _ H).
Defined.

(** X30 on [return ;] at the top level. *)
Lemma return_outside_a_call_underflows_witness :
  instruction_at at_bare_return = Some OP_RETURN ∧
  IndirStackSize at_bare_return ≤ 0 ∧
  ExecuteCycle [] 20 at_bare_return = Fail (Undefined "IndirStack index out of bounds").
Proof.
  assert (instruction_at at_bare_return = Some OP_RETURN) as H1
    by (vm_compute; reflexivity).
  assert (IndirStackSize at_bare_return ≤ 0) as H2 by (vm_compute; congruence).
  split; [exact H1|]. split; [exact H2|].
  exact (return_outside_a_call_underflows [] 20 at_bare_return H1 H2).
Defined.
